(** * bioframe.arrops: interval arithmetic on numpy arrays

    A shallow embedding of [bioframe/arrops.py] (range expansion, overlap
    join, interval merging, complement, nearest neighbours) and proofs about
    these functions.

    Numeric model.  A one-dimensional numpy integer array is a [list Z]; a
    boolean array is a [list bool]; an N x 2 integer array is a list of pairs.
    Coordinate arrays are int64 arrays, and the arithmetic the code does on
    coordinates is numpy's: [ends + min_dist] in [merge_intervals] and
    [starts1 - ends2 + 1], [starts2 - ends1 + 1] in [closest_intervals] wrap
    modulo 2^64 ([int64_op]), and the distances of [closest_intervals] are
    then held as float64 ([float64_of_int]), which rounds them above 2^53.  A
    value outside the int64 range sits in no int64 array; on such values the
    model adds and subtracts exactly, as Python integers do.  Positions in
    arrays, counts of elements and the ranges that [arange_multi] expands are
    bounded by the lengths of arrays and stay far inside int64; arithmetic on
    them is exact, and so it is on the number of neighbours [k], which is
    taken as such a count, and on the values of [tie_arr], whose negation
    wraps at the int64 minimum only.  Python exceptions are a result type
    with the exception class as the error.  The warning the functions emit
    for [pandas.Series] arguments has no effect on what they return and is
    left out; arguments are arrays. *)

From Stdlib Require Import ZArith List Bool Lia Permutation Sorted.
Import ListNotations.
Open Scope Z_scope.

(** ** Exceptions *)

Inductive exn : Type := ValueError | IndexError | TypeError.

Inductive result (A : Type) : Type :=
| Ok (a : A)
| Raise (e : exn).
Arguments Ok {A} a.
Arguments Raise {A} e.

Definition bind {A B : Type} (c : result A) (k : A -> result B) : result B :=
  match c with
  | Ok a => k a
  | Raise e => Raise e
  end.

Notation "x <- c ;; k" := (bind c (fun x => k))
  (at level 61, c at next level, right associativity).

(** ** Generic list helpers *)

Section ZipWith.
Context {A B C : Type} (f : A -> B -> C).

Fixpoint zip_with (a : list A) (b : list B) : list C :=
  match a, b with
  | x :: a', y :: b' => f x y :: zip_with a' b'
  | _, _ => []
  end.
End ZipWith.

(** A stable insertion sort: an element is placed before the first element it
    is not greater than, so equal elements keep their input order. *)
Section StableSort.
Context {A : Type} (leb : A -> A -> bool).

Fixpoint insert (x : A) (l : list A) : list A :=
  match l with
  | [] => [x]
  | y :: l' => if leb x y then x :: l else y :: insert x l'
  end.

Fixpoint stable_sort (l : list A) : list A :=
  match l with
  | [] => []
  | x :: l' => insert x (stable_sort l')
  end.
End StableSort.

(** ** int64 and float64 *)

(** [np.iinfo(np.int64).max] and [np.iinfo(np.int64).min]. *)
Definition int64_max : Z := 2 ^ 63 - 1.
Definition int64_min : Z := - 2 ^ 63.

Definition in_int64 (z : Z) : bool := (int64_min <=? z) && (z <=? int64_max).

(** The int64 that numpy stores for the exact result [z]: [z] modulo 2^64. *)
Definition wrap_int64 (z : Z) : Z := (z + 2 ^ 63) mod 2 ^ 64 - 2 ^ 63.

(** An operation of numpy on two elements.  On int64 values the result
    wraps, silently; a value that no int64 holds is taken as a Python
    integer, and the operation is exact. *)
Definition int64_op (f : Z -> Z -> Z) (x y : Z) : Z :=
  if in_int64 x && in_int64 y then wrap_int64 (f x y) else f x y.

(** The float64 nearest to an integer, ties to the even mantissa; it is an
    integer itself, and [z] when [|z| < 2^53]. *)
Definition float64_of_int (z : Z) : Z :=
  let a := Z.abs z in
  if a <? 2 ^ 53 then z
  else
    let ulp := 2 ^ (Z.log2 a - 52) in
    let q := a / ulp in
    let r := a mod ulp in
    let q' := if 2 * r <? ulp then q
              else if ulp <? 2 * r then q + 1
              else if Z.even q then q else q + 1 in
    Z.sgn z * (q' * ulp).

(** ** The numpy operations the module uses *)

Module Np.

(** [np.arange(n)] and [np.arange(a, b)]. *)
Definition arange2 (a b : Z) : list Z :=
  map (fun i => a + Z.of_nat i) (seq 0 (Z.to_nat (b - a))).

Definition arange (n : Z) : list Z := arange2 0 n.

(** [np.full(n, v)]. *)
Definition full {A : Type} (n : nat) (v : A) : list A := repeat v n.

(** Element-wise binary operation on two one-dimensional arrays, with
    numpy's broadcasting: equal lengths, or one operand of length one. *)
Definition broadcast2 {A B C : Type} (f : A -> B -> C)
    (a : list A) (b : list B) : result (list C) :=
  if Nat.eqb (length a) (length b) then Ok (zip_with f a b)
  else match a, b with
       | [x], _ => Ok (map (f x) b)
       | _, [y] => Ok (map (fun x => f x y) a)
       | _, _ => Raise ValueError
       end.

Definition add (a b : list Z) : result (list Z) := broadcast2 Z.add a b.
Definition sub (a b : list Z) : result (list Z) := broadcast2 Z.sub a b.
Definition mul (a b : list Z) : result (list Z) := broadcast2 Z.mul a b.
Definition gt (a b : list Z) : result (list bool) := broadcast2 Z.gtb a b.
Definition ge (a b : list Z) : result (list bool) := broadcast2 Z.geb a b.
Definition ne (a b : list Z) : result (list bool) :=
  broadcast2 (fun x y => negb (Z.eqb x y)) a b.

(** Operations with a scalar operand. *)
Definition add_scalar (a : list Z) (c : Z) : list Z := map (fun x => x + c) a.
Definition sub_scalar (a : list Z) (c : Z) : list Z := map (fun x => x - c) a.
Definition neg (a : list Z) : list Z := map Z.opp a.
Definition minimum_scalar (c : Z) (a : list Z) : list Z := map (Z.min c) a.
Definition maximum_scalar (a : list Z) (c : Z) : list Z :=
  map (fun x => Z.max x c) a.

(** Sums and differences of coordinates, in the int64 of the arrays. *)
Definition add_scalar_int64 (a : list Z) (c : Z) : list Z :=
  map (fun x => int64_op Z.add x c) a.
Definition sub_int64 (a b : list Z) : result (list Z) :=
  broadcast2 (int64_op Z.sub) a b.

(** An int64 array where numpy needs a float64 one. *)
Definition astype_float64 (a : list Z) : list Z := map float64_of_int a.

Definition sum (a : list Z) : Z := fold_right Z.add 0 a.

(** [a.cumsum()] (the sum so far is threaded through). *)
Fixpoint cumsum_from (acc : Z) (a : list Z) : list Z :=
  match a with
  | [] => []
  | x :: a' => (acc + x) :: cumsum_from (acc + x) a'
  end.

Definition cumsum (a : list Z) : list Z := cumsum_from 0 a.

(** [np.cumsum] of a boolean array counts the [True]s. *)
Definition cumsum_bool (m : list bool) : list Z :=
  cumsum (map (fun b : bool => if b then 1 else 0) m).

(** [np.maximum.accumulate(a)]. *)
Fixpoint maximum_accumulate_from (acc : Z) (a : list Z) : list Z :=
  match a with
  | [] => []
  | x :: a' => Z.max acc x :: maximum_accumulate_from (Z.max acc x) a'
  end.

Definition maximum_accumulate (a : list Z) : list Z :=
  match a with
  | [] => []
  | x :: a' => x :: maximum_accumulate_from x a'
  end.

(** [np.repeat(a, repeats)] with an array of counts: the counts are
    broadcast to the shape of [a], and a negative count is a ValueError. *)
Definition repeat_each {A : Type} (a : list A) (reps : list Z) : list A :=
  concat (zip_with (fun x r => repeat x (Z.to_nat r)) a reps).

Definition repeat {A : Type} (a : list A) (reps : list Z) : result (list A) :=
  if forallb (fun r => 0 <=? r) reps then
    if Nat.eqb (length a) (length reps) then Ok (repeat_each a reps)
    else match reps with
         | [r] => Ok (repeat_each a (List.repeat r (length a)))
         | _ => Raise ValueError
         end
  else Raise ValueError.

(** [a[i]] for an integer [i]: negative indices count from the end. *)
Definition getitem {A : Type} (a : list A) (i : Z) : result A :=
  let n := Z.of_nat (length a) in
  let j := if i <? 0 then n + i else i in
  if (0 <=? j) && (j <? n) then
    match nth_error a (Z.to_nat j) with
    | Some x => Ok x
    | None => Raise IndexError
    end
  else Raise IndexError.

(** [a[idx]] for an integer array [idx] (fancy indexing). *)
Fixpoint take {A : Type} (a : list A) (idx : list Z) : result (list A) :=
  match idx with
  | [] => Ok []
  | i :: idx' =>
      x <- getitem a i ;;
      r <- take a idx' ;;
      Ok (x :: r)
  end.

(** [a[mask]] for a boolean array [mask] of the length of [a]. *)
Fixpoint select {A : Type} (a : list A) (mask : list bool) : list A :=
  match a, mask with
  | x :: a', b :: mask' => if b then x :: select a' mask' else select a' mask'
  | _, _ => []
  end.

Definition compress {A : Type} (a : list A) (mask : list bool)
    : result (list A) :=
  if Nat.eqb (length a) (length mask) then Ok (select a mask)
  else Raise IndexError.

(** [a[lo:hi]]; a bound is [None] when it is left out. *)
Definition clamp_index (n i : Z) : Z :=
  if i <? 0 then Z.max 0 (n + i) else Z.min i n.

Definition slice {A : Type} (a : list A) (lo hi : option Z) : list A :=
  let n := Z.of_nat (length a) in
  let l := match lo with None => 0 | Some i => clamp_index n i end in
  let h := match hi with None => n | Some i => clamp_index n i end in
  firstn (Z.to_nat (h - l)) (skipn (Z.to_nat l) a).

(** [np.where(mask)[0]]: the positions of the [True]s. *)
Fixpoint where_from (i : Z) (mask : list bool) : list Z :=
  match mask with
  | [] => []
  | b :: mask' =>
      if b then i :: where_from (i + 1) mask' else where_from (i + 1) mask'
  end.

Definition where_ (mask : list bool) : list Z := where_from 0 mask.

(** [np.searchsorted(a, v, side)] for an ascending [a], by its contract:
    ["left"] is the first position whose element is [>= v], ["right"] the
    first position whose element is [> v].  Every array the module searches
    has been sorted just before. *)
Fixpoint searchsorted_left (a : list Z) (v : Z) : Z :=
  match a with
  | [] => 0
  | x :: a' => if x <? v then 1 + searchsorted_left a' v else 0
  end.

Fixpoint searchsorted_right (a : list Z) (v : Z) : Z :=
  match a with
  | [] => 0
  | x :: a' => if x <=? v then 1 + searchsorted_right a' v else 0
  end.

(** [np.lexsort(keys)]: an indirect stable sort; the last key is the
    primary one, ties go to the key before it, and so on.  All keys must
    have one shape.  [lex_leb] takes the keys primary first. *)
Fixpoint lex_leb (keys : list (list Z)) (i j : nat) : bool :=
  match keys with
  | [] => true
  | k :: ks =>
      let a := nth i k 0 in
      let b := nth j k 0 in
      if a <? b then true else if b <? a then false else lex_leb ks i j
  end.

Definition lexsort (keys : list (list Z)) : result (list Z) :=
  match keys with
  | [] => Raise TypeError
  | k0 :: _ =>
      if forallb (fun k => Nat.eqb (length k) (length k0)) keys then
        Ok (map Z.of_nat
              (stable_sort (lex_leb (rev keys)) (seq 0 (length k0))))
      else Raise ValueError
  end.

(** [np.argsort(a)].  numpy's default sort kind does not promise the order
    of equal elements; the model takes the stable order. *)
Definition argsort (a : list Z) : result (list Z) := lexsort [a].

(** [np.vstack([a, b]).T]: two columns as an N x 2 array. *)
Definition vstack_T (a b : list Z) : result (list (Z * Z)) :=
  if Nat.eqb (length a) (length b) then Ok (combine a b)
  else Raise ValueError.

End Np.

(** ** Block spans: [_find_block_span] *)

(** The first position of a value in an array and the position after its
    last one; [block_idxs[0]] raises when the value does not occur. *)
Definition _find_block_span (arr : list Z) (val : Z) : result (Z * Z) :=
  let block_idxs := Np.where_ (map (fun x => x =? val) arr) in
  lo <- Np.getitem block_idxs 0 ;;
  last_idx <- Np.getitem block_idxs (-1) ;;
  Ok (lo, last_idx + 1).

(** ** Range Expander: [arange_multi] *)

(** [starts] is an array or, when [np.isscalar(starts)], a scalar. *)
Inductive starts_arg : Type :=
| Scalar (z : Z)
| Arr (a : list Z).

Definition arange_multi (starts : starts_arg) (stops lengths : option (list Z))
    : result (list Z) :=
  match stops, lengths with
  | None, None | Some _, Some _ => Raise ValueError
  | _, _ =>
      lengths <- match lengths, stops, starts with
                 | Some l, _, _ => Ok l
                 | None, Some s, Arr st => Np.sub s st
                 | None, Some s, Scalar z => Ok (Np.sub_scalar s z)
                 | None, None, _ => Raise ValueError
                 end ;;
      starts <- match starts, stops with
                | Arr st, _ => Ok st
                | Scalar z, Some s => Ok (Np.full (length s) z)
                | Scalar _, None => Raise TypeError
                end ;;
      cat_start <- Np.repeat starts lengths ;;
      offsets <- Np.sub (Np.cumsum lengths) lengths ;;
      rep_offsets <- Np.repeat offsets lengths ;;
      cat_counter <- Np.sub (Np.arange (Np.sum lengths)) rep_offsets ;;
      Np.add cat_start cat_counter
  end.

(** ** Assignment into arrays *)

(** [a[i] = v] for an integer [i]. *)
Fixpoint replace_nth {A : Type} (n : nat) (v : A) (a : list A) : list A :=
  match a, n with
  | [], _ => []
  | _ :: a', O => v :: a'
  | x :: a', S n' => x :: replace_nth n' v a'
  end.

Definition setitem {A : Type} (a : list A) (i : Z) (v : A) : result (list A) :=
  let n := Z.of_nat (length a) in
  let j := if i <? 0 then n + i else i in
  if (0 <=? j) && (j <? n) then Ok (replace_nth (Z.to_nat j) v a)
  else Raise IndexError.

(** [a[lo:hi] = vals]: the values must fill the slice (a single value is
    broadcast). *)
Definition set_slice {A : Type} (a : list A) (lo hi : Z) (vals : list A)
    : result (list A) :=
  let n := Z.of_nat (length a) in
  let l := Np.clamp_index n lo in
  let h := Z.max l (Np.clamp_index n hi) in
  let width := Z.to_nat (h - l) in
  let put v := firstn (Z.to_nat l) a ++ v ++ skipn (Z.to_nat h) a in
  if Nat.eqb (length vals) width then Ok (put vals)
  else match vals with
       | [v] => Ok (put (List.repeat v width))
       | _ => Raise ValueError
       end.

(** [a[idx] = vals] for an integer array [idx] of the shape of [vals]; later
    writes win. *)
Fixpoint scatter {A : Type} (a : list A) (idx : list Z) (vals : list A)
    : result (list A) :=
  match idx, vals with
  | [], [] => Ok a
  | i :: idx', v :: vals' =>
      a' <- setitem a i v ;;
      scatter a' idx' vals'
  | _, _ => Raise ValueError
  end.

(** ** Overlap Join: [overlap_intervals] *)

Definition overlap_intervals (starts1 ends1 starts2 ends2 : list Z)
    : result (list (Z * Z)) :=
  let n1 := Z.of_nat (length starts1) in
  let n2 := Z.of_nat (length starts2) in
  let starts := starts1 ++ starts2 in
  let ends := ends1 ++ ends2 in
  let ids := Np.neg (Np.arange2 1 (n1 + 1)) ++ Np.arange2 1 (n2 + 1) in
  order <- Np.lexsort [ends; starts] ;;
  starts <- Np.take starts order ;;
  ends <- Np.take ends order ;;
  ids <- Np.take ids order ;;
  let match_starts := Np.arange2 0 (n1 + n2) in
  let match_ends := map (Np.searchsorted_left starts) ends in
  match_mask <- Np.gt match_ends (Np.add_scalar match_starts 1) ;;
  match_starts <- Np.compress match_starts match_mask ;;
  match_ends <- Np.compress match_ends match_mask ;;
  owners <- Np.take ids match_starts ;;
  widths <- Np.sub match_ends match_starts ;;
  col0 <- Np.repeat owners (Np.sub_scalar widths 1) ;;
  matched <- arange_multi (Arr (Np.add_scalar match_starts 1))
               (Some match_ends) None ;;
  col1 <- Np.take ids matched ;;
  overlap_ids <- Np.vstack_T col0 col1 ;;
  prod <- Np.mul (map fst overlap_ids) (map snd overlap_ids) ;;
  overlap_ids <- Np.compress overlap_ids (map (fun x => x <=? 0) prod) ;;
  let overlap_ids :=
    map (fun p => (Z.min (fst p) (snd p), Z.max (fst p) (snd p))) overlap_ids in
  let overlap_ids :=
    map (fun p => (fst p * (-1) - 1, snd p - 1)) overlap_ids in
  order <- Np.lexsort [map snd overlap_ids; map fst overlap_ids] ;;
  Np.take overlap_ids order.

(** ** Interval Merger: [merge_intervals] *)

(** The local variables of [merge_intervals] at its [return].  [min_dist] is
    [None] for Python's [None] and [Some d] for a number [d] (the default
    is [Some 0]). *)
Record merge_locals : Type := {
  order : list Z;
  cluster_borders : list bool;
  cluster_ids_sorted : list Z;
  cluster_ids : list Z;
  cluster_starts : list Z;
  cluster_ends : list Z
}.

(** [ends[:-1] + min_dist] is a sum in the int64 of [ends]. *)
Definition merge_intervals_locals (starts ends : list Z) (min_dist : option Z)
    : result merge_locals :=
  order <- Np.lexsort [ends; starts] ;;
  starts <- Np.take starts order ;;
  ends <- Np.take ends order ;;
  let ends := Np.maximum_accumulate ends in
  let cluster_borders := Np.full (length starts + 1) false in
  cluster_borders <- setitem cluster_borders 0 true ;;
  cluster_borders <- setitem cluster_borders (-1) true ;;
  inner <- match min_dist with
           | Some d =>
               Np.gt (Np.slice starts (Some 1) None)
                     (Np.add_scalar_int64 (Np.slice ends None (Some (-1))) d)
           | None =>
               Np.ge (Np.slice starts (Some 1) None)
                     (Np.slice ends None (Some (-1)))
           end ;;
  cluster_borders <- set_slice cluster_borders 1 (-1) inner ;;
  let cluster_ids_sorted :=
    Np.sub_scalar
      (Np.slice (Np.cumsum_bool cluster_borders) None (Some (-1))) 1 in
  let cluster_ids := Np.full (length starts) (-1) in
  cluster_ids <- scatter cluster_ids order cluster_ids_sorted ;;
  cluster_starts <-
    Np.compress starts (Np.slice cluster_borders None (Some (-1))) ;;
  cluster_ends <-
    Np.compress ends (Np.slice cluster_borders (Some 1) None) ;;
  Ok {| order := order;
        cluster_borders := cluster_borders;
        cluster_ids_sorted := cluster_ids_sorted;
        cluster_ids := cluster_ids;
        cluster_starts := cluster_starts;
        cluster_ends := cluster_ends |}.

(** The function returns [cluster_ids_sorted, cluster_starts, cluster_ends]. *)
Definition merge_intervals (starts ends : list Z) (min_dist : option Z)
    : result (list Z * list Z * list Z) :=
  m <- merge_intervals_locals starts ends min_dist ;;
  Ok (cluster_ids_sorted m, cluster_starts m, cluster_ends m).

(** ** Complement Engine: [complement_intervals] *)

(** The default bounds: [(0, np.iinfo(np.int64).max)]. *)
Definition default_bounds : Z * Z := (0, int64_max).

(** [bounds] is [None] when the argument is left out. *)
Definition complement_intervals (starts ends : list Z) (bounds : option (Z * Z))
    : result (list Z * list Z) :=
  let bounds := match bounds with Some b => b | None => default_bounds end in
  m <- merge_intervals starts ends (Some 0) ;;
  let '(_, merged_starts, merged_ends) := m in
  let lo := Np.searchsorted_right merged_ends (fst bounds) in
  let hi := Np.searchsorted_left merged_starts (snd bounds) in
  let merged_starts := Np.slice merged_starts (Some lo) (Some hi) in
  let merged_ends := Np.slice merged_ends (Some lo) (Some hi) in
  let complement_starts := fst bounds :: merged_ends in
  let complement_ends := merged_starts ++ [snd bounds] in
  s0 <- Np.getitem complement_starts 0 ;;
  e0 <- Np.getitem complement_ends 0 ;;
  let lo := if s0 >=? e0 then 1 else 0 in
  sl <- Np.getitem complement_starts (-1) ;;
  el <- Np.getitem complement_ends (-1) ;;
  let hi := if sl >=? el then Some (-1) else None in
  Ok (Np.slice complement_starts (Some lo) hi,
      Np.slice complement_ends (Some lo) hi).

(** ** Nearest-Neighbor Finder *)

(** The order in which the upstream pass sorts set 2 (by end), and the order
    in which the downstream pass sorts it (by start). *)
Definition ends2_sort_order (ends2 : list Z) (tie_arr : option (list Z))
    : result (list Z) :=
  match tie_arr with
  | None => Np.argsort ends2
  | Some tie => Np.lexsort [Np.neg tie; ends2]
  end.

Definition starts2_sort_order (starts2 : list Z) (tie_arr : option (list Z))
    : result (list Z) :=
  match tie_arr with
  | None => Np.argsort starts2
  | Some tie => Np.lexsort [tie; starts2]
  end.

Definition _closest_intervals_nooverlap
    (starts1 ends1 starts2 ends2 : list Z) (tie_arr : option (list Z))
    (k_upstream k_downstream : Z)
    : result (list (Z * Z) * list (Z * Z)) :=
  let n1 := Z.of_nat (length starts1) in
  let n2 := Z.of_nat (length starts2) in
  upstream_ids <-
    (if k_upstream >? 0 then
       sort_order <- ends2_sort_order ends2 tie_arr ;;
       ids2_endsorted <- Np.take (Np.arange2 0 n2) sort_order ;;
       ends2_sorted <- Np.take ends2 sort_order ;;
       let upstream_closest_endidx :=
         map (Np.searchsorted_right ends2_sorted) starts1 in
       let upstream_closest_startidx :=
         Np.maximum_scalar (Np.sub_scalar upstream_closest_endidx k_upstream) 0 in
       widths <- Np.sub upstream_closest_endidx upstream_closest_startidx ;;
       int1_ids <- Np.repeat (Np.arange n1) widths ;;
       int2_sorted_ids <-
         arange_multi (Arr upstream_closest_startidx)
           (Some upstream_closest_endidx) None ;;
       col1 <- Np.take ids2_endsorted int2_sorted_ids ;;
       Np.vstack_T int1_ids col1
     else Ok []) ;;
  downstream_ids <-
    (if k_downstream >? 0 then
       sort_order <- starts2_sort_order starts2 tie_arr ;;
       ids2_startsorted <- Np.take (Np.arange2 0 n2) sort_order ;;
       starts2_sorted <- Np.take starts2 sort_order ;;
       let downstream_closest_startidx :=
         map (Np.searchsorted_left starts2_sorted) ends1 in
       let downstream_closest_endidx :=
         Np.minimum_scalar n2
           (Np.add_scalar downstream_closest_startidx k_downstream) in
       widths <- Np.sub downstream_closest_endidx downstream_closest_startidx ;;
       int1_ids <- Np.repeat (Np.arange n1) widths ;;
       int2_sorted_ids <-
         arange_multi (Arr downstream_closest_startidx)
           (Some downstream_closest_endidx) None ;;
       col1 <- Np.take ids2_startsorted int2_sorted_ids ;;
       Np.vstack_T int1_ids col1
     else Ok []) ;;
  Ok (upstream_ids, downstream_ids).

(** The last step of [closest_intervals]: of every run of equal first column
    in the sorted candidates, the first [k] rows at most. *)
Definition select_closest (closest_ids : list (Z * Z)) (k : Z)
    : result (list (Z * Z)) :=
  interval1_run_border_mask <-
    Np.ne (map fst (Np.slice closest_ids None (Some (-1))))
          (map fst (Np.slice closest_ids (Some 1) None)) ;;
  let interval1_run_borders :=
    Np.where_ (true :: interval1_run_border_mask ++ [true]) in
  let interval1_run_starts := Np.slice interval1_run_borders None (Some (-1)) in
  let interval1_run_ends := Np.slice interval1_run_borders (Some 1) None in
  run_lengths <- Np.sub interval1_run_ends interval1_run_starts ;;
  kept <- arange_multi (Arr interval1_run_starts) None
            (Some (Np.minimum_scalar k run_lengths)) ;;
  Np.take closest_ids kept.

(** The distances are formed in the int64 of the coordinates, and
    [np.concatenate] with the float64 zeros of [np.zeros] makes them float64
    before they are sorted. *)
Definition closest_intervals
    (starts1 ends1 starts2 ends2 : list Z) (k : Z) (tie_arr : option (list Z))
    (ignore_overlaps ignore_upstream ignore_downstream : bool)
    : result (list (Z * Z)) :=
  nooverlap <- _closest_intervals_nooverlap starts1 ends1 starts2 ends2 tie_arr
                 (if ignore_upstream then 0 else k)
                 (if ignore_downstream then 0 else k) ;;
  let '(upstream_ids, downstream_ids) := nooverlap in
  starts1_up <- Np.take starts1 (map fst upstream_ids) ;;
  ends2_up <- Np.take ends2 (map snd upstream_ids) ;;
  gaps_up <- Np.sub_int64 starts1_up ends2_up ;;
  let upstream_dists := Np.add_scalar_int64 gaps_up 1 in
  starts2_down <- Np.take starts2 (map snd downstream_ids) ;;
  ends1_down <- Np.take ends1 (map fst downstream_ids) ;;
  gaps_down <- Np.sub_int64 starts2_down ends1_down ;;
  let downstream_dists := Np.add_scalar_int64 gaps_down 1 in
  overlap_ids <-
    (if ignore_overlaps then Ok []
     else overlap_intervals starts1 ends1 starts2 ends2) ;;
  let closest_ids := upstream_ids ++ downstream_ids ++ overlap_ids in
  let closest_dists :=
    Np.astype_float64 upstream_dists ++ Np.astype_float64 downstream_dists
      ++ Np.full (length overlap_ids) 0 in
  order <- match tie_arr with
           | None =>
               Np.lexsort
                 [map snd closest_ids; closest_dists; map fst closest_ids]
           | Some tie =>
               Np.lexsort
                 [map snd closest_ids; tie; closest_dists; map fst closest_ids]
           end ;;
  closest_ids <- Np.take closest_ids order ;;
  select_closest closest_ids k.

(** ** Notions used in the statements *)

(** The relation decided by a boolean comparison. *)
Definition le_of {A : Type} (leb : A -> A -> bool) (x y : A) : Prop :=
  leb x y = true.

(** The order of [np.lexsort([ends, starts])] on (start, end) pairs. *)
Definition pair_leb (p q : Z * Z) : bool :=
  (fst p <? fst q) || ((fst p =? fst q) && (snd p <=? snd q)).

(** The intervals in the order [merge_intervals] sweeps them. *)
Definition sort_intervals (starts ends : list Z) : list (Z * Z) :=
  stable_sort pair_leb (combine starts ends).

(** The running maximum of the ends of sorted intervals. *)
Definition running_max (sorted : list (Z * Z)) : list Z :=
  Np.maximum_accumulate (map snd sorted).

(** The test [merge_intervals] makes between a start and the running maximum
    of the ends before it. *)
Definition is_border (min_dist : option Z) (start rmax : Z) : bool :=
  match min_dist with
  | Some d => start >? int64_op Z.add rmax d
  | None => start >=? rmax
  end.

(** The sweep over sorted intervals, after the first one: [rmax] is the
    running maximum so far. *)
Fixpoint inner_borders (min_dist : option Z) (rmax : Z) (l : list (Z * Z))
    : list bool :=
  match l with
  | [] => []
  | (s, e) :: l' =>
      is_border min_dist s rmax :: inner_borders min_dist (Z.max rmax e) l'
  end.

Fixpoint ids_from (min_dist : option Z) (cur rmax : Z) (l : list (Z * Z))
    : list Z :=
  match l with
  | [] => []
  | (s, e) :: l' =>
      let cur' := if is_border min_dist s rmax then cur + 1 else cur in
      cur' :: ids_from min_dist cur' (Z.max rmax e) l'
  end.

Fixpoint starts_from (min_dist : option Z) (rmax : Z) (l : list (Z * Z))
    : list Z :=
  match l with
  | [] => []
  | (s, e) :: l' =>
      if is_border min_dist s rmax
      then s :: starts_from min_dist (Z.max rmax e) l'
      else starts_from min_dist (Z.max rmax e) l'
  end.

Fixpoint ends_from (min_dist : option Z) (rmax : Z) (l : list (Z * Z))
    : list Z :=
  match l with
  | [] => [rmax]
  | (s, e) :: l' =>
      if is_border min_dist s rmax
      then rmax :: ends_from min_dist (Z.max rmax e) l'
      else ends_from min_dist (Z.max rmax e) l'
  end.

(** Cluster ids in sorted order, cluster starts and cluster ends of sorted
    intervals. *)
Definition sweep_ids (min_dist : option Z) (sorted : list (Z * Z)) : list Z :=
  match sorted with
  | [] => []
  | (_, e0) :: l => 0 :: ids_from min_dist 0 e0 l
  end.

Definition sweep_starts (min_dist : option Z) (sorted : list (Z * Z)) : list Z :=
  match sorted with
  | [] => []
  | (s0, e0) :: l => s0 :: starts_from min_dist e0 l
  end.

Definition sweep_ends (min_dist : option Z) (sorted : list (Z * Z)) : list Z :=
  match sorted with
  | [] => []
  | (_, e0) :: l => ends_from min_dist e0 l
  end.

Definition sweep_borders (min_dist : option Z) (sorted : list (Z * Z))
    : list bool :=
  match sorted with
  | [] => [true]
  | (_, e0) :: l => true :: inner_borders min_dist e0 l ++ [true]
  end.

(** Spans in ascending order of start and of end, each separated from the
    next by a border of the sweep. *)
Fixpoint separated_spans (min_dist : option Z) (q : list (Z * Z)) : Prop :=
  match q with
  | [] => True
  | (s, e) :: q' =>
      match q' with
      | [] => True
      | (s', e') :: _ => s <= s' /\ e <= e' /\ is_border min_dist s' e = true
      end /\ separated_spans min_dist q'
  end.

(** A point lies in one of the half-open intervals of a list. *)
Definition covers (l : list (Z * Z)) (x : Z) : Prop :=
  Exists (fun p => fst p <= x < snd p) l.

(** The gaps around spans that lie inside the bounds: after a span that ends
    at [e], and from the lower bound [lo] on. *)
Fixpoint tail_gaps (e : Z) (kept : list (Z * Z)) (hi : Z) : list (Z * Z) :=
  match kept with
  | [] => if e <? hi then [(e, hi)] else []
  | (s', e') :: kept' => (e, s') :: tail_gaps e' kept' hi
  end.

Definition gaps_between (lo : Z) (kept : list (Z * Z)) (hi : Z)
    : list (Z * Z) :=
  match kept with
  | [] => if lo <? hi then [(lo, hi)] else []
  | (s1, e1) :: kept' =>
      (if lo <? s1 then [(lo, s1)] else []) ++ tail_gaps e1 kept' hi
  end.

(** The length of the longest prefix on which a test holds. *)
Fixpoint prefix_len {A : Type} (f : A -> bool) (a : list A) : nat :=
  match a with
  | [] => 0
  | x :: a' => if f x then S (prefix_len f a') else 0
  end.

(** The merged spans that [complement_intervals] keeps for given bounds. *)
Definition kept_spans (spans : list (Z * Z)) (bounds : Z * Z) : list (Z * Z) :=
  let lo := prefix_len (fun p => snd p <=? fst bounds) spans in
  let hi := prefix_len (fun p => fst p <? snd bounds) spans in
  firstn (hi - lo) (skipn lo spans).

(** The intervals of both sets with their signed ids, in the joint
    (start, end) order of [overlap_intervals]. *)
Definition tag_leb (a b : Z * Z * Z) : bool := pair_leb (fst a) (fst b).

Definition signed_ids (n1 n2 : nat) : list Z :=
  Np.neg (Np.arange2 1 (Z.of_nat n1 + 1)) ++ Np.arange2 1 (Z.of_nat n2 + 1).

Definition sorted_tagged (starts1 ends1 starts2 ends2 : list Z)
    : list (Z * Z * Z) :=
  stable_sort tag_leb
    (combine (combine (starts1 ++ starts2) (ends1 ++ ends2))
       (signed_ids (length starts1) (length starts2))).

(** The signed id at a sorted position. *)
Definition tag_at (tagged : list (Z * Z * Z)) (i : Z) : Z :=
  nth (Z.to_nat i) (map snd tagged) 0.

(** [match_ends] for one sorted interval: the number of sorted starts below
    its end. *)
Definition match_end (tagged : list (Z * Z * Z)) (t : Z * Z * Z) : Z :=
  Z.of_nat (prefix_len (fun t' => fst (fst t') <? snd (fst t)) tagged).

(** The pairs (position, match end) that pass [match_mask]. *)
Definition match_ranges (tagged : list (Z * Z * Z)) : list (Z * Z) :=
  filter (fun pm => snd pm >? fst pm + 1)
    (combine (Np.arange2 0 (Z.of_nat (length tagged)))
       (map (match_end tagged) tagged)).

(** The rows of [overlap_ids] before same-set rows are dropped. *)
Definition raw_overlaps (tagged : list (Z * Z * Z)) : list (Z * Z) :=
  concat
    (map (fun pm =>
            map (fun q => (tag_at tagged (fst pm), tag_at tagged q))
              (Np.arange2 (fst pm + 1) (snd pm)))
       (match_ranges tagged)).

Definition cross_set (p : Z * Z) : bool := fst p * snd p <=? 0.

(** A row of signed ids turned into (index in set 1, index in set 2). *)
Definition decode_pair (p : Z * Z) : Z * Z :=
  (Z.min (fst p) (snd p) * -1 - 1, Z.max (fst p) (snd p) - 1).

(** The runs of equal first column in the sorted candidates, as pairs of
    (first row, row after the last): [b] is where the current run began, [i]
    the position after the row [r0] just passed. *)
Fixpoint runs_from (b i : Z) (r0 : Z * Z) (c : list (Z * Z)) : list (Z * Z) :=
  match c with
  | [] => [(b, i)]
  | r1 :: c' =>
      if negb (fst r0 =? fst r1)
      then (b, i) :: runs_from i (i + 1) r1 c'
      else runs_from b (i + 1) r1 c'
  end.

(** The rows that survive the selection of up to [k] per run: [cur] is the
    first column of the current run and [seen] the number of its rows passed
    so far. *)
Fixpoint keep_upto (k : nat) (cur : Z) (seen : nat) (c : list (Z * Z))
    : list (Z * Z) :=
  match c with
  | [] => []
  | r :: c' =>
      if fst r =? cur
      then if (seen <? k)%nat
           then r :: keep_upto k cur (S seen) c'
           else keep_upto k cur (S seen) c'
      else firstn k [r] ++ keep_upto k (fst r) 1 c'
  end.

Definition survivors (k : nat) (c : list (Z * Z)) : list (Z * Z) :=
  match c with
  | [] => []
  | r0 :: c' => firstn k [r0] ++ keep_upto k (fst r0) 1 c'
  end.

(** Ascending in the first component, then descending in the second. *)
Definition asc_desc (p q : Z * Z) : Prop :=
  fst p < fst q \/ (fst p = fst q /\ snd q <= snd p).

(** Ascending in the first component, then ascending in the second. *)
Definition asc_asc (p q : Z * Z) : Prop :=
  fst p < fst q \/ (fst p = fst q /\ snd p <= snd q).

(** The sorted positions [lo, hi) of set 2 that the upstream pass takes for
    an interval of set 1 that starts at [start1], and those the downstream
    pass takes for one that ends at [end1]. *)
Definition upstream_range (ends2_sorted : list Z) (k start1 : Z) : Z * Z :=
  let hi := Np.searchsorted_right ends2_sorted start1 in
  (Z.max (hi - k) 0, hi).

Definition downstream_range (starts2_sorted : list Z) (k end1 : Z) : Z * Z :=
  let lo := Np.searchsorted_left starts2_sorted end1 in
  (lo, Z.min (Z.of_nat (length starts2_sorted)) (lo + k)).

(** The rows of a pass: for every interval of set 1, in order, the ids of
    set 2 at the sorted positions of its range. *)
Definition pass_rows (ids2_sorted : list Z) (ranges : list (Z * Z))
    : list (Z * Z) :=
  concat
    (map (fun ir : Z * (Z * Z) =>
            map (fun q => (fst ir, nth (Z.to_nat q) ids2_sorted 0))
              (Np.arange2 (fst (snd ir)) (snd (snd ir))))
       (combine (Np.arange2 0 (Z.of_nat (length ranges))) ranges)).

(** The rows of an N x 2 array whose first column is [i]. *)
Definition rows_for (i : Z) (rows : list (Z * Z)) : list (Z * Z) :=
  filter (fun r => fst r =? i) rows.

(** The order of the final sort of [closest_intervals] without [tie_arr], on
    candidate rows with their distance: by id in set 1, then by distance,
    then by id in set 2. *)
Definition cand_leb (x y : Z * Z * Z) : bool :=
  if fst (fst x) <? fst (fst y) then true
  else if fst (fst y) <? fst (fst x) then false
  else if snd x <? snd y then true
  else if snd y <? snd x then false
  else snd (fst x) <=? snd (fst y).

(** Whether interval [i] of set 1 and interval [j] of set 2 overlap, and the
    distance between them: 0 when they overlap, else one more than the gap
    between the two intervals.  [closest_intervals] ranks a pair by this
    distance where it computes it exactly ([float_distance]). *)
Definition overlaps (starts1 ends1 starts2 ends2 : list Z) (i j : Z) : bool :=
  (nth (Z.to_nat i) starts1 0 <? nth (Z.to_nat j) ends2 0)
  && (nth (Z.to_nat j) starts2 0 <? nth (Z.to_nat i) ends1 0).

Definition distance (starts1 ends1 starts2 ends2 : list Z) (i j : Z) : Z :=
  if overlaps starts1 ends1 starts2 ends2 i j then 0
  else if nth (Z.to_nat j) ends2 0 <=? nth (Z.to_nat i) starts1 0
       then nth (Z.to_nat i) starts1 0 - nth (Z.to_nat j) ends2 0 + 1
       else nth (Z.to_nat j) starts2 0 - nth (Z.to_nat i) ends1 0 + 1.

(** A pair that [closest_intervals] may report: an interval of set 1 with
    an interval of set 2 that overlaps it, ends at or before its start
    (upstream) or starts at or after its end (downstream), as far as the
    three kinds are not ignored. *)
Definition candidate (starts1 ends1 starts2 ends2 : list Z)
    (ignore_overlaps ignore_upstream ignore_downstream : bool) (i j : Z) : Prop :=
  0 <= i < Z.of_nat (length starts1)
  /\ 0 <= j < Z.of_nat (length starts2)
  /\ ((ignore_overlaps = false
       /\ overlaps starts1 ends1 starts2 ends2 i j = true)
      \/ (ignore_upstream = false
          /\ nth (Z.to_nat j) ends2 0 <= nth (Z.to_nat i) starts1 0)
      \/ (ignore_downstream = false
          /\ nth (Z.to_nat i) ends1 0 <= nth (Z.to_nat j) starts2 0)).

(** The ends, [min_dist] and every sum [end + min_dist] are int64 values:
    no sum leaves int64, and the border test of [merge_intervals] compares
    the exact sums. *)
Definition sums_in_int64 (ends : list Z) (min_dist : option Z) : Prop :=
  match min_dist with
  | Some d =>
      int64_min <= d <= int64_max
      /\ Forall (fun e => int64_min <= e <= int64_max
                          /\ int64_min <= e + d <= int64_max) ends
  | None => True
  end.

(** The distance [closest_intervals] computes from a start and the end at or
    before it: the int64 [start - end + 1], made a float64. *)
Definition float_distance (s e : Z) : Z :=
  float64_of_int (int64_op Z.add (int64_op Z.sub s e) 1).

(** Coordinates whose differences stay below 2^53 in size: int64 does not
    wrap on them and float64 holds them exactly. *)
Definition exact_coordinates (coords : list Z) : Prop :=
  Forall (fun x => Z.abs x < 2 ^ 52) coords.

(** * Proofs *)

(** Weakening a [Forall] by linear arithmetic. *)
Ltac weaken_forall H := eapply Forall_impl; [|exact H]; simpl; intros; lia.

(** ** Element-wise operations *)

Lemma zip_with_length {A B C : Type} (f : A -> B -> C) (a : list A) (b : list B) :
  length a = length b -> length (zip_with f a b) = length a.
Proof.
  revert b; induction a as [|x a IH]; intros [|y b] H; simpl in *; try discriminate; auto.
Qed.

Lemma zip_with_app {A B C : Type} (f : A -> B -> C) (a1 a2 : list A) (b1 b2 : list B) :
  length a1 = length b1 ->
  zip_with f (a1 ++ a2) (b1 ++ b2) = zip_with f a1 b1 ++ zip_with f a2 b2.
Proof.
  revert b1; induction a1 as [|x a1 IH]; intros [|y b1] H; simpl in *; try discriminate; auto.
  f_equal; auto.
Qed.

Lemma broadcast2_same_length {A B C : Type} (f : A -> B -> C) (a : list A) (b : list B) :
  length a = length b -> Np.broadcast2 f a b = Ok (zip_with f a b).
Proof.
  intros H. unfold Np.broadcast2. rewrite H, Nat.eqb_refl. reflexivity.
Qed.

Lemma repeat_same_length {A : Type} (a : list A) (reps : list Z) :
  length a = length reps -> Forall (fun r => 0 <= r) reps ->
  Np.repeat a reps = Ok (Np.repeat_each a reps).
Proof.
  intros H Hr. unfold Np.repeat.
  replace (forallb (fun r => 0 <=? r) reps) with true.
  - rewrite H, Nat.eqb_refl. reflexivity.
  - symmetry. apply forallb_forall. intros r Hin.
    rewrite Forall_forall in Hr. apply Z.leb_le. auto.
Qed.

Lemma repeat_each_cons {A : Type} (x : A) (a : list A) (r : Z) (reps : list Z) :
  Np.repeat_each (x :: a) (r :: reps) = List.repeat x (Z.to_nat r) ++ Np.repeat_each a reps.
Proof. reflexivity. Qed.

Lemma repeat_each_length {A : Type} (a : list A) (reps : list Z) :
  length a = length reps -> Forall (fun r => 0 <= r) reps ->
  Z.of_nat (length (Np.repeat_each a reps)) = Np.sum reps.
Proof.
  revert reps; induction a as [|x a IH]; intros [|r reps] H Hr; simpl in *; try discriminate; auto.
  inversion Hr; subst.
  rewrite repeat_each_cons, length_app, repeat_length, Nat2Z.inj_add, IH by auto.
  lia.
Qed.

Lemma sum_nonneg (l : list Z) : Forall (fun r => 0 <= r) l -> 0 <= Np.sum l.
Proof. induction 1; simpl; lia. Qed.

Lemma arange2_length (a b : Z) : length (Np.arange2 a b) = Z.to_nat (b - a).
Proof. unfold Np.arange2. rewrite length_map, length_seq. reflexivity. Qed.

Lemma arange2_nil (a b : Z) : b <= a -> Np.arange2 a b = [].
Proof.
  intros H. unfold Np.arange2. replace (Z.to_nat (b - a)) with 0%nat by lia. reflexivity.
Qed.

Lemma arange2_cons (a b : Z) : a < b -> Np.arange2 a b = a :: Np.arange2 (a + 1) b.
Proof.
  intros H. unfold Np.arange2.
  replace (Z.to_nat (b - a)) with (S (Z.to_nat (b - (a + 1)))) by lia.
  simpl. f_equal; [lia|].
  rewrite <- seq_shift, map_map. apply map_ext. intros; lia.
Qed.

Lemma arange2_app (a b c : Z) :
  a <= b -> b <= c -> Np.arange2 a c = Np.arange2 a b ++ Np.arange2 b c.
Proof.
  intros Hab Hbc. unfold Np.arange2.
  replace (Z.to_nat (c - a)) with (Z.to_nat (b - a) + Z.to_nat (c - b))%nat by lia.
  rewrite seq_app, map_app. f_equal.
  simpl. rewrite <- (Nat.add_0_r (Z.to_nat (b - a))) at 1.
  generalize (Z.to_nat (c - b)) as n. generalize 0%nat as k.
  intros k n. revert k. induction n as [|n IH]; intros k; simpl; auto.
  f_equal; [lia|].
  replace (S (Z.to_nat (b - a) + k)) with (Z.to_nat (b - a) + S k)%nat by lia.
  apply IH.
Qed.

(** ** Range Expander *)

Lemma counter_plus_start_nat (n : nat) (s a off : Z) :
  zip_with Z.add (List.repeat s n)
    (zip_with Z.sub (Np.arange2 a (a + Z.of_nat n)) (List.repeat off n))
  = Np.arange2 (s + a - off) (s + a - off + Z.of_nat n).
Proof.
  revert a; induction n as [|n IH]; intros a.
  - rewrite !arange2_nil by lia. reflexivity.
  - rewrite (arange2_cons a), (arange2_cons (s + a - off)) by lia.
    cbn [List.repeat zip_with]. f_equal; [lia|].
    replace (a + Z.of_nat (S n)) with (a + 1 + Z.of_nat n) by lia.
    rewrite IH. f_equal; lia.
Qed.

Lemma counter_plus_start (s off l : Z) :
  0 <= l ->
  zip_with Z.add (List.repeat s (Z.to_nat l))
    (zip_with Z.sub (Np.arange2 off (off + l)) (List.repeat off (Z.to_nat l)))
  = Np.arange2 s (s + l).
Proof.
  intros Hl. pose proof (counter_plus_start_nat (Z.to_nat l) s off off) as H.
  rewrite Z2Nat.id in H by lia. rewrite H. f_equal; lia.
Qed.

Lemma arange_multi_pure (starts lens : list Z) (off : Z) :
  length starts = length lens -> Forall (fun r => 0 <= r) lens ->
  zip_with Z.add (Np.repeat_each starts lens)
    (zip_with Z.sub (Np.arange2 off (off + Np.sum lens))
       (Np.repeat_each (zip_with Z.sub (Np.cumsum_from off lens) lens) lens))
  = concat (zip_with (fun s l => Np.arange2 s (s + l)) starts lens).
Proof.
  revert lens off; induction starts as [|s starts IH]; intros [|l lens] off H Hl;
    simpl in H; try discriminate.
  - reflexivity.
  - inversion Hl as [|? ? Hl0 Hl']; subst.
    pose proof (sum_nonneg _ Hl') as Hs.
    cbn [Np.cumsum_from zip_with Np.sum fold_right concat].
    rewrite !repeat_each_cons.
    fold (Np.sum lens).
    rewrite (arange2_app off (off + l)) by lia.
    replace (off + l - l) with off by lia.
    rewrite (zip_with_app Z.sub), (zip_with_app Z.add).
    + rewrite counter_plus_start by lia. f_equal.
      replace (off + (l + Np.sum lens)) with (off + l + Np.sum lens) by lia.
      apply IH; auto.
    + rewrite zip_with_length; rewrite ?repeat_length, ?arange2_length; lia.
    + rewrite repeat_length, arange2_length; lia.
Qed.

Lemma cumsum_from_length (acc : Z) (l : list Z) : length (Np.cumsum_from acc l) = length l.
Proof. revert acc; induction l; intros; simpl; auto. Qed.

Lemma arange_multi_lengths (starts lens : list Z) :
  length starts = length lens -> Forall (fun r => 0 <= r) lens ->
  arange_multi (Arr starts) None (Some lens)
  = Ok (concat (zip_with (fun s l => Np.arange2 s (s + l)) starts lens)).
Proof.
  intros H Hl. unfold arange_multi. cbn [bind].
  pose proof (sum_nonneg _ Hl) as Hs.
  assert (Hoff : length (zip_with Z.sub (Np.cumsum lens) lens) = length lens).
  { rewrite zip_with_length; unfold Np.cumsum; rewrite cumsum_from_length; auto. }
  rewrite repeat_same_length by auto. cbn [bind].
  unfold Np.sub, Np.add.
  rewrite broadcast2_same_length by (unfold Np.cumsum; apply cumsum_from_length). cbn [bind].
  rewrite repeat_same_length by auto. cbn [bind].
  assert (Hc : length (Np.arange (Np.sum lens))
               = length (Np.repeat_each (zip_with Z.sub (Np.cumsum lens) lens) lens)).
  { apply Nat2Z.inj. rewrite repeat_each_length by auto.
    unfold Np.arange. rewrite arange2_length. lia. }
  rewrite broadcast2_same_length by exact Hc. cbn [bind].
  rewrite broadcast2_same_length.
  - f_equal. unfold Np.arange, Np.cumsum.
    rewrite <- (arange_multi_pure starts lens 0) by auto. reflexivity.
  - rewrite zip_with_length by exact Hc.
    apply Nat2Z.inj. rewrite repeat_each_length by auto.
    unfold Np.arange. rewrite arange2_length. lia.
Qed.

Lemma zip_with_sub_nonneg (stops starts : list Z) :
  Forall2 Z.le starts stops -> Forall (fun r => 0 <= r) (zip_with Z.sub stops starts).
Proof. induction 1; simpl; constructor; auto; lia. Qed.

Lemma Forall2_same_length {A B : Type} (R : A -> B -> Prop) (a : list A) (b : list B) :
  Forall2 R a b -> length a = length b.
Proof. induction 1; simpl; auto. Qed.

Lemma arange_multi_stops (starts stops : list Z) :
  Forall2 Z.le starts stops ->
  arange_multi (Arr starts) (Some stops) None
  = Ok (concat (zip_with Np.arange2 starts stops)).
Proof.
  intros H. pose proof (Forall2_same_length _ _ _ H) as Hlen.
  pose proof (arange_multi_lengths starts (zip_with Z.sub stops starts)) as HL.
  rewrite zip_with_length in HL by auto.
  specialize (HL Hlen (zip_with_sub_nonneg _ _ H)).
  unfold arange_multi in *. cbn [bind] in *.
  unfold Np.sub at 1. rewrite broadcast2_same_length by auto. cbn [bind].
  rewrite HL. f_equal. f_equal. clear HL Hlen.
  induction H; simpl; auto. f_equal; auto. f_equal; lia.
Qed.

Lemma arange2_In (a b x : Z) : In x (Np.arange2 a b) <-> a <= x < b.
Proof.
  unfold Np.arange2. rewrite in_map_iff. split.
  - intros [i [<- Hi]]. apply in_seq in Hi. lia.
  - intros H. exists (Z.to_nat (x - a)). split; [lia|]. apply in_seq. lia.
Qed.

Lemma arange_multi_scalar (start : Z) (stops : list Z) :
  Forall (fun e => start <= e) stops ->
  arange_multi (Scalar start) (Some stops) None
  = Ok (concat (map (Np.arange2 start) stops)).
Proof.
  intros H.
  transitivity (arange_multi (Arr (Np.full (length stops) start)) None
                  (Some (Np.sub_scalar stops start))); [reflexivity|].
  rewrite arange_multi_lengths.
  - f_equal. f_equal. unfold Np.full, Np.sub_scalar. clear H.
    induction stops as [|e stops IH]; simpl; auto.
    rewrite IH. f_equal. f_equal. lia.
  - unfold Np.full, Np.sub_scalar. rewrite repeat_length, length_map. reflexivity.
  - unfold Np.sub_scalar. apply Forall_map.
    eapply Forall_impl; [|exact H]. simpl. intros; lia.
Qed.

(** C8, as the code has it.  [arange_multi] raises ValueError when both or
    neither of [stops] and [lengths] are given.  Given exactly one of them,
    with as many starts as lengths and no negative length (no stop below its
    start), it returns the ranges [start_i, start_i + length_i) one after the
    other in group order; a group of length zero adds nothing.  A scalar
    start is used for every stop. *)
Theorem arange_multi_contract :
  (forall starts stops lengths,
      arange_multi starts (Some stops) (Some lengths) = Raise ValueError)
  /\ (forall starts, arange_multi starts None None = Raise ValueError)
  /\ (forall starts lengths,
        length starts = length lengths ->
        Forall (fun l => 0 <= l) lengths ->
        arange_multi (Arr starts) None (Some lengths)
        = Ok (concat (zip_with (fun s l => Np.arange2 s (s + l)) starts lengths)))
  /\ (forall starts stops,
        Forall2 Z.le starts stops ->
        arange_multi (Arr starts) (Some stops) None
        = Ok (concat (zip_with Np.arange2 starts stops)))
  /\ (forall start stops,
        Forall (fun e => start <= e) stops ->
        arange_multi (Scalar start) (Some stops) None
        = Ok (concat (map (Np.arange2 start) stops)))
  /\ (forall a b x, In x (Np.arange2 a b) <-> a <= x < b)
  /\ (forall s, Np.arange2 s (s + 0) = []).
Proof.
  split; [reflexivity|].
  split; [reflexivity|].
  split; [exact arange_multi_lengths|].
  split; [exact arange_multi_stops|].
  split; [exact arange_multi_scalar|].
  split; [exact arange2_In|].
  intros s. apply arange2_nil. lia.
Qed.

Lemma arange_multi_contract_witness :
  Forall2 Z.le [1; 3; 4; 6] [1; 5; 7; 6]
  /\ arange_multi (Arr [1; 3; 4; 6]) (Some [1; 5; 7; 6]) None = Ok [3; 4; 4; 5; 6]
  /\ length [1; 3; 4; 6] = length [0; 2; 3; 0]
  /\ Forall (fun l => 0 <= l) [0; 2; 3; 0]
  /\ arange_multi (Arr [1; 3; 4; 6]) None (Some [0; 2; 3; 0]) = Ok [3; 4; 4; 5; 6]
  /\ Forall (fun e => 2 <= e) [3; 5]
  /\ arange_multi (Scalar 2) (Some [3; 5]) None = Ok [2; 2; 3; 4].
Proof.
  assert (H : Forall2 Z.le [1; 3; 4; 6] [1; 5; 7; 6]) by (repeat constructor; lia).
  assert (Hl : Forall (fun l => 0 <= l) [0; 2; 3; 0]) by (repeat constructor; lia).
  assert (Hs : Forall (fun e => 2 <= e) [3; 5]) by (repeat constructor; lia).
  destruct arange_multi_contract as [_ [_ [C3 [C4 [C5 _]]]]].
  split; [exact H|]. split; [exact (C4 _ _ H)|].
  split; [reflexivity|]. split; [exact Hl|].
  split; [exact (C3 [1; 3; 4; 6] [0; 2; 3; 0] eq_refl Hl)|].
  split; [exact Hs|]. exact (C5 2 [3; 5] Hs).
Defined.

(** C8, as stated, fails: with exactly one of [stops] and [lengths] given the
    call still raises ValueError when a length is negative, as
    [np.repeat] refuses negative counts. *)
Lemma arange_multi_negative_length :
  arange_multi (Arr [5]) (Some [3]) None = Raise ValueError
  /\ arange_multi (Arr [5]) None (Some [-2]) = Raise ValueError.
Proof. split; reflexivity. Qed.

(** A scalar start goes with [stops] only: with [lengths] the code takes
    [len(stops)] of no [stops]. *)
Lemma arange_multi_scalar_lengths :
  arange_multi (Scalar 0) None (Some [2; 3]) = Raise TypeError.
Proof. reflexivity. Qed.

(** ** The stable sort *)

Section StableSortFacts.
Context {A : Type} (leb : A -> A -> bool).

Lemma insert_perm (x : A) (l : list A) : Permutation (insert leb x l) (x :: l).
Proof.
  induction l as [|y l IH]; simpl; auto.
  destruct (leb x y); auto.
  eapply perm_trans; [apply perm_skip, IH | apply perm_swap].
Qed.

Lemma stable_sort_perm (l : list A) : Permutation (stable_sort leb l) l.
Proof.
  induction l as [|x l IH]; simpl; auto.
  eapply perm_trans; [apply insert_perm | apply perm_skip, IH].
Qed.

Lemma stable_sort_length (l : list A) : length (stable_sort leb l) = length l.
Proof. apply Permutation_length, stable_sort_perm. Qed.

Hypothesis leb_total : forall x y, leb x y = true \/ leb y x = true.
Hypothesis leb_trans : forall x y z, leb x y = true -> leb y z = true -> leb x z = true.

Lemma insert_sorted (x : A) (l : list A) :
  StronglySorted (le_of leb) l -> StronglySorted (le_of leb) (insert leb x l).
Proof.
  induction 1 as [|y l Hs IH Hy]; simpl.
  - constructor; constructor.
  - destruct (leb x y) eqn:E.
    + constructor; [constructor; auto|].
      constructor; [exact E|].
      rewrite Forall_forall in *. intros z Hz. eapply leb_trans; [exact E|]. apply Hy, Hz.
    + constructor; auto.
      rewrite Forall_forall in *. intros z Hz.
      apply (Permutation_in _ (insert_perm x l)) in Hz. destruct Hz as [<-|Hz].
      * destruct (leb_total x y) as [H|H]; [congruence|exact H].
      * apply Hy, Hz.
Qed.

Lemma stable_sort_sorted (l : list A) : StronglySorted (le_of leb) (stable_sort leb l).
Proof.
  induction l as [|x l IH]; simpl; [constructor|]. apply insert_sorted, IH.
Qed.

End StableSortFacts.

Lemma stable_sort_id {A : Type} (leb : A -> A -> bool) (l : list A) :
  Sorted (le_of leb) l -> stable_sort leb l = l.
Proof.
  induction 1 as [|x l Hs IH Hx]; simpl; auto.
  rewrite IH. destruct Hx as [|y l' Hxy]; simpl; auto.
  unfold le_of in Hxy. rewrite Hxy. reflexivity.
Qed.

Lemma insert_ext {A : Type} (leb1 leb2 : A -> A -> bool) (x : A) (l : list A) :
  (forall a b, leb1 a b = leb2 a b) -> insert leb1 x l = insert leb2 x l.
Proof.
  intros H. induction l as [|y l IH]; simpl; auto. rewrite H, IH. reflexivity.
Qed.

Lemma stable_sort_ext {A : Type} (leb1 leb2 : A -> A -> bool) (l : list A) :
  (forall a b, leb1 a b = leb2 a b) -> stable_sort leb1 l = stable_sort leb2 l.
Proof.
  intros H. induction l as [|x l IH]; simpl; auto.
  rewrite IH. apply insert_ext, H.
Qed.

Lemma insert_map {A B : Type} (f : A -> B) (leb : B -> B -> bool) (x : A) (l : list A) :
  map f (insert (fun a b => leb (f a) (f b)) x l) = insert leb (f x) (map f l).
Proof.
  induction l as [|y l IH]; simpl; auto.
  destruct (leb (f x) (f y)); simpl; auto. rewrite IH. reflexivity.
Qed.

Lemma stable_sort_map {A B : Type} (f : A -> B) (leb : B -> B -> bool) (l : list A) :
  map f (stable_sort (fun a b => leb (f a) (f b)) l) = stable_sort leb (map f l).
Proof.
  induction l as [|x l IH]; simpl; auto.
  rewrite insert_map, IH. reflexivity.
Qed.

(** ** Indexing *)

Lemma getitem_nat {A : Type} (a : list A) (i : nat) (d : A) :
  (i < length a)%nat -> Np.getitem a (Z.of_nat i) = Ok (nth i a d).
Proof.
  intros H. unfold Np.getitem.
  destruct (Z.of_nat i <? 0) eqn:E; [apply Z.ltb_lt in E; lia|].
  replace ((0 <=? Z.of_nat i) && (Z.of_nat i <? Z.of_nat (length a))) with true
    by (symmetry; apply andb_true_iff; split; [apply Z.leb_le | apply Z.ltb_lt]; lia).
  rewrite Nat2Z.id.
  destruct (nth_error a i) eqn:E'.
  - f_equal. symmetry. apply nth_error_nth. exact E'.
  - apply nth_error_None in E'. lia.
Qed.

Lemma take_nat {A : Type} (a : list A) (idx : list nat) (d : A) :
  Forall (fun i => (i < length a)%nat) idx ->
  Np.take a (map Z.of_nat idx) = Ok (map (fun i => nth i a d) idx).
Proof.
  induction 1 as [|i idx Hi _ IH]; simpl; auto.
  rewrite (getitem_nat a i d Hi), IH. reflexivity.
Qed.

(** ** Lexicographic sorting of intervals *)

Lemma pair_leb_spec (p q : Z * Z) :
  pair_leb p q = true <-> fst p < fst q \/ (fst p = fst q /\ snd p <= snd q).
Proof.
  unfold pair_leb. rewrite orb_true_iff, andb_true_iff, Z.ltb_lt, Z.eqb_eq, Z.leb_le.
  tauto.
Qed.

Lemma pair_leb_total (p q : Z * Z) : pair_leb p q = true \/ pair_leb q p = true.
Proof. rewrite !pair_leb_spec. lia. Qed.

Lemma pair_leb_trans (p q r : Z * Z) :
  pair_leb p q = true -> pair_leb q r = true -> pair_leb p r = true.
Proof. rewrite !pair_leb_spec. lia. Qed.

Lemma lex_leb_pair (k1 k2 : list Z) (i j : nat) :
  Np.lex_leb [k1; k2] i j = pair_leb (nth i k1 0, nth i k2 0) (nth j k1 0, nth j k2 0).
Proof.
  unfold Np.lex_leb, pair_leb. simpl.
  destruct (Z.ltb_spec (nth i k1 0) (nth j k1 0)); simpl; auto.
  destruct (Z.ltb_spec (nth j k1 0) (nth i k1 0)); simpl.
  - destruct (Z.eqb_spec (nth i k1 0) (nth j k1 0)); simpl; auto. lia.
  - destruct (Z.eqb_spec (nth i k1 0) (nth j k1 0)); simpl; [|lia].
    destruct (Z.ltb_spec (nth i k2 0) (nth j k2 0)); simpl.
    + symmetry; apply Z.leb_le; lia.
    + destruct (Z.ltb_spec (nth j k2 0) (nth i k2 0)); symmetry.
      * apply Z.leb_gt; lia.
      * apply Z.leb_le; lia.
Qed.

(** ** Slices *)

Lemma slice_from_1 {A : Type} (a : list A) : Np.slice a (Some 1) None = tl a.
Proof.
  unfold Np.slice, Np.clamp_index. change (1 <? 0) with false. cbv iota.
  destruct a as [|x a]; [reflexivity|].
  cbn [tl]. replace (Z.to_nat (Z.min 1 (Z.of_nat (length (x :: a))))) with 1%nat
    by (simpl length; lia).
  cbn [skipn]. rewrite firstn_all2; auto. simpl length. lia.
Qed.

Lemma firstn_pred_removelast {A : Type} (a : list A) :
  firstn (length a - 1) a = removelast a.
Proof.
  induction a as [|x a IH]; [reflexivity|].
  destruct a as [|y a]; [reflexivity|].
  replace (length (x :: y :: a) - 1)%nat with (S (length (y :: a) - 1)) by (simpl; lia).
  cbn [firstn]. rewrite IH. reflexivity.
Qed.

Lemma slice_to_m1 {A : Type} (a : list A) : Np.slice a None (Some (-1)) = removelast a.
Proof.
  unfold Np.slice, Np.clamp_index. change (-1 <? 0) with true. cbv iota.
  change (Z.to_nat 0) with 0%nat. cbn [skipn].
  rewrite <- firstn_pred_removelast. f_equal. lia.
Qed.

Lemma slice_nat {A : Type} (a : list A) (lo hi : nat) :
  Np.slice a (Some (Z.of_nat lo)) (Some (Z.of_nat hi))
  = firstn (hi - lo) (skipn lo a).
Proof.
  unfold Np.slice, Np.clamp_index.
  destruct (Z.ltb_spec (Z.of_nat lo) 0); [lia|].
  destruct (Z.ltb_spec (Z.of_nat hi) 0); [lia|].
  replace (Z.to_nat (Z.min (Z.of_nat hi) (Z.of_nat (length a))
                     - Z.min (Z.of_nat lo) (Z.of_nat (length a))))
    with (Nat.min hi (length a) - Nat.min lo (length a))%nat by lia.
  replace (Z.to_nat (Z.min (Z.of_nat lo) (Z.of_nat (length a))))
    with (Nat.min lo (length a)) by lia.
  destruct (Nat.le_gt_cases lo (length a)) as [Hlo|Hlo].
  - rewrite (Nat.min_l lo) by lia.
    destruct (Nat.le_gt_cases hi (length a)) as [Hhi|Hhi].
    + rewrite Nat.min_l by lia. reflexivity.
    + rewrite Nat.min_r by lia.
      rewrite !firstn_all2; auto; rewrite length_skipn; lia.
  - rewrite (Nat.min_r lo) by lia.
    rewrite !skipn_all2 by lia. rewrite firstn_nil. symmetry. apply firstn_nil.
Qed.

(** ** The sweep of [merge_intervals] *)

Lemma lexsort_pair (minor major : list Z) :
  length minor = length major ->
  Np.lexsort [minor; major]
  = Ok (map Z.of_nat (stable_sort (Np.lex_leb [major; minor]) (seq 0 (length minor)))).
Proof.
  intros H. unfold Np.lexsort. cbn [forallb rev app].
  rewrite <- H, Nat.eqb_refl. reflexivity.
Qed.

Lemma sorted_indices_bound {A : Type} (leb : nat -> nat -> bool) (n : nat) :
  Forall (fun i => (i < n)%nat) (stable_sort leb (seq 0 n)).
Proof.
  apply Forall_forall. intros i Hi.
  apply (Permutation_in _ (stable_sort_perm leb (seq 0 n))) in Hi.
  apply in_seq in Hi. lia.
Qed.

Lemma combine_nth_seq (a b : list Z) :
  length a = length b ->
  map (fun i => (nth i a 0, nth i b 0)) (seq 0 (length a)) = combine a b.
Proof.
  revert b; induction a as [|x a IH]; intros [|y b] H; simpl in *; try discriminate; auto.
  f_equal. rewrite <- seq_shift, map_map. apply IH. lia.
Qed.

(** The intervals gathered through the sort order are the sorted intervals. *)
Lemma sorted_through_order (starts ends : list Z) :
  length starts = length ends ->
  map (fun i => (nth i starts 0, nth i ends 0))
    (stable_sort (Np.lex_leb [starts; ends]) (seq 0 (length ends)))
  = sort_intervals starts ends.
Proof.
  intros H. unfold sort_intervals.
  rewrite (stable_sort_ext _ (fun i j => pair_leb (nth i starts 0, nth i ends 0)
                                                 (nth j starts 0, nth j ends 0)))
    by (intros; apply lex_leb_pair).
  rewrite (stable_sort_map (fun i => (nth i starts 0, nth i ends 0)) pair_leb).
  rewrite <- H, combine_nth_seq by auto. reflexivity.
Qed.

Lemma sort_intervals_length (starts ends : list Z) :
  length starts = length ends -> length (sort_intervals starts ends) = length starts.
Proof.
  intros H. unfold sort_intervals. rewrite stable_sort_length, length_combine. lia.
Qed.

Lemma maximum_accumulate_from_length (acc : Z) (l : list Z) :
  length (Np.maximum_accumulate_from acc l) = length l.
Proof. revert acc; induction l; intros; simpl; auto. Qed.

Lemma maximum_accumulate_length (l : list Z) :
  length (Np.maximum_accumulate l) = length l.
Proof. destruct l; simpl; auto. rewrite maximum_accumulate_from_length; auto. Qed.

Lemma inner_borders_length (md : option Z) (r : Z) (l : list (Z * Z)) :
  length (inner_borders md r l) = length l.
Proof. revert r; induction l as [|[s e] l IH]; intros; simpl; auto. Qed.

Lemma removelast_cons2 {A : Type} (x y : A) (l : list A) :
  removelast (x :: y :: l) = x :: removelast (y :: l).
Proof. reflexivity. Qed.

Lemma inner_borders_gt (d r : Z) (l : list (Z * Z)) :
  zip_with Z.gtb (map fst l)
    (Np.add_scalar_int64
       (removelast (r :: Np.maximum_accumulate_from r (map snd l))) d)
  = inner_borders (Some d) r l.
Proof.
  revert r; induction l as [|[s e] l IH]; intros r; [reflexivity|].
  cbn [map fst snd Np.maximum_accumulate_from].
  rewrite removelast_cons2. cbn [Np.add_scalar_int64 map zip_with inner_borders is_border].
  f_equal. apply IH.
Qed.

Lemma inner_borders_ge (r : Z) (l : list (Z * Z)) :
  zip_with Z.geb (map fst l)
    (removelast (r :: Np.maximum_accumulate_from r (map snd l)))
  = inner_borders None r l.
Proof.
  revert r; induction l as [|[s e] l IH]; intros r; [reflexivity|].
  cbn [map fst snd Np.maximum_accumulate_from].
  rewrite removelast_cons2. cbn [zip_with inner_borders is_border].
  f_equal. apply IH.
Qed.

Lemma removelast_length {A : Type} (l : list A) :
  length (removelast l) = (length l - 1)%nat.
Proof.
  induction l as [|x l IH]; [reflexivity|].
  destruct l as [|y l]; [reflexivity|].
  rewrite removelast_cons2. simpl length in *. lia.
Qed.

(** The comparison that fills [cluster_borders[1:-1]]. *)
Lemma inner_comparison (md : option Z) (s0 e0 : Z) (l : list (Z * Z)) :
  match md with
  | Some d =>
      Np.gt (Np.slice (map fst ((s0, e0) :: l)) (Some 1) None)
        (Np.add_scalar_int64
           (Np.slice (running_max ((s0, e0) :: l)) None (Some (-1))) d)
  | None =>
      Np.ge (Np.slice (map fst ((s0, e0) :: l)) (Some 1) None)
        (Np.slice (running_max ((s0, e0) :: l)) None (Some (-1)))
  end = Ok (inner_borders md e0 l).
Proof.
  unfold running_max. cbn [map fst snd Np.maximum_accumulate].
  rewrite slice_from_1, slice_to_m1. cbn [tl].
  assert (Hlen : length (map fst l)
                 = length (removelast (e0 :: Np.maximum_accumulate_from e0 (map snd l)))).
  { rewrite removelast_length. simpl length.
    rewrite maximum_accumulate_from_length, !length_map. lia. }
  destruct md as [d|]; unfold Np.gt, Np.ge.
  - rewrite broadcast2_same_length
      by (unfold Np.add_scalar_int64;
          rewrite (length_map (fun x => int64_op Z.add x d)); exact Hlen).
    rewrite inner_borders_gt. reflexivity.
  - rewrite broadcast2_same_length by exact Hlen.
    rewrite inner_borders_ge. reflexivity.
Qed.

Lemma replace_nth_length {A : Type} (n : nat) (v : A) (a : list A) :
  length (replace_nth n v a) = length a.
Proof.
  revert n; induction a as [|x a IH]; intros [|n]; simpl; auto.
Qed.

Lemma replace_nth_last {A : Type} (k : nat) (v d : A) :
  replace_nth k v (List.repeat d (S k)) = List.repeat d k ++ [v].
Proof.
  induction k as [|k IH]; [reflexivity|].
  change (List.repeat d (S (S k))) with (d :: List.repeat d (S k)).
  cbn [replace_nth]. rewrite IH. reflexivity.
Qed.

Lemma setitem_first (n : nat) :
  setitem (Np.full (n + 1) false) 0 true = Ok (true :: List.repeat false n).
Proof.
  unfold setitem, Np.full. rewrite Nat.add_1_r. change (0 <? 0) with false. cbv iota.
  replace ((0 <=? 0) && (0 <? Z.of_nat (length (List.repeat false (S n))))) with true.
  - reflexivity.
  - symmetry. apply andb_true_iff. split; [reflexivity|].
    apply Z.ltb_lt. simpl length. lia.
Qed.

Lemma setitem_last (n : nat) :
  setitem (true :: List.repeat false n) (-1) true
  = Ok (match n with
        | O => [true]
        | S k => true :: List.repeat false k ++ [true]
        end).
Proof.
  unfold setitem. change (-1 <? 0) with true. cbv iota.
  assert (Hn : Z.of_nat (length (true :: List.repeat false n)) + -1 = Z.of_nat n).
  { simpl length. rewrite repeat_length. lia. }
  rewrite Hn.
  replace ((0 <=? Z.of_nat n)
           && (Z.of_nat n <? Z.of_nat (length (true :: List.repeat false n)))) with true.
  - rewrite Nat2Z.id. destruct n as [|k]; [reflexivity|].
    cbn [replace_nth]. rewrite replace_nth_last. reflexivity.
  - symmetry. apply andb_true_iff. split; [apply Z.leb_le | apply Z.ltb_lt]; lia.
Qed.

Lemma set_slice_inner (k : nat) (inner : list bool) :
  length inner = k ->
  set_slice (true :: List.repeat false k ++ [true]) 1 (-1) inner
  = Ok (true :: inner ++ [true]).
Proof.
  intros H. unfold set_slice, Np.clamp_index.
  change (1 <? 0) with false. change (-1 <? 0) with true. cbv iota.
  assert (Hlen : Z.of_nat (length (true :: List.repeat false k ++ [true]))
                 = Z.of_nat k + 2).
  { simpl length. rewrite length_app, repeat_length. simpl. lia. }
  rewrite Hlen.
  replace (Z.min 1 (Z.of_nat k + 2)) with 1 by lia.
  replace (Z.max 1 (Z.max 0 (Z.of_nat k + 2 + -1))) with (Z.of_nat (S k)) by lia.
  replace (Z.to_nat (Z.of_nat (S k) - 1)) with k by lia.
  rewrite H, Nat.eqb_refl, Nat2Z.id. change (Z.to_nat 1) with 1%nat.
  cbn [firstn skipn app]. do 2 f_equal.
  rewrite skipn_app, repeat_length, Nat.sub_diag.
  rewrite skipn_all2 by (rewrite repeat_length; lia). reflexivity.
Qed.

(** [cluster_borders] after its three assignments. *)
Lemma borders_assembled (md : option Z) (sorted : list (Z * Z)) :
  (cb <- setitem (Np.full (length sorted + 1) false) 0 true ;;
   cb <- setitem cb (-1) true ;;
   set_slice cb 1 (-1)
     (match sorted with [] => [] | (_, e0) :: l => inner_borders md e0 l end))
  = Ok (sweep_borders md sorted).
Proof.
  rewrite setitem_first. cbn [bind]. rewrite setitem_last.
  destruct sorted as [|[s0 e0] l]; [reflexivity|].
  cbn [length bind sweep_borders].
  apply set_slice_inner, inner_borders_length.
Qed.

Lemma removelast_cons {A : Type} (x : A) (l : list A) :
  l <> [] -> removelast (x :: l) = x :: removelast l.
Proof. destruct l; [congruence|reflexivity]. Qed.

Lemma ids_from_cumsum (md : option Z) (c r : Z) (l : list (Z * Z)) :
  map (fun x => x - 1)
    (removelast
       (Np.cumsum_from c
          (map (fun b : bool => if b then 1 else 0) (inner_borders md r l ++ [true]))))
  = ids_from md (c - 1) r l.
Proof.
  revert c r; induction l as [|[s e] l IH]; intros c r; [reflexivity|].
  cbn [inner_borders app map Np.cumsum_from ids_from].
  rewrite removelast_cons.
  - rewrite map_cons, IH.
    destruct (is_border md s r).
    + replace (c + 1 - 1) with (c - 1 + 1) by lia. reflexivity.
    + replace (c + 0 - 1) with (c - 1) by lia. reflexivity.
  - destruct (inner_borders md (Z.max r e) l); discriminate.
Qed.

Lemma sweep_ids_cumsum (md : option Z) (sorted : list (Z * Z)) :
  Np.sub_scalar
    (Np.slice (Np.cumsum_bool (sweep_borders md sorted)) None (Some (-1))) 1
  = sweep_ids md sorted.
Proof.
  rewrite slice_to_m1. destruct sorted as [|[s0 e0] l]; [reflexivity|].
  unfold Np.cumsum_bool, Np.cumsum, Np.sub_scalar.
  cbn [sweep_borders map Np.cumsum_from sweep_ids].
  rewrite removelast_cons.
  - rewrite map_cons. f_equal. apply (ids_from_cumsum md (0 + 1) e0 l).
  - destruct (inner_borders md e0 l); discriminate.
Qed.

Lemma select_cons {A : Type} (x : A) (a : list A) (b : bool) (m : list bool) :
  Np.select (x :: a) (b :: m) = if b then x :: Np.select a m else Np.select a m.
Proof. reflexivity. Qed.

Lemma select_starts (md : option Z) (r : Z) (l : list (Z * Z)) :
  Np.select (map fst l) (inner_borders md r l) = starts_from md r l.
Proof.
  revert r; induction l as [|[s e] l IH]; intros r; [reflexivity|].
  cbn [map fst inner_borders starts_from]. rewrite select_cons, IH. reflexivity.
Qed.

Lemma select_ends (md : option Z) (r : Z) (l : list (Z * Z)) :
  Np.select (r :: Np.maximum_accumulate_from r (map snd l))
    (inner_borders md r l ++ [true])
  = ends_from md r l.
Proof.
  revert r; induction l as [|[s e] l IH]; intros r; [reflexivity|].
  cbn [map snd Np.maximum_accumulate_from inner_borders app ends_from].
  rewrite select_cons, IH. reflexivity.
Qed.

Lemma sweep_borders_length (md : option Z) (sorted : list (Z * Z)) :
  length (sweep_borders md sorted) = S (length sorted).
Proof.
  destruct sorted as [|[s0 e0] l]; [reflexivity|].
  cbn [sweep_borders length]. rewrite length_app, inner_borders_length. simpl. lia.
Qed.

Lemma compress_starts (md : option Z) (sorted : list (Z * Z)) :
  Np.compress (map fst sorted) (Np.slice (sweep_borders md sorted) None (Some (-1)))
  = Ok (sweep_starts md sorted).
Proof.
  rewrite slice_to_m1. unfold Np.compress.
  rewrite removelast_length, sweep_borders_length, length_map.
  replace (S (length sorted) - 1)%nat with (length sorted) by lia.
  rewrite Nat.eqb_refl. f_equal.
  destruct sorted as [|[s0 e0] l]; [reflexivity|].
  cbn [sweep_borders sweep_starts].
  rewrite removelast_cons by (destruct (inner_borders md e0 l); discriminate).
  rewrite removelast_last. cbn [map fst]. rewrite select_cons, select_starts. reflexivity.
Qed.

Lemma compress_ends (md : option Z) (sorted : list (Z * Z)) :
  Np.compress (running_max sorted) (Np.slice (sweep_borders md sorted) (Some 1) None)
  = Ok (sweep_ends md sorted).
Proof.
  rewrite slice_from_1. unfold Np.compress, running_max.
  rewrite maximum_accumulate_length, length_map.
  assert (Hl : length (tl (sweep_borders md sorted)) = length sorted).
  { pose proof (sweep_borders_length md sorted) as H.
    destruct (sweep_borders md sorted); simpl in *; lia. }
  rewrite Hl, Nat.eqb_refl. f_equal.
  destruct sorted as [|[s0 e0] l]; [reflexivity|].
  cbn [sweep_borders sweep_ends tl map snd Np.maximum_accumulate].
  apply select_ends.
Qed.

Lemma setitem_in_range {A : Type} (a : list A) (i : Z) (v : A) :
  0 <= i < Z.of_nat (length a) ->
  setitem a i v = Ok (replace_nth (Z.to_nat i) v a).
Proof.
  intros H. unfold setitem.
  destruct (Z.ltb_spec i 0); [lia|].
  replace ((0 <=? i) && (i <? Z.of_nat (length a))) with true; auto.
  symmetry. apply andb_true_iff. split; [apply Z.leb_le | apply Z.ltb_lt]; lia.
Qed.

Lemma scatter_in_range {A : Type} (a : list A) (idx : list Z) (vals : list A) :
  length idx = length vals ->
  Forall (fun i => 0 <= i < Z.of_nat (length a)) idx ->
  exists r, scatter a idx vals = Ok r /\ length r = length a.
Proof.
  revert a vals; induction idx as [|i idx IH]; intros a [|v vals] Hlen Hin;
    simpl in Hlen; try discriminate.
  - exists a. split; reflexivity.
  - inversion Hin as [|? ? Hi Hin']; subst.
    cbn [scatter]. rewrite setitem_in_range by exact Hi. cbn [bind].
    destruct (IH (replace_nth (Z.to_nat i) v a) vals) as [r [Hr Hl]].
    + lia.
    + rewrite replace_nth_length. exact Hin'.
    + exists r. split; [exact Hr|]. rewrite Hl. apply replace_nth_length.
Qed.

Lemma ids_from_length (md : option Z) (c r : Z) (l : list (Z * Z)) :
  length (ids_from md c r l) = length l.
Proof.
  revert c r; induction l as [|[s e] l IH]; intros; simpl; auto.
Qed.

Lemma sweep_ids_length (md : option Z) (sorted : list (Z * Z)) :
  length (sweep_ids md sorted) = length sorted.
Proof.
  destruct sorted as [|[s0 e0] l]; [reflexivity|].
  cbn [sweep_ids length]. rewrite ids_from_length. reflexivity.
Qed.

(** What [merge_intervals] computes on intervals given as two arrays of one
    length: the sweep of the sorted intervals. *)
Lemma merge_intervals_locals_sweep (starts ends : list Z) (md : option Z) :
  length starts = length ends ->
  exists ids,
    merge_intervals_locals starts ends md
    = Ok {| order := map Z.of_nat
                       (stable_sort (Np.lex_leb [starts; ends]) (seq 0 (length ends)));
            cluster_borders := sweep_borders md (sort_intervals starts ends);
            cluster_ids_sorted := sweep_ids md (sort_intervals starts ends);
            cluster_ids := ids;
            cluster_starts := sweep_starts md (sort_intervals starts ends);
            cluster_ends := sweep_ends md (sort_intervals starts ends) |}
    /\ length ids = length starts.
Proof.
  intros Hlen. unfold merge_intervals_locals.
  rewrite lexsort_pair by auto. cbn [bind].
  set (ord := stable_sort (Np.lex_leb [starts; ends]) (seq 0 (length ends))).
  assert (Hord : Forall (fun i => (i < length ends)%nat) ord)
    by (apply (sorted_indices_bound (A := nat))).
  rewrite (take_nat starts ord 0) by (rewrite Hlen; exact Hord). cbn [bind].
  rewrite (take_nat ends ord 0) by exact Hord. cbn [bind].
  pose proof (sorted_through_order starts ends Hlen) as HP. fold ord in HP.
  set (P := sort_intervals starts ends) in *.
  assert (Hs : map (fun i => nth i starts 0) ord = map fst P)
    by (rewrite <- HP, map_map; reflexivity).
  assert (He : map (fun i => nth i ends 0) ord = map snd P)
    by (rewrite <- HP, map_map; reflexivity).
  rewrite Hs, He. fold (running_max P). rewrite length_map.
  assert (Hin : (inner <- match md with
           | Some d =>
               Np.gt (Np.slice (map fst P) (Some 1) None)
                     (Np.add_scalar_int64
                        (Np.slice (running_max P) None (Some (-1))) d)
           | None =>
               Np.ge (Np.slice (map fst P) (Some 1) None)
                     (Np.slice (running_max P) None (Some (-1)))
           end ;; Ok inner)
          = Ok (match P with [] => [] | (_, e0) :: l => inner_borders md e0 l end)).
  { destruct P as [|[s0 e0] l].
    - destruct md; reflexivity.
    - rewrite inner_comparison. reflexivity. }
  pose proof (borders_assembled md P) as HB.
  destruct (setitem (Np.full (length P + 1) false) 0 true) as [cb0|]; [|discriminate].
  cbn [bind] in *.
  destruct (setitem cb0 (-1) true) as [cb1|]; [|discriminate].
  cbn [bind] in *.
  destruct (match md with
            | Some d => _
            | None => _
            end) as [inner|]; [|discriminate].
  cbn [bind] in *. injection Hin as ->.
  rewrite HB. cbn [bind].
  rewrite sweep_ids_cumsum.
  destruct (scatter_in_range (Np.full (length P) (-1)) (map Z.of_nat ord)
              (sweep_ids md P)) as [ids [Hids Hl]].
  - rewrite length_map, sweep_ids_length. unfold ord, P.
    rewrite stable_sort_length, length_seq, sort_intervals_length; auto.
  - apply Forall_map. unfold Np.full. rewrite repeat_length.
    unfold P. rewrite sort_intervals_length by auto. rewrite Hlen.
    eapply Forall_impl; [|exact Hord]. simpl. intros; lia.
  - rewrite Hids. cbn [bind].
    rewrite compress_starts, compress_ends. cbn [bind].
    exists ids. split; [reflexivity|].
    rewrite Hl. unfold Np.full. rewrite repeat_length.
    unfold P. apply sort_intervals_length; auto.
Qed.

Lemma merge_intervals_sweep (starts ends : list Z) (md : option Z) :
  length starts = length ends ->
  merge_intervals starts ends md
  = Ok (sweep_ids md (sort_intervals starts ends),
        sweep_starts md (sort_intervals starts ends),
        sweep_ends md (sort_intervals starts ends)).
Proof.
  intros H. unfold merge_intervals.
  destruct (merge_intervals_locals_sweep starts ends md H) as [ids [-> _]].
  reflexivity.
Qed.

(** ** Cluster borders and cluster ids, position by position *)

Lemma inner_borders_nth (md : option Z) (r : Z) (l : list (Z * Z)) (i : nat) :
  (i < length l)%nat ->
  nth i (inner_borders md r l) false
  = is_border md (nth i (map fst l) 0)
      (nth i (r :: Np.maximum_accumulate_from r (map snd l)) 0).
Proof.
  revert r i; induction l as [|[s e] l IH]; intros r i Hi; simpl in Hi; [lia|].
  destruct i as [|i]; [reflexivity|].
  cbn [inner_borders map fst snd Np.maximum_accumulate_from].
  change (nth (S i) (?x :: ?t) ?d) with (nth i t d).
  apply IH. lia.
Qed.

Lemma ids_from_nth (md : option Z) (c r : Z) (l : list (Z * Z)) (i : nat) :
  (i < length l)%nat ->
  nth i (ids_from md c r l) 0
  = nth i (c :: ids_from md c r l) 0
    + (if nth i (inner_borders md r l) false then 1 else 0).
Proof.
  revert c r i; induction l as [|[s e] l IH]; intros c r i Hi; simpl in Hi; [lia|].
  cbn [ids_from inner_borders].
  destruct i as [|i].
  - cbn [nth]. destruct (is_border md s r); lia.
  - change (nth (S i) (?x :: ?t) ?d) with (nth i t d).
    rewrite IH at 1 by lia. reflexivity.
Qed.

Lemma sweep_borders_nth (md : option Z) (sorted : list (Z * Z)) (i : nat) :
  (0 < i < length sorted)%nat ->
  nth i (sweep_borders md sorted) false
  = is_border md (nth i (map fst sorted) 0) (nth (i - 1) (running_max sorted) 0).
Proof.
  intros Hi. destruct sorted as [|[s0 e0] l]; simpl in Hi; [lia|].
  destruct i as [|i]; [lia|].
  unfold running_max. cbn [sweep_borders map fst snd Np.maximum_accumulate].
  change (nth (S i) (?x :: ?t) ?d) with (nth i t d).
  replace (S i - 1)%nat with i by lia.
  rewrite app_nth1 by (rewrite inner_borders_length; lia).
  apply inner_borders_nth. lia.
Qed.

Lemma sweep_ids_nth (md : option Z) (sorted : list (Z * Z)) (i : nat) :
  (0 < i < length sorted)%nat ->
  nth i (sweep_ids md sorted) 0
  = nth (i - 1) (sweep_ids md sorted) 0
    + (if nth i (sweep_borders md sorted) false then 1 else 0).
Proof.
  intros Hi. destruct sorted as [|[s0 e0] l]; simpl in Hi; [lia|].
  destruct i as [|i]; [lia|].
  cbn [sweep_ids sweep_borders].
  change (nth (S i) (?x :: ?t) ?d) with (nth i t d).
  replace (S i - 1)%nat with i by lia.
  rewrite app_nth1 by (rewrite inner_borders_length; lia).
  apply ids_from_nth. lia.
Qed.

(** int64 arithmetic is exact as long as the result is an int64, and adding
    0 changes nothing. *)
Lemma wrap_int64_exact (z : Z) :
  int64_min <= z <= int64_max -> wrap_int64 z = z.
Proof.
  unfold wrap_int64, int64_min, int64_max. intros H.
  rewrite Z.mod_small; lia.
Qed.

Lemma int64_op_exact (f : Z -> Z -> Z) (x y : Z) :
  int64_min <= f x y <= int64_max -> int64_op f x y = f x y.
Proof.
  intros H. unfold int64_op.
  destruct (in_int64 x && in_int64 y); [apply wrap_int64_exact, H|reflexivity].
Qed.

Lemma in_int64_spec (z : Z) :
  in_int64 z = true <-> int64_min <= z <= int64_max.
Proof. unfold in_int64. rewrite andb_true_iff, !Z.leb_le. reflexivity. Qed.

Lemma int64_add_0 (x : Z) : int64_op Z.add x 0 = x.
Proof.
  unfold int64_op. destruct (in_int64 x) eqn:Hx; cbn [andb]; [|lia].
  apply in_int64_spec in Hx.
  change (in_int64 0) with true. cbv iota.
  rewrite wrap_int64_exact; lia.
Qed.

(** The border test when the sum it forms is an int64. *)
Lemma is_border_spec (md : option Z) (s r : Z) :
  match md with Some d => int64_min <= r + d <= int64_max | None => True end ->
  is_border md s r = true
  <-> match md with Some d => s > r + d | None => s >= r end.
Proof.
  destruct md as [d|]; unfold is_border; intros Hr.
  - rewrite (int64_op_exact Z.add r d Hr), Z.gtb_ltb, Z.ltb_lt. lia.
  - rewrite Z.geb_leb, Z.leb_le. lia.
Qed.

Lemma is_border_zero (s r : Z) : is_border (Some 0) s r = true <-> s > r.
Proof. unfold is_border. rewrite int64_add_0, Z.gtb_ltb, Z.ltb_lt. lia. Qed.

Lemma is_border_none (s r : Z) : is_border None s r = true <-> s >= r.
Proof. unfold is_border. rewrite Z.geb_leb, Z.leb_le. lia. Qed.

Lemma sort_intervals_perm (starts ends : list Z) :
  Permutation (sort_intervals starts ends) (combine starts ends).
Proof. apply stable_sort_perm. Qed.

Lemma sort_intervals_sorted (starts ends : list Z) :
  StronglySorted (le_of pair_leb) (sort_intervals starts ends).
Proof. apply stable_sort_sorted; [apply pair_leb_total | apply pair_leb_trans]. Qed.

Lemma maximum_accumulate_from_in (acc : Z) (l : list Z) (x : Z) :
  In x (Np.maximum_accumulate_from acc l) -> x = acc \/ In x l.
Proof.
  revert acc; induction l as [|y l IH]; intros acc H; [destruct H|].
  cbn [Np.maximum_accumulate_from] in H.
  assert (Hm : Z.max acc y = acc \/ Z.max acc y = y) by lia.
  destruct H as [<-|H].
  - destruct Hm as [->| ->]; [left; reflexivity|right; left; reflexivity].
  - destruct (IH _ H) as [->|Hin]; [|right; right; exact Hin].
    destruct Hm as [->| ->]; [left; reflexivity|right; left; reflexivity].
Qed.

Lemma running_max_in (sorted : list (Z * Z)) (x : Z) :
  In x (running_max sorted) -> In x (map snd sorted).
Proof.
  unfold running_max. destruct sorted as [|[s e] l]; [intros []|].
  cbn [map snd Np.maximum_accumulate]. intros [<-|H]; [left; reflexivity|].
  destruct (maximum_accumulate_from_in _ _ _ H) as [->|Hin];
    [left; reflexivity|right; exact Hin].
Qed.

Lemma sorted_ends_in (starts ends : list Z) (x : Z) :
  length starts = length ends ->
  In x (map snd (sort_intervals starts ends)) -> In x ends.
Proof.
  intros Hlen Hx. apply in_map_iff in Hx. destruct Hx as [[s e] [<- Hin]].
  apply (Permutation_in _ (sort_intervals_perm starts ends)) in Hin.
  apply in_combine_r in Hin. exact Hin.
Qed.

(** Where no sum wraps, the border test at an end of the input is the exact
    comparison. *)
Lemma is_border_in_range (ends : list Z) (md : option Z) (s r : Z) :
  sums_in_int64 ends md -> In r ends ->
  is_border md s r = true
  <-> match md with Some d => s > r + d | None => s >= r end.
Proof.
  intros Hr Hin. apply is_border_spec.
  destruct md as [d|]; [|exact I].
  destruct Hr as [_ Hr]. rewrite Forall_forall in Hr. apply (Hr r Hin).
Qed.

(** C4.  [merge_intervals] forms [ends[:-1] + min_dist] in int64, where the
    sum wraps.  For the intervals (0, 2^63 - 1) and (5, 10), which overlap,
    and [min_dist = 1], the running maximum of the ends before the second
    interval is 2^63 - 1; the second start, 5, is not above 2^63 - 1 + 1, yet
    [cluster_borders] is set before it and the two intervals are returned as
    two clusters.  With [min_dist = 0], where nothing wraps, they are one
    cluster. *)
Theorem merge_intervals_border_overflow :
  sort_intervals [0; 5] [int64_max; 10] = [(0, int64_max); (5, 10)]
  /\ running_max [(0, int64_max); (5, 10)] = [int64_max; int64_max]
  /\ ~ 5 > int64_max + 1
  /\ (exists m,
        merge_intervals_locals [0; 5] [int64_max; 10] (Some 1) = Ok m
        /\ cluster_borders m = [true; true; true]
        /\ cluster_ids_sorted m = [0; 1])
  /\ merge_intervals [0; 5] [int64_max; 10] (Some 1)
     = Ok ([0; 1], [0; 5], [int64_max; int64_max])
  /\ merge_intervals [0; 5] [int64_max; 10] (Some 0)
     = Ok ([0; 0], [0], [int64_max]).
Proof.
  split; [vm_compute; reflexivity|].
  split; [vm_compute; reflexivity|].
  split; [unfold int64_max; lia|].
  split; [eexists; split; [vm_compute; reflexivity|split; reflexivity]|].
  split; vm_compute; reflexivity.
Qed.

(** X26.  The intervals are swept in (start, end) order, and where the
    ends, [min_dist] and every sum [end + min_dist] are int64 values, so that
    no sum wraps, [cluster_borders] is set before sorted position [i > 0]
    exactly when [start_i > rmax + d] ([min_dist = d]) or [start_i >= rmax]
    ([min_dist = None]), where [rmax] is the running maximum of the ends up
    to position [i - 1]; the cluster id goes up by one there and stays the
    same elsewhere.  Merging [(0,1), (1,2)] gives two clusters for [None] and
    the one cluster [(0,2)] for [0]. *)
Theorem merge_intervals_border_rule (starts ends : list Z) (min_dist : option Z) :
  length starts = length ends ->
  sums_in_int64 ends min_dist ->
  let sorted := sort_intervals starts ends in
  Permutation sorted (combine starts ends)
  /\ StronglySorted (le_of pair_leb) sorted
  /\ (exists m,
        merge_intervals_locals starts ends min_dist = Ok m
        /\ forall i, (0 < i < length starts)%nat ->
             let start_i := nth i (map fst sorted) 0 in
             let rmax := nth (i - 1) (running_max sorted) 0 in
             let new_cluster :=
               match min_dist with
               | Some d => start_i > rmax + d
               | None => start_i >= rmax
               end in
             (nth i (cluster_borders m) false = true <-> new_cluster)
             /\ (new_cluster ->
                 nth i (cluster_ids_sorted m) 0
                 = nth (i - 1) (cluster_ids_sorted m) 0 + 1)
             /\ (~ new_cluster ->
                 nth i (cluster_ids_sorted m) 0
                 = nth (i - 1) (cluster_ids_sorted m) 0))
  /\ merge_intervals [0; 1] [1; 2] None = Ok ([0; 1], [0; 1], [1; 2])
  /\ merge_intervals [0; 1] [1; 2] (Some 0) = Ok ([0; 0], [0], [2]).
Proof.
  intros Hlen Hfit sorted.
  split; [apply sort_intervals_perm|].
  split; [apply sort_intervals_sorted|].
  split; [|split; vm_compute; reflexivity].
  destruct (merge_intervals_locals_sweep starts ends min_dist Hlen) as [ids [Hm _]].
  eexists. split; [exact Hm|].
  cbn [cluster_borders cluster_ids_sorted]. fold sorted.
  intros i Hi.
  assert (Hi' : (0 < i < length sorted)%nat)
    by (unfold sorted; rewrite sort_intervals_length; auto).
  cbv zeta.
  rewrite (sweep_ids_nth min_dist sorted i Hi').
  rewrite (sweep_borders_nth min_dist sorted i Hi').
  assert (Hin : In (nth (i - 1) (running_max sorted) 0) ends).
  { apply (sorted_ends_in starts ends _ Hlen). fold sorted.
    apply running_max_in, nth_In.
    unfold running_max. rewrite maximum_accumulate_length, length_map. lia. }
  pose proof (is_border_in_range ends min_dist (nth i (map fst sorted) 0)
                (nth (i - 1) (running_max sorted) 0) Hfit Hin) as Hb.
  destruct (is_border min_dist (nth i (map fst sorted) 0)
              (nth (i - 1) (running_max sorted) 0)).
  - split; [exact Hb|]. split; [reflexivity|].
    intros Hn. exfalso. apply Hn, Hb. reflexivity.
  - split; [exact Hb|]. split.
    + intros Hn. apply Hb in Hn. discriminate.
    + intros _. lia.
Qed.

Lemma merge_intervals_border_rule_witness :
  length [1; 3; 10] = length [5; 8; 12]
  /\ sums_in_int64 [5; 8; 12] (Some 0)
  /\ exists m,
       merge_intervals_locals [1; 3; 10] [5; 8; 12] (Some 0) = Ok m
       /\ (nth 2 (cluster_borders m) false = true <-> 10 > 8 + 0)
       /\ nth 2 (cluster_ids_sorted m) 0 = nth 1 (cluster_ids_sorted m) 0 + 1.
Proof.
  assert (Hfit : sums_in_int64 [5; 8; 12] (Some 0))
    by (repeat constructor; unfold int64_min, int64_max; lia).
  split; [reflexivity|]. split; [exact Hfit|].
  destruct (merge_intervals_border_rule [1; 3; 10] [5; 8; 12] (Some 0) eq_refl Hfit)
    as [_ [_ [[m [Hm H]] _]]].
  exists m. split; [exact Hm|].
  pose proof (H 2%nat (conj (Nat.lt_0_succ 1) (Nat.lt_succ_diag_r 2))) as H2.
  split; [exact (proj1 H2)|].
  exact (proj1 (proj2 H2) eq_refl).
Defined.

(** ** Consistency of cluster ids and cluster spans *)

Lemma last_cons_default {A : Type} (x d : A) (l : list A) :
  last (x :: l) d = last l x.
Proof.
  revert x d; induction l as [|y l IH]; intros x d; [reflexivity|].
  change (last (x :: y :: l) d) with (last (y :: l) d).
  rewrite !IH. reflexivity.
Qed.

Lemma ids_from_last (md : option Z) (c r : Z) (l : list (Z * Z)) :
  last (ids_from md c r l) c = c + Z.of_nat (length (starts_from md r l)).
Proof.
  revert c r; induction l as [|[s e] l IH]; intros c r.
  - simpl. lia.
  - cbn [ids_from starts_from]. rewrite last_cons_default, IH.
    destruct (is_border md s r); simpl length; lia.
Qed.

Lemma ends_from_length (md : option Z) (r : Z) (l : list (Z * Z)) :
  length (ends_from md r l) = S (length (starts_from md r l)).
Proof.
  revert r; induction l as [|[s e] l IH]; intros r; [reflexivity|].
  cbn [ends_from starts_from]. destruct (is_border md s r); simpl; rewrite IH; reflexivity.
Qed.

Lemma sweep_spans_length (md : option Z) (sorted : list (Z * Z)) :
  length (sweep_starts md sorted) = length (sweep_ends md sorted).
Proof.
  destruct sorted as [|[s0 e0] l]; [reflexivity|].
  cbn [sweep_starts sweep_ends length]. rewrite ends_from_length. reflexivity.
Qed.

Lemma sweep_ids_last (md : option Z) (sorted : list (Z * Z)) :
  Z.of_nat (length (sweep_starts md sorted)) = last (sweep_ids md sorted) (-1) + 1.
Proof.
  destruct sorted as [|[s0 e0] l]; [reflexivity|].
  cbn [sweep_starts sweep_ids]. rewrite last_cons_default, ids_from_last.
  simpl length. lia.
Qed.

Lemma sweep_ids_step (md : option Z) (sorted : list (Z * Z)) (i : nat) :
  (S i < length sorted)%nat ->
  nth i (sweep_ids md sorted) 0 <= nth (S i) (sweep_ids md sorted) 0
                               <= nth i (sweep_ids md sorted) 0 + 1.
Proof.
  intros Hi. rewrite (sweep_ids_nth md sorted (S i)) by lia.
  replace (S i - 1)%nat with i by lia.
  destruct (nth (S i) (sweep_borders md sorted) false); lia.
Qed.

Lemma sweep_ids_first (md : option Z) (sorted : list (Z * Z)) :
  sorted <> [] -> nth 0 (sweep_ids md sorted) 0 = 0.
Proof. destruct sorted as [|[s0 e0] l]; [congruence|reflexivity]. Qed.

(** A sequence that starts at 0 and never steps down stays between 0 and its
    last element. *)
Lemma steps_bounded (ids : list Z) :
  (ids <> [] -> nth 0 ids 0 = 0) ->
  (forall i, (S i < length ids)%nat -> nth i ids 0 <= nth (S i) ids 0) ->
  forall x, In x ids -> 0 <= x <= last ids (-1).
Proof.
  intros H0 Hstep x Hx.
  assert (Hmono : forall i j, (i <= j < length ids)%nat -> nth i ids 0 <= nth j ids 0).
  { intros i j [Hij Hj]. induction Hij as [|j Hij IH]; [lia|].
    specialize (Hstep j Hj). specialize (IH ltac:(lia)). lia. }
  destruct (In_nth ids x 0 Hx) as [i [Hi <-]].
  assert (Hne : ids <> []) by (destruct ids; simpl in *; [lia|congruence]).
  split.
  - pose proof (Hmono 0%nat i ltac:(lia)) as H. rewrite (H0 Hne) in H. exact H.
  - destruct (exists_last Hne) as [l' [z ->]].
    rewrite last_last.
    assert (Hlen : length (l' ++ [z]) = S (length l'))
      by (rewrite length_app; simpl; lia).
    replace z with (nth (length l') (l' ++ [z]) 0) at 2
      by (rewrite app_nth2, Nat.sub_diag by lia; reflexivity).
    apply Hmono. lia.
Qed.

(** C9.  The ids returned by [merge_intervals] (one per interval, in sorted
    order) start at 0 and go up by 0 or 1 from one position to the next;
    there are as many cluster starts as cluster ends, their number is the
    last (and largest) id plus one, and every id is the position of a
    returned span. *)
Theorem merge_intervals_outputs_consistent
    (starts ends : list Z) (min_dist : option Z) :
  length starts = length ends ->
  exists ids cstarts cends,
    merge_intervals starts ends min_dist = Ok (ids, cstarts, cends)
    /\ length ids = length starts
    /\ (ids <> [] -> nth 0 ids 0 = 0)
    /\ (forall i, (S i < length ids)%nat ->
          nth i ids 0 <= nth (S i) ids 0 <= nth i ids 0 + 1)
    /\ length cstarts = length cends
    /\ Z.of_nat (length cstarts) = last ids (-1) + 1
    /\ (forall id, In id ids -> 0 <= id <= last ids (-1))
    /\ (forall id, In id ids -> 0 <= id < Z.of_nat (length cstarts)).
Proof.
  intros Hlen. rewrite (merge_intervals_sweep starts ends min_dist Hlen).
  set (sorted := sort_intervals starts ends).
  assert (Hn : length sorted = length starts)
    by (apply sort_intervals_length; exact Hlen).
  assert (H0 : sweep_ids min_dist sorted <> [] -> nth 0 (sweep_ids min_dist sorted) 0 = 0).
  { intros Hne. apply sweep_ids_first. intros ->. apply Hne. reflexivity. }
  assert (Hstep : forall i, (S i < length (sweep_ids min_dist sorted))%nat ->
            nth i (sweep_ids min_dist sorted) 0 <= nth (S i) (sweep_ids min_dist sorted) 0
            <= nth i (sweep_ids min_dist sorted) 0 + 1).
  { intros i Hi. apply sweep_ids_step. rewrite sweep_ids_length in Hi. exact Hi. }
  assert (Hb : forall id, In id (sweep_ids min_dist sorted) ->
                 0 <= id <= last (sweep_ids min_dist sorted) (-1)).
  { apply steps_bounded; [exact H0|]. intros i Hi. apply Hstep, Hi. }
  do 3 eexists. split; [reflexivity|].
  split; [rewrite sweep_ids_length; exact Hn|].
  split; [exact H0|].
  split; [exact Hstep|].
  split; [apply sweep_spans_length|].
  split; [apply sweep_ids_last|].
  split; [exact Hb|].
  intros id Hid. rewrite sweep_ids_last. specialize (Hb id Hid). lia.
Qed.

Lemma merge_intervals_outputs_consistent_witness :
  length [1; 3; 10] = length [5; 8; 12]
  /\ exists ids cstarts cends,
       merge_intervals [1; 3; 10] [5; 8; 12] (Some 0) = Ok (ids, cstarts, cends)
       /\ Z.of_nat (length cstarts) = last ids (-1) + 1.
Proof.
  split; [reflexivity|].
  destruct (merge_intervals_outputs_consistent [1; 3; 10] [5; 8; 12] (Some 0) eq_refl)
    as [ids [cs [ce [Hm [_ [_ [_ [_ [Hl _]]]]]]]]].
  exists ids, cs, ce. split; [exact Hm | exact Hl].
Defined.

(** ** Merging merged spans *)

Lemma sweep_spans_separated (md : option Z) (s_cur r : Z) (l : list (Z * Z)) :
  Forall (fun p => s_cur <= fst p) l ->
  StronglySorted (le_of pair_leb) l ->
  exists e1 rest,
    combine (s_cur :: starts_from md r l) (ends_from md r l) = (s_cur, e1) :: rest
    /\ r <= e1
    /\ separated_spans md ((s_cur, e1) :: rest).
Proof.
  revert s_cur r; induction l as [|[s e] l IH]; intros s_cur r Hge Hs.
  - exists r, []. simpl. repeat split. lia.
  - inversion Hge as [|? ? Hs_cur Hge']; subst.
    inversion Hs as [|? ? Hs' Hall]; subst.
    cbn [starts_from ends_from]. simpl in Hs_cur.
    destruct (is_border md s r) eqn:Hb.
    + destruct (IH s (Z.max r e)) as [e1 [rest [Heq [Hr Hsep]]]]; auto.
      { eapply Forall_impl; [|exact Hall]. intros p Hp.
        apply pair_leb_spec in Hp. simpl in Hp. lia. }
      exists r, ((s, e1) :: rest).
      split; [rewrite <- Heq; reflexivity|]. split; [lia|].
      cbn [separated_spans] in *. repeat split; try tauto; lia.
    + destruct (IH s_cur (Z.max r e)) as [e1 [rest [Heq [Hr Hsep]]]]; auto.
      exists e1, rest. split; [exact Heq|]. split; [lia|exact Hsep].
Qed.

Lemma separated_spans_sorted (md : option Z) (q : list (Z * Z)) :
  separated_spans md q -> Sorted (le_of pair_leb) q.
Proof.
  induction q as [|[s e] q IH]; intros H; [constructor|].
  cbn [separated_spans] in H. destruct H as [Hhd Htl].
  constructor; [apply IH, Htl|].
  destruct q as [|[s' e'] q]; constructor.
  apply pair_leb_spec. simpl. lia.
Qed.

Lemma separated_spans_sweep (md : option Z) (c s0 e0 : Z) (q : list (Z * Z)) :
  separated_spans md ((s0, e0) :: q) ->
  starts_from md e0 q = map fst q
  /\ ends_from md e0 q = e0 :: map snd q
  /\ ids_from md c e0 q = Np.arange2 (c + 1) (c + 1 + Z.of_nat (length q)).
Proof.
  revert c s0 e0; induction q as [|[s e] q IH]; intros c s0 e0 H.
  - simpl. rewrite arange2_nil by lia. auto.
  - cbn [separated_spans] in H. destruct H as [[Hs [He Hb]] Htl].
    cbn [starts_from ends_from ids_from]. rewrite Hb.
    rewrite Z.max_r by lia.
    destruct (IH (c + 1) s e Htl) as [H1 [H2 H3]].
    rewrite H1, H2, H3. repeat split.
    rewrite (arange2_cons (c + 1)) by (simpl length; lia).
    f_equal. f_equal. simpl length. lia.
Qed.

Lemma combine_fst_snd {A B : Type} (q : list (A * B)) :
  combine (map fst q) (map snd q) = q.
Proof. induction q as [|[a b] q IH]; simpl; congruence. Qed.

Lemma map_fst_combine {A B : Type} (a : list A) (b : list B) :
  length a = length b -> map fst (combine a b) = a.
Proof.
  revert b; induction a as [|x a IH]; intros [|y b] H; simpl in *; try discriminate; auto.
  f_equal; auto.
Qed.

Lemma map_snd_combine {A B : Type} (a : list A) (b : list B) :
  length a = length b -> map snd (combine a b) = b.
Proof.
  revert b; induction a as [|x a IH]; intros [|y b] H; simpl in *; try discriminate; auto.
  f_equal; auto.
Qed.

(** The spans of a sweep of sorted intervals are separated. *)
Lemma sweep_separated (md : option Z) (sorted : list (Z * Z)) :
  StronglySorted (le_of pair_leb) sorted ->
  separated_spans md (combine (sweep_starts md sorted) (sweep_ends md sorted)).
Proof.
  intros Hs. destruct sorted as [|[s0 e0] l]; [exact I|].
  inversion Hs as [|? ? Hs' Hall]; subst.
  cbn [sweep_starts sweep_ends].
  destruct (sweep_spans_separated md s0 e0 l) as [e1 [rest [Heq [_ Hsep]]]]; auto.
  - eapply Forall_impl; [|exact Hall]. intros p Hp.
    apply pair_leb_spec in Hp. simpl in Hp. lia.
  - rewrite Heq. exact Hsep.
Qed.

(** Sweeping separated spans gives the spans back, one cluster each. *)
Lemma merge_intervals_separated (md : option Z) (q : list (Z * Z)) :
  separated_spans md q ->
  merge_intervals (map fst q) (map snd q) md
  = Ok (Np.arange (Z.of_nat (length q)), map fst q, map snd q).
Proof.
  intros Hsep.
  rewrite merge_intervals_sweep by (rewrite !length_map; reflexivity).
  unfold sort_intervals. rewrite combine_fst_snd.
  rewrite stable_sort_id by (eapply separated_spans_sorted; exact Hsep).
  destruct q as [|[s0 e0] q]; [reflexivity|].
  destruct (separated_spans_sweep md 0 s0 e0 q Hsep) as [H1 [H2 H3]].
  cbn [sweep_ids sweep_starts sweep_ends]. rewrite H1, H2, H3.
  unfold Np.arange.
  replace (Z.of_nat (length ((s0, e0) :: q))) with (0 + 1 + Z.of_nat (length q))
    by (simpl length; lia).
  rewrite (arange2_cons 0) by lia. reflexivity.
Qed.

(** C7.  Merging the spans that [merge_intervals] returned, with the same
    [min_dist], puts every span in a cluster of its own (ids 0, 1, 2, ...)
    and returns the same spans. *)
Theorem merge_intervals_idempotent (starts ends : list Z) (min_dist : option Z) :
  length starts = length ends ->
  exists ids cstarts cends,
    merge_intervals starts ends min_dist = Ok (ids, cstarts, cends)
    /\ merge_intervals cstarts cends min_dist
       = Ok (Np.arange (Z.of_nat (length cstarts)), cstarts, cends).
Proof.
  intros Hlen. rewrite (merge_intervals_sweep starts ends min_dist Hlen).
  set (sorted := sort_intervals starts ends).
  do 3 eexists. split; [reflexivity|].
  pose proof (sweep_separated min_dist sorted (sort_intervals_sorted starts ends)) as Hsep.
  pose proof (sweep_spans_length min_dist sorted) as Hl.
  pose proof (merge_intervals_separated min_dist _ Hsep) as H.
  rewrite map_fst_combine, map_snd_combine, length_combine in H by exact Hl.
  rewrite <- Hl, Nat.min_id in H. exact H.
Qed.

Lemma merge_intervals_idempotent_witness :
  length [1; 3; 10] = length [5; 8; 12]
  /\ exists ids cstarts cends,
       merge_intervals [1; 3; 10] [5; 8; 12] (Some 0) = Ok (ids, cstarts, cends)
       /\ merge_intervals cstarts cends (Some 0)
          = Ok (Np.arange (Z.of_nat (length cstarts)), cstarts, cends).
Proof.
  split; [reflexivity|].
  exact (merge_intervals_idempotent [1; 3; 10] [5; 8; 12] (Some 0) eq_refl).
Defined.

(** ** The ids [merge_intervals] returns *)

(** C1.  On the intervals [(10,12), (1,5)] the function returns the ids
    [0, 1], which are the ids in sorted order; the local [cluster_ids], in
    which the ids have been scattered back to input order, holds [1, 0] and is
    not what is returned. *)
Theorem merge_intervals_returns_sorted_ids :
  merge_intervals [10; 1] [12; 5] (Some 0) = Ok ([0; 1], [1; 10], [5; 12])
  /\ (m <- merge_intervals_locals [10; 1] [12; 5] (Some 0) ;;
      Ok (order m, cluster_ids_sorted m, cluster_ids m))
     = Ok ([1; 0], [0; 1], [1; 0]).
Proof. split; reflexivity. Qed.

(** ** Merged spans cover what the intervals cover *)

Lemma covers_cons (p : Z * Z) (l : list (Z * Z)) (x : Z) :
  covers (p :: l) x <-> fst p <= x < snd p \/ covers l x.
Proof. unfold covers. apply Exists_cons. Qed.

Lemma covers_nil (x : Z) : ~ covers [] x.
Proof. unfold covers. intros H. inversion H. Qed.

Lemma covers_perm (l1 l2 : list (Z * Z)) (x : Z) :
  Permutation l1 l2 -> covers l1 x <-> covers l2 x.
Proof.
  intros H. unfold covers. rewrite !Exists_exists.
  split; intros [p [Hp Hx]]; exists p; split; auto.
  - eapply Permutation_in; eauto.
  - eapply Permutation_in; [apply Permutation_sym|]; eauto.
Qed.

Lemma sweep_covers (s_cur r : Z) (l : list (Z * Z)) :
  s_cur <= r ->
  Forall (fun p => s_cur <= fst p) l ->
  StronglySorted (le_of pair_leb) l ->
  Forall (fun p => fst p <= snd p) l ->
  Forall (fun q => fst q <= snd q)
    (combine (s_cur :: starts_from (Some 0) r l) (ends_from (Some 0) r l))
  /\ forall x,
       covers (combine (s_cur :: starts_from (Some 0) r l) (ends_from (Some 0) r l)) x
       <-> s_cur <= x < r \/ covers l x.
Proof.
  revert s_cur r; induction l as [|[s e] l IH]; intros s_cur r Hr Hge Hs Hwf.
  - cbn [starts_from ends_from combine]. split.
    + constructor; [exact Hr|constructor].
    + intros x. rewrite covers_cons. simpl. pose proof (covers_nil x). tauto.
  - inversion Hge as [|? ? Hs_cur Hge']; subst.
    inversion Hs as [|? ? Hs' Hall]; subst.
    inversion Hwf as [|? ? Hse Hwf']; subst.
    simpl in Hs_cur, Hse.
    assert (Hall' : Forall (fun p => s <= fst p) l).
    { eapply Forall_impl; [|exact Hall]. intros p Hp.
      apply pair_leb_spec in Hp. simpl in Hp. lia. }
    cbn [starts_from ends_from]. unfold is_border. rewrite int64_add_0.
    destruct (Z.gtb_spec s r) as [Hb|Hb].
    + destruct (IH s (Z.max r e)) as [Hq Hc]; auto; [lia|].
      change (combine (s_cur :: ?a) (r :: ?b)) with ((s_cur, r) :: combine a b).
      split.
      * constructor; [exact Hr|exact Hq].
      * intros x. rewrite covers_cons, Hc, covers_cons. simpl.
        rewrite Z.max_r by lia. tauto.
    + destruct (IH s_cur (Z.max r e)) as [Hq Hc]; auto; [lia|].
      split; [exact Hq|].
      intros x. rewrite Hc, covers_cons. simpl.
      assert (s_cur <= x < Z.max r e <-> s_cur <= x < r \/ s <= x < e) by lia.
      tauto.
Qed.

Lemma Forall2_combine {A B : Type} (R : A -> B -> Prop) (a : list A) (b : list B) :
  Forall2 R a b -> Forall (fun p => R (fst p) (snd p)) (combine a b).
Proof. induction 1; simpl; constructor; auto. Qed.

(** The spans [merge_intervals] returns for [min_dist = 0] on well-formed
    intervals: well formed, separated, and covering the same points. *)
Lemma merged_spans_cover (starts ends : list Z) :
  Forall2 Z.le starts ends ->
  let spans := combine (sweep_starts (Some 0) (sort_intervals starts ends))
                       (sweep_ends (Some 0) (sort_intervals starts ends)) in
  Forall (fun q => fst q <= snd q) spans
  /\ separated_spans (Some 0) spans
  /\ forall x, covers spans x <-> covers (combine starts ends) x.
Proof.
  intros Hwf spans.
  pose proof (sort_intervals_sorted starts ends) as Hs.
  pose proof (sort_intervals_perm starts ends) as Hp.
  assert (Hwf' : Forall (fun p => fst p <= snd p) (sort_intervals starts ends)).
  { apply Forall_forall. intros p Hin.
    apply (Permutation_in _ Hp) in Hin.
    pose proof (Forall2_combine _ _ _ Hwf) as H.
    rewrite Forall_forall in H. apply H, Hin. }
  split; [|split].
  - unfold spans. destruct (sort_intervals starts ends) as [|[s0 e0] l]; [constructor|].
    inversion Hs as [|? ? Hs' Hall]; subst. inversion Hwf' as [|? ? H0 Hl]; subst.
    cbn [sweep_starts sweep_ends].
    apply sweep_covers; auto.
    eapply Forall_impl; [|exact Hall]. intros p Hp'.
    apply pair_leb_spec in Hp'. simpl in Hp'. lia.
  - apply sweep_separated, Hs.
  - intros x. rewrite <- (covers_perm _ _ x Hp).
    unfold spans. destruct (sort_intervals starts ends) as [|[s0 e0] l]; [reflexivity|].
    inversion Hs as [|? ? Hs' Hall]; subst. inversion Hwf' as [|? ? H0 Hl]; subst.
    cbn [sweep_starts sweep_ends].
    destruct (sweep_covers s0 e0 l) as [_ Hc]; auto.
    + eapply Forall_impl; [|exact Hall]. intros p Hp'.
      apply pair_leb_spec in Hp'. simpl in Hp'. lia.
    + rewrite Hc, covers_cons. simpl. tauto.
Qed.

(** ** From [complement_intervals] to the gaps between kept spans *)

Lemma searchsorted_right_prefix (q : list (Z * Z)) (v : Z) :
  Np.searchsorted_right (map snd q) v
  = Z.of_nat (prefix_len (fun p => snd p <=? v) q).
Proof.
  induction q as [|[s e] q IH]; [reflexivity|].
  cbn [map snd Np.searchsorted_right prefix_len].
  destruct (e <=? v); [rewrite IH; lia | reflexivity].
Qed.

Lemma searchsorted_left_prefix (q : list (Z * Z)) (v : Z) :
  Np.searchsorted_left (map fst q) v
  = Z.of_nat (prefix_len (fun p => fst p <? v) q).
Proof.
  induction q as [|[s e] q IH]; [reflexivity|].
  cbn [map fst Np.searchsorted_left prefix_len].
  destruct (s <? v); [rewrite IH; lia | reflexivity].
Qed.

Lemma slice_all {A : Type} (a : list A) : Np.slice a (Some 0) None = a.
Proof.
  unfold Np.slice, Np.clamp_index. change (0 <? 0) with false. cbv iota.
  rewrite Z.min_l by lia. change (Z.to_nat 0) with 0%nat. cbn [skipn].
  apply firstn_all2. lia.
Qed.

Lemma slice_0_m1 {A : Type} (a : list A) :
  Np.slice a (Some 0) (Some (-1)) = removelast a.
Proof.
  unfold Np.slice, Np.clamp_index.
  change (0 <? 0) with false. change (-1 <? 0) with true. cbv iota.
  rewrite Z.min_l by lia. change (Z.to_nat 0) with 0%nat. cbn [skipn].
  rewrite <- firstn_pred_removelast. f_equal. lia.
Qed.

Lemma slice_1_m1 {A : Type} (a : list A) :
  Np.slice a (Some 1) (Some (-1)) = removelast (tl a).
Proof.
  unfold Np.slice, Np.clamp_index.
  change (1 <? 0) with false. change (-1 <? 0) with true. cbv iota.
  destruct a as [|x a]; [reflexivity|].
  replace (Z.to_nat (Z.min 1 (Z.of_nat (length (x :: a))))) with 1%nat
    by (simpl length; lia).
  cbn [skipn tl]. rewrite <- firstn_pred_removelast. f_equal. simpl length. lia.
Qed.

Lemma getitem_first {A : Type} (x : A) (a : list A) :
  Np.getitem (x :: a) 0 = Ok x.
Proof. apply (getitem_nat (x :: a) 0 x). simpl. lia. Qed.

Lemma getitem_last {A : Type} (a : list A) (d : A) :
  a <> [] -> Np.getitem a (-1) = Ok (last a d).
Proof.
  intros Hne. destruct (exists_last Hne) as [l [y ->]].
  rewrite last_last. unfold Np.getitem.
  change (-1 <? 0) with true. cbv iota.
  rewrite length_app. simpl length.
  replace (Z.of_nat (length l + 1) + -1) with (Z.of_nat (length l)) by lia.
  replace ((0 <=? Z.of_nat (length l))
           && (Z.of_nat (length l) <? Z.of_nat (length l + 1))) with true
    by (symmetry; apply andb_true_iff; split; [apply Z.leb_le | apply Z.ltb_lt]; lia).
  rewrite Nat2Z.id, nth_error_app2, Nat.sub_diag by lia. reflexivity.
Qed.

(** Dropping the last candidate gap when it is empty. *)
Lemma tail_gaps_fst (e : Z) (k : list (Z * Z)) (hi : Z) :
  map fst (tail_gaps e k hi)
  = if last (e :: map snd k) 0 >=? hi
    then removelast (e :: map snd k) else e :: map snd k.
Proof.
  revert e; induction k as [|[s' e'] k IH]; intros e.
  - cbn [tail_gaps map last]. rewrite Z.geb_leb.
    destruct (Z.ltb_spec e hi), (Z.leb_spec hi e); try lia; reflexivity.
  - cbn [tail_gaps map fst snd]. rewrite IH.
    change (last (e :: e' :: map snd k) 0) with (last (e' :: map snd k) 0).
    destruct (last (e' :: map snd k) 0 >=? hi); reflexivity.
Qed.

Lemma tail_gaps_snd (e : Z) (k : list (Z * Z)) (hi : Z) :
  map snd (tail_gaps e k hi)
  = if last (e :: map snd k) 0 >=? hi
    then removelast (map fst k ++ [hi]) else map fst k ++ [hi].
Proof.
  revert e; induction k as [|[s' e'] k IH]; intros e.
  - cbn [tail_gaps map last app]. rewrite Z.geb_leb.
    destruct (Z.ltb_spec e hi), (Z.leb_spec hi e); try lia; reflexivity.
  - cbn [tail_gaps map fst snd]. rewrite IH.
    change (last (e :: e' :: map snd k) 0) with (last (e' :: map snd k) 0).
    destruct (last (e' :: map snd k) 0 >=? hi); [|reflexivity].
    cbn [app]. rewrite (removelast_cons s') by (destruct (map fst k); discriminate).
    reflexivity.
Qed.

(** The trimming at the end of [complement_intervals]. *)
Lemma complement_trim (lo hi : Z) (kept : list (Z * Z)) :
  (let complement_starts := lo :: map snd kept in
   let complement_ends := map fst kept ++ [hi] in
   s0 <- Np.getitem complement_starts 0 ;;
   e0 <- Np.getitem complement_ends 0 ;;
   let lo' := if s0 >=? e0 then 1 else 0 in
   sl <- Np.getitem complement_starts (-1) ;;
   el <- Np.getitem complement_ends (-1) ;;
   let hi' := if sl >=? el then Some (-1) else None in
   Ok (Np.slice complement_starts (Some lo') hi',
       Np.slice complement_ends (Some lo') hi'))
  = Ok (map fst (gaps_between lo kept hi), map snd (gaps_between lo kept hi)).
Proof.
  cbv zeta. rewrite getitem_first. cbn [bind].
  rewrite (getitem_last (lo :: map snd kept) 0) by discriminate.
  rewrite (getitem_last (map fst kept ++ [hi]) 0)
    by (destruct (map fst kept); discriminate).
  rewrite last_last.
  destruct kept as [|[s1 e1] k].
  - cbn [map app last gaps_between]. rewrite getitem_first. cbn [bind].
    rewrite Z.geb_leb.
    destruct (Z.ltb_spec lo hi), (Z.leb_spec hi lo); try lia; reflexivity.
  - cbn [map fst snd app]. rewrite getitem_first. cbn [bind gaps_between].
    change (last (lo :: e1 :: map snd k) 0) with (last (e1 :: map snd k) 0).
    rewrite !map_app, tail_gaps_fst, tail_gaps_snd.
    rewrite Z.geb_leb.
    destruct (Z.ltb_spec lo s1), (Z.leb_spec s1 lo); try lia;
      destruct (last (e1 :: map snd k) 0 >=? hi);
      rewrite ?slice_all, ?slice_from_1, ?slice_0_m1, ?slice_1_m1; cbn [tl map app];
      try reflexivity.
    rewrite (removelast_cons lo) by discriminate.
    rewrite (removelast_cons s1) by (destruct (map fst k); discriminate).
    reflexivity.
Qed.

Lemma complement_intervals_gaps (starts ends : list Z) (bounds : Z * Z) :
  length starts = length ends ->
  let spans := combine (sweep_starts (Some 0) (sort_intervals starts ends))
                       (sweep_ends (Some 0) (sort_intervals starts ends)) in
  let gaps := gaps_between (fst bounds) (kept_spans spans bounds) (snd bounds) in
  complement_intervals starts ends (Some bounds) = Ok (map fst gaps, map snd gaps).
Proof.
  intros Hlen spans gaps. unfold complement_intervals.
  rewrite merge_intervals_sweep by exact Hlen. cbn [bind].
  pose proof (sweep_spans_length (Some 0) (sort_intervals starts ends)) as Hl.
  assert (Hs : sweep_starts (Some 0) (sort_intervals starts ends) = map fst spans)
    by (symmetry; apply map_fst_combine, Hl).
  assert (He : sweep_ends (Some 0) (sort_intervals starts ends) = map snd spans)
    by (symmetry; apply map_snd_combine, Hl).
  subst gaps. clearbody spans. rewrite Hs, He.
  rewrite searchsorted_right_prefix, searchsorted_left_prefix.
  rewrite !slice_nat, !skipn_map, !firstn_map.
  fold (kept_spans spans bounds).
  apply complement_trim.
Qed.

(** ** The spans kept inside the bounds *)

Lemma separated_spans_tail (md : option Z) (p : Z * Z) (q : list (Z * Z)) :
  separated_spans md (p :: q) -> separated_spans md q.
Proof. destruct p as [s e]. cbn [separated_spans]. tauto. Qed.

Lemma separated_spans_bounds (md : option Z) (s e : Z) (q : list (Z * Z)) :
  separated_spans md ((s, e) :: q) ->
  Forall (fun p => s <= fst p /\ e <= snd p) q.
Proof.
  revert s e; induction q as [|[s' e'] q IH]; intros s e H; [constructor|].
  cbn [separated_spans] in H. destruct H as [[Hs [He _]] Htl].
  constructor; [simpl; lia|].
  eapply Forall_impl; [|apply (IH s' e')].
  - simpl. intros p Hp. lia.
  - exact Htl.
Qed.

Lemma separated_spans_next (s e : Z) (q : list (Z * Z)) :
  separated_spans (Some 0) ((s, e) :: q) ->
  Forall (fun p => fst p <= snd p) q ->
  Forall (fun p => e < fst p) q.
Proof.
  intros H Hwf. destruct q as [|[s' e'] q]; [constructor|].
  pose proof (separated_spans_bounds _ _ _ _ (separated_spans_tail _ _ _ H)) as Hb.
  cbn [separated_spans] in H. destruct H as [[_ [_ Hbd]] _].
  apply is_border_zero in Hbd.
  constructor; [simpl; lia|].
  weaken_forall Hb.
Qed.

Lemma separated_spans_prefix (md : option Z) (n : nat) (q : list (Z * Z)) :
  separated_spans md q -> separated_spans md (firstn n q).
Proof.
  revert q; induction n as [|n IH]; intros [|[s e] q] H; try exact I.
  cbn [firstn]. cbn [separated_spans] in *. destruct H as [Hhd Htl].
  split; [|apply IH, Htl].
  destruct n as [|n]; [exact I|].
  destruct q as [|[s' e'] q]; [exact I|exact Hhd].
Qed.

Lemma prefix_len_holds {A : Type} (f : A -> bool) (a : list A) :
  Forall (fun x => f x = true) (firstn (prefix_len f a) a).
Proof.
  induction a as [|x a IH]; [constructor|].
  cbn [prefix_len]. destruct (f x) eqn:E; [|constructor].
  cbn [firstn]. constructor; auto.
Qed.

Lemma Forall_firstn {A : Type} (P : A -> Prop) (n : nat) (a : list A) :
  Forall P a -> Forall P (firstn n a).
Proof.
  revert a; induction n as [|n IH]; intros [|x a] H; try constructor.
  - inversion H; auto.
  - apply IH. inversion H; auto.
Qed.

Lemma not_covers_before (x : Z) (q : list (Z * Z)) :
  Forall (fun p => x < fst p) q -> ~ covers q x.
Proof.
  intros H Hc. unfold covers in Hc. rewrite Exists_exists in Hc.
  destruct Hc as [p [Hin Hp]]. rewrite Forall_forall in H. specialize (H p Hin). lia.
Qed.

(** Of spans in ascending order, those that start below [hi]: a prefix that
    covers every point below [hi] that the spans cover. *)
Lemma starting_below (hi : Z) (q : list (Z * Z)) :
  separated_spans (Some 0) q ->
  forall x, x < hi ->
    (covers (firstn (prefix_len (fun p => fst p <? hi) q) q) x <-> covers q x).
Proof.
  induction q as [|[s e] q IH]; intros Hsep x Hx; [reflexivity|].
  cbn [prefix_len fst]. destruct (Z.ltb_spec s hi) as [Hs|Hs].
  - cbn [firstn]. rewrite !covers_cons.
    rewrite IH by (eauto using separated_spans_tail). reflexivity.
  - cbn [firstn]. split; [intros H; destruct (covers_nil _ H)|].
    intros H. exfalso. revert H. apply not_covers_before.
    constructor; [simpl; lia|].
    eapply Forall_impl; [|apply (separated_spans_bounds _ _ _ _ Hsep)].
    simpl. intros p Hp. lia.
Qed.

Lemma kept_spans_cons (p : Z * Z) (q : list (Z * Z)) (bounds : Z * Z) :
  kept_spans (p :: q) bounds
  = if snd p <=? fst bounds
    then if fst p <? snd bounds then kept_spans q bounds else []
    else if fst p <? snd bounds
         then p :: firstn (prefix_len (fun p => fst p <? snd bounds) q) q
         else [].
Proof.
  unfold kept_spans. cbn [prefix_len].
  destruct (snd p <=? fst bounds), (fst p <? snd bounds); reflexivity.
Qed.

Lemma Forall_skipn {A : Type} (P : A -> Prop) (n : nat) (a : list A) :
  Forall P a -> Forall P (skipn n a).
Proof.
  revert a; induction n as [|n IH]; intros [|x a] H; try constructor; auto.
  - inversion H; auto.
  - inversion H; auto.
  - apply IH. inversion H; auto.
Qed.

Lemma kept_spans_Forall (P : Z * Z -> Prop) (q : list (Z * Z)) (bounds : Z * Z) :
  Forall P q -> Forall P (kept_spans q bounds).
Proof. intros H. unfold kept_spans. apply Forall_firstn, Forall_skipn, H. Qed.

Lemma kept_spans_properties (lo hi : Z) (q : list (Z * Z)) :
  separated_spans (Some 0) q ->
  let kept := kept_spans q (lo, hi) in
  separated_spans (Some 0) kept
  /\ Forall (fun p => lo < snd p /\ fst p < hi) kept
  /\ forall x, lo <= x < hi -> (covers kept x <-> covers q x).
Proof.
  induction q as [|[s e] q IH]; intros Hsep.
  - cbv zeta. unfold kept_spans. simpl.
    split; [exact I|]. split; [constructor|].
    intros x _. reflexivity.
  - pose proof (separated_spans_tail _ _ _ Hsep) as Hsep'.
    pose proof (separated_spans_bounds _ _ _ _ Hsep) as Hbd.
    assert (Hout : s >= hi -> forall x, x < hi -> ~ covers ((s, e) :: q) x).
    { intros Hs x Hx. apply not_covers_before.
      constructor; [simpl; lia|].
      weaken_forall Hbd. }
    cbv zeta. rewrite kept_spans_cons. cbn [fst snd].
    destruct (Z.leb_spec e lo) as [He|He]; destruct (Z.ltb_spec s hi) as [Hs|Hs].
    + destruct (IH Hsep') as [H2 [H3 H4]].
      split; [exact H2|]. split; [exact H3|].
      intros x Hx. rewrite covers_cons, (H4 x Hx). simpl.
      split; [tauto|]. intros [H|H]; [lia|exact H].
    + split; [exact I|]. split; [constructor|].
      intros x Hx. split; intros H.
      * destruct (covers_nil _ H).
      * destruct (Hout (Z.le_ge _ _ Hs) x (proj2 Hx) H).
    + set (t := firstn (prefix_len (fun p => fst p <? hi) q) q).
      assert (Ht : Forall (fun p => (fst p <? hi) = true) t) by apply prefix_len_holds.
      split; [|split].
      * apply (separated_spans_prefix (Some 0) (S (prefix_len (fun p => fst p <? hi) q))
                 ((s, e) :: q)), Hsep.
      * constructor; [simpl; lia|].
        assert (Hq : Forall (fun p => lo < snd p) t).
        { apply Forall_firstn. weaken_forall Hbd. }
        rewrite Forall_forall in *. intros p Hp. split; [apply Hq, Hp|].
        apply Z.ltb_lt, Ht, Hp.
      * intros x Hx. rewrite !covers_cons. unfold t.
        rewrite (starting_below hi q Hsep' x) by lia. reflexivity.
    + split; [exact I|]. split; [constructor|].
      intros x Hx. split; intros H.
      * destruct (covers_nil _ H).
      * destruct (Hout (Z.le_ge _ _ Hs) x (proj2 Hx) H).
Qed.

(** ** The gaps between the kept spans *)

Lemma not_covers_gaps_from (x e : Z) (g : list (Z * Z)) :
  Forall (fun p => e <= fst p) g -> x < e -> ~ covers g x.
Proof.
  intros H Hx. apply not_covers_before.
  weaken_forall H.
Qed.

Lemma tail_gaps_properties (s0 e hi : Z) (k : list (Z * Z)) :
  Forall (fun p => fst p <= snd p) k ->
  separated_spans (Some 0) ((s0, e) :: k) ->
  Forall (fun p => fst p < hi) k ->
  Forall (fun g => e <= fst g /\ fst g < snd g /\ snd g <= hi) (tail_gaps e k hi)
  /\ StronglySorted (fun g g' => snd g <= fst g') (tail_gaps e k hi)
  /\ forall x, e <= x < hi -> (covers (tail_gaps e k hi) x <-> ~ covers k x).
Proof.
  revert s0 e; induction k as [|[s' e'] k IH]; intros s0 e Hwf Hsep Hhi.
  - cbn [tail_gaps]. destruct (Z.ltb_spec e hi) as [He|He].
    + split; [|split].
      * constructor; [simpl; lia|constructor].
      * constructor; constructor.
      * intros x Hx. rewrite covers_cons. simpl.
        pose proof (covers_nil x). tauto.
    + split; [constructor|]. split; [constructor|]. intros x Hx. lia.
  - inversion Hwf as [|? ? Hse Hwf']; subst. inversion Hhi as [|? ? Hs Hhi']; subst.
    simpl in Hse, Hs.
    pose proof (separated_spans_tail _ _ _ Hsep) as Hsep'.
    pose proof (separated_spans_next _ _ _ Hsep' Hwf') as Hnext.
    assert (Hes : e < s').
    { cbn [separated_spans] in Hsep. destruct Hsep as [[_ [_ Hb]] _].
      apply is_border_zero in Hb. lia. }
    destruct (IH s' e' Hwf' Hsep' Hhi') as [T1 [T2 T3]].
    cbn [tail_gaps]. split; [|split].
    + constructor; [simpl; lia|].
      weaken_forall T1.
    + constructor; [exact T2|].
      weaken_forall T1.
    + intros x Hx. rewrite !covers_cons. simpl.
      destruct (Z.lt_ge_cases x s') as [Hx1|Hx1]; [|destruct (Z.lt_ge_cases x e') as [Hx2|Hx2]].
      * assert (~ covers k x).
        { apply not_covers_before. weaken_forall Hnext. }
        split; [intros _ [H'|H']; [lia|tauto] | intros _; left; lia].
      * assert (~ covers (tail_gaps e' k hi) x).
        { eapply not_covers_gaps_from; [|exact Hx2].
          weaken_forall T1. }
        split; [intros [H'|H']; [lia|tauto] | intros H'; exfalso; apply H'; left; lia].
      * rewrite (T3 x) by lia.
        split; [intros [H'|H'] [H''|H'']; try lia; tauto
               | intros H'; right; intros H''; apply H'; right; exact H''].
Qed.

Lemma gaps_between_properties (lo hi : Z) (k : list (Z * Z)) :
  Forall (fun p => fst p <= snd p) k ->
  separated_spans (Some 0) k ->
  Forall (fun p => lo < snd p /\ fst p < hi) k ->
  Forall (fun g => lo <= fst g /\ fst g < snd g /\ snd g <= hi) (gaps_between lo k hi)
  /\ StronglySorted (fun g g' => snd g <= fst g') (gaps_between lo k hi)
  /\ forall x, lo <= x < hi -> (covers (gaps_between lo k hi) x <-> ~ covers k x).
Proof.
  intros Hwf Hsep Hin. destruct k as [|[s1 e1] k].
  - cbn [gaps_between]. destruct (Z.ltb_spec lo hi) as [He|He].
    + split; [|split].
      * constructor; [simpl; lia|constructor].
      * constructor; constructor.
      * intros x Hx. rewrite covers_cons. simpl.
        pose proof (covers_nil x). tauto.
    + split; [constructor|]. split; [constructor|]. intros x Hx. lia.
  - inversion Hwf as [|? ? Hse Hwf']; subst. inversion Hin as [|? ? Hs Hin']; subst.
    simpl in Hse, Hs.
    pose proof (separated_spans_next _ _ _ Hsep Hwf') as Hnext.
    destruct (tail_gaps_properties s1 e1 hi k Hwf' Hsep) as [T1 [T2 T3]].
    { weaken_forall Hin'. }
    assert (T1' : Forall (fun g => lo <= fst g /\ fst g < snd g /\ snd g <= hi)
                    (tail_gaps e1 k hi)).
    { weaken_forall T1. }
    assert (Hcov : forall x, lo <= x < hi ->
              (lo <= x < s1 \/ covers (tail_gaps e1 k hi) x)
              <-> ~ (s1 <= x < e1 \/ covers k x)).
    { intros x Hx.
      destruct (Z.lt_ge_cases x s1) as [Hx1|Hx1]; [|destruct (Z.lt_ge_cases x e1) as [Hx2|Hx2]].
      - assert (~ covers k x).
        { apply not_covers_before. weaken_forall Hnext. }
        split; [intros _ [H'|H']; [lia|tauto] | intros _; left; lia].
      - assert (~ covers (tail_gaps e1 k hi) x).
        { eapply not_covers_gaps_from; [|exact Hx2].
          weaken_forall T1. }
        split; [intros [H'|H']; [lia|tauto] | intros H'; exfalso; apply H'; left; lia].
      - rewrite (T3 x) by lia.
        split; [intros [H'|H'] [H''|H'']; try lia; tauto
               | intros H'; right; intros H''; apply H'; right; exact H'']. }
    cbn [gaps_between]. destruct (Z.ltb_spec lo s1) as [Hl|Hl]; cbn [app].
    + split; [|split].
      * constructor; [simpl; lia|exact T1'].
      * constructor; [exact T2|].
        weaken_forall T1.
      * intros x Hx. rewrite !covers_cons. simpl. apply Hcov, Hx.
    + split; [exact T1'|]. split; [exact T2|].
      intros x Hx. rewrite covers_cons. simpl.
      rewrite <- (Hcov x Hx). split; [tauto|]. intros [H'|H']; [lia|exact H'].
Qed.

Lemma covers_dec (l : list (Z * Z)) (x : Z) : {covers l x} + {~ covers l x}.
Proof.
  unfold covers. apply Exists_dec. intros p.
  destruct (Z_le_dec (fst p) x); [|right; lia].
  destruct (Z_lt_dec x (snd p)); [left; lia | right; lia].
Qed.

Lemma covers_within (lo hi : Z) (g : list (Z * Z)) (x : Z) :
  Forall (fun p => lo <= fst p /\ fst p < snd p /\ snd p <= hi) g ->
  covers g x -> lo <= x < hi.
Proof.
  intros H Hc. unfold covers in Hc. rewrite Exists_exists in Hc.
  destruct Hc as [p [Hin Hp]]. rewrite Forall_forall in H. specialize (H p Hin). lia.
Qed.

(** C5.  On well-formed intervals the gaps returned by [complement_intervals]
    for bounds [(lo, hi)] are non-empty intervals inside the bounds, each
    ending at or before the start of every later one; a point of [lo, hi) is
    in a gap or covered by an interval, every point in a gap is in [lo, hi),
    and no point is both in a gap and covered by an interval.  (This needs no
    assumption on the bounds: for [hi <= lo] there is no gap.) *)
Theorem complement_intervals_correct (starts ends : list Z) (lo hi : Z) :
  Forall2 Z.le starts ends ->
  exists cstarts cends,
    complement_intervals starts ends (Some (lo, hi)) = Ok (cstarts, cends)
    /\ length cstarts = length cends
    /\ Forall (fun g => lo <= fst g /\ fst g < snd g /\ snd g <= hi)
         (combine cstarts cends)
    /\ StronglySorted (fun g g' => snd g <= fst g') (combine cstarts cends)
    /\ (forall x,
          covers (combine cstarts cends) x
          \/ (covers (combine starts ends) x /\ lo <= x < hi)
          <-> lo <= x < hi)
    /\ (forall x,
          ~ (covers (combine cstarts cends) x /\ covers (combine starts ends) x)).
Proof.
  intros Hwf.
  pose proof (Forall2_same_length _ _ _ Hwf) as Hlen.
  pose proof (complement_intervals_gaps starts ends (lo, hi) Hlen) as Hc.
  destruct (merged_spans_cover starts ends Hwf) as [Q1 [Q2 Q3]].
  cbv zeta in Hc, Q1, Q2, Q3.
  set (spans := combine (sweep_starts (Some 0) (sort_intervals starts ends))
                        (sweep_ends (Some 0) (sort_intervals starts ends))) in *.
  destruct (kept_spans_properties lo hi spans Q2) as [K2 [K3 K4]].
  cbv zeta in K2, K3, K4.
  pose proof (kept_spans_Forall _ _ (lo, hi) Q1) as K1.
  destruct (gaps_between_properties lo hi _ K1 K2 K3) as [G1 [G2 G3]].
  cbn [fst snd] in Hc. set (gaps := gaps_between lo (kept_spans spans (lo, hi)) hi) in *.
  exists (map fst gaps), (map snd gaps).
  rewrite combine_fst_snd.
  assert (Hiff : forall x, lo <= x < hi ->
            (covers gaps x <-> ~ covers (combine starts ends) x)).
  { intros x Hx. rewrite (G3 x Hx), (K4 x Hx), (Q3 x). reflexivity. }
  split; [exact Hc|].
  split; [rewrite !length_map; reflexivity|].
  split; [exact G1|].
  split; [exact G2|].
  split.
  - intros x. split.
    + intros [H|[_ H]]; [eapply covers_within; eauto | exact H].
    + intros Hx. destruct (covers_dec (combine starts ends) x) as [H|H].
      * right. split; assumption.
      * left. apply (Hiff x Hx), H.
  - intros x [Hg Hi]. pose proof (covers_within _ _ _ _ G1 Hg) as Hx.
    apply (Hiff x Hx) in Hg. apply Hg, Hi.
Qed.

Lemma complement_intervals_correct_witness :
  Forall2 Z.le [1; 10] [5; 12]
  /\ exists cstarts cends,
       complement_intervals [1; 10] [5; 12] (Some (0, 15)) = Ok (cstarts, cends)
       /\ length cstarts = length cends.
Proof.
  assert (H : Forall2 Z.le [1; 10] [5; 12]) by (repeat constructor; lia).
  split; [exact H|].
  destruct (complement_intervals_correct [1; 10] [5; 12] 0 15 H)
    as [cs [ce [Hc [Hl _]]]].
  exists cs, ce. split; [exact Hc | exact Hl].
Defined.

(** ** The default bounds *)

Lemma tail_gaps_bounds (s0 e hi : Z) (k : list (Z * Z)) :
  separated_spans (Some 0) ((s0, e) :: k) ->
  Forall (fun p => fst p < hi) k ->
  Forall (fun g => e <= fst g /\ fst g < snd g /\ snd g <= hi) (tail_gaps e k hi).
Proof.
  revert s0 e; induction k as [|[s' e'] k IH]; intros s0 e Hsep Hhi.
  - cbn [tail_gaps]. destruct (Z.ltb_spec e hi) as [He|He]; [|constructor].
    constructor; [simpl; lia|constructor].
  - inversion Hhi as [|? ? Hs Hhi']; subst. simpl in Hs.
    pose proof (separated_spans_tail _ _ _ Hsep) as Hsep'.
    cbn [separated_spans] in Hsep. destruct Hsep as [[_ [He Hb]] _].
    apply is_border_zero in Hb.
    cbn [tail_gaps]. constructor; [simpl; lia|].
    eapply Forall_impl; [|exact (IH s' e' Hsep' Hhi')]. simpl. intros g Hg. lia.
Qed.

Lemma gaps_between_bounds (lo hi : Z) (k : list (Z * Z)) :
  separated_spans (Some 0) k ->
  Forall (fun p => lo < snd p /\ fst p < hi) k ->
  Forall (fun g => lo <= fst g /\ fst g < snd g /\ snd g <= hi) (gaps_between lo k hi).
Proof.
  intros Hsep Hin. destruct k as [|[s1 e1] k]; cbn [gaps_between].
  - destruct (Z.ltb_spec lo hi) as [He|He]; [|constructor].
    constructor; [simpl; lia|constructor].
  - inversion Hin as [|? ? Hs Hin']; subst. simpl in Hs.
    apply Forall_app. split.
    + destruct (Z.ltb_spec lo s1) as [Hl|Hl]; [|constructor].
      constructor; [simpl; lia|constructor].
    + eapply Forall_impl; [|apply (tail_gaps_bounds s1 e1 hi k Hsep)].
      * simpl. intros g Hg. lia.
      * weaken_forall Hin'.
Qed.

Lemma tail_gaps_last (e hi : Z) (k : list (Z * Z)) :
  e < hi -> Forall (fun p => snd p < hi) k ->
  exists front e', tail_gaps e k hi = front ++ [(e', hi)].
Proof.
  revert e; induction k as [|[s' e'] k IH]; intros e He Hk.
  - exists [], e. cbn [tail_gaps]. destruct (Z.ltb_spec e hi); [reflexivity|lia].
  - inversion Hk as [|? ? He' Hk']; subst. simpl in He'.
    destruct (IH e' He' Hk') as [front [e'' Heq]].
    exists ((e, s') :: front), e''. cbn [tail_gaps]. rewrite Heq. reflexivity.
Qed.

Lemma gaps_between_last (lo hi : Z) (k : list (Z * Z)) :
  lo < hi -> Forall (fun p => snd p < hi) k ->
  exists front e', gaps_between lo k hi = front ++ [(e', hi)].
Proof.
  intros Hb Hk. destruct k as [|[s1 e1] k]; cbn [gaps_between].
  - exists [], lo. destruct (Z.ltb_spec lo hi); [reflexivity|lia].
  - inversion Hk as [|? ? He Hk']; subst. simpl in He.
    destruct (tail_gaps_last e1 hi k He Hk') as [front [e' Heq]].
    exists ((if lo <? s1 then [(lo, s1)] else []) ++ front), e'.
    rewrite Heq, app_assoc. reflexivity.
Qed.

Lemma ends_from_bound (md : option Z) (hi r : Z) (l : list (Z * Z)) :
  r < hi -> Forall (fun p => snd p < hi) l ->
  Forall (fun e => e < hi) (ends_from md r l).
Proof.
  revert r; induction l as [|[s e] l IH]; intros r Hr Hl.
  - constructor; [exact Hr|constructor].
  - inversion Hl as [|? ? He Hl']; subst. simpl in He.
    cbn [ends_from]. destruct (is_border md s r).
    + constructor; [exact Hr|]. apply IH; [lia|exact Hl'].
    + apply IH; [lia|exact Hl'].
Qed.

Lemma Forall_combine_snd {A B : Type} (P : B -> Prop) (a : list A) (b : list B) :
  Forall P b -> Forall (fun p => P (snd p)) (combine a b).
Proof.
  intros H. apply Forall_forall. intros [x y] Hin.
  apply in_combine_r in Hin. rewrite Forall_forall in H. apply H, Hin.
Qed.

Lemma merged_ends_bound (starts ends : list Z) (hi : Z) :
  length starts = length ends ->
  Forall (fun e => e < hi) ends ->
  Forall (fun p => snd p < hi)
    (combine (sweep_starts (Some 0) (sort_intervals starts ends))
             (sweep_ends (Some 0) (sort_intervals starts ends))).
Proof.
  intros Hlen He. apply (Forall_combine_snd (fun e => e < hi)).
  assert (Hs : Forall (fun p => snd p < hi) (sort_intervals starts ends)).
  { apply Forall_forall. intros p Hin.
    apply (Permutation_in _ (sort_intervals_perm starts ends)) in Hin.
    pose proof (Forall_combine_snd (fun e => e < hi) starts ends He) as H.
    rewrite Forall_forall in H. apply H, Hin. }
  destruct (sort_intervals starts ends) as [|[s0 e0] l]; [constructor|].
  inversion Hs as [|? ? H0 Hl]; subst. simpl in H0.
  cbn [sweep_ends]. apply ends_from_bound; assumption.
Qed.

Lemma int64_max_pos : 0 < int64_max.
Proof. reflexivity. Qed.

Lemma covers_filter_above (lo : Z) (l : list (Z * Z)) (x : Z) :
  lo <= x -> (covers (filter (fun p => lo <? snd p) l) x <-> covers l x).
Proof.
  intros Hx. unfold covers. rewrite !Exists_exists. split.
  - intros [p [Hin Hp]]. apply filter_In in Hin. exists p. tauto.
  - intros [p [Hin Hp]]. exists p. split; [|exact Hp].
    apply filter_In. split; [exact Hin|]. apply Z.ltb_lt. lia.
Qed.

(** C10.  Without a [bounds] argument [complement_intervals] works with the
    bounds [(0, 2^63 - 1)].  Every gap it reports is a non-empty interval
    inside [0, 2^63 - 1], so none is at a negative coordinate; when no
    interval reaches [2^63 - 1] there is a last gap and it ends at
    [2^63 - 1]; and, on well-formed intervals, the points in the gaps are the
    points of [0, 2^63 - 1) that no interval ending above 0 covers, so that
    intervals that lie at or below 0 play no part. *)
Theorem complement_intervals_default_bounds (starts ends : list Z) :
  length starts = length ends ->
  complement_intervals starts ends None
  = complement_intervals starts ends (Some (0, 2 ^ 63 - 1))
  /\ exists cstarts cends,
       complement_intervals starts ends None = Ok (cstarts, cends)
       /\ Forall (fun g => 0 <= fst g /\ fst g < snd g /\ snd g <= 2 ^ 63 - 1)
            (combine cstarts cends)
       /\ (Forall (fun e => e < 2 ^ 63 - 1) ends ->
           exists front s, combine cstarts cends = front ++ [(s, 2 ^ 63 - 1)])
       /\ (Forall2 Z.le starts ends ->
           forall x,
             covers (combine cstarts cends) x
             <-> 0 <= x < 2 ^ 63 - 1
                 /\ ~ covers (filter (fun p => 0 <? snd p) (combine starts ends)) x).
Proof.
  intros Hlen. split; [reflexivity|].
  change (2 ^ 63 - 1) with int64_max.
  change (complement_intervals starts ends None)
    with (complement_intervals starts ends (Some (0, int64_max))).
  pose proof (complement_intervals_gaps starts ends (0, int64_max) Hlen) as Hc.
  cbv zeta in Hc. cbn [fst snd] in Hc.
  set (spans := combine (sweep_starts (Some 0) (sort_intervals starts ends))
                        (sweep_ends (Some 0) (sort_intervals starts ends))) in *.
  assert (Q2 : separated_spans (Some 0) spans)
    by (apply sweep_separated, sort_intervals_sorted).
  destruct (kept_spans_properties 0 int64_max spans Q2) as [K2 [K3 K4]].
  cbv zeta in K2, K3, K4.
  pose proof (gaps_between_bounds 0 int64_max _ K2 K3) as G1.
  set (gaps := gaps_between 0 (kept_spans spans (0, int64_max)) int64_max) in *.
  exists (map fst gaps), (map snd gaps). rewrite combine_fst_snd.
  split; [exact Hc|]. split; [exact G1|]. split.
  - intros He. apply gaps_between_last; [exact int64_max_pos|].
    apply kept_spans_Forall, merged_ends_bound; assumption.
  - intros Hwf x.
    destruct (merged_spans_cover starts ends Hwf) as [Q1 [_ Q3]].
    cbv zeta in Q1, Q3. fold spans in Q1, Q3.
    pose proof (kept_spans_Forall _ _ (0, int64_max) Q1) as K1.
    destruct (gaps_between_properties 0 int64_max _ K1 K2 K3) as [_ [_ G3]].
    fold gaps in G3. split.
    + intros Hg. pose proof (covers_within _ _ _ _ G1 Hg) as Hx.
      split; [exact Hx|].
      rewrite covers_filter_above by lia.
      rewrite <- (Q3 x), <- (K4 x Hx). apply (G3 x Hx), Hg.
    + intros [Hx Hn]. apply (G3 x Hx). rewrite (K4 x Hx), (Q3 x).
      rewrite covers_filter_above in Hn by lia. exact Hn.
Qed.

Lemma complement_intervals_default_bounds_witness :
  length [-7; 1; 10] = length [-3; 5; 12]
  /\ Forall (fun e => e < 2 ^ 63 - 1) [-3; 5; 12]
  /\ Forall2 Z.le [-7; 1; 10] [-3; 5; 12]
  /\ exists cstarts cends,
       complement_intervals [-7; 1; 10] [-3; 5; 12] None = Ok (cstarts, cends)
       /\ (exists front s, combine cstarts cends = front ++ [(s, 2 ^ 63 - 1)])
       /\ (covers (combine cstarts cends) 7
           <-> 0 <= 7 < 2 ^ 63 - 1
               /\ ~ covers (filter (fun p => 0 <? snd p)
                              (combine [-7; 1; 10] [-3; 5; 12])) 7).
Proof.
  assert (He : Forall (fun e => e < 2 ^ 63 - 1) [-3; 5; 12])
    by (repeat constructor; reflexivity).
  assert (Hwf : Forall2 Z.le [-7; 1; 10] [-3; 5; 12]) by (repeat constructor; lia).
  split; [reflexivity|]. split; [exact He|]. split; [exact Hwf|].
  destruct (complement_intervals_default_bounds [-7; 1; 10] [-3; 5; 12] eq_refl)
    as [_ [cs [ce [Hc [_ [Hlast Hpts]]]]]].
  exists cs, ce. split; [exact Hc|]. split; [exact (Hlast He)|exact (Hpts Hwf 7)].
Defined.

(** ** Empty inputs *)

(** C2, as the code has it.  On empty arrays the Range Expander, the Overlap
    Join and the Merger return empty arrays.  The Complement Engine returns
    the whole of the bounds as the one gap when [lo < hi], and no gap
    otherwise. *)
Theorem empty_inputs :
  arange_multi (Arr []) (Some []) None = Ok []
  /\ arange_multi (Arr []) None (Some []) = Ok []
  /\ overlap_intervals [] [] [] [] = Ok []
  /\ (forall min_dist, merge_intervals [] [] min_dist = Ok ([], [], []))
  /\ (forall lo hi,
        complement_intervals [] [] (Some (lo, hi))
        = Ok (if lo <? hi then ([lo], [hi]) else ([], [])))
  /\ complement_intervals [] [] None = Ok ([0], [2 ^ 63 - 1]).
Proof.
  split; [reflexivity|]. split; [reflexivity|]. split; [reflexivity|].
  split; [intros [d|]; reflexivity|].
  split; [|reflexivity].
  intros lo hi.
  pose proof (complement_intervals_gaps [] [] (lo, hi) eq_refl) as H.
  cbv zeta in H. rewrite H.
  cbn [sort_intervals combine stable_sort sweep_starts sweep_ends kept_spans
       prefix_len skipn firstn Nat.sub gaps_between fst snd].
  unfold sort_intervals, kept_spans. cbn.
  destruct (lo <? hi); reflexivity.
Qed.

(** C2, as stated, fails for the Complement Engine: without intervals the
    complement of the bounds [(0, 15)] is the gap [(0, 15)], not empty. *)
Lemma complement_intervals_of_nothing :
  complement_intervals [] [] (Some (0, 15)) = Ok ([0], [15]).
Proof. reflexivity. Qed.

(** Without candidates the last step of [closest_intervals] still builds one
    run, of the rows 0 to 1, and indexing row 0 of no rows raises. *)
Lemma select_closest_empty (k : Z) :
  1 <= k -> select_closest [] k = Raise IndexError.
Proof.
  intros Hk. destruct k as [|p|p]; try lia.
  destruct p; reflexivity.
Qed.

Lemma closest_intervals_empty (k : Z) (ignore_overlaps ignore_upstream ignore_downstream : bool) :
  1 <= k ->
  closest_intervals [] [] [] [] k None ignore_overlaps ignore_upstream ignore_downstream
  = Raise IndexError.
Proof.
  intros Hk. destruct k as [|p|p]; try lia.
  destruct ignore_overlaps, ignore_upstream, ignore_downstream;
    cbn -[select_closest]; apply select_closest_empty, Hk.
Qed.

(** ** List facts for the vectorised steps of the Overlap Join *)

Lemma getitem_in_range {A : Type} (a : list A) (i : Z) (d : A) :
  0 <= i < Z.of_nat (length a) -> Np.getitem a i = Ok (nth (Z.to_nat i) a d).
Proof.
  intros H. rewrite <- (Z2Nat.id i) at 1 by lia. apply getitem_nat. lia.
Qed.

Lemma take_in_range {A : Type} (a : list A) (idx : list Z) (d : A) :
  Forall (fun i => 0 <= i < Z.of_nat (length a)) idx ->
  Np.take a idx = Ok (map (fun i => nth (Z.to_nat i) a d) idx).
Proof.
  induction 1 as [|i idx Hi _ IH]; [reflexivity|].
  cbn [Np.take map]. rewrite (getitem_in_range a i d Hi), IH. reflexivity.
Qed.

Lemma select_filter {A : Type} (t : A -> bool) (l : list A) :
  Np.select l (map t l) = filter t l.
Proof.
  induction l as [|x l IH]; [reflexivity|].
  cbn [map filter]. rewrite select_cons, IH. reflexivity.
Qed.

Lemma select_map_filter {A B : Type} (f : A -> B) (t : A -> bool) (l : list A) :
  Np.select (map f l) (map t l) = map f (filter t l).
Proof.
  induction l as [|x l IH]; [reflexivity|].
  cbn [map filter]. rewrite select_cons, IH. destruct (t x); reflexivity.
Qed.

Lemma zip_with_map_same {A B C D : Type} (f : B -> C -> D) (g : A -> B) (h : A -> C)
    (l : list A) :
  zip_with f (map g l) (map h l) = map (fun x => f (g x) (h x)) l.
Proof. induction l as [|x l IH]; simpl; congruence. Qed.

Lemma combine_app {A B : Type} (a1 a2 : list A) (b1 b2 : list B) :
  length a1 = length b1 ->
  combine (a1 ++ a2) (b1 ++ b2) = combine a1 b1 ++ combine a2 b2.
Proof.
  revert b1; induction a1 as [|x a1 IH]; intros [|y b1] H; simpl in *; try discriminate; auto.
  f_equal. apply IH. lia.
Qed.

Lemma combine_concat_map {A B C : Type} (f : A -> list B) (g : A -> list C) (l : list A) :
  (forall x, In x l -> length (f x) = length (g x)) ->
  combine (concat (map f l)) (concat (map g l))
  = concat (map (fun x => combine (f x) (g x)) l).
Proof.
  induction l as [|x l IH]; intros H; [reflexivity|].
  cbn [map concat]. rewrite combine_app by (apply H; left; reflexivity).
  rewrite IH; [reflexivity|]. intros y Hy. apply H. right. exact Hy.
Qed.

Lemma combine_repeat {A B : Type} (x : A) (l : list B) :
  combine (List.repeat x (length l)) l = map (pair x) l.
Proof. induction l as [|y l IH]; simpl; congruence. Qed.

Lemma prefix_len_le {A : Type} (f : A -> bool) (a : list A) :
  (prefix_len f a <= length a)%nat.
Proof.
  induction a as [|x a IH]; simpl; [lia|]. destruct (f x); simpl; lia.
Qed.

(** On a list along which a test can only switch from true to false, the
    positions before the length of the true prefix are those where the test
    holds. *)
Lemma prefix_len_nth {A : Type} (f : A -> bool) (a : list A) (d : A) :
  (forall i j, (i <= j < length a)%nat -> f (nth j a d) = true -> f (nth i a d) = true) ->
  forall q, (q < length a)%nat ->
    (q < prefix_len f a)%nat <-> f (nth q a d) = true.
Proof.
  induction a as [|x a IH]; intros Hmono q Hq; simpl in Hq; [lia|].
  cbn [prefix_len]. destruct (f x) eqn:Hx.
  - destruct q as [|q]; [simpl; split; [auto|lia]|].
    cbn [nth]. rewrite <- IH; [lia| |lia].
    intros i j Hij Hj. apply (Hmono (S i) (S j)); [simpl; lia|exact Hj].
  - split; [lia|]. intros Hf. exfalso.
    assert (H0 : f (nth 0 (x :: a) d) = true)
      by (apply (Hmono 0%nat q); [simpl; lia|exact Hf]).
    simpl in H0. congruence.
Qed.

(** ** The Overlap Join, step by step *)

Lemma searchsorted_left_prefix_by {A : Type} (g : A -> Z) (l : list A) (v : Z) :
  Np.searchsorted_left (map g l) v = Z.of_nat (prefix_len (fun x => g x <? v) l).
Proof.
  induction l as [|x l IH]; [reflexivity|].
  cbn [map Np.searchsorted_left prefix_len].
  destruct (g x <? v); [rewrite IH; lia | reflexivity].
Qed.

Lemma signed_ids_length (n1 n2 : nat) : length (signed_ids n1 n2) = (n1 + n2)%nat.
Proof.
  unfold signed_ids, Np.neg. rewrite length_app, length_map, !arange2_length. lia.
Qed.

Lemma combine3_nth_seq (a b c : list Z) :
  length a = length b -> length b = length c ->
  map (fun i => (nth i a 0, nth i b 0, nth i c 0)) (seq 0 (length b))
  = combine (combine a b) c.
Proof.
  revert b c; induction a as [|x a IH]; intros [|y b] [|z c] H1 H2;
    simpl in *; try discriminate; auto.
  f_equal. rewrite <- seq_shift, map_map. apply IH; lia.
Qed.

Lemma tagged_through_order (starts ends ids : list Z) :
  length starts = length ends -> length ends = length ids ->
  map (fun i => (nth i starts 0, nth i ends 0, nth i ids 0))
    (stable_sort (Np.lex_leb [starts; ends]) (seq 0 (length ends)))
  = stable_sort tag_leb (combine (combine starts ends) ids).
Proof.
  intros H1 H2.
  rewrite (stable_sort_ext _
             (fun i j => tag_leb (nth i starts 0, nth i ends 0, nth i ids 0)
                                 (nth j starts 0, nth j ends 0, nth j ids 0)))
    by (intros; apply lex_leb_pair).
  rewrite (stable_sort_map (fun i => (nth i starts 0, nth i ends 0, nth i ids 0)) tag_leb).
  rewrite combine3_nth_seq by auto. reflexivity.
Qed.

(** The joint sort of [overlap_intervals]. *)
Lemma overlap_sorted_arrays (starts1 ends1 starts2 ends2 : list Z) :
  length starts1 = length ends1 -> length starts2 = length ends2 ->
  let starts := starts1 ++ starts2 in
  let ends := ends1 ++ ends2 in
  let ids := signed_ids (length starts1) (length starts2) in
  let tagged := sorted_tagged starts1 ends1 starts2 ends2 in
  exists order,
    Np.lexsort [ends; starts] = Ok order
    /\ Np.take starts order = Ok (map (fun t => fst (fst t)) tagged)
    /\ Np.take ends order = Ok (map (fun t => snd (fst t)) tagged)
    /\ Np.take ids order = Ok (map snd tagged).
Proof.
  intros H1 H2 starts ends ids tagged.
  assert (Hse : length starts = length ends)
    by (unfold starts, ends; rewrite !length_app; lia).
  assert (Hei : length ends = length ids).
  { unfold ends, ids. rewrite length_app, signed_ids_length. lia. }
  rewrite (lexsort_pair ends starts) by auto.
  set (ord := stable_sort (Np.lex_leb [starts; ends]) (seq 0 (length ends))).
  exists (map Z.of_nat ord). split; [reflexivity|].
  assert (Hord : Forall (fun i => (i < length ends)%nat) ord)
    by (apply (sorted_indices_bound (A := nat))).
  pose proof (tagged_through_order starts ends ids Hse Hei) as HT.
  fold ord in HT.
  change (stable_sort tag_leb (combine (combine starts ends) ids)) with tagged in HT.
  rewrite (take_nat starts ord 0) by (rewrite Hse; exact Hord).
  rewrite (take_nat ends ord 0) by exact Hord.
  rewrite (take_nat ids ord 0) by (rewrite <- Hei; exact Hord).
  rewrite <- HT, !map_map. repeat split; reflexivity.
Qed.

Lemma match_ranges_fst (tagged : list (Z * Z * Z)) :
  Forall (fun pm => 0 <= fst pm /\ fst pm + 1 < snd pm
                    /\ snd pm <= Z.of_nat (length tagged))
    (match_ranges tagged).
Proof.
  unfold match_ranges. apply Forall_forall. intros [p m] Hin.
  apply filter_In in Hin. destruct Hin as [Hin Hgt]. cbn [fst snd] in *.
  pose proof (in_combine_l _ _ _ _ Hin) as Hp.
  pose proof (in_combine_r _ _ _ _ Hin) as Hm.
  apply arange2_In in Hp. apply in_map_iff in Hm. destruct Hm as [t [<- _]].
  rewrite Z.gtb_ltb, Z.ltb_lt in Hgt.
  unfold match_end in *. pose proof (prefix_len_le (fun t' => fst (fst t') <? snd (fst t)) tagged).
  lia.
Qed.

Lemma length_concat_map {A B C : Type} (f : A -> list B) (g : A -> list C) (l : list A) :
  (forall x, In x l -> length (f x) = length (g x)) ->
  length (concat (map f l)) = length (concat (map g l)).
Proof.
  induction l as [|x l IH]; intros H; [reflexivity|].
  cbn [map concat]. rewrite !length_app, IH.
  - rewrite (H x) by (left; reflexivity). reflexivity.
  - intros y Hy. apply H. right. exact Hy.
Qed.

Lemma Forall2_map_same {A B C : Type} (R : B -> C -> Prop) (f : A -> B) (g : A -> C)
    (l : list A) :
  Forall (fun x => R (f x) (g x)) l -> Forall2 R (map f l) (map g l).
Proof. induction 1; simpl; constructor; auto. Qed.

(** The rows [overlap_intervals] builds from the sorted arrays. *)
Lemma overlap_raw_rows (tagged : list (Z * Z * Z)) :
  (let starts := map (fun t => fst (fst t)) tagged in
   let ends := map (fun t => snd (fst t)) tagged in
   let ids := map snd tagged in
   let match_starts := Np.arange2 0 (Z.of_nat (length tagged)) in
   let match_ends := map (Np.searchsorted_left starts) ends in
   match_mask <- Np.gt match_ends (Np.add_scalar match_starts 1) ;;
   match_starts <- Np.compress match_starts match_mask ;;
   match_ends <- Np.compress match_ends match_mask ;;
   owners <- Np.take ids match_starts ;;
   widths <- Np.sub match_ends match_starts ;;
   col0 <- Np.repeat owners (Np.sub_scalar widths 1) ;;
   matched <- arange_multi (Arr (Np.add_scalar match_starts 1))
                (Some match_ends) None ;;
   col1 <- Np.take ids matched ;;
   Np.vstack_T col0 col1)
  = Ok (raw_overlaps tagged).
Proof.
  cbv zeta.
  set (N := Z.of_nat (length tagged)).
  remember (combine (Np.arange2 0 N) (map (match_end tagged) tagged)) as PE eqn:HPE.
  assert (Hme : map (Np.searchsorted_left (map (fun t => fst (fst t)) tagged))
                  (map (fun t => snd (fst t)) tagged)
                = map (match_end tagged) tagged).
  { rewrite map_map. apply map_ext. intros t.
    apply (searchsorted_left_prefix_by (fun t' => fst (fst t'))). }
  rewrite Hme.
  assert (HlenPE : length (Np.arange2 0 N) = length (map (match_end tagged) tagged)).
  { rewrite arange2_length, length_map. unfold N. lia. }
  assert (Hf : Np.arange2 0 N = map fst PE)
    by (rewrite HPE; symmetry; apply map_fst_combine, HlenPE).
  assert (Hs : map (match_end tagged) tagged = map snd PE)
    by (rewrite HPE; symmetry; apply map_snd_combine, HlenPE).
  rewrite Hf, Hs. clear Hf Hs Hme HlenPE.
  (* the mask *)
  unfold Np.gt, Np.add_scalar. rewrite map_map.
  rewrite broadcast2_same_length by (rewrite !length_map; reflexivity).
  rewrite (zip_with_map_same Z.gtb snd (fun pm => fst pm + 1) PE). cbn [bind].
  unfold Np.compress. rewrite !length_map, Nat.eqb_refl. cbn [bind].
  rewrite !select_map_filter.
  assert (HR0 : filter (fun x => snd x >? fst x + 1) PE = match_ranges tagged)
    by (rewrite HPE; reflexivity).
  rewrite HR0. clear HR0 HPE PE.
  set (R := match_ranges tagged).
  pose proof (match_ranges_fst tagged) as HR. fold R N in HR.
  (* owners *)
  rewrite (take_in_range (map snd tagged) (map fst R) 0).
  2:{ rewrite Forall_map. eapply Forall_impl; [|exact HR].
      simpl. intros pm Hpm. rewrite length_map. fold N. lia. }
  cbn [bind]. rewrite map_map.
  (* widths *)
  unfold Np.sub. rewrite broadcast2_same_length by (rewrite !length_map; reflexivity).
  rewrite (zip_with_map_same Z.sub snd fst R). cbn [bind].
  unfold Np.sub_scalar. rewrite map_map.
  rewrite repeat_same_length.
  2:{ rewrite !length_map. reflexivity. }
  2:{ rewrite Forall_map. eapply Forall_impl; [|exact HR]. simpl. intros; lia. }
  cbn [bind]. unfold Np.repeat_each.
  rewrite (zip_with_map_same (fun x r => List.repeat x (Z.to_nat r))
             (fun pm => nth (Z.to_nat (fst pm)) (map snd tagged) 0)
             (fun pm => snd pm - fst pm - 1) R).
  (* matched *)
  rewrite (map_map fst (fun x => x + 1) R).
  rewrite arange_multi_stops.
  2:{ apply Forall2_map_same. eapply Forall_impl; [|exact HR]. simpl. intros; lia. }
  cbn [bind]. rewrite (zip_with_map_same Np.arange2 (fun pm => fst pm + 1) snd R).
  (* col1 *)
  rewrite (take_in_range (map snd tagged) _ 0).
  2:{ apply Forall_forall. intros q Hq. apply in_concat in Hq.
      destruct Hq as [l [Hl Hq]]. apply in_map_iff in Hl. destruct Hl as [pm [<- Hpm]].
      apply arange2_In in Hq. rewrite Forall_forall in HR. specialize (HR pm Hpm).
      rewrite length_map. fold N. lia. }
  cbn [bind]. rewrite concat_map, map_map.
  (* the two columns side by side *)
  assert (Hrow : forall pm, In pm R ->
            length (List.repeat (nth (Z.to_nat (fst pm)) (map snd tagged) 0)
                      (Z.to_nat (snd pm - fst pm - 1)))
            = length (map (fun i => nth (Z.to_nat i) (map snd tagged) 0)
                        (Np.arange2 (fst pm + 1) (snd pm)))).
  { intros pm _. rewrite repeat_length, length_map, arange2_length. f_equal. lia. }
  unfold Np.vstack_T. rewrite (length_concat_map _ _ R Hrow), Nat.eqb_refl.
  f_equal. rewrite (combine_concat_map _ _ R Hrow).
  unfold raw_overlaps. fold R. f_equal. apply map_ext_in. intros pm Hpm.
  pose proof (Hrow pm Hpm) as Hl. rewrite repeat_length in Hl.
  rewrite Hl, combine_repeat, map_map. reflexivity.
Qed.

Lemma nth_pair (o : list (Z * Z)) (i : nat) :
  nth i o (0, 0) = (nth i (map fst o) 0, nth i (map snd o) 0).
Proof.
  revert i; induction o as [|[a b] o IH]; intros [|i]; simpl; auto.
Qed.

Lemma lexsort_take_pairs (o : list (Z * Z)) :
  (order <- Np.lexsort [map snd o; map fst o] ;; Np.take o order)
  = Ok (stable_sort pair_leb o).
Proof.
  rewrite lexsort_pair by (rewrite !length_map; reflexivity). cbn [bind].
  set (ord := stable_sort (Np.lex_leb [map fst o; map snd o])
                (seq 0 (length (map snd o)))).
  assert (Hord : Forall (fun i => (i < length (map snd o))%nat) ord)
    by (apply (sorted_indices_bound (A := nat))).
  rewrite (take_nat o ord (0, 0)) by (rewrite length_map in Hord; exact Hord).
  f_equal.
  pose proof (sorted_through_order (map fst o) (map snd o)) as H.
  rewrite !length_map in H. specialize (H eq_refl).
  unfold sort_intervals in H. rewrite combine_fst_snd in H.
  rewrite <- H. unfold ord. rewrite length_map.
  apply map_ext. intros i. apply nth_pair.
Qed.

Lemma overlap_finish (o : list (Z * Z)) :
  (prod <- Np.mul (map fst o) (map snd o) ;;
   kept <- Np.compress o (map (fun x => x <=? 0) prod) ;;
   let kept :=
     map (fun p => (Z.min (fst p) (snd p), Z.max (fst p) (snd p))) kept in
   let kept := map (fun p => (fst p * (-1) - 1, snd p - 1)) kept in
   order <- Np.lexsort [map snd kept; map fst kept] ;;
   Np.take kept order)
  = Ok (stable_sort pair_leb (map decode_pair (filter cross_set o))).
Proof.
  unfold Np.mul. rewrite broadcast2_same_length by (rewrite !length_map; reflexivity).
  rewrite (zip_with_map_same Z.mul fst snd o). cbn [bind]. rewrite map_map.
  unfold Np.compress. rewrite length_map, Nat.eqb_refl. cbn [bind].
  rewrite (select_filter (fun p => fst p * snd p <=? 0) o).
  cbv zeta.
  assert (Hd : map (fun p => (fst p * -1 - 1, snd p - 1))
                 (map (fun p => (Z.min (fst p) (snd p), Z.max (fst p) (snd p)))
                    (filter (fun p => fst p * snd p <=? 0) o))
               = map decode_pair (filter cross_set o))
    by (rewrite map_map; reflexivity).
  rewrite Hd. apply lexsort_take_pairs.
Qed.

(** [overlap_intervals] on two interval collections: the raw rows of the
    joint sweep, without same-set rows, decoded and sorted. *)
Lemma overlap_intervals_rows (starts1 ends1 starts2 ends2 : list Z) :
  length starts1 = length ends1 -> length starts2 = length ends2 ->
  overlap_intervals starts1 ends1 starts2 ends2
  = Ok (stable_sort pair_leb
          (map decode_pair
             (filter cross_set
                (raw_overlaps (sorted_tagged starts1 ends1 starts2 ends2))))).
Proof.
  intros H1 H2. unfold overlap_intervals.
  destruct (overlap_sorted_arrays starts1 ends1 starts2 ends2 H1 H2)
    as [order [Ho [Hs [He Hi]]]].
  cbv zeta in Ho, Hs, He, Hi. unfold signed_ids in Hi.
  rewrite Ho. cbn [bind]. rewrite Hs. cbn [bind]. rewrite He. cbn [bind].
  rewrite Hi. cbn [bind].
  set (tagged := sorted_tagged starts1 ends1 starts2 ends2).
  assert (HN : Z.of_nat (length starts1) + Z.of_nat (length starts2)
               = Z.of_nat (length tagged)).
  { unfold tagged, sorted_tagged. rewrite stable_sort_length, !length_combine.
    rewrite !length_app, signed_ids_length. lia. }
  rewrite HN.
  pose proof (overlap_raw_rows tagged) as Hraw. cbv zeta in Hraw.
  destruct (Np.gt _ _) as [mask|]; [|discriminate]. cbn [bind] in *.
  destruct (Np.compress (Np.arange2 0 _) mask) as [ms|]; [|discriminate].
  cbn [bind] in *.
  destruct (Np.compress _ mask) as [me|]; [|discriminate]. cbn [bind] in *.
  destruct (Np.take _ ms) as [owners|]; [|discriminate]. cbn [bind] in *.
  destruct (Np.sub me ms) as [widths|]; [|discriminate]. cbn [bind] in *.
  destruct (Np.repeat owners _) as [col0|]; [|discriminate]. cbn [bind] in *.
  destruct (arange_multi _ _ _) as [matched|]; [|discriminate]. cbn [bind] in *.
  destruct (Np.take _ matched) as [col1|]; [|discriminate]. cbn [bind] in *.
  rewrite Hraw. cbn [bind].
  apply overlap_finish.
Qed.

(** ** Which rows the Overlap Join reports *)

Lemma combine_In_nth {A B : Type} (l1 : list A) (l2 : list B) (a : A) (b : B) (d1 : A) (d2 : B) :
  length l1 = length l2 ->
  (In (a, b) (combine l1 l2)
   <-> exists i, (i < length l1)%nat /\ nth i l1 d1 = a /\ nth i l2 d2 = b).
Proof.
  intros Hlen. split.
  - intros Hin. destruct (In_nth _ _ (d1, d2) Hin) as [i [Hi Hn]].
    rewrite length_combine in Hi. rewrite combine_nth in Hn by exact Hlen.
    exists i. inversion Hn. repeat split; auto. lia.
  - intros [i [Hi [<- <-]]]. rewrite <- combine_nth by exact Hlen.
    apply nth_In. rewrite length_combine. lia.
Qed.

Lemma arange2_nth (a b : Z) (i : nat) :
  (i < Z.to_nat (b - a))%nat -> nth i (Np.arange2 a b) 0 = a + Z.of_nat i.
Proof.
  intros Hi. unfold Np.arange2.
  rewrite nth_indep with (d' := (fun k => a + Z.of_nat k) 0%nat)
    by (rewrite length_map, length_seq; exact Hi).
  rewrite (map_nth (fun k => a + Z.of_nat k)), seq_nth by exact Hi. reflexivity.
Qed.

Lemma neg_arange2_nth (n : nat) (i : nat) :
  (i < n)%nat ->
  nth i (map Z.opp (Np.arange2 1 (Z.of_nat n + 1))) 0 = - (Z.of_nat i + 1).
Proof.
  intros Hi.
  rewrite nth_indep with (d' := Z.opp 0)
    by (rewrite length_map, arange2_length; lia).
  rewrite map_nth, arange2_nth by lia. lia.
Qed.

(** The tagged intervals are the intervals of set 1 with ids [-(i + 1)] and
    those of set 2 with ids [j + 1]. *)
Lemma tagged_members (starts1 ends1 starts2 ends2 : list Z) (t : Z * Z * Z) :
  length starts1 = length ends1 -> length starts2 = length ends2 ->
  (In t (sorted_tagged starts1 ends1 starts2 ends2)
   <-> (exists i, (i < length starts1)%nat
          /\ t = (nth i starts1 0, nth i ends1 0, - (Z.of_nat i + 1)))
       \/ (exists j, (j < length starts2)%nat
          /\ t = (nth j starts2 0, nth j ends2 0, Z.of_nat j + 1))).
Proof.
  intros H1 H2. unfold sorted_tagged, signed_ids, Np.neg.
  assert (Hperm : forall l, In t (stable_sort tag_leb l) <-> In t l).
  { intros l. split; apply Permutation_in;
      [|apply Permutation_sym]; apply stable_sort_perm. }
  rewrite Hperm. clear Hperm.
  rewrite (combine_app starts1 starts2 ends1 ends2 H1).
  rewrite combine_app
    by (rewrite length_combine, length_map, arange2_length; lia).
  rewrite in_app_iff. destruct t as [[s e] id].
  assert (Hl1 : length (combine starts1 ends1)
                = length (map Z.opp (Np.arange2 1 (Z.of_nat (length starts1) + 1))))
    by (rewrite length_combine, length_map, arange2_length; lia).
  assert (Hl2 : length (combine starts2 ends2)
                = length (Np.arange2 1 (Z.of_nat (length starts2) + 1)))
    by (rewrite length_combine, arange2_length; lia).
  rewrite (combine_In_nth _ _ (s, e) id (0, 0) 0 Hl1).
  rewrite (combine_In_nth _ _ (s, e) id (0, 0) 0 Hl2).
  rewrite !length_combine, <- H1, <- H2, !Nat.min_id.
  split.
  - intros [[i [Hi [Hse Hid]]]|[j [Hj [Hse Hid]]]].
    + left. exists i. split; [exact Hi|].
      rewrite combine_nth in Hse by exact H1. inversion Hse; subst.
      rewrite neg_arange2_nth by exact Hi. reflexivity.
    + right. exists j. split; [exact Hj|].
      rewrite combine_nth in Hse by exact H2. inversion Hse; subst.
      rewrite arange2_nth by lia. f_equal. lia.
  - intros [[i [Hi Ht]]|[j [Hj Ht]]]; inversion Ht; subst.
    + left. exists i. split; [exact Hi|].
      rewrite combine_nth by exact H1. split; [reflexivity|].
      apply neg_arange2_nth, Hi.
    + right. exists j. split; [exact Hj|].
      rewrite combine_nth by exact H2. split; [reflexivity|].
      rewrite arange2_nth by lia. lia.
Qed.

Lemma sorted_tagged_sorted (starts1 ends1 starts2 ends2 : list Z) :
  StronglySorted (le_of tag_leb) (sorted_tagged starts1 ends1 starts2 ends2).
Proof.
  apply stable_sort_sorted; unfold tag_leb; intros.
  - apply pair_leb_total.
  - eapply pair_leb_trans; eauto.
Qed.

Lemma StronglySorted_nth {A : Type} (R : A -> A -> Prop) (l : list A) (d : A) :
  StronglySorted R l ->
  forall i j, (i < j < length l)%nat -> R (nth i l d) (nth j l d).
Proof.
  induction 1 as [|x l Hs IH Hx]; intros i j Hij; simpl in Hij; [lia|].
  destruct j as [|j]; [lia|]. destruct i as [|i].
  - cbn [nth]. rewrite Forall_forall in Hx. apply Hx, nth_In. lia.
  - cbn [nth]. apply IH. lia.
Qed.

(** Rows of the sweep: a sorted position paired with a later position whose
    start is below the end of the first. *)
Lemma raw_overlaps_In (tagged : list (Z * Z * Z)) (x y : Z) :
  StronglySorted (le_of tag_leb) tagged ->
  let d := (0, 0, 0) in
  In (x, y) (raw_overlaps tagged)
  <-> exists p q, (p < q < length tagged)%nat
        /\ fst (fst (nth q tagged d)) < snd (fst (nth p tagged d))
        /\ x = snd (nth p tagged d) /\ y = snd (nth q tagged d).
Proof.
  intros Hs d.
  assert (Htag : forall k, tag_at tagged (Z.of_nat k) = snd (nth k tagged d)).
  { intros k. unfold tag_at. rewrite Nat2Z.id.
    change 0 with (snd d) at 1. apply map_nth. }
  assert (Hpre : forall p q, (p < length tagged)%nat -> (q < length tagged)%nat ->
            (Z.of_nat q < match_end tagged (nth p tagged d)
             <-> fst (fst (nth q tagged d)) < snd (fst (nth p tagged d)))).
  { intros p q Hp Hq. unfold match_end.
    rewrite <- Z.ltb_lt with (n := fst (fst (nth q tagged d))).
    rewrite <- (prefix_len_nth
                  (fun t' => fst (fst t') <? snd (fst (nth p tagged d))) tagged d).
    - lia.
    - intros i j Hij Hj. apply Z.ltb_lt in Hj. apply Z.ltb_lt.
      destruct (Nat.eq_dec i j) as [->|Hne]; [exact Hj|].
      pose proof (StronglySorted_nth _ _ d Hs i j ltac:(lia)) as Hle.
      unfold le_of, tag_leb in Hle. apply pair_leb_spec in Hle. lia.
    - exact Hq. }
  unfold raw_overlaps. rewrite in_concat. split.
  - intros [l [Hl Hin]]. apply in_map_iff in Hl. destruct Hl as [[p m] [<- Hpm]].
    cbn [fst snd] in Hin. apply in_map_iff in Hin. destruct Hin as [q [Hxy Hq]].
    apply arange2_In in Hq. inversion Hxy; subst. clear Hxy.
    unfold match_ranges in Hpm. apply filter_In in Hpm. destruct Hpm as [Hpm _].
    assert (HlenPE : length (Np.arange2 0 (Z.of_nat (length tagged)))
                     = length (map (match_end tagged) tagged))
      by (rewrite arange2_length, length_map; lia).
    apply (combine_In_nth _ _ p m 0 0 HlenPE) in Hpm.
    destruct Hpm as [k [Hk [Hp Hm]]]. rewrite arange2_length in Hk.
    rewrite arange2_nth in Hp by exact Hk.
    assert (Hk' : (k < length tagged)%nat) by lia.
    rewrite nth_indep with (d' := match_end tagged d) in Hm
      by (rewrite length_map; exact Hk').
    rewrite (map_nth (match_end tagged)) in Hm. subst p m.
    pose proof (prefix_len_le
                  (fun t' => fst (fst t') <? snd (fst (nth k tagged d))) tagged) as Hle.
    unfold match_end in Hq.
    exists k, (Z.to_nat q).
    assert (Hq' : (Z.to_nat q < length tagged)%nat) by lia.
    split; [lia|]. split.
    + apply Hpre; auto. unfold match_end. lia.
    + rewrite <- !Htag. rewrite Z2Nat.id by lia. split; [f_equal; lia|reflexivity].
  - intros [p [q [Hpq [Hlt [-> ->]]]]].
    exists (map (fun r => (tag_at tagged (Z.of_nat p), tag_at tagged r))
              (Np.arange2 (Z.of_nat p + 1) (match_end tagged (nth p tagged d)))).
    assert (Hq : Z.of_nat q < match_end tagged (nth p tagged d))
      by (apply Hpre; auto; lia).
    split.
    + apply in_map_iff. exists (Z.of_nat p, match_end tagged (nth p tagged d)).
      split; [reflexivity|].
      unfold match_ranges. apply filter_In. cbn [fst snd]. split.
      * assert (HlenPE : length (Np.arange2 0 (Z.of_nat (length tagged)))
                         = length (map (match_end tagged) tagged))
          by (rewrite arange2_length, length_map; lia).
        apply (combine_In_nth _ _ _ _ 0 0 HlenPE). exists p.
        rewrite arange2_length. split; [lia|]. split.
        -- rewrite arange2_nth by lia. lia.
        -- rewrite nth_indep with (d' := match_end tagged d)
             by (rewrite length_map; lia).
           apply (map_nth (match_end tagged)).
      * rewrite Z.gtb_ltb. apply Z.ltb_lt. lia.
    + apply in_map_iff. exists (Z.of_nat q). rewrite !Htag.
      split; [reflexivity|]. apply arange2_In. lia.
Qed.

(** ** Every row is reported once *)

Lemma arange2_NoDup (a b : Z) : NoDup (Np.arange2 a b).
Proof.
  unfold Np.arange2. apply NoDup_map_NoDup_ForallPairs; [|apply seq_NoDup].
  intros x y _ _ H. lia.
Qed.

Lemma signed_ids_NoDup (n1 n2 : nat) : NoDup (signed_ids n1 n2).
Proof.
  unfold signed_ids, Np.neg. apply NoDup_app.
  - apply NoDup_map_NoDup_ForallPairs; [|apply arange2_NoDup].
    intros x y _ _ H. lia.
  - apply arange2_NoDup.
  - intros x Hx Hx'. apply in_map_iff in Hx. destruct Hx as [y [<- Hy]].
    apply arange2_In in Hy. apply arange2_In in Hx'. lia.
Qed.

(** Different sorted positions carry different signed ids. *)
Lemma tag_at_injective (starts1 ends1 starts2 ends2 : list Z) :
  length starts1 = length ends1 -> length starts2 = length ends2 ->
  let tagged := sorted_tagged starts1 ends1 starts2 ends2 in
  forall a b,
    0 <= a < Z.of_nat (length tagged) -> 0 <= b < Z.of_nat (length tagged) ->
    tag_at tagged a = tag_at tagged b -> a = b.
Proof.
  intros H1 H2 tagged a b Ha Hb Hab. unfold tag_at in Hab.
  assert (Hnd : NoDup (map snd tagged)).
  { eapply Permutation_NoDup; [|apply (signed_ids_NoDup (length starts1) (length starts2))].
    apply Permutation_sym. unfold tagged, sorted_tagged.
    eapply perm_trans; [apply Permutation_map, stable_sort_perm|].
    rewrite map_snd_combine; [reflexivity|].
    rewrite length_combine, !length_app, signed_ids_length. lia. }
  rewrite (NoDup_nth (map snd tagged) 0) in Hnd.
  assert (Z.to_nat a = Z.to_nat b)
    by (apply Hnd; [rewrite length_map; lia | rewrite length_map; lia | exact Hab]).
  lia.
Qed.

Lemma NoDup_map_filter {A B : Type} (f : A -> B) (t : A -> bool) (l : list A) :
  NoDup (map f l) -> NoDup (map f (filter t l)).
Proof.
  induction l as [|x l IH]; intros H; [constructor|].
  cbn [map] in H. inversion H as [|? ? Hx Hl]; subst.
  cbn [filter]. destruct (t x); [|apply IH, Hl].
  cbn [map]. constructor; [|apply IH, Hl].
  intros Hin. apply Hx. apply in_map_iff in Hin. destruct Hin as [y [Hy Hin]].
  apply filter_In in Hin. apply in_map_iff. exists y. tauto.
Qed.

Lemma match_ranges_NoDup (tagged : list (Z * Z * Z)) :
  NoDup (map fst (match_ranges tagged)).
Proof.
  unfold match_ranges. apply NoDup_map_filter.
  rewrite map_fst_combine by (rewrite arange2_length, length_map; lia).
  apply arange2_NoDup.
Qed.

(** The pairs of sorted positions behind the raw rows. *)
Lemma position_pairs_NoDup (ranges : list (Z * Z)) :
  NoDup (map fst ranges) ->
  NoDup (concat (map (fun pm => map (pair (fst pm))
                                  (Np.arange2 (fst pm + 1) (snd pm))) ranges)).
Proof.
  induction ranges as [|[p m] ranges IH]; intros H; [constructor|].
  cbn [map fst] in H. inversion H as [|? ? Hp Hr]; subst.
  cbn [map concat fst snd]. apply NoDup_app.
  - apply NoDup_map_NoDup_ForallPairs; [|apply arange2_NoDup].
    intros x y _ _ Hxy. congruence.
  - apply IH, Hr.
  - intros [p' q] Hin Hin'. apply in_map_iff in Hin. destruct Hin as [q' [Hq _]].
    inversion Hq; subst. apply in_concat in Hin'. destruct Hin' as [l [Hl Hin']].
    apply in_map_iff in Hl. destruct Hl as [[p'' m''] [<- Hpm]].
    cbn [fst snd] in Hin'. apply in_map_iff in Hin'. destruct Hin' as [q'' [Hq'' _]].
    inversion Hq''; subst. apply Hp. apply in_map_iff.
    exists (p', m''). split; [reflexivity|exact Hpm].
Qed.

Lemma decode_pair_eq (x y x' y' : Z) :
  decode_pair (x, y) = decode_pair (x', y') ->
  (x = x' /\ y = y') \/ (x = y' /\ y = x').
Proof.
  unfold decode_pair. cbn [fst snd]. intros H. inversion H. lia.
Qed.

Lemma overlap_rows_NoDup (starts1 ends1 starts2 ends2 : list Z) :
  length starts1 = length ends1 -> length starts2 = length ends2 ->
  NoDup (map decode_pair
           (filter cross_set
              (raw_overlaps (sorted_tagged starts1 ends1 starts2 ends2)))).
Proof.
  intros H1 H2.
  pose proof (tag_at_injective starts1 ends1 starts2 ends2 H1 H2) as Hinj.
  cbv zeta in Hinj.
  set (T := sorted_tagged starts1 ends1 starts2 ends2) in *.
  set (PQ := concat (map (fun pm => map (pair (fst pm))
                                      (Np.arange2 (fst pm + 1) (snd pm)))
                       (match_ranges T))).
  assert (Hraw : raw_overlaps T
                 = map (fun pq => (tag_at T (fst pq), tag_at T (snd pq))) PQ).
  { unfold raw_overlaps, PQ. rewrite concat_map, map_map. f_equal.
    apply map_ext. intros pm. rewrite map_map. reflexivity. }
  assert (Hb : Forall (fun pq => 0 <= fst pq /\ fst pq < snd pq
                                 /\ snd pq < Z.of_nat (length T)) PQ).
  { apply Forall_forall. intros [p q] Hin. unfold PQ in Hin.
    apply in_concat in Hin. destruct Hin as [l [Hl Hin]].
    apply in_map_iff in Hl. destruct Hl as [pm [<- Hpm]].
    apply in_map_iff in Hin. destruct Hin as [q' [Hq Hin]]. inversion Hq; subst.
    apply arange2_In in Hin.
    pose proof (match_ranges_fst T) as HR. rewrite Forall_forall in HR.
    specialize (HR pm Hpm). cbn [fst snd]. lia. }
  rewrite Hraw, filter_map_swap, map_map.
  apply NoDup_map_NoDup_ForallPairs.
  - intros [p q] [p' q'] Hin Hin' Heq.
    apply filter_In in Hin. apply filter_In in Hin'.
    rewrite Forall_forall in Hb.
    pose proof (Hb _ (proj1 Hin)) as Hpq. pose proof (Hb _ (proj1 Hin')) as Hpq'.
    cbn [fst snd] in *.
    destruct (decode_pair_eq _ _ _ _ Heq) as [[Hx Hy]|[Hx Hy]].
    + apply Hinj in Hx; [|lia|lia]. apply Hinj in Hy; [|lia|lia]. congruence.
    + apply Hinj in Hx; [|lia|lia]. apply Hinj in Hy; [|lia|lia]. lia.
  - apply NoDup_filter. unfold PQ. apply position_pairs_NoDup, match_ranges_NoDup.
Qed.

Lemma Forall2_nth {A B : Type} (R : A -> B -> Prop) (l1 : list A) (l2 : list B)
    (d1 : A) (d2 : B) (i : nat) :
  Forall2 R l1 l2 -> (i < length l1)%nat -> R (nth i l1 d1) (nth i l2 d2).
Proof.
  intros H. revert i. induction H as [|x y l1 l2 Hxy _ IH]; intros i Hi; simpl in Hi; [lia|].
  destruct i as [|i]; [exact Hxy|]. cbn [nth]. apply IH. lia.
Qed.

Lemma decode_pair_cross (a b : nat) :
  cross_set (- (Z.of_nat a + 1), Z.of_nat b + 1) = true
  /\ decode_pair (- (Z.of_nat a + 1), Z.of_nat b + 1) = (Z.of_nat a, Z.of_nat b)
  /\ cross_set (Z.of_nat b + 1, - (Z.of_nat a + 1)) = true
  /\ decode_pair (Z.of_nat b + 1, - (Z.of_nat a + 1)) = (Z.of_nat a, Z.of_nat b).
Proof.
  unfold cross_set, decode_pair. cbn [fst snd].
  repeat split; try (apply Z.leb_le; nia); f_equal; lia.
Qed.

Lemma same_set_not_cross (a b : nat) :
  cross_set (- (Z.of_nat a + 1), - (Z.of_nat b + 1)) = false
  /\ cross_set (Z.of_nat a + 1, Z.of_nat b + 1) = false.
Proof.
  unfold cross_set. cbn [fst snd]. split; apply Z.leb_gt; nia.
Qed.

(** C3.  On well-formed intervals [overlap_intervals] returns the row
    [(i, j)] exactly when [i] is a position of set 1, [j] a position of set 2
    and [start1[i] < end2[j]] and [start2[j] < end1[i]]; so every row pairs an
    interval of set 1 with one of set 2, never two intervals of one set or an
    interval with itself.  The rows are in ascending (id1, id2) order and no
    row comes twice. *)
Theorem overlap_intervals_complete (starts1 ends1 starts2 ends2 : list Z) :
  Forall2 Z.le starts1 ends1 ->
  Forall2 Z.le starts2 ends2 ->
  exists out,
    overlap_intervals starts1 ends1 starts2 ends2 = Ok out
    /\ (forall i j,
          In (i, j) out
          <-> 0 <= i < Z.of_nat (length starts1)
              /\ 0 <= j < Z.of_nat (length starts2)
              /\ nth (Z.to_nat i) starts1 0 < nth (Z.to_nat j) ends2 0
              /\ nth (Z.to_nat j) starts2 0 < nth (Z.to_nat i) ends1 0)
    /\ StronglySorted (le_of pair_leb) out
    /\ NoDup out.
Proof.
  intros Hwf1 Hwf2.
  pose proof (Forall2_same_length _ _ _ Hwf1) as H1.
  pose proof (Forall2_same_length _ _ _ Hwf2) as H2.
  rewrite (overlap_intervals_rows _ _ _ _ H1 H2).
  set (T := sorted_tagged starts1 ends1 starts2 ends2).
  pose proof (sorted_tagged_sorted starts1 ends1 starts2 ends2) as Hs. fold T in Hs.
  pose proof (raw_overlaps_In T) as Hraw. cbv zeta in Hraw.
  set (d := (0, 0, 0)) in *.
  assert (Hmem : forall p, (p < length T)%nat ->
            (exists a, (a < length starts1)%nat
               /\ nth p T d = (nth a starts1 0, nth a ends1 0, - (Z.of_nat a + 1)))
            \/ (exists b, (b < length starts2)%nat
               /\ nth p T d = (nth b starts2 0, nth b ends2 0, Z.of_nat b + 1))).
  { intros p Hp. apply (tagged_members starts1 ends1 starts2 ends2 _ H1 H2).
    apply nth_In, Hp. }
  assert (Hord : forall p q, (p < q < length T)%nat ->
            fst (fst (nth p T d)) < fst (fst (nth q T d))
            \/ (fst (fst (nth p T d)) = fst (fst (nth q T d))
                /\ snd (fst (nth p T d)) <= snd (fst (nth q T d)))).
  { intros p q Hpq. pose proof (StronglySorted_nth _ _ d Hs p q Hpq) as Hle.
    unfold le_of, tag_leb in Hle. apply pair_leb_spec in Hle. exact Hle. }
  eexists. split; [reflexivity|]. split.
  2:{ split.
      - apply stable_sort_sorted; [apply pair_leb_total | apply pair_leb_trans].
      - eapply Permutation_NoDup; [apply Permutation_sym, stable_sort_perm|].
        apply overlap_rows_NoDup; assumption. }
  intros i j.
  assert (Hperm : forall l, In (i, j) (stable_sort pair_leb l) <-> In (i, j) l).
  { intros l. split; apply Permutation_in;
      [|apply Permutation_sym]; apply stable_sort_perm. }
  rewrite Hperm, in_map_iff. split.
  - intros [[x y] [Hdec Hin]]. apply filter_In in Hin. destruct Hin as [Hin Hcross].
    apply (Hraw x y Hs) in Hin. destruct Hin as [p [q [Hpq [Hlt [Hx Hy]]]]].
    specialize (Hord p q Hpq).
    destruct (Hmem p ltac:(lia)) as [[a [Ha Hp]]|[b [Hb Hp]]];
      destruct (Hmem q ltac:(lia)) as [[a' [Ha' Hq]]|[b' [Hb' Hq]]];
      rewrite Hp, Hq in *; cbn [fst snd] in *; subst x y.
    + rewrite (proj1 (same_set_not_cross a a')) in Hcross. discriminate.
    + destruct (decode_pair_cross a b') as [_ [Hd _]].
      rewrite Hd in Hdec. inversion Hdec; subst. rewrite !Nat2Z.id.
      pose proof (Forall2_nth _ _ _ 0 0 b' Hwf2 Hb').
      repeat split; lia.
    + destruct (decode_pair_cross a' b) as [_ [_ [_ Hd]]].
      rewrite Hd in Hdec. inversion Hdec; subst. rewrite !Nat2Z.id.
      pose proof (Forall2_nth _ _ _ 0 0 a' Hwf1 Ha').
      repeat split; lia.
    + rewrite (proj2 (same_set_not_cross b b')) in Hcross. discriminate.
  - intros [Hi [Hj [Hov1 Hov2]]].
    set (a := Z.to_nat i) in *. set (b := Z.to_nat j) in *.
    assert (Ha : (a < length starts1)%nat) by lia.
    assert (Hb : (b < length starts2)%nat) by lia.
    assert (Hia : i = Z.of_nat a) by lia. assert (Hjb : j = Z.of_nat b) by lia.
    assert (Hin1 : In (nth a starts1 0, nth a ends1 0, - (Z.of_nat a + 1)) T).
    { apply (tagged_members starts1 ends1 starts2 ends2 _ H1 H2).
      left. exists a. split; [exact Ha|reflexivity]. }
    assert (Hin2 : In (nth b starts2 0, nth b ends2 0, Z.of_nat b + 1) T).
    { apply (tagged_members starts1 ends1 starts2 ends2 _ H1 H2).
      right. exists b. split; [exact Hb|reflexivity]. }
    destruct (In_nth _ _ d Hin1) as [P [HP HnP]].
    destruct (In_nth _ _ d Hin2) as [Q [HQ HnQ]].
    destruct (decode_pair_cross a b) as [Hc1 [Hd1 [Hc2 Hd2]]].
    assert (HPQ : P <> Q).
    { intros ->. rewrite HnP in HnQ. inversion HnQ. lia. }
    destruct (Nat.lt_ge_cases P Q) as [Hlt|Hge].
    + exists (- (Z.of_nat a + 1), Z.of_nat b + 1).
      split; [rewrite Hd1, Hia, Hjb; reflexivity|].
      apply filter_In. split; [|exact Hc1].
      apply (Hraw _ _ Hs). exists P, Q. rewrite HnP, HnQ. cbn [fst snd].
      repeat split; auto; lia.
    + exists (Z.of_nat b + 1, - (Z.of_nat a + 1)).
      split; [rewrite Hd2, Hia, Hjb; reflexivity|].
      apply filter_In. split; [|exact Hc2].
      apply (Hraw _ _ Hs). exists Q, P. rewrite HnP, HnQ. cbn [fst snd].
      repeat split; auto; lia.
Qed.

Lemma overlap_intervals_complete_witness :
  Forall2 Z.le [1] [5] /\ Forall2 Z.le [0; 4; 6] [2; 6; 8]
  /\ exists out,
       overlap_intervals [1] [5] [0; 4; 6] [2; 6; 8] = Ok out
       /\ StronglySorted (le_of pair_leb) out
       /\ NoDup out.
Proof.
  assert (H1 : Forall2 Z.le [1] [5]) by (repeat constructor; lia).
  assert (H2 : Forall2 Z.le [0; 4; 6] [2; 6; 8]) by (repeat constructor; lia).
  split; [exact H1|]. split; [exact H2|].
  destruct (overlap_intervals_complete [1] [5] [0; 4; 6] [2; 6; 8] H1 H2)
    as [out [Ho [_ Hs]]].
  exists out. split; [exact Ho | exact Hs].
Defined.

(** ** The selection of up to [k] neighbours per interval *)

Lemma adjacent_mask (r0 : Z * Z) (c : list (Z * Z)) :
  exists mask,
    Np.ne (map fst (Np.slice (r0 :: c) None (Some (-1))))
          (map fst (Np.slice (r0 :: c) (Some 1) None)) = Ok mask
    /\ forall b i,
         combine (removelast (b :: Np.where_from i (mask ++ [true])))
                 (Np.where_from i (mask ++ [true]))
         = runs_from b i r0 c.
Proof.
  rewrite slice_to_m1, slice_from_1. cbn [tl]. unfold Np.ne.
  rewrite broadcast2_same_length
    by (rewrite !length_map, removelast_length; simpl; lia).
  eexists. split; [reflexivity|].
  revert r0; induction c as [|r1 c IH]; intros r0 b i; [reflexivity|].
  rewrite removelast_cons2. cbn [map zip_with app Np.where_from runs_from].
  destruct (negb (fst r0 =? fst r1)).
  - rewrite removelast_cons.
    + cbn [combine]. f_equal. apply IH.
    + destruct (zip_with _ _ _); cbn; [discriminate|].
      destruct b0; discriminate.
  - apply IH.
Qed.

Lemma runs_from_bounds (b i : Z) (r0 : Z * Z) (c : list (Z * Z)) :
  0 <= b < i ->
  Forall (fun be => 0 <= fst be < snd be /\ snd be <= i + Z.of_nat (length c))
    (runs_from b i r0 c).
Proof.
  revert b i r0; induction c as [|r1 c IH]; intros b i r0 Hb.
  - constructor; [simpl; lia|constructor].
  - cbn [runs_from]. destruct (negb (fst r0 =? fst r1)).
    + constructor; [simpl length; cbn [fst snd]; lia|].
      eapply Forall_impl; [|apply (IH i (i + 1) r1); lia].
      simpl length. cbv beta. intros be Hbe. lia.
    + eapply Forall_impl; [|apply (IH b (i + 1) r1); lia].
      simpl length. cbv beta. intros be Hbe. lia.
Qed.

Lemma firstn_nth_seq {A : Type} (c : list A) (d : A) (n : nat) :
  (n <= length c)%nat -> map (fun k => nth k c d) (seq 0 n) = firstn n c.
Proof.
  revert c; induction n as [|n IH]; intros c Hn; [reflexivity|].
  destruct c as [|x c]; simpl in Hn; [lia|].
  cbn [seq map firstn nth]. f_equal.
  rewrite <- seq_shift, map_map. apply IH. lia.
Qed.

Lemma take_range_nat {A : Type} (c : list A) (d : A) (m n : nat) :
  (m + n <= length c)%nat ->
  map (fun k => nth (m + k) c d) (seq 0 n) = firstn n (skipn m c).
Proof.
  revert c; induction m as [|m IH]; intros c Hn.
  - apply firstn_nth_seq. simpl in Hn. exact Hn.
  - destruct c as [|x c]; simpl in Hn; [lia|].
    cbn [skipn]. rewrite <- IH by lia. reflexivity.
Qed.

Lemma take_range {A : Type} (c : list A) (d : A) (b e : Z) :
  0 <= b -> b <= e -> e <= Z.of_nat (length c) ->
  map (fun z => nth (Z.to_nat z) c d) (Np.arange2 b e)
  = firstn (Z.to_nat (e - b)) (skipn (Z.to_nat b) c).
Proof.
  intros Hb Hbe He. unfold Np.arange2. rewrite map_map.
  rewrite <- take_range_nat with (d := d) by lia.
  apply map_ext. intros k. f_equal. lia.
Qed.

Lemma firstn_min_length {A : Type} (k : nat) (l l' : list A) :
  firstn (Nat.min k (length l)) (l ++ l') = firstn k l.
Proof.
  rewrite firstn_app. replace (Nat.min k (length l) - length l)%nat with 0%nat by lia.
  rewrite firstn_O, app_nil_r.
  destruct (Nat.le_gt_cases k (length l)) as [H|H].
  - rewrite Nat.min_l by lia. reflexivity.
  - rewrite Nat.min_r by lia. rewrite !firstn_all2 by lia. reflexivity.
Qed.

(** The rows picked out of the runs, in terms of the rows themselves. *)
Lemma rows_of_runs (k : nat) (before run : list (Z * Z)) (r0 : Z * Z) (c : list (Z * Z)) :
  let rows := before ++ run ++ c in
  concat
    (map (fun be =>
            firstn (Z.to_nat (Z.min (Z.of_nat k) (snd be - fst be)))
              (skipn (Z.to_nat (fst be)) rows))
       (runs_from (Z.of_nat (length before))
          (Z.of_nat (length before) + Z.of_nat (length run)) r0 c))
  = firstn k run ++ keep_upto k (fst r0) (length run) c.
Proof.
  revert before run r0; induction c as [|r1 c IH]; intros before run r0 rows.
  - cbn [runs_from map concat keep_upto fst snd]. rewrite !app_nil_r.
    unfold rows. rewrite Nat2Z.id, skipn_app, Nat.sub_diag, skipn_all. cbn [skipn app].
    replace (Z.to_nat (Z.min (Z.of_nat k)
               (Z.of_nat (length before) + Z.of_nat (length run)
                - Z.of_nat (length before))))
      with (Nat.min k (length run)) by lia.
    apply firstn_min_length.
  - cbn [runs_from keep_upto].
    destruct (Z.eqb_spec (fst r0) (fst r1)) as [Heq|Hne]; cbn [negb].
    + rewrite <- Heq, Z.eqb_refl.
      pose proof (IH before (run ++ [r1]) r1) as H. cbv zeta in H.
      rewrite <- app_assoc in H. cbn [app] in H.
      rewrite length_app in H. cbn [length] in H.
      replace (Z.of_nat (length before) + Z.of_nat (length run) + 1)
        with (Z.of_nat (length before) + Z.of_nat (length run + 1)) by lia.
      unfold rows. rewrite H. rewrite <- Heq.
      replace (length run + 1)%nat with (S (length run)) by lia.
      destruct (Nat.ltb_spec (length run) k) as [Hk|Hk].
      * rewrite firstn_app, (firstn_all2 run) by lia.
        replace (k - length run)%nat with (S (k - length run - 1)) by lia.
        cbn [firstn]. rewrite firstn_nil, <- app_assoc. reflexivity.
      * rewrite firstn_app. replace (k - length run)%nat with 0%nat by lia.
        rewrite firstn_O, app_nil_r. reflexivity.
    + destruct (Z.eqb_spec (fst r1) (fst r0)) as [Heq|_]; [congruence|].
      cbn [map concat fst snd].
      pose proof (IH (before ++ run) [r1] r1) as H. cbv zeta in H.
      rewrite <- app_assoc in H. rewrite length_app in H. cbn [length] in H.
      rewrite Nat2Z.inj_add in H. change (Z.of_nat 1) with 1 in H.
      unfold rows. cbn [app] in H. rewrite H. f_equal.
      rewrite Nat2Z.id, skipn_app, Nat.sub_diag, skipn_all. cbn [skipn app].
      replace (Z.to_nat (Z.min (Z.of_nat k)
                 (Z.of_nat (length before) + Z.of_nat (length run)
                  - Z.of_nat (length before))))
        with (Nat.min k (length run)) by lia.
      apply firstn_min_length.
Qed.

(** The last step of [closest_intervals] on candidates that are not empty. *)
Lemma select_closest_survivors (c : list (Z * Z)) (k : Z) :
  c <> [] -> 0 <= k ->
  select_closest c k = Ok (survivors (Z.to_nat k) c).
Proof.
  intros Hne Hk. destruct c as [|r0 c]; [congruence|]. clear Hne.
  unfold select_closest.
  destruct (adjacent_mask r0 c) as [mask [-> Hruns]]. cbn [bind].
  unfold Np.where_. cbn [Np.where_from app]. change (0 + 1) with 1.
  set (W := Np.where_from 1 (mask ++ [true])).
  specialize (Hruns 0 1). fold W in Hruns.
  rewrite slice_to_m1, slice_from_1. cbn [tl].
  assert (HlenW : length (removelast (0 :: W)) = length W)
    by (rewrite removelast_length; simpl; lia).
  assert (Hs : removelast (0 :: W) = map fst (runs_from 0 1 r0 c))
    by (rewrite <- Hruns; symmetry; apply map_fst_combine, HlenW).
  assert (He : W = map snd (runs_from 0 1 r0 c))
    by (rewrite <- Hruns; symmetry; apply map_snd_combine, HlenW).
  rewrite Hs. clear Hs HlenW Hruns. clearbody W. subst W.
  set (runs := runs_from 0 1 r0 c).
  pose proof (runs_from_bounds 0 1 r0 c ltac:(lia)) as Hb. fold runs in Hb.
  unfold Np.sub. rewrite broadcast2_same_length by (rewrite !length_map; reflexivity).
  rewrite (zip_with_map_same Z.sub snd fst runs). cbn [bind].
  unfold Np.minimum_scalar. rewrite map_map.
  rewrite arange_multi_lengths.
  2:{ rewrite !length_map. reflexivity. }
  2:{ rewrite Forall_map. eapply Forall_impl; [|exact Hb]. cbv beta. intros; lia. }
  cbn [bind].
  rewrite (zip_with_map_same (fun s l => Np.arange2 s (s + l)) fst
             (fun be => Z.min k (snd be - fst be)) runs).
  rewrite (take_in_range (r0 :: c) _ (0, 0)).
  2:{ apply Forall_forall. intros z Hz. apply in_concat in Hz.
      destruct Hz as [l [Hl Hz]]. apply in_map_iff in Hl. destruct Hl as [be [<- Hbe]].
      apply arange2_In in Hz. rewrite Forall_forall in Hb. specialize (Hb be Hbe).
      simpl length. lia. }
  f_equal. rewrite concat_map, map_map.
  pose proof (rows_of_runs (Z.to_nat k) [] [r0] r0 c) as Hrows. cbv zeta in Hrows.
  cbn [app length] in Hrows. change (Z.of_nat 0 + Z.of_nat 1) with 1 in Hrows.
  change (Z.of_nat 0) with 0 in Hrows. fold runs in Hrows.
  unfold survivors. rewrite <- Hrows. f_equal.
  apply map_ext_in. intros be Hbe. rewrite Forall_forall in Hb. specialize (Hb be Hbe).
  rewrite take_range by (simpl length; lia).
  rewrite Z2Nat.id by lia. f_equal. f_equal. lia.
Qed.

(** ** The order of set 2 in the two passes *)

Lemma StronglySorted_map {A B : Type} (R : A -> A -> Prop) (R' : B -> B -> Prop)
    (g : A -> B) (l : list A) :
  (forall x y, R x y -> R' (g x) (g y)) ->
  StronglySorted R l -> StronglySorted R' (map g l).
Proof.
  intros Hg. induction 1 as [|x l Hs IH Hx]; cbn [map]; constructor; auto.
  rewrite Forall_map. eapply Forall_impl; [|exact Hx]. intros y. apply Hg.
Qed.

Lemma lexsort_pair_order (minor major : list Z) :
  length major = length minor ->
  exists ord,
    Np.lexsort [minor; major] = Ok (map Z.of_nat ord)
    /\ Permutation ord (seq 0 (length minor))
    /\ map (fun i => (nth i major 0, nth i minor 0)) ord
       = stable_sort pair_leb (combine major minor).
Proof.
  intros Hlen. rewrite lexsort_pair by auto.
  eexists. split; [reflexivity|]. split; [apply stable_sort_perm|].
  apply (sorted_through_order major minor Hlen).
Qed.

Lemma starts2_sort_order_tie (starts2 tie : list Z) :
  length starts2 = length tie ->
  exists ord,
    starts2_sort_order starts2 (Some tie) = Ok (map Z.of_nat ord)
    /\ Permutation ord (seq 0 (length tie))
    /\ StronglySorted asc_asc (map (fun i => (nth i starts2 0, nth i tie 0)) ord).
Proof.
  intros Hlen. cbn [starts2_sort_order].
  destruct (lexsort_pair_order tie starts2 Hlen) as [ord [Ho [Hp Hs]]].
  exists ord. split; [exact Ho|]. split; [exact Hp|].
  rewrite Hs, <- (map_id (stable_sort pair_leb (combine starts2 tie))).
  apply (StronglySorted_map (le_of pair_leb)).
  - intros x y Hxy. apply pair_leb_spec in Hxy. exact Hxy.
  - apply stable_sort_sorted; [apply pair_leb_total | apply pair_leb_trans].
Qed.

Lemma ends2_sort_order_tie (ends2 tie : list Z) :
  length ends2 = length tie ->
  exists ord,
    ends2_sort_order ends2 (Some tie) = Ok (map Z.of_nat ord)
    /\ Permutation ord (seq 0 (length tie))
    /\ StronglySorted asc_desc (map (fun i => (nth i ends2 0, nth i tie 0)) ord).
Proof.
  intros Hlen. cbn [ends2_sort_order]. unfold Np.neg.
  destruct (lexsort_pair_order (map Z.opp tie) ends2) as [ord [Ho [Hp Hs]]];
    [rewrite length_map; exact Hlen|].
  rewrite length_map in Hp.
  exists ord. split; [exact Ho|]. split; [exact Hp|].
  assert (Hm : map (fun i => (nth i ends2 0, nth i tie 0)) ord
               = map (fun p => (fst p, - snd p))
                   (map (fun i => (nth i ends2 0, nth i (map Z.opp tie) 0)) ord)).
  { rewrite map_map. apply map_ext. intros i. cbn [fst snd]. f_equal.
    change 0 with (Z.opp 0) at 2. rewrite map_nth. lia. }
  rewrite Hm, Hs.
  apply (StronglySorted_map (le_of pair_leb)).
  - intros x y Hxy. apply pair_leb_spec in Hxy. unfold asc_desc. cbn [fst snd]. lia.
  - apply stable_sort_sorted; [apply pair_leb_total | apply pair_leb_trans].
Qed.




(** The final sort of [closest_intervals] is given [tie_arr] itself as a key,
    one entry per interval of set 2, not the tie-breaks of the candidate
    rows: with another number of candidates [np.lexsort] raises, and with as
    many candidates as intervals in set 2 the rows are ordered by the
    tie-break at their own position.  Below, the two candidates are at the
    same distance and the one of tie-break 5 is returned. *)
Lemma closest_intervals_tie_key :
  closest_intervals [5] [6] [0; 2; 8] [1; 3; 9] 1 (Some [1; 1; 1]) false false false
  = Raise ValueError
  /\ closest_intervals [5] [6] [8; 2] [9; 3] 1 (Some [1; 5]) false false false
     = Ok [(0, 1)].
Proof. split; reflexivity. Qed.

(** ** Block spans *)

Lemma where_from_In (i : Z) (m : list bool) (j : Z) :
  In j (Np.where_from i m)
  <-> i <= j /\ nth_error m (Z.to_nat (j - i)) = Some true.
Proof.
  revert i; induction m as [|b m IH]; intros i; cbn [Np.where_from].
  - split; [intros []|]. intros [_ H]. destruct (Z.to_nat (j - i)); discriminate.
  - assert (Hstep : In j (Np.where_from (i + 1) m)
                    <-> i < j /\ nth_error (b :: m) (Z.to_nat (j - i)) = Some true).
    { rewrite IH. split; intros [Hl Hn]; (split; [lia|]).
      - replace (Z.to_nat (j - i)) with (S (Z.to_nat (j - (i + 1)))) by lia.
        exact Hn.
      - replace (Z.to_nat (j - i)) with (S (Z.to_nat (j - (i + 1)))) in Hn by lia.
        exact Hn. }
    destruct b.
    + cbn [In]. rewrite Hstep. split.
      * intros [<-|[Hl Hn]]; [|split; [lia|exact Hn]].
        split; [lia|]. rewrite Z.sub_diag. reflexivity.
      * intros [Hl Hn]. destruct (Z.eq_dec i j) as [->|Hne]; [left; reflexivity|].
        right. split; [lia|exact Hn].
    + rewrite Hstep. split; intros [Hl Hn]; (split; [|exact Hn]); [lia|].
      destruct (Z.eq_dec i j) as [->|Hne]; [|lia].
      rewrite Z.sub_diag in Hn. discriminate.
Qed.

Lemma where_from_sorted (i : Z) (m : list bool) :
  StronglySorted Z.lt (Np.where_from i m).
Proof.
  revert i; induction m as [|b m IH]; intros i; cbn [Np.where_from];
    [constructor|].
  destruct b; [|apply IH]. constructor; [apply IH|].
  apply Forall_forall. intros j Hj. apply where_from_In in Hj. lia.
Qed.

(** The positions [np.where(arr == val)[0]] holds. *)
Lemma where_eq_In (arr : list Z) (val j : Z) :
  In j (Np.where_ (map (fun x => x =? val) arr))
  <-> 0 <= j /\ nth_error arr (Z.to_nat j) = Some val.
Proof.
  unfold Np.where_. rewrite where_from_In, Z.sub_0_r, nth_error_map.
  split; intros [Hl Hn]; (split; [exact Hl|]).
  - destruct (nth_error arr (Z.to_nat j)) as [x|]; [|discriminate].
    simpl in Hn. injection Hn as Hn. apply Z.eqb_eq in Hn. congruence.
  - rewrite Hn. simpl. rewrite Z.eqb_refl. reflexivity.
Qed.

Lemma sorted_hd_last (l : list Z) :
  StronglySorted Z.lt l -> forall x, In x l -> hd 0 l <= x <= last l 0.
Proof.
  induction 1 as [|y l Hs IH Hy]; intros x Hin; [destruct Hin|].
  rewrite Forall_forall in Hy. cbn [hd].
  destruct l as [|z l]; [destruct Hin as [->|[]]; simpl; lia|].
  change (last (y :: z :: l) 0) with (last (z :: l) 0).
  pose proof (Hy z (or_introl eq_refl)) as Hyz.
  pose proof (IH z (or_introl eq_refl)) as Hz. cbn [hd] in Hz.
  destruct Hin as [->|Hin]; [lia|].
  specialize (IH x Hin). cbn [hd] in IH. lia.
Qed.

Lemma last_In {A : Type} (l : list A) (d : A) : l <> [] -> In (last l d) l.
Proof.
  intros Hne. destruct (exists_last Hne) as [l' [y ->]].
  rewrite last_last. apply in_or_app. right. left. reflexivity.
Qed.

(** What [_find_block_span] does in both cases. *)
Lemma find_block_span_cases (arr : list Z) (val : Z) :
  (~ In val arr /\ _find_block_span arr val = Raise IndexError)
  \/ (In val arr /\
      exists lo hi,
        _find_block_span arr val = Ok (lo, hi)
        /\ 0 <= lo < hi /\ hi <= Z.of_nat (length arr)
        /\ nth_error arr (Z.to_nat lo) = Some val
        /\ nth_error arr (Z.to_nat (hi - 1)) = Some val
        /\ forall i, nth_error arr i = Some val -> lo <= Z.of_nat i < hi).
Proof.
  unfold _find_block_span.
  set (idx := Np.where_ (map (fun x => x =? val) arr)).
  assert (Hin : forall j, In j idx
                          <-> 0 <= j /\ nth_error arr (Z.to_nat j) = Some val)
    by (intros j; apply where_eq_In).
  assert (Hsorted : StronglySorted Z.lt idx) by apply where_from_sorted.
  destruct idx as [|j idx'] eqn:E.
  - left. split; [|reflexivity]. intros Hval.
    apply In_nth_error in Hval. destruct Hval as [p Hp].
    apply (proj2 (Hin (Z.of_nat p))). rewrite Nat2Z.id. split; [lia|exact Hp].
  - right. rewrite <- E in *.
    assert (Hne : idx <> []) by (rewrite E; discriminate).
    assert (Hj : In j idx) by (rewrite E; left; reflexivity).
    assert (Hl : In (last idx 0) idx) by (apply last_In; exact Hne).
    pose proof (sorted_hd_last idx Hsorted _ Hl) as Hjl.
    rewrite E in Hjl at 1. cbn [hd] in Hjl.
    apply Hin in Hj. apply Hin in Hl.
    split; [eapply nth_error_In, (proj2 Hj)|].
    exists j, (last idx 0 + 1).
    assert (Hlen : last idx 0 < Z.of_nat (length arr)).
    { destruct Hl as [Hl0 Hl].
      assert (Hs : nth_error arr (Z.to_nat (last idx 0)) <> None) by congruence.
      apply nth_error_Some in Hs. lia. }
    split.
    { rewrite E at 1. rewrite getitem_first. cbn [bind].
      rewrite (getitem_last idx 0 Hne). reflexivity. }
    split; [lia|]. split; [lia|]. split; [apply Hj|].
    split; [replace (last idx 0 + 1 - 1) with (last idx 0) by lia; apply Hl|].
    intros i Hi.
    assert (Hii : In (Z.of_nat i) idx)
      by (apply Hin; rewrite Nat2Z.id; split; [lia|exact Hi]).
    pose proof (sorted_hd_last idx Hsorted _ Hii) as Hb.
    rewrite E in Hb at 1. cbn [hd] in Hb. lia.
Qed.

(** X1.  [_find_block_span] raises IndexError exactly when the value does
    not occur in the array (the first element of an empty index array is
    asked for); it raises nothing else. *)
Theorem find_block_span_missing (arr : list Z) (val : Z) :
  (_find_block_span arr val = Raise IndexError <-> ~ In val arr)
  /\ (forall e, _find_block_span arr val = Raise e -> e = IndexError).
Proof.
  destruct (find_block_span_cases arr val)
    as [[Hno Hr]|[Hin [lo [hi [Hr _]]]]]; rewrite Hr.
  - split; [tauto|]. intros e He. congruence.
  - split; [|intros e He; discriminate].
    split; [discriminate|]. intros Hno. contradiction.
Qed.

(** X2.  When the value occurs, [_find_block_span] returns [(lo, hi)] with
    [0 <= lo < hi <= len(arr)]; [arr[lo]] and [arr[hi - 1]] are the value and
    every position that holds the value lies in [lo, hi): [lo] is the first
    occurrence and [hi - 1] the last. *)
Theorem find_block_span_tight (arr : list Z) (val : Z) :
  In val arr ->
  exists lo hi,
    _find_block_span arr val = Ok (lo, hi)
    /\ 0 <= lo < hi /\ hi <= Z.of_nat (length arr)
    /\ nth_error arr (Z.to_nat lo) = Some val
    /\ nth_error arr (Z.to_nat (hi - 1)) = Some val
    /\ forall i, nth_error arr i = Some val -> lo <= Z.of_nat i < hi.
Proof.
  intros Hin.
  destruct (find_block_span_cases arr val) as [[Hno _]|[_ H]];
    [contradiction|exact H].
Qed.

Lemma find_block_span_tight_witness :
  In 7 [3; 7; 5; 7; 9]
  /\ exists lo hi, _find_block_span [3; 7; 5; 7; 9] 7 = Ok (lo, hi) /\ 0 <= lo < hi.
Proof.
  assert (H : In 7 [3; 7; 5; 7; 9]) by (simpl; tauto).
  split; [exact H|].
  destruct (find_block_span_tight [3; 7; 5; 7; 9] 7 H) as [lo [hi [Hr [Hb _]]]].
  exists lo, hi. split; [exact Hr | exact Hb].
Defined.

(** X3.  On an ascending array the span is the block of the value: the
    positions inside [lo, hi) are exactly those that hold the value. *)
Theorem find_block_span_sorted_block (arr : list Z) (val lo hi : Z) :
  StronglySorted Z.le arr ->
  _find_block_span arr val = Ok (lo, hi) ->
  forall i : nat, lo <= Z.of_nat i < hi <-> nth_error arr i = Some val.
Proof.
  intros Hs Hr i.
  destruct (find_block_span_cases arr val)
    as [[_ Hx]|[_ [lo' [hi' [Hr' [Hb [Hlen [Hlo [Hhi Hall]]]]]]]]];
    [congruence|].
  rewrite Hr in Hr'. injection Hr' as <- <-.
  split; [|apply Hall]. intros Hi.
  assert (Hilen : (i < length arr)%nat) by lia.
  rewrite (nth_error_nth' arr 0 Hilen). f_equal.
  apply (nth_error_nth _ _ 0) in Hlo. apply (nth_error_nth _ _ 0) in Hhi.
  assert (H1 : nth (Z.to_nat lo) arr 0 <= nth i arr 0).
  { destruct (Nat.eq_dec (Z.to_nat lo) i) as [->|Hne]; [lia|].
    apply (StronglySorted_nth Z.le arr 0 Hs). lia. }
  assert (H2 : nth i arr 0 <= nth (Z.to_nat (hi - 1)) arr 0).
  { destruct (Nat.eq_dec i (Z.to_nat (hi - 1))) as [->|Hne]; [lia|].
    apply (StronglySorted_nth Z.le arr 0 Hs). lia. }
  lia.
Qed.

Lemma find_block_span_sorted_block_witness :
  StronglySorted Z.le [1; 2; 2; 3]
  /\ _find_block_span [1; 2; 2; 3] 2 = Ok (1, 3)
  /\ (1 <= Z.of_nat 2 < 3 <-> nth_error [1; 2; 2; 3] 2 = Some 2).
Proof.
  assert (Hs : StronglySorted Z.le [1; 2; 2; 3])
    by (repeat constructor; lia).
  split; [exact Hs|]. split; [reflexivity|].
  exact (find_block_span_sorted_block [1; 2; 2; 3] 2 1 3 Hs eq_refl 2%nat).
Defined.

(** ** More on [merge_intervals]: failure, separation, coverage, membership *)

Lemma lexsort_pair_mismatch (minor major : list Z) :
  length minor <> length major -> Np.lexsort [minor; major] = Raise ValueError.
Proof.
  intros H. unfold Np.lexsort. cbn [forallb].
  rewrite Nat.eqb_refl.
  destruct (Nat.eqb_spec (length major) (length minor)) as [E|_]; [congruence|].
  reflexivity.
Qed.

Lemma merge_intervals_mismatch (starts ends : list Z) (md : option Z) :
  length starts <> length ends ->
  merge_intervals starts ends md = Raise ValueError.
Proof.
  intros H. unfold merge_intervals, merge_intervals_locals.
  rewrite lexsort_pair_mismatch by congruence. reflexivity.
Qed.

(** X4.  [merge_intervals] fails exactly when the two arrays differ in
    length, and then with the ValueError of [np.lexsort]; on arrays of one
    length it returns, whatever the coordinates and [min_dist]. *)
Theorem merge_intervals_fails_iff (starts ends : list Z) (min_dist : option Z) :
  (merge_intervals starts ends min_dist = Raise ValueError
   <-> length starts <> length ends)
  /\ ((exists r, merge_intervals starts ends min_dist = Ok r)
      <-> length starts = length ends).
Proof.
  destruct (Nat.eq_dec (length starts) (length ends)) as [E|E].
  - rewrite (merge_intervals_sweep starts ends min_dist E). split.
    + split; [discriminate|contradiction].
    + split; [auto|]. intros _. eexists. reflexivity.
  - rewrite (merge_intervals_mismatch starts ends min_dist E). split.
    + split; auto.
    + split; [intros [r Hr]; discriminate|contradiction].
Qed.

Lemma separated_spans_nth (md : option Z) (q : list (Z * Z)) (i : nat) :
  separated_spans md q ->
  (S i < length q)%nat ->
  fst (nth i q (0, 0)) <= fst (nth (S i) q (0, 0))
  /\ snd (nth i q (0, 0)) <= snd (nth (S i) q (0, 0))
  /\ is_border md (fst (nth (S i) q (0, 0))) (snd (nth i q (0, 0))) = true.
Proof.
  revert i; induction q as [|[s e] q IH]; intros i Hsep Hi; simpl in Hi; [lia|].
  cbn [separated_spans] in Hsep. destruct Hsep as [Hhd Htl].
  destruct i as [|i].
  - destruct q as [|[s' e'] q]; simpl in Hi; [lia|]. exact Hhd.
  - change (nth (S i) ((s, e) :: q) (0, 0)) with (nth i q (0, 0)).
    change (nth (S (S i)) ((s, e) :: q) (0, 0)) with (nth (S i) q (0, 0)).
    apply IH; [exact Htl|lia].
Qed.

Lemma starts_from_incl (md : option Z) (r : Z) (l : list (Z * Z)) (x : Z) :
  In x (starts_from md r l) -> In x (map fst l).
Proof.
  revert r; induction l as [|[s e] l IH]; intros r H; [exact H|].
  cbn [starts_from] in H. cbn [map fst].
  destruct (is_border md s r).
  - destruct H as [<-|H]; [left; reflexivity|right; eapply IH, H].
  - right. eapply IH, H.
Qed.

Lemma ends_from_incl (md : option Z) (r : Z) (l : list (Z * Z)) (x : Z) :
  In x (ends_from md r l) -> x = r \/ In x (map snd l).
Proof.
  revert r; induction l as [|[s e] l IH]; intros r H.
  - destruct H as [<-|[]]. left. reflexivity.
  - cbn [ends_from] in H. cbn [map snd].
    assert (Hrec : In x (ends_from md (Z.max r e) l)
                   -> x = r \/ e = x \/ In x (map snd l)).
    { intros H'. destruct (IH _ H') as [->|H''].
      - destruct (Z.max_spec r e) as [[_ ->]|[_ ->]]; auto.
      - auto. }
    destruct (is_border md s r); [destruct H as [<-|H]; [left; reflexivity|]|];
      apply Hrec, H.
Qed.

Lemma sweep_starts_in (starts ends : list Z) (md : option Z) (x : Z) :
  length starts = length ends ->
  In x (sweep_starts md (sort_intervals starts ends)) -> In x starts.
Proof.
  intros Hlen Hx.
  assert (Hs : In x (map fst (sort_intervals starts ends))).
  { destruct (sort_intervals starts ends) as [|[s0 e0] l]; [destruct Hx|].
    cbn [sweep_starts] in Hx. cbn [map fst].
    destruct Hx as [<-|Hx]; [left; reflexivity|right; eapply starts_from_incl, Hx]. }
  apply in_map_iff in Hs. destruct Hs as [[s e] [<- Hin]].
  apply (Permutation_in _ (sort_intervals_perm starts ends)) in Hin.
  apply in_combine_l in Hin. exact Hin.
Qed.

Lemma sweep_ends_in (starts ends : list Z) (md : option Z) (x : Z) :
  length starts = length ends ->
  In x (sweep_ends md (sort_intervals starts ends)) -> In x ends.
Proof.
  intros Hlen Hx. apply (sorted_ends_in starts ends x Hlen).
  destruct (sort_intervals starts ends) as [|[s0 e0] l]; [destruct Hx|].
  cbn [sweep_ends] in Hx. cbn [map snd].
  destruct (ends_from_incl _ _ _ _ Hx) as [->|H]; [left; reflexivity|right; exact H].
Qed.

(** X5.  Where the ends, [min_dist] and every sum [end + min_dist] are
    int64 values, so that no sum wraps, the spans [merge_intervals] returns
    are in ascending order of start and of end, and each span starts beyond
    the end of the span before it: more than [min_dist] after it, or at or
    after it for [min_dist = None].  No two returned spans could be merged
    further. *)
Theorem merge_intervals_spans_separated
    (starts ends : list Z) (min_dist : option Z) :
  length starts = length ends ->
  sums_in_int64 ends min_dist ->
  exists ids cstarts cends,
    merge_intervals starts ends min_dist = Ok (ids, cstarts, cends)
    /\ forall i, (S i < length cstarts)%nat ->
         nth i cstarts 0 <= nth (S i) cstarts 0
         /\ nth i cends 0 <= nth (S i) cends 0
         /\ match min_dist with
            | Some d => nth (S i) cstarts 0 > nth i cends 0 + d
            | None => nth (S i) cstarts 0 >= nth i cends 0
            end.
Proof.
  intros Hlen Hfit. rewrite (merge_intervals_sweep starts ends min_dist Hlen).
  pose proof (sweep_ends_in starts ends min_dist) as Hends.
  set (sorted := sort_intervals starts ends) in *.
  do 3 eexists. split; [reflexivity|].
  intros i Hi.
  pose proof (sweep_separated min_dist sorted (sort_intervals_sorted starts ends))
    as Hsep.
  pose proof (sweep_spans_length min_dist sorted) as Hl.
  assert (Hi' : (S i < length (combine (sweep_starts min_dist sorted)
                                       (sweep_ends min_dist sorted)))%nat)
    by (rewrite length_combine; lia).
  pose proof (separated_spans_nth min_dist _ i Hsep Hi') as H.
  rewrite !nth_pair, map_fst_combine, map_snd_combine in H by exact Hl.
  cbn [fst snd] in H.
  rewrite (is_border_in_range ends) in H; [exact H|exact Hfit|].
  apply Hends; [exact Hlen|]. apply nth_In. lia.
Qed.

Lemma merge_intervals_spans_separated_witness :
  length [1; 3; 10] = length [5; 8; 12]
  /\ sums_in_int64 [5; 8; 12] (Some 1)
  /\ exists ids cstarts cends,
       merge_intervals [1; 3; 10] [5; 8; 12] (Some 1) = Ok (ids, cstarts, cends)
       /\ ((S 0 < length cstarts)%nat ->
             nth 0 cstarts 0 <= nth 1 cstarts 0
             /\ nth 0 cends 0 <= nth 1 cends 0
             /\ nth 1 cstarts 0 > nth 0 cends 0 + 1).
Proof.
  assert (Hfit : sums_in_int64 [5; 8; 12] (Some 1))
    by (repeat constructor; unfold int64_min, int64_max; lia).
  split; [reflexivity|]. split; [exact Hfit|].
  destruct (merge_intervals_spans_separated [1; 3; 10] [5; 8; 12] (Some 1)
              eq_refl Hfit)
    as [ids [cs [ce [Hm H]]]].
  exists ids, cs, ce. split; [exact Hm | exact (H 0%nat)].
Defined.

(** The spans of a sweep cover every point the intervals cover; they cover
    nothing else when an interval that starts after the running maximum
    always opens a new span. *)
Lemma sweep_covers_any (md : option Z) (s_cur r : Z) (l : list (Z * Z)) :
  s_cur <= r ->
  Forall (fun p => s_cur <= fst p) l ->
  StronglySorted (le_of pair_leb) l ->
  Forall (fun p => fst p <= snd p) l ->
  Forall (fun q => fst q <= snd q)
    (combine (s_cur :: starts_from md r l) (ends_from md r l))
  /\ (forall x,
        s_cur <= x < r \/ covers l x ->
        covers (combine (s_cur :: starts_from md r l) (ends_from md r l)) x)
  /\ ((forall s r', r' = r \/ In r' (map snd l) ->
                     is_border md s r' = false -> s <= r') ->
      forall x,
        covers (combine (s_cur :: starts_from md r l) (ends_from md r l)) x ->
        s_cur <= x < r \/ covers l x).
Proof.
  revert s_cur r; induction l as [|[s e] l IH]; intros s_cur r Hr Hge Hs Hwf.
  - cbn [starts_from ends_from combine]. split; [|split].
    + constructor; [exact Hr|constructor].
    + intros x [H|H]; [|destruct (covers_nil x H)].
      apply covers_cons. left. exact H.
    + intros _ x H. apply covers_cons in H. destruct H as [H|H]; [left; exact H|].
      destruct (covers_nil x H).
  - inversion Hge as [|? ? Hs_cur Hge']; subst.
    inversion Hs as [|? ? Hs' Hall]; subst.
    inversion Hwf as [|? ? Hse Hwf']; subst.
    simpl in Hs_cur, Hse.
    assert (Hall' : Forall (fun p => s <= fst p) l).
    { eapply Forall_impl; [|exact Hall]. intros p Hp.
      apply pair_leb_spec in Hp. simpl in Hp. lia. }
    cbn [starts_from ends_from].
    assert (Hnext : (forall s' r', r' = r \/ In r' (map snd ((s, e) :: l)) ->
                                   is_border md s' r' = false -> s' <= r') ->
                    forall s' r', r' = Z.max r e \/ In r' (map snd l) ->
                                  is_border md s' r' = false -> s' <= r').
    { intros Hnb s' r' Hr'. apply Hnb. cbn [map snd].
      destruct Hr' as [->|Hr']; [|right; right; exact Hr'].
      destruct (Z.max_spec r e) as [[_ ->]|[_ ->]];
        [right; left; reflexivity|left; reflexivity]. }
    destruct (is_border md s r) eqn:Hb.
    + destruct (IH s (Z.max r e)) as [Hq [Hsup Hsub]]; auto; [lia|].
      change (combine (s_cur :: ?a) (r :: ?b)) with ((s_cur, r) :: combine a b).
      split; [|split].
      * constructor; [exact Hr|exact Hq].
      * intros x Hx. apply covers_cons. cbn [fst snd].
        destruct Hx as [Hx|Hx]; [left; exact Hx|].
        apply covers_cons in Hx. cbn [fst snd] in Hx.
        right. apply Hsup. destruct Hx as [Hx|Hx]; [left; lia|right; exact Hx].
      * intros Hnb x Hx. apply covers_cons in Hx. cbn [fst snd] in Hx.
        destruct Hx as [Hx|Hx]; [left; exact Hx|].
        destruct (Hsub (Hnext Hnb) x Hx) as [H|H].
        -- destruct (Z_lt_dec x e) as [Hxe|Hxe].
           ++ right. apply covers_cons. left. simpl. lia.
           ++ left. lia.
        -- right. apply covers_cons. right. exact H.
    + destruct (IH s_cur (Z.max r e)) as [Hq [Hsup Hsub]]; auto; [lia|].
      split; [exact Hq|]. split.
      * intros x Hx. apply Hsup. destruct Hx as [Hx|Hx]; [left; lia|].
        apply covers_cons in Hx. cbn [fst snd] in Hx.
        destruct Hx as [Hx|Hx]; [left; lia|right; exact Hx].
      * intros Hnb x Hx. pose proof (Hnb s r (or_introl eq_refl) Hb) as Hsr.
        destruct (Hsub (Hnext Hnb) x Hx) as [H|H].
        -- destruct (Z_lt_dec x r) as [Hxr|Hxr]; [left; lia|].
           right. apply covers_cons. left. simpl. lia.
        -- right. apply covers_cons. right. exact H.
Qed.

Lemma Forall2_of_combine {A B : Type} (R : A -> B -> Prop) (a : list A) (b : list B) :
  length a = length b ->
  Forall (fun p => R (fst p) (snd p)) (combine a b) -> Forall2 R a b.
Proof.
  revert b; induction a as [|x a IH]; intros [|y b] Hl H; simpl in Hl;
    try discriminate; [constructor|].
  simpl in H. inversion H; subst. constructor; auto.
Qed.

Lemma not_border_below (ends : list Z) (md : option Z) :
  match md with
  | Some d => d = 0 \/ (d < 0 /\ sums_in_int64 ends md)
  | None => True
  end ->
  forall s r, In r ends -> is_border md s r = false -> s <= r.
Proof.
  intros Hmd s r Hin H.
  assert (Hn : is_border md s r <> true) by (rewrite H; discriminate).
  destruct md as [d|].
  - destruct Hmd as [->|[Hd Hfit]].
    + rewrite is_border_zero in Hn. lia.
    + rewrite (is_border_in_range ends (Some d) s r Hfit Hin) in Hn. lia.
  - rewrite is_border_none in Hn. lia.
Qed.

(** A negative [min_dist] can take the sum below the int64 minimum, where it
    wraps to a large value: the intervals [-2^63, -2^63 + 1) and [5, 10) with
    [min_dist = -2] come back as the one span [-2^63, 10), which covers the
    point 3 that neither interval covers. *)
Lemma merge_intervals_underflow :
  merge_intervals [int64_min; 5] [int64_min + 1; 10] (Some (-2))
  = Ok ([0; 0], [int64_min], [10])
  /\ covers (combine [int64_min] [10]) 3
  /\ ~ covers (combine [int64_min; 5] [int64_min + 1; 10]) 3.
Proof.
  split; [vm_compute; reflexivity|]. split.
  - apply covers_cons. left. unfold int64_min. simpl. lia.
  - intros H. cbn [combine] in H.
    apply covers_cons in H. unfold int64_min in H. cbn [fst snd] in H.
    destruct H as [H|H]; [lia|].
    apply covers_cons in H. cbn [fst snd] in H.
    destruct H as [H|H]; [lia|destruct (covers_nil _ H)].
Qed.

(** X6.  On well-formed intervals the spans [merge_intervals] returns are
    well formed and cover every point that an interval covers, for every
    [min_dist]; for [min_dist = None], for the default [min_dist = 0] and
    for a negative [min_dist] with which the ends, [min_dist] and every sum
    [end + min_dist] are int64 values, they cover no other point, so the
    union of the intervals is kept exactly. *)
Theorem merge_intervals_covers (starts ends : list Z) (min_dist : option Z) :
  Forall2 Z.le starts ends ->
  exists ids cstarts cends,
    merge_intervals starts ends min_dist = Ok (ids, cstarts, cends)
    /\ Forall2 Z.le cstarts cends
    /\ (forall x, covers (combine starts ends) x ->
                  covers (combine cstarts cends) x)
    /\ (match min_dist with
        | Some d => d = 0 \/ (d < 0 /\ sums_in_int64 ends min_dist)
        | None => True
        end ->
        forall x, covers (combine cstarts cends) x ->
                  covers (combine starts ends) x).
Proof.
  intros Hwf.
  pose proof (Forall2_same_length _ _ _ Hwf) as Hlen.
  rewrite (merge_intervals_sweep starts ends min_dist Hlen).
  pose proof (sort_intervals_sorted starts ends) as Hs.
  pose proof (sort_intervals_perm starts ends) as Hp.
  assert (Hwf' : Forall (fun p => fst p <= snd p) (sort_intervals starts ends)).
  { apply Forall_forall. intros p Hin.
    apply (Permutation_in _ Hp) in Hin.
    pose proof (Forall2_combine _ _ _ Hwf) as H.
    rewrite Forall_forall in H. apply H, Hin. }
  pose proof (sweep_spans_length min_dist (sort_intervals starts ends)) as Hl.
  pose proof (fun x => sorted_ends_in starts ends x Hlen) as Hends.
  do 3 eexists. split; [reflexivity|].
  destruct (sort_intervals starts ends) as [|[s0 e0] l] eqn:E.
  - cbn [sweep_starts sweep_ends combine]. split; [constructor|].
    split.
    + intros x Hx. rewrite <- (covers_perm _ _ x Hp) in Hx. exact Hx.
    + intros _ x Hx. destruct (covers_nil x Hx).
  - inversion Hs as [|? ? Hs' Hall]; subst. inversion Hwf' as [|? ? H0 Hwl]; subst.
    cbn [sweep_starts sweep_ends] in *. simpl in H0.
    destruct (sweep_covers_any min_dist s0 e0 l) as [Hq [Hsup Hsub]]; auto.
    { eapply Forall_impl; [|exact Hall]. intros p Hp'.
      apply pair_leb_spec in Hp'. simpl in Hp'. lia. }
    split; [apply Forall2_of_combine; [exact Hl|exact Hq]|].
    split.
    + intros x Hx. rewrite <- (covers_perm _ _ x Hp) in Hx.
      apply covers_cons in Hx. apply Hsup. exact Hx.
    + intros Hmd x Hx. rewrite <- (covers_perm _ _ x Hp).
      apply covers_cons. apply (fun H => Hsub H x Hx).
      intros s r' Hr'. apply (not_border_below ends min_dist Hmd).
      apply Hends. cbn [map snd].
      destruct Hr' as [->|Hr']; [left; reflexivity|right; exact Hr'].
Qed.

Lemma merge_intervals_covers_witness :
  Forall2 Z.le [1; 3; 10] [5; 8; 12]
  /\ exists ids cstarts cends,
       merge_intervals [1; 3; 10] [5; 8; 12] (Some 0) = Ok (ids, cstarts, cends)
       /\ Forall2 Z.le cstarts cends
       /\ (covers (combine [1; 3; 10] [5; 8; 12]) 7
           -> covers (combine cstarts cends) 7).
Proof.
  assert (H : Forall2 Z.le [1; 3; 10] [5; 8; 12]) by (repeat constructor; lia).
  split; [exact H|].
  destruct (merge_intervals_covers [1; 3; 10] [5; 8; 12] (Some 0) H)
    as [ids [cs [ce [Hm [Hw [Hsup _]]]]]].
  exists ids, cs, ce. split; [exact Hm|]. split; [exact Hw | exact (Hsup 7)].
Defined.

(** An interval of the sweep lies inside the span its id indexes: [c] is the
    id of the span that is open, [s_cur] its start. *)
Lemma sweep_member (md : option Z) (c r s_cur : Z) (l : list (Z * Z)) :
  Forall (fun p => s_cur <= fst p) l ->
  StronglySorted (le_of pair_leb) l ->
  r <= nth 0 (ends_from md r l) 0
  /\ forall i, (i < length l)%nat ->
       let id := nth i (ids_from md c r l) 0 in
       c <= id
       /\ nth (Z.to_nat (id - c)) (s_cur :: starts_from md r l) 0
          <= fst (nth i l (0, 0))
       /\ snd (nth i l (0, 0))
          <= nth (Z.to_nat (id - c)) (ends_from md r l) 0.
Proof.
  revert c r s_cur; induction l as [|[s e] l IH]; intros c r s_cur Hge Hs.
  - split; [simpl; lia|]. intros i Hi. simpl in Hi. lia.
  - inversion Hge as [|? ? Hs_cur Hge']; subst.
    inversion Hs as [|? ? Hs' Hall]; subst. simpl in Hs_cur.
    assert (Hall' : Forall (fun p => s <= fst p) l).
    { eapply Forall_impl; [|exact Hall]. intros p Hp.
      apply pair_leb_spec in Hp. simpl in Hp. lia. }
    cbn [ids_from starts_from ends_from].
    destruct (is_border md s r) eqn:Hb.
    + destruct (IH (c + 1) (Z.max r e) s Hall' Hs') as [Hr Hm].
      split; [simpl; lia|].
      intros [|i] Hi; cbv zeta.
      * cbn [nth]. replace (Z.to_nat (c + 1 - c)) with 1%nat by lia.
        cbn [nth fst snd]. lia.
      * simpl in Hi. cbn [nth]. specialize (Hm i ltac:(lia)). cbv zeta in Hm.
        destruct Hm as [Hc [Hlo Hhi]].
        replace (Z.to_nat (nth i (ids_from md (c + 1) (Z.max r e) l) 0 - c))
          with (S (Z.to_nat (nth i (ids_from md (c + 1) (Z.max r e) l) 0 - (c + 1))))
          by lia.
        cbn [nth]. split; [lia|]. split; assumption.
    + destruct (IH c (Z.max r e) s_cur Hge' Hs') as [Hr Hm].
      split; [lia|].
      intros [|i] Hi; cbv zeta.
      * cbn [nth]. rewrite Z.sub_diag. change (Z.to_nat 0) with 0%nat.
        cbn [nth fst snd]. lia.
      * simpl in Hi. cbn [nth]. apply Hm. lia.
Qed.

Lemma sweep_ids_member (md : option Z) (sorted : list (Z * Z)) (i : nat) :
  StronglySorted (le_of pair_leb) sorted ->
  (i < length sorted)%nat ->
  let id := Z.to_nat (nth i (sweep_ids md sorted) 0) in
  nth id (sweep_starts md sorted) 0 <= fst (nth i sorted (0, 0))
  /\ snd (nth i sorted (0, 0)) <= nth id (sweep_ends md sorted) 0.
Proof.
  intros Hs Hi. cbv zeta.
  destruct sorted as [|[s0 e0] l]; [simpl in Hi; lia|].
  inversion Hs as [|? ? Hs' Hall]; subst.
  assert (Hall' : Forall (fun p => s0 <= fst p) l).
  { eapply Forall_impl; [|exact Hall]. intros p Hp.
    apply pair_leb_spec in Hp. simpl in Hp. lia. }
  destruct (sweep_member md 0 e0 s0 l Hall' Hs') as [Hr Hm].
  cbn [sweep_ids sweep_starts sweep_ends].
  destruct i as [|i].
  - cbn [nth fst snd]. change (Z.to_nat 0) with 0%nat. cbn [nth]. lia.
  - simpl in Hi. cbn [nth]. specialize (Hm i ltac:(lia)). cbv zeta in Hm.
    rewrite Z.sub_0_r in Hm. tauto.
Qed.

(** X7.  Every interval lies inside the span of the cluster it is assigned
    to: the interval at sorted position [i] starts at or after the start of
    span [ids[i]] and ends at or before its end.  The ids returned follow
    the (start, end) order of the intervals. *)
Theorem merge_intervals_member_span
    (starts ends : list Z) (min_dist : option Z) :
  length starts = length ends ->
  exists ids cstarts cends,
    merge_intervals starts ends min_dist = Ok (ids, cstarts, cends)
    /\ forall i, (i < length starts)%nat ->
         let interval := nth i (sort_intervals starts ends) (0, 0) in
         let id := Z.to_nat (nth i ids 0) in
         nth id cstarts 0 <= fst interval /\ snd interval <= nth id cends 0.
Proof.
  intros Hlen. rewrite (merge_intervals_sweep starts ends min_dist Hlen).
  do 3 eexists. split; [reflexivity|].
  intros i Hi. apply sweep_ids_member.
  - apply sort_intervals_sorted.
  - rewrite sort_intervals_length by exact Hlen. exact Hi.
Qed.

Lemma merge_intervals_member_span_witness :
  length [10; 1; 3] = length [12; 5; 8]
  /\ exists ids cstarts cends,
       merge_intervals [10; 1; 3] [12; 5; 8] (Some 0) = Ok (ids, cstarts, cends)
       /\ ((2 < length [10; 1; 3])%nat ->
           nth (Z.to_nat (nth 2 ids 0)) cstarts 0
             <= fst (nth 2 (sort_intervals [10; 1; 3] [12; 5; 8]) (0, 0))
           /\ snd (nth 2 (sort_intervals [10; 1; 3] [12; 5; 8]) (0, 0))
             <= nth (Z.to_nat (nth 2 ids 0)) cends 0).
Proof.
  split; [reflexivity|].
  destruct (merge_intervals_member_span [10; 1; 3] [12; 5; 8] (Some 0) eq_refl)
    as [ids [cs [ce [Hm H]]]].
  exists ids, cs, ce. split; [exact Hm | exact (H 2%nat)].
Defined.

Lemma sweep_ids_bounds (md : option Z) (sorted : list (Z * Z)) (a : nat) :
  (a < length sorted)%nat ->
  0 <= nth a (sweep_ids md sorted) 0
    < Z.of_nat (length (sweep_starts md sorted)).
Proof.
  intros Ha.
  assert (Hin : In (nth a (sweep_ids md sorted) 0) (sweep_ids md sorted))
    by (apply nth_In; rewrite sweep_ids_length; exact Ha).
  pose proof (steps_bounded (sweep_ids md sorted)) as Hb.
  rewrite sweep_ids_last.
  assert (H : 0 <= nth a (sweep_ids md sorted) 0 <= last (sweep_ids md sorted) (-1)).
  { apply Hb; [| |exact Hin].
    - intros _. apply sweep_ids_first. intros ->. simpl in Ha. lia.
    - intros i Hi. rewrite sweep_ids_length in Hi.
      apply (sweep_ids_step md sorted i Hi). }
  lia.
Qed.

(** ** The order of the input *)

Lemma pair_leb_antisym (p q : Z * Z) :
  pair_leb p q = true -> pair_leb q p = true -> p = q.
Proof.
  rewrite !pair_leb_spec. destruct p, q. simpl. intros H1 H2.
  f_equal; lia.
Qed.

Lemma sorted_perm_unique (l1 l2 : list (Z * Z)) :
  StronglySorted (le_of pair_leb) l1 ->
  StronglySorted (le_of pair_leb) l2 ->
  Permutation l1 l2 -> l1 = l2.
Proof.
  intros H1. revert l2. induction H1 as [|x l1 Hs1 IH Hx]; intros l2 H2 Hp.
  - apply Permutation_nil in Hp. congruence.
  - destruct H2 as [|y l2 Hs2 Hy].
    + apply Permutation_sym, Permutation_nil in Hp. discriminate.
    + rewrite Forall_forall in Hx, Hy.
      assert (Hxy : x = y).
      { assert (Hin1 : In x (y :: l2))
          by (eapply Permutation_in; [exact Hp|left; reflexivity]).
        assert (Hin2 : In y (x :: l1))
          by (eapply Permutation_in; [apply Permutation_sym, Hp|left; reflexivity]).
        destruct Hin1 as [->|Hin1]; [reflexivity|].
        destruct Hin2 as [->|Hin2]; [reflexivity|].
        apply pair_leb_antisym; [apply Hx, Hin2 | apply Hy, Hin1]. }
      subst y. f_equal. apply IH; [exact Hs2|].
      eapply Permutation_cons_inv, Hp.
Qed.

(** X8.  [merge_intervals] and [complement_intervals] do not depend on the
    order in which the intervals are given: two inputs that hold the same
    intervals, in any order, give the same ids, the same spans and the same
    gaps.  (The ids returned follow the sorted order, not the input.) *)
Theorem merge_intervals_order_invariant
    (starts ends starts' ends' : list Z) (min_dist : option Z)
    (bounds : option (Z * Z)) :
  length starts = length ends ->
  length starts' = length ends' ->
  Permutation (combine starts ends) (combine starts' ends') ->
  merge_intervals starts ends min_dist = merge_intervals starts' ends' min_dist
  /\ complement_intervals starts ends bounds
     = complement_intervals starts' ends' bounds.
Proof.
  intros H H' Hp.
  assert (Hs : sort_intervals starts ends = sort_intervals starts' ends').
  { apply sorted_perm_unique; try apply sort_intervals_sorted.
    eapply perm_trans; [apply sort_intervals_perm|].
    eapply perm_trans; [exact Hp|].
    apply Permutation_sym, sort_intervals_perm. }
  assert (Hm : forall md, merge_intervals starts ends md
                          = merge_intervals starts' ends' md).
  { intros md. rewrite !merge_intervals_sweep by assumption.
    rewrite Hs. reflexivity. }
  split; [apply Hm|].
  unfold complement_intervals. rewrite Hm. reflexivity.
Qed.

Lemma merge_intervals_order_invariant_witness :
  length [10; 1; 3] = length [12; 5; 8]
  /\ length [1; 3; 10] = length [5; 8; 12]
  /\ Permutation (combine [10; 1; 3] [12; 5; 8]) (combine [1; 3; 10] [5; 8; 12])
  /\ merge_intervals [10; 1; 3] [12; 5; 8] (Some 0)
     = merge_intervals [1; 3; 10] [5; 8; 12] (Some 0).
Proof.
  assert (Hp : Permutation (combine [10; 1; 3] [12; 5; 8])
                           (combine [1; 3; 10] [5; 8; 12])).
  { simpl. eapply perm_trans; [apply perm_swap|]. apply perm_skip, perm_swap. }
  split; [reflexivity|]. split; [reflexivity|]. split; [exact Hp|].
  exact (proj1 (merge_intervals_order_invariant
                  [10; 1; 3] [12; 5; 8] [1; 3; 10] [5; 8; 12] (Some 0) None
                  eq_refl eq_refl Hp)).
Defined.

(** ** The ids in input order *)

Lemma replace_nth_same {A : Type} (i : nat) (v d : A) (a : list A) :
  (i < length a)%nat -> nth i (replace_nth i v a) d = v.
Proof.
  revert i; induction a as [|x a IH]; intros [|i] H; simpl in *; try lia; auto.
  apply IH. lia.
Qed.

Lemma replace_nth_other {A : Type} (i j : nat) (v d : A) (a : list A) :
  j <> i -> nth j (replace_nth i v a) d = nth j a d.
Proof.
  revert i j; induction a as [|x a IH]; intros [|i] [|j] H; simpl; auto; try lia.
Qed.

(** Assignment through distinct indices: every index holds its value
    afterwards, and the other positions are as before. *)
Lemma scatter_spec {A : Type} (d : A) (idx : list nat) :
  forall (a : list A) (vals : list A) (r : list A),
  scatter a (map Z.of_nat idx) vals = Ok r ->
  NoDup idx ->
  Forall (fun i => (i < length a)%nat) idx ->
  length r = length a
  /\ (forall k, (k < length idx)%nat -> nth (nth k idx 0%nat) r d = nth k vals d)
  /\ (forall j, ~ In j idx -> nth j r d = nth j a d).
Proof.
  induction idx as [|i idx IH]; intros a vals r Hsc Hnd Hin.
  - destruct vals; simpl in Hsc; [|discriminate]. injection Hsc as <-.
    split; [reflexivity|]. split; [intros k Hk; simpl in Hk; lia|auto].
  - destruct vals as [|v vals]; [discriminate|].
    inversion Hnd as [|? ? Hni Hnd']; subst.
    inversion Hin as [|? ? Hi Hin']; subst.
    cbn [map scatter] in Hsc.
    rewrite setitem_in_range in Hsc by lia. cbn [bind] in Hsc.
    rewrite Nat2Z.id in Hsc.
    destruct (IH (replace_nth i v a) vals r Hsc Hnd') as [Hl [Hk Hj]].
    { rewrite replace_nth_length. exact Hin'. }
    rewrite replace_nth_length in Hl.
    split; [exact Hl|]. split.
    + intros [|k] Hlt.
      * cbn [nth]. rewrite (Hj i Hni). apply replace_nth_same, Hi.
      * cbn [nth]. apply Hk. simpl in Hlt. lia.
    + intros j Hnj. rewrite Hj by (intros H; apply Hnj; right; exact H).
      apply replace_nth_other. intros ->. apply Hnj. left. reflexivity.
Qed.

(** [merge_intervals_locals] with the assignment [cluster_ids[order] =
    cluster_ids_sorted] kept. *)
Lemma merge_intervals_locals_scatter (starts ends : list Z) (md : option Z) :
  length starts = length ends ->
  let ord := stable_sort (Np.lex_leb [starts; ends]) (seq 0 (length ends)) in
  let P := sort_intervals starts ends in
  exists ids,
    merge_intervals_locals starts ends md
    = Ok {| order := map Z.of_nat ord;
            cluster_borders := sweep_borders md P;
            cluster_ids_sorted := sweep_ids md P;
            cluster_ids := ids;
            cluster_starts := sweep_starts md P;
            cluster_ends := sweep_ends md P |}
    /\ scatter (Np.full (length P) (-1)) (map Z.of_nat ord) (sweep_ids md P)
       = Ok ids.
Proof.
  intros Hlen ord P.
  destruct (merge_intervals_locals_sweep starts ends md Hlen) as [ids [Hm _]].
  fold ord P in Hm. exists ids. split; [exact Hm|].
  revert Hm. unfold merge_intervals_locals.
  rewrite lexsort_pair by auto. cbn [bind]. fold ord.
  assert (Hord : Forall (fun i => (i < length ends)%nat) ord)
    by (apply (sorted_indices_bound (A := nat))).
  rewrite (take_nat starts ord 0) by (rewrite Hlen; exact Hord). cbn [bind].
  rewrite (take_nat ends ord 0) by exact Hord. cbn [bind].
  pose proof (sorted_through_order starts ends Hlen) as HP. fold ord P in HP.
  assert (Hs : map (fun i => nth i starts 0) ord = map fst P)
    by (rewrite <- HP, map_map; reflexivity).
  assert (He : map (fun i => nth i ends 0) ord = map snd P)
    by (rewrite <- HP, map_map; reflexivity).
  rewrite Hs, He. fold (running_max P). rewrite length_map.
  assert (Hin : (inner <- match md with
           | Some d =>
               Np.gt (Np.slice (map fst P) (Some 1) None)
                     (Np.add_scalar_int64
                        (Np.slice (running_max P) None (Some (-1))) d)
           | None =>
               Np.ge (Np.slice (map fst P) (Some 1) None)
                     (Np.slice (running_max P) None (Some (-1)))
           end ;; Ok inner)
          = Ok (match P with [] => [] | (_, e0) :: l => inner_borders md e0 l end)).
  { destruct P as [|[s0 e0] l].
    - destruct md; reflexivity.
    - rewrite inner_comparison. reflexivity. }
  pose proof (borders_assembled md P) as HB.
  destruct (setitem (Np.full (length P + 1) false) 0 true) as [cb0|]; [|discriminate].
  cbn [bind] in *.
  destruct (setitem cb0 (-1) true) as [cb1|]; [|discriminate].
  cbn [bind] in *.
  destruct (match md with
            | Some d => _
            | None => _
            end) as [inner|]; [|discriminate].
  cbn [bind] in *. injection Hin as ->.
  rewrite HB. cbn [bind].
  rewrite sweep_ids_cumsum.
  destruct (scatter (Np.full (length P) (-1)) (map Z.of_nat ord) (sweep_ids md P))
    as [ids'|]; [|discriminate].
  cbn [bind]. rewrite compress_starts, compress_ends. cbn [bind].
  intros H. injection H as <-. reflexivity.
Qed.

Lemma nth_map_of_nat (ord : list nat) (q : nat) :
  nth q (map Z.of_nat ord) 0 = Z.of_nat (nth q ord 0%nat).
Proof. apply (map_nth Z.of_nat ord 0%nat). Qed.

Lemma order_is_permutation (leb : nat -> nat -> bool) (n : nat) :
  NoDup (stable_sort leb (seq 0 n))
  /\ forall p, (p < n)%nat ->
       exists k, (k < n)%nat /\ nth k (stable_sort leb (seq 0 n)) 0%nat = p.
Proof.
  pose proof (stable_sort_perm leb (seq 0 n)) as Hp.
  split.
  - eapply Permutation_NoDup; [apply Permutation_sym, Hp | apply seq_NoDup].
  - intros p Hlt.
    assert (Hin : In p (stable_sort leb (seq 0 n))).
    { eapply Permutation_in; [apply Permutation_sym, Hp|]. apply in_seq. lia. }
    destruct (In_nth _ _ 0%nat Hin) as [k [Hk Hn]].
    rewrite stable_sort_length, length_seq in Hk. exists k. split; assumption.
Qed.

(** X9.  The local [cluster_ids] of [merge_intervals], which the function
    builds by [cluster_ids[order] = cluster_ids_sorted] and does not return,
    holds the ids in input order: the id of sorted position [k] stands at
    input position [order[k]], and the interval at input position [p] lies
    inside the span [cluster_ids[p]]. *)
Theorem merge_intervals_ids_in_input_order
    (starts ends : list Z) (min_dist : option Z) :
  length starts = length ends ->
  exists m,
    merge_intervals_locals starts ends min_dist = Ok m
    /\ length (cluster_ids m) = length starts
    /\ (forall k, (k < length starts)%nat ->
          nth (Z.to_nat (nth k (order m) 0)) (cluster_ids m) 0
          = nth k (cluster_ids_sorted m) 0)
    /\ forall p, (p < length starts)%nat ->
         let id := Z.to_nat (nth p (cluster_ids m) 0) in
         nth id (cluster_starts m) 0 <= nth p starts 0
         /\ nth p ends 0 <= nth id (cluster_ends m) 0.
Proof.
  intros Hlen.
  destruct (merge_intervals_locals_scatter starts ends min_dist Hlen)
    as [ids [Hm Hsc]].
  cbv zeta in Hm, Hsc.
  set (ord := stable_sort (Np.lex_leb [starts; ends]) (seq 0 (length ends))) in *.
  set (P := sort_intervals starts ends) in *.
  assert (Hn : length P = length starts) by (apply sort_intervals_length, Hlen).
  destruct (order_is_permutation (Np.lex_leb [starts; ends]) (length ends))
    as [Hnd Hsurj]. fold ord in Hnd, Hsurj.
  assert (Hord : Forall (fun i => (i < length ends)%nat) ord)
    by (apply (sorted_indices_bound (A := nat))).
  destruct (scatter_spec 0 ord _ _ _ Hsc Hnd) as [Hl [Hk _]].
  { unfold Np.full. rewrite repeat_length, Hn, Hlen. exact Hord. }
  unfold Np.full in Hl. rewrite repeat_length, Hn in Hl.
  assert (HlenO : length ord = length starts)
    by (unfold ord; rewrite stable_sort_length, length_seq; symmetry; exact Hlen).
  eexists. split; [exact Hm|].
  cbn [cluster_ids cluster_starts cluster_ends cluster_ids_sorted order].
  split; [exact Hl|].
  split.
  { intros k Hklt. rewrite nth_map_of_nat, Nat2Z.id. apply Hk. lia. }
  intros p Hp. cbv zeta.
  destruct (Hsurj p ltac:(lia)) as [k [Hklt Hkp]].
  assert (Hklen : (k < length ord)%nat)
    by (unfold ord; rewrite stable_sort_length, length_seq; exact Hklt).
  specialize (Hk k Hklen). rewrite Hkp in Hk. rewrite Hk.
  pose proof (sorted_through_order starts ends Hlen) as HP. fold ord P in HP.
  assert (Hint : nth k P (0, 0) = (nth p starts 0, nth p ends 0)).
  { set (f := fun i : nat => (nth i starts 0, nth i ends 0)) in *.
    rewrite <- HP, <- Hkp.
    change (nth (nth k ord 0%nat) starts 0, nth (nth k ord 0%nat) ends 0)
      with (f (nth k ord 0%nat)).
    rewrite (nth_indep _ (0, 0) (f 0%nat)) by (rewrite length_map; exact Hklen).
    apply map_nth. }
  pose proof (sweep_ids_member min_dist P k (sort_intervals_sorted starts ends))
    as Hmem.
  cbv zeta in Hmem. rewrite Hint in Hmem. cbn [fst snd] in Hmem.
  apply Hmem. lia.
Qed.

Lemma merge_intervals_ids_in_input_order_witness :
  length [10; 1] = length [12; 5]
  /\ exists m,
       merge_intervals_locals [10; 1] [12; 5] (Some 0) = Ok m
       /\ length (cluster_ids m) = length [10; 1].
Proof.
  split; [reflexivity|].
  destruct (merge_intervals_ids_in_input_order [10; 1] [12; 5] (Some 0) eq_refl)
    as [m [Hm [Hl _]]].
  exists m. split; [exact Hm | exact Hl].
Defined.

Lemma Sorted_map_inv {A B : Type} (f : A -> B) (R : B -> B -> Prop) (l : list A) :
  Sorted R (map f l) -> Sorted (fun a b => R (f a) (f b)) l.
Proof.
  induction l as [|x l IH]; intros H; [constructor|].
  simpl in H. inversion H as [|? ? Hs Hhd]; subst.
  constructor; [apply IH, Hs|].
  destruct l as [|y l]; constructor. simpl in Hhd. inversion Hhd; auto.
Qed.

Lemma Sorted_ext {A : Type} (R1 R2 : A -> A -> Prop) (l : list A) :
  (forall a b, R1 a b -> R2 a b) -> Sorted R1 l -> Sorted R2 l.
Proof.
  intros H. induction 1 as [|x l Hs IH Hhd]; constructor; auto.
  destruct Hhd; constructor; auto.
Qed.

Lemma sorted_input_order (starts ends : list Z) :
  length starts = length ends ->
  Sorted (le_of pair_leb) (combine starts ends) ->
  stable_sort (Np.lex_leb [starts; ends]) (seq 0 (length ends))
  = seq 0 (length ends).
Proof.
  intros Hlen Hs. apply stable_sort_id.
  rewrite <- (combine_nth_seq starts ends Hlen), Hlen in Hs.
  apply Sorted_map_inv in Hs.
  eapply Sorted_ext; [|exact Hs].
  intros a b H. unfold le_of in *. rewrite lex_leb_pair. exact H.
Qed.

(** X10.  When the intervals are given in (start, end) order, the sort
    order is the identity, the local [cluster_ids] equals
    [cluster_ids_sorted], and the ids [merge_intervals] returns are aligned
    with the input: interval [p] lies inside the span [ids[p]]. *)
Theorem merge_intervals_sorted_input
    (starts ends : list Z) (min_dist : option Z) :
  length starts = length ends ->
  Sorted (le_of pair_leb) (combine starts ends) ->
  exists m,
    merge_intervals_locals starts ends min_dist = Ok m
    /\ merge_intervals starts ends min_dist
       = Ok (cluster_ids m, cluster_starts m, cluster_ends m)
    /\ order m = Np.arange (Z.of_nat (length starts))
    /\ forall p, (p < length starts)%nat ->
         let id := Z.to_nat (nth p (cluster_ids m) 0) in
         nth id (cluster_starts m) 0 <= nth p starts 0
         /\ nth p ends 0 <= nth id (cluster_ends m) 0.
Proof.
  intros Hlen Hs.
  destruct (merge_intervals_locals_scatter starts ends min_dist Hlen)
    as [ids [Hm Hsc]].
  cbv zeta in Hm, Hsc.
  rewrite (sorted_input_order starts ends Hlen Hs) in Hm, Hsc.
  assert (HP : sort_intervals starts ends = combine starts ends)
    by (apply stable_sort_id, Hs).
  set (P := sort_intervals starts ends) in *.
  assert (Hn : length P = length starts) by (apply sort_intervals_length, Hlen).
  destruct (scatter_spec 0 (seq 0 (length ends)) _ _ _ Hsc (seq_NoDup _ _))
    as [Hl [Hk _]].
  { unfold Np.full. rewrite repeat_length, Hn, Hlen.
    apply Forall_forall. intros i Hi. apply in_seq in Hi. lia. }
  unfold Np.full in Hl. rewrite repeat_length in Hl.
  assert (Hids : ids = sweep_ids min_dist P).
  { apply (nth_ext _ _ 0 0).
    - rewrite Hl, sweep_ids_length. reflexivity.
    - intros k Hklt. rewrite Hl, Hn, Hlen in Hklt.
      rewrite <- (Hk k) by (rewrite length_seq; exact Hklt).
      rewrite seq_nth by exact Hklt. reflexivity. }
  subst ids.
  eexists. split; [exact Hm|].
  cbn [cluster_ids cluster_starts cluster_ends order].
  split; [apply merge_intervals_sweep, Hlen|].
  split.
  { unfold Np.arange, Np.arange2. rewrite Z.sub_0_r, Nat2Z.id, Hlen.
    apply map_ext. intros; lia. }
  intros p Hp. cbv zeta.
  pose proof (sweep_ids_member min_dist P p (sort_intervals_sorted starts ends))
    as Hmem.
  cbv zeta in Hmem.
  assert (Hnth : nth p P (0, 0) = (nth p starts 0, nth p ends 0))
    by (rewrite HP; apply combine_nth, Hlen).
  rewrite Hnth in Hmem. cbn [fst snd] in Hmem.
  apply Hmem. lia.
Qed.

Lemma merge_intervals_sorted_input_witness :
  length [1; 3; 10] = length [5; 8; 12]
  /\ Sorted (le_of pair_leb) (combine [1; 3; 10] [5; 8; 12])
  /\ exists m,
       merge_intervals_locals [1; 3; 10] [5; 8; 12] (Some 0) = Ok m
       /\ merge_intervals [1; 3; 10] [5; 8; 12] (Some 0)
          = Ok (cluster_ids m, cluster_starts m, cluster_ends m).
Proof.
  assert (Hs : Sorted (le_of pair_leb) (combine [1; 3; 10] [5; 8; 12]))
    by (repeat constructor).
  split; [reflexivity|]. split; [exact Hs|].
  destruct (merge_intervals_sorted_input [1; 3; 10] [5; 8; 12] (Some 0) eq_refl Hs)
    as [m [Hm [Hr _]]].
  exists m. split; [exact Hm | exact Hr].
Defined.

(** ** More on [complement_intervals] *)

(** The gaps of well-formed intervals: inside the bounds, non-empty, in
    order, and holding the points of the bounds that no interval covers. *)
Lemma complement_intervals_points (starts ends : list Z) (lo hi : Z) :
  Forall2 Z.le starts ends ->
  exists cstarts cends,
    complement_intervals starts ends (Some (lo, hi)) = Ok (cstarts, cends)
    /\ length cstarts = length cends
    /\ Forall (fun g => lo <= fst g /\ fst g < snd g /\ snd g <= hi)
         (combine cstarts cends)
    /\ forall x, lo <= x < hi ->
         (covers (combine cstarts cends) x <-> ~ covers (combine starts ends) x).
Proof.
  intros Hwf.
  pose proof (Forall2_same_length _ _ _ Hwf) as Hlen.
  pose proof (complement_intervals_gaps starts ends (lo, hi) Hlen) as Hc.
  destruct (merged_spans_cover starts ends Hwf) as [Q1 [Q2 Q3]].
  cbv zeta in Hc, Q1, Q2, Q3.
  set (spans := combine (sweep_starts (Some 0) (sort_intervals starts ends))
                        (sweep_ends (Some 0) (sort_intervals starts ends))) in *.
  destruct (kept_spans_properties lo hi spans Q2) as [K2 [K3 K4]].
  cbv zeta in K2, K3, K4.
  pose proof (kept_spans_Forall _ _ (lo, hi) Q1) as K1.
  destruct (gaps_between_properties lo hi _ K1 K2 K3) as [G1 [G2 G3]].
  cbn [fst snd] in Hc. set (gaps := gaps_between lo (kept_spans spans (lo, hi)) hi) in *.
  exists (map fst gaps), (map snd gaps).
  rewrite combine_fst_snd.
  split; [exact Hc|].
  split; [rewrite !length_map; reflexivity|].
  split; [exact G1|].
  intros x Hx. rewrite (G3 x Hx), (K4 x Hx), (Q3 x). reflexivity.
Qed.

Lemma gaps_well_formed (lo hi : Z) (cs ce : list Z) :
  length cs = length ce ->
  Forall (fun g => lo <= fst g /\ fst g < snd g /\ snd g <= hi) (combine cs ce) ->
  Forall2 Z.le cs ce.
Proof.
  intros Hl H. apply Forall2_of_combine; [exact Hl|].
  eapply Forall_impl; [|exact H]. simpl. intros; lia.
Qed.

(** X11.  The complement of the complement: on well-formed intervals,
    complementing the gaps within the same bounds gives spans that cover
    exactly the points of the bounds that the intervals cover. *)
Theorem complement_intervals_twice (starts ends : list Z) (lo hi : Z) :
  Forall2 Z.le starts ends ->
  exists cstarts cends cstarts2 cends2,
    complement_intervals starts ends (Some (lo, hi)) = Ok (cstarts, cends)
    /\ complement_intervals cstarts cends (Some (lo, hi)) = Ok (cstarts2, cends2)
    /\ forall x,
         covers (combine cstarts2 cends2) x
         <-> lo <= x < hi /\ covers (combine starts ends) x.
Proof.
  intros Hwf.
  destruct (complement_intervals_points starts ends lo hi Hwf)
    as [cs [ce [Hc [Hl [Hg Hiff]]]]].
  pose proof (gaps_well_formed lo hi cs ce Hl Hg) as Hwf2.
  destruct (complement_intervals_points cs ce lo hi Hwf2)
    as [cs2 [ce2 [Hc2 [Hl2 [Hg2 Hiff2]]]]].
  exists cs, ce, cs2, ce2. split; [exact Hc|]. split; [exact Hc2|].
  intros x. split.
  - intros Hx. pose proof (covers_within _ _ _ _ Hg2 Hx) as Hb.
    split; [exact Hb|].
    apply (Hiff2 x Hb) in Hx.
    destruct (covers_dec (combine starts ends) x) as [H|H]; [exact H|].
    exfalso. apply Hx, (Hiff x Hb), H.
  - intros [Hb Hx]. apply (Hiff2 x Hb). intros Hgap.
    apply (Hiff x Hb) in Hgap. apply Hgap, Hx.
Qed.

Lemma complement_intervals_twice_witness :
  Forall2 Z.le [1; 10] [5; 12]
  /\ exists cstarts cends cstarts2 cends2,
       complement_intervals [1; 10] [5; 12] (Some (0, 15)) = Ok (cstarts, cends)
       /\ complement_intervals cstarts cends (Some (0, 15)) = Ok (cstarts2, cends2).
Proof.
  assert (H : Forall2 Z.le [1; 10] [5; 12]) by (repeat constructor; lia).
  split; [exact H|].
  destruct (complement_intervals_twice [1; 10] [5; 12] 0 15 H)
    as [cs [ce [cs2 [ce2 [Hc [Hc2 _]]]]]].
  exists cs, ce, cs2, ce2. split; [exact Hc | exact Hc2].
Defined.

(** X12.  [complement_intervals] returns no gap exactly when the
    well-formed intervals cover every point of the bounds. *)
Theorem complement_intervals_empty_iff (starts ends : list Z) (lo hi : Z) :
  Forall2 Z.le starts ends ->
  exists cstarts cends,
    complement_intervals starts ends (Some (lo, hi)) = Ok (cstarts, cends)
    /\ ((cstarts = [] /\ cends = [])
        <-> forall x, lo <= x < hi -> covers (combine starts ends) x).
Proof.
  intros Hwf.
  destruct (complement_intervals_points starts ends lo hi Hwf)
    as [cs [ce [Hc [Hl [Hg Hiff]]]]].
  exists cs, ce. split; [exact Hc|]. split.
  - intros [-> ->] x Hx.
    destruct (covers_dec (combine starts ends) x) as [H|H]; [exact H|].
    exfalso. apply (Hiff x Hx) in H. destruct (covers_nil x H).
  - intros Hall. destruct cs as [|gs cs]; destruct ce as [|ge ce];
      simpl in Hl; try discriminate; [split; reflexivity|].
    exfalso. simpl in Hg. inversion Hg as [|? ? Hg0 _]; subst. simpl in Hg0.
    assert (Hb : lo <= gs < hi) by lia.
    apply (proj1 (Hiff gs Hb)); [|apply Hall, Hb].
    apply covers_cons. left. simpl. lia.
Qed.

Lemma complement_intervals_empty_iff_witness :
  Forall2 Z.le [0; 4] [5; 9]
  /\ exists cstarts cends,
       complement_intervals [0; 4] [5; 9] (Some (1, 8)) = Ok (cstarts, cends).
Proof.
  assert (H : Forall2 Z.le [0; 4] [5; 9]) by (repeat constructor; lia).
  split; [exact H|].
  destruct (complement_intervals_empty_iff [0; 4] [5; 9] 1 8 H)
    as [cs [ce [Hc _]]].
  exists cs, ce. exact Hc.
Defined.

(** X13.  [complement_intervals] fails exactly when the two arrays differ
    in length, with the ValueError that [merge_intervals] raises; on arrays
    of one length it returns, whatever the coordinates and the bounds. *)
Theorem complement_intervals_fails_iff
    (starts ends : list Z) (bounds : option (Z * Z)) :
  (complement_intervals starts ends bounds = Raise ValueError
   <-> length starts <> length ends)
  /\ ((exists r, complement_intervals starts ends bounds = Ok r)
      <-> length starts = length ends).
Proof.
  assert (Hb : complement_intervals starts ends bounds
               = complement_intervals starts ends
                   (Some match bounds with Some b => b | None => default_bounds end))
    by (destruct bounds; reflexivity).
  rewrite Hb.
  destruct (Nat.eq_dec (length starts) (length ends)) as [E|E].
  - rewrite (complement_intervals_gaps starts ends _ E). split.
    + split; [discriminate|contradiction].
    + split; [auto|]. intros _. eexists. reflexivity.
  - unfold complement_intervals.
    rewrite (merge_intervals_mismatch starts ends (Some 0) E). cbn [bind]. split.
    + split; auto.
    + split; [intros [r Hr]; discriminate|contradiction].
Qed.

(** ** More on [overlap_intervals] *)

(** The rows of [overlap_intervals] on well-formed intervals. *)
Lemma overlap_intervals_pairs (starts1 ends1 starts2 ends2 : list Z) :
  Forall2 Z.le starts1 ends1 ->
  Forall2 Z.le starts2 ends2 ->
  exists out,
    overlap_intervals starts1 ends1 starts2 ends2 = Ok out
    /\ forall i j,
         In (i, j) out
         <-> 0 <= i < Z.of_nat (length starts1)
             /\ 0 <= j < Z.of_nat (length starts2)
             /\ nth (Z.to_nat i) starts1 0 < nth (Z.to_nat j) ends2 0
             /\ nth (Z.to_nat j) starts2 0 < nth (Z.to_nat i) ends1 0.
Proof.
  intros Hwf1 Hwf2.
  pose proof (Forall2_same_length _ _ _ Hwf1) as H1.
  pose proof (Forall2_same_length _ _ _ Hwf2) as H2.
  rewrite (overlap_intervals_rows _ _ _ _ H1 H2).
  set (T := sorted_tagged starts1 ends1 starts2 ends2).
  pose proof (sorted_tagged_sorted starts1 ends1 starts2 ends2) as Hs. fold T in Hs.
  pose proof (raw_overlaps_In T) as Hraw. cbv zeta in Hraw.
  set (d := (0, 0, 0)) in *.
  assert (Hmem : forall p, (p < length T)%nat ->
            (exists a, (a < length starts1)%nat
               /\ nth p T d = (nth a starts1 0, nth a ends1 0, - (Z.of_nat a + 1)))
            \/ (exists b, (b < length starts2)%nat
               /\ nth p T d = (nth b starts2 0, nth b ends2 0, Z.of_nat b + 1))).
  { intros p Hp. apply (tagged_members starts1 ends1 starts2 ends2 _ H1 H2).
    apply nth_In, Hp. }
  assert (Hord : forall p q, (p < q < length T)%nat ->
            fst (fst (nth p T d)) < fst (fst (nth q T d))
            \/ (fst (fst (nth p T d)) = fst (fst (nth q T d))
                /\ snd (fst (nth p T d)) <= snd (fst (nth q T d)))).
  { intros p q Hpq. pose proof (StronglySorted_nth _ _ d Hs p q Hpq) as Hle.
    unfold le_of, tag_leb in Hle. apply pair_leb_spec in Hle. exact Hle. }
  eexists. split; [reflexivity|].
  intros i j.
  assert (Hperm : forall l, In (i, j) (stable_sort pair_leb l) <-> In (i, j) l).
  { intros l. split; apply Permutation_in;
      [|apply Permutation_sym]; apply stable_sort_perm. }
  rewrite Hperm, in_map_iff. split.
  - intros [[x y] [Hdec Hin]]. apply filter_In in Hin. destruct Hin as [Hin Hcross].
    apply (Hraw x y Hs) in Hin. destruct Hin as [p [q [Hpq [Hlt [Hx Hy]]]]].
    specialize (Hord p q Hpq).
    destruct (Hmem p ltac:(lia)) as [[a [Ha Hp]]|[b [Hb Hp]]];
      destruct (Hmem q ltac:(lia)) as [[a' [Ha' Hq]]|[b' [Hb' Hq]]];
      rewrite Hp, Hq in *; cbn [fst snd] in *; subst x y.
    + rewrite (proj1 (same_set_not_cross a a')) in Hcross. discriminate.
    + destruct (decode_pair_cross a b') as [_ [Hd _]].
      rewrite Hd in Hdec. inversion Hdec; subst. rewrite !Nat2Z.id.
      pose proof (Forall2_nth _ _ _ 0 0 b' Hwf2 Hb').
      repeat split; lia.
    + destruct (decode_pair_cross a' b) as [_ [_ [_ Hd]]].
      rewrite Hd in Hdec. inversion Hdec; subst. rewrite !Nat2Z.id.
      pose proof (Forall2_nth _ _ _ 0 0 a' Hwf1 Ha').
      repeat split; lia.
    + rewrite (proj2 (same_set_not_cross b b')) in Hcross. discriminate.
  - intros [Hi [Hj [Hov1 Hov2]]].
    set (a := Z.to_nat i) in *. set (b := Z.to_nat j) in *.
    assert (Ha : (a < length starts1)%nat) by lia.
    assert (Hb : (b < length starts2)%nat) by lia.
    assert (Hia : i = Z.of_nat a) by lia. assert (Hjb : j = Z.of_nat b) by lia.
    assert (Hin1 : In (nth a starts1 0, nth a ends1 0, - (Z.of_nat a + 1)) T).
    { apply (tagged_members starts1 ends1 starts2 ends2 _ H1 H2).
      left. exists a. split; [exact Ha|reflexivity]. }
    assert (Hin2 : In (nth b starts2 0, nth b ends2 0, Z.of_nat b + 1) T).
    { apply (tagged_members starts1 ends1 starts2 ends2 _ H1 H2).
      right. exists b. split; [exact Hb|reflexivity]. }
    destruct (In_nth _ _ d Hin1) as [P [HP HnP]].
    destruct (In_nth _ _ d Hin2) as [Q [HQ HnQ]].
    destruct (decode_pair_cross a b) as [Hc1 [Hd1 [Hc2 Hd2]]].
    assert (HPQ : P <> Q).
    { intros ->. rewrite HnP in HnQ. inversion HnQ. lia. }
    destruct (Nat.lt_ge_cases P Q) as [Hlt|Hge].
    + exists (- (Z.of_nat a + 1), Z.of_nat b + 1).
      split; [rewrite Hd1, Hia, Hjb; reflexivity|].
      apply filter_In. split; [|exact Hc1].
      apply (Hraw _ _ Hs). exists P, Q. rewrite HnP, HnQ. cbn [fst snd].
      repeat split; auto; lia.
    + exists (Z.of_nat b + 1, - (Z.of_nat a + 1)).
      split; [rewrite Hd2, Hia, Hjb; reflexivity|].
      apply filter_In. split; [|exact Hc2].
      apply (Hraw _ _ Hs). exists Q, P. rewrite HnP, HnQ. cbn [fst snd].
      repeat split; auto; lia.
Qed.

(** X14.  Overlap is symmetric: with the two sets swapped,
    [overlap_intervals] returns the same pairs with their two ids
    swapped. *)
Theorem overlap_intervals_symmetric (starts1 ends1 starts2 ends2 : list Z) :
  Forall2 Z.le starts1 ends1 ->
  Forall2 Z.le starts2 ends2 ->
  exists out out',
    overlap_intervals starts1 ends1 starts2 ends2 = Ok out
    /\ overlap_intervals starts2 ends2 starts1 ends1 = Ok out'
    /\ length out = length out'
    /\ forall i j, In (i, j) out <-> In (j, i) out'.
Proof.
  intros Hwf1 Hwf2.
  destruct (overlap_intervals_pairs _ _ _ _ Hwf1 Hwf2) as [out [Ho Hin]].
  destruct (overlap_intervals_pairs _ _ _ _ Hwf2 Hwf1) as [out' [Ho' Hin']].
  exists out, out'. split; [exact Ho|]. split; [exact Ho'|].
  assert (Hsym : forall i j, In (i, j) out <-> In (j, i) out')
    by (intros i j; rewrite Hin, Hin'; tauto).
  split; [|exact Hsym].
  pose proof (Forall2_same_length _ _ _ Hwf1) as H1.
  pose proof (Forall2_same_length _ _ _ Hwf2) as H2.
  assert (Hnd : NoDup out).
  { rewrite (overlap_intervals_rows _ _ _ _ H1 H2) in Ho. injection Ho as <-.
    eapply Permutation_NoDup; [apply Permutation_sym, stable_sort_perm|].
    apply overlap_rows_NoDup; assumption. }
  assert (Hnd' : NoDup out').
  { rewrite (overlap_intervals_rows _ _ _ _ H2 H1) in Ho'. injection Ho' as <-.
    eapply Permutation_NoDup; [apply Permutation_sym, stable_sort_perm|].
    apply overlap_rows_NoDup; assumption. }
  assert (Hswap : NoDup (map (fun p : Z * Z => (snd p, fst p)) out)).
  { apply Finite.Injective_map_NoDup; [|exact Hnd].
    intros [a b] [c e] H. simpl in H. congruence. }
  apply Nat.le_antisymm.
  - rewrite <- (length_map (fun p : Z * Z => (snd p, fst p)) out).
    apply NoDup_incl_length; [exact Hswap|].
    intros [j i] H. apply in_map_iff in H. destruct H as [[i' j'] [Heq H]].
    simpl in Heq. inversion Heq; subst. apply Hsym, H.
  - rewrite <- (length_map (fun p : Z * Z => (snd p, fst p)) out).
    apply NoDup_incl_length; [exact Hnd'|].
    intros [j i] H. apply in_map_iff. exists (i, j). split; [reflexivity|].
    apply Hsym, H.
Qed.

Lemma overlap_intervals_symmetric_witness :
  Forall2 Z.le [1] [5] /\ Forall2 Z.le [0; 4; 6] [2; 6; 8]
  /\ exists out out',
       overlap_intervals [1] [5] [0; 4; 6] [2; 6; 8] = Ok out
       /\ overlap_intervals [0; 4; 6] [2; 6; 8] [1] [5] = Ok out'
       /\ length out = length out'.
Proof.
  assert (H1 : Forall2 Z.le [1] [5]) by (repeat constructor; lia).
  assert (H2 : Forall2 Z.le [0; 4; 6] [2; 6; 8]) by (repeat constructor; lia).
  split; [exact H1|]. split; [exact H2|].
  destruct (overlap_intervals_symmetric [1] [5] [0; 4; 6] [2; 6; 8] H1 H2)
    as [out [out' [Ho [Ho' [Hl _]]]]].
  exists out, out'. split; [exact Ho|]. split; [exact Ho' | exact Hl].
Defined.

(** A gap ends at or before a span starts, or starts at or after it ends. *)
Lemma tail_gaps_apart (s0 e hi : Z) (k : list (Z * Z)) :
  separated_spans (Some 0) ((s0, e) :: k) ->
  Forall (fun p => fst p < hi) k ->
  forall g p, In g (tail_gaps e k hi) -> In p ((s0, e) :: k) ->
    snd p <= fst g \/ snd g <= fst p.
Proof.
  revert s0 e; induction k as [|[s' e'] k IH]; intros s0 e Hsep Hhi g p Hg Hp.
  - cbn [tail_gaps] in Hg. destruct (e <? hi); [|destruct Hg].
    destruct Hg as [<-|[]]. destruct Hp as [<-|[]]. left. simpl. lia.
  - inversion Hhi as [|? ? Hs Hhi']; subst.
    pose proof (separated_spans_tail _ _ _ Hsep) as Hsep'.
    pose proof (separated_spans_bounds _ _ _ _ Hsep') as Hb'.
    pose proof (tail_gaps_bounds s' e' hi k Hsep' Hhi') as Hgb.
    cbn [separated_spans] in Hsep. destruct Hsep as [[_ [He _]] _].
    rewrite Forall_forall in Hb', Hgb.
    cbn [tail_gaps] in Hg. destruct Hg as [<-|Hg].
    + cbn [fst snd]. destruct Hp as [<-|[<-|Hp]].
      * left. simpl. lia.
      * right. simpl. lia.
      * right. specialize (Hb' p Hp). lia.
    + destruct Hp as [<-|Hp].
      * left. specialize (Hgb g Hg). cbn [snd]. lia.
      * apply (IH s' e' Hsep' Hhi' g p Hg Hp).
Qed.

Lemma gaps_between_apart (lo hi : Z) (k : list (Z * Z)) :
  separated_spans (Some 0) k ->
  Forall (fun p => lo < snd p /\ fst p < hi) k ->
  forall g p, In g (gaps_between lo k hi) -> In p k ->
    snd p <= fst g \/ snd g <= fst p.
Proof.
  intros Hsep Hin g p Hg Hp. destruct k as [|[s1 e1] k]; [destruct Hp|].
  inversion Hin as [|? ? _ Hin']; subst.
  pose proof (separated_spans_bounds _ _ _ _ Hsep) as Hb.
  rewrite Forall_forall in Hb.
  cbn [gaps_between] in Hg. apply in_app_or in Hg. destruct Hg as [Hg|Hg].
  - destruct (lo <? s1); [|destruct Hg]. destruct Hg as [<-|[]].
    right. cbn [snd]. destruct Hp as [<-|Hp]; [simpl; lia|].
    specialize (Hb p Hp). lia.
  - apply (tail_gaps_apart s1 e1 hi k Hsep); [|exact Hg|exact Hp].
    weaken_forall Hin'.
Qed.

Lemma below_prefix_or_above (hi : Z) (q : list (Z * Z)) (x : Z * Z) :
  separated_spans (Some 0) q ->
  In x q ->
  In x (firstn (prefix_len (fun p => fst p <? hi) q) q) \/ hi <= fst x.
Proof.
  induction q as [|[s e] q IH]; intros Hsep Hx; [destruct Hx|].
  pose proof (separated_spans_bounds _ _ _ _ Hsep) as Hb.
  rewrite Forall_forall in Hb.
  cbn [prefix_len fst]. destruct (Z.ltb_spec s hi) as [Hs|Hs].
  - cbn [firstn]. destruct Hx as [<-|Hx]; [left; left; reflexivity|].
    destruct (IH (separated_spans_tail _ _ _ Hsep) Hx) as [H|H];
      [left; right; exact H|right; exact H].
  - right. destruct Hx as [<-|Hx]; [simpl; lia|].
    specialize (Hb x Hx). lia.
Qed.

(** A span is kept, or lies before the bounds, or after them. *)
Lemma kept_or_outside (lo hi : Z) (q : list (Z * Z)) (x : Z * Z) :
  separated_spans (Some 0) q ->
  In x q ->
  In x (kept_spans q (lo, hi)) \/ snd x <= lo \/ hi <= fst x.
Proof.
  induction q as [|[s e] q IH]; intros Hsep Hx; [destruct Hx|].
  pose proof (separated_spans_tail _ _ _ Hsep) as Hsep'.
  pose proof (separated_spans_bounds _ _ _ _ Hsep) as Hb.
  rewrite Forall_forall in Hb.
  rewrite kept_spans_cons. cbn [fst snd].
  destruct (Z.leb_spec e lo) as [He|He]; destruct (Z.ltb_spec s hi) as [Hs|Hs].
  - destruct Hx as [<-|Hx]; [right; left; simpl; lia|]. apply IH; assumption.
  - right. destruct Hx as [<-|Hx]; [left; simpl; lia|].
    right. specialize (Hb x Hx). lia.
  - destruct Hx as [<-|Hx]; [left; left; reflexivity|].
    destruct (below_prefix_or_above hi q x Hsep' Hx) as [H|H];
      [left; right; exact H|right; right; exact H].
  - right. right. destruct Hx as [<-|Hx]; [simpl; lia|].
    specialize (Hb x Hx). lia.
Qed.

(** X15.  No interval overlaps a gap of its own complement: the overlap
    join of well-formed intervals with the gaps [complement_intervals]
    returns for them is empty, for any bounds. *)
Theorem overlap_with_complement_empty (starts ends : list Z) (lo hi : Z) :
  Forall2 Z.le starts ends ->
  exists cstarts cends,
    complement_intervals starts ends (Some (lo, hi)) = Ok (cstarts, cends)
    /\ overlap_intervals starts ends cstarts cends = Ok [].
Proof.
  intros Hwf.
  pose proof (Forall2_same_length _ _ _ Hwf) as Hlen.
  pose proof (complement_intervals_gaps starts ends (lo, hi) Hlen) as Hc.
  destruct (merged_spans_cover starts ends Hwf) as [Q1 [Q2 _]].
  cbv zeta in Hc, Q1, Q2.
  pose proof (sort_intervals_sorted starts ends) as Hs.
  pose proof (sort_intervals_perm starts ends) as Hperm.
  pose proof (sweep_spans_length (Some 0) (sort_intervals starts ends)) as Hl.
  set (sorted := sort_intervals starts ends) in *.
  set (spans := combine (sweep_starts (Some 0) sorted)
                        (sweep_ends (Some 0) sorted)) in *.
  destruct (kept_spans_properties lo hi spans Q2) as [K2 [K3 _]].
  cbv zeta in K2, K3.
  pose proof (kept_spans_Forall _ _ (lo, hi) Q1) as K1.
  destruct (gaps_between_properties lo hi _ K1 K2 K3) as [G1 _].
  cbn [fst snd] in Hc.
  set (gaps := gaps_between lo (kept_spans spans (lo, hi)) hi) in *.
  assert (Hwf2 : Forall2 Z.le (map fst gaps) (map snd gaps)).
  { apply Forall2_map_same. weaken_forall G1. }
  destruct (overlap_intervals_pairs _ _ _ _ Hwf Hwf2) as [out [Ho Hin]].
  exists (map fst gaps), (map snd gaps). split; [exact Hc|]. rewrite Ho. f_equal.
  destruct out as [|[i j] out]; [reflexivity|]. exfalso.
  destruct (proj1 (Hin i j) (or_introl eq_refl)) as [Hi [Hj [Ho1 Ho2]]].
  rewrite length_map in Hj.
  set (a := Z.to_nat i) in *. set (b := Z.to_nat j) in *.
  (* the gap *)
  assert (Hg : In (nth b (map fst gaps) 0, nth b (map snd gaps) 0) gaps).
  { rewrite <- nth_pair. apply nth_In. lia. }
  rewrite Forall_forall in G1. pose proof (G1 _ Hg) as Hgb. cbn [fst snd] in Hgb.
  (* the span of the interval *)
  assert (Hint : In (nth a starts 0, nth a ends 0) sorted).
  { eapply Permutation_in; [apply Permutation_sym, Hperm|].
    rewrite <- combine_nth by exact Hlen. apply nth_In.
    rewrite length_combine. lia. }
  destruct (In_nth _ _ (0, 0) Hint) as [c [Hc' Hnc]].
  pose proof (sweep_ids_member (Some 0) sorted c Hs Hc') as Hmem.
  pose proof (sweep_ids_bounds (Some 0) sorted c Hc') as Hidb.
  cbv zeta in Hmem. rewrite Hnc in Hmem. cbn [fst snd] in Hmem.
  set (id := Z.to_nat (nth c (sweep_ids (Some 0) sorted) 0)) in *.
  assert (Hspan : In (nth id (sweep_starts (Some 0) sorted) 0,
                      nth id (sweep_ends (Some 0) sorted) 0) spans).
  { unfold spans. rewrite <- combine_nth by exact Hl. apply nth_In.
    rewrite length_combine. lia. }
  destruct (kept_or_outside lo hi spans _ Q2 Hspan) as [Hk|Hout];
    cbn [fst snd] in *.
  - destruct (gaps_between_apart lo hi _ K2 K3 _ _ Hg Hk) as [H|H];
      cbn [fst snd] in H; lia.
  - lia.
Qed.

Lemma overlap_with_complement_empty_witness :
  Forall2 Z.le [1; 10] [5; 12]
  /\ exists cstarts cends,
       complement_intervals [1; 10] [5; 12] (Some (0, 15)) = Ok (cstarts, cends)
       /\ overlap_intervals [1; 10] [5; 12] cstarts cends = Ok [].
Proof.
  assert (H : Forall2 Z.le [1; 10] [5; 12]) by (repeat constructor; lia).
  split; [exact H|].
  exact (overlap_with_complement_empty [1; 10] [5; 12] 0 15 H).
Defined.

Lemma arange2_length_nat (n : nat) :
  length (Np.arange2 0 (Z.of_nat n)) = n.
Proof. rewrite arange2_length. lia. Qed.

(** X16.  [overlap_intervals] fails exactly when the starts of both sets
    together and the ends of both sets together differ in number, with the
    ValueError of [np.lexsort]: the arrays are concatenated before anything
    else, and the lengths of the arrays of one set are never compared.  In
    particular it returns whenever each set has as many starts as ends. *)
Theorem overlap_intervals_fails_iff (starts1 ends1 starts2 ends2 : list Z) :
  (overlap_intervals starts1 ends1 starts2 ends2 = Raise ValueError
   <-> (length starts1 + length starts2 <> length ends1 + length ends2)%nat)
  /\ ((exists out, overlap_intervals starts1 ends1 starts2 ends2 = Ok out)
      <-> (length starts1 + length starts2 = length ends1 + length ends2)%nat).
Proof.
  destruct (Nat.eq_dec (length starts1 + length starts2)
                       (length ends1 + length ends2)) as [E|E].
  - assert (Hsplit : overlap_intervals starts1 ends1 starts2 ends2
                     = overlap_intervals starts1
                         (firstn (length starts1) (ends1 ++ ends2)) starts2
                         (skipn (length starts1) (ends1 ++ ends2))).
    { unfold overlap_intervals. rewrite firstn_skipn. reflexivity. }
    rewrite Hsplit, overlap_intervals_rows.
    + split.
      * split; [discriminate|contradiction].
      * split; [auto|]. intros _. eexists. reflexivity.
    + rewrite length_firstn, length_app. lia.
    + rewrite length_skipn, length_app. lia.
  - assert (Hr : overlap_intervals starts1 ends1 starts2 ends2 = Raise ValueError).
    { unfold overlap_intervals.
      rewrite lexsort_pair_mismatch by (rewrite !length_app; lia). reflexivity. }
    rewrite Hr. split.
    + split; auto.
    + split; [intros [r H]; discriminate|contradiction].
Qed.

(** X17.  On well-formed intervals [overlap_intervals] returns at most
    [n1 * n2] rows; there are none when either set is empty. *)
Theorem overlap_intervals_count (starts1 ends1 starts2 ends2 : list Z) :
  Forall2 Z.le starts1 ends1 ->
  Forall2 Z.le starts2 ends2 ->
  exists out,
    overlap_intervals starts1 ends1 starts2 ends2 = Ok out
    /\ (length out <= length starts1 * length starts2)%nat
    /\ (starts1 = [] \/ starts2 = [] -> out = []).
Proof.
  intros Hwf1 Hwf2.
  destruct (overlap_intervals_pairs _ _ _ _ Hwf1 Hwf2) as [out [Ho Hin]].
  exists out. split; [exact Ho|].
  pose proof (Forall2_same_length _ _ _ Hwf1) as H1.
  pose proof (Forall2_same_length _ _ _ Hwf2) as H2.
  assert (Hnd : NoDup out).
  { rewrite (overlap_intervals_rows _ _ _ _ H1 H2) in Ho. injection Ho as <-.
    eapply Permutation_NoDup; [apply Permutation_sym, stable_sort_perm|].
    apply overlap_rows_NoDup; assumption. }
  assert (Hle : (length out <= length starts1 * length starts2)%nat).
  { rewrite <- (arange2_length_nat (length starts1)) at 1.
    rewrite <- (arange2_length_nat (length starts2)) at 1.
    rewrite <- length_prod.
    apply NoDup_incl_length; [exact Hnd|].
    intros [i j] H. apply Hin in H. apply in_prod; apply arange2_In; lia. }
  split; [exact Hle|].
  intros [->| ->]; simpl in Hle; destruct out; auto; simpl in Hle; lia.
Qed.

Lemma overlap_intervals_count_witness :
  Forall2 Z.le [1] [5] /\ Forall2 Z.le [0; 4; 6] [2; 6; 8]
  /\ exists out,
       overlap_intervals [1] [5] [0; 4; 6] [2; 6; 8] = Ok out
       /\ (length out <= length [1] * length [0; 4; 6])%nat.
Proof.
  assert (H1 : Forall2 Z.le [1] [5]) by (repeat constructor; lia).
  assert (H2 : Forall2 Z.le [0; 4; 6] [2; 6; 8]) by (repeat constructor; lia).
  split; [exact H1|]. split; [exact H2|].
  destruct (overlap_intervals_count [1] [5] [0; 4; 6] [2; 6; 8] H1 H2)
    as [out [Ho [Hl _]]].
  exists out. split; [exact Ho | exact Hl].
Defined.

(** ** More on [arange_multi] *)

Lemma forallb_false_Exists {A : Type} (f : A -> bool) (l : list A) :
  forallb f l = false -> Exists (fun x => f x = false) l.
Proof.
  induction l as [|x l IH]; simpl; [discriminate|].
  destruct (f x) eqn:E; simpl; intros H.
  - right. apply IH, H.
  - left. exact E.
Qed.

Lemma ranges_length (starts lens : list Z) :
  length starts = length lens ->
  Forall (fun r => 0 <= r) lens ->
  Z.of_nat (length (concat (zip_with (fun s l => Np.arange2 s (s + l)) starts lens)))
  = Np.sum lens.
Proof.
  revert lens; induction starts as [|s starts IH]; intros [|l lens] H Hl;
    simpl in H; try discriminate; [reflexivity|].
  inversion Hl; subst. cbn [zip_with concat Np.sum fold_right].
  rewrite length_app, arange2_length, Nat2Z.inj_add.
  fold (Np.sum lens). rewrite IH by (auto; lia). lia.
Qed.

(** X18.  With as many starts as lengths, [arange_multi] returns exactly
    when no length is negative, and then as many values as the lengths sum
    to; a negative length is a ValueError (of [np.repeat]).  Giving [stops]
    is the same as giving the lengths [stops - starts]. *)
Theorem arange_multi_succeeds_iff (starts lengths : list Z) :
  length starts = length lengths ->
  ((exists out, arange_multi (Arr starts) None (Some lengths) = Ok out
                /\ Z.of_nat (length out) = Np.sum lengths)
   <-> Forall (fun l => 0 <= l) lengths)
  /\ (arange_multi (Arr starts) None (Some lengths) = Raise ValueError
      <-> Exists (fun l => l < 0) lengths)
  /\ (forall stops, length stops = length starts ->
        arange_multi (Arr starts) (Some stops) None
        = arange_multi (Arr starts) None (Some (zip_with Z.sub stops starts))).
Proof.
  intros Hlen.
  assert (Hstops : forall stops, length stops = length starts ->
            arange_multi (Arr starts) (Some stops) None
            = arange_multi (Arr starts) None (Some (zip_with Z.sub stops starts))).
  { intros stops Hs. unfold arange_multi, Np.sub at 1.
    rewrite broadcast2_same_length by exact Hs. reflexivity. }
  destruct (forallb (fun r => 0 <=? r) lengths) eqn:E.
  - assert (Hall : Forall (fun l => 0 <= l) lengths).
    { apply Forall_forall. intros l Hin.
      apply Z.leb_le. revert l Hin. apply forallb_forall. exact E. }
    rewrite (arange_multi_lengths starts lengths Hlen Hall).
    split; [|split; [|exact Hstops]].
    + split; [intros _; exact Hall|]. intros _. eexists. split; [reflexivity|].
      apply ranges_length; assumption.
    + split; [discriminate|]. intros Hex. exfalso.
      apply Exists_exists in Hex. destruct Hex as [l [Hin Hl]].
      rewrite Forall_forall in Hall. specialize (Hall l Hin). lia.
  - assert (Hex : Exists (fun l => l < 0) lengths).
    { apply forallb_false_Exists in E.
      eapply Exists_impl; [|exact E]. simpl. intros l Hl.
      apply Z.leb_gt in Hl. exact Hl. }
    assert (Hr : arange_multi (Arr starts) None (Some lengths) = Raise ValueError).
    { unfold arange_multi. cbn [bind]. unfold Np.repeat at 1. rewrite E.
      reflexivity. }
    rewrite Hr. split; [|split; [|exact Hstops]].
    + split; [intros [out [H _]]; discriminate|]. intros Hall. exfalso.
      apply Exists_exists in Hex. destruct Hex as [l [Hin Hl]].
      rewrite Forall_forall in Hall. specialize (Hall l Hin). lia.
    + split; auto.
Qed.

Lemma arange_multi_succeeds_iff_witness :
  length [1; 3; 4; 6] = length [0; 2; 3; 0]
  /\ ((exists out, arange_multi (Arr [1; 3; 4; 6]) None (Some [0; 2; 3; 0]) = Ok out
                   /\ Z.of_nat (length out) = Np.sum [0; 2; 3; 0])
      <-> Forall (fun l => 0 <= l) [0; 2; 3; 0]).
Proof.
  split; [reflexivity|].
  exact (proj1 (arange_multi_succeeds_iff [1; 3; 4; 6] [0; 2; 3; 0] eq_refl)).
Defined.

(** ** The two passes of [_closest_intervals_nooverlap] *)

(** The vectorised gathering of a pass. *)
Lemma gather_rows (ids2 : list Z) (ranges : list (Z * Z)) :
  Forall (fun r => 0 <= fst r <= snd r /\ snd r <= Z.of_nat (length ids2)) ranges ->
  (widths <- Np.sub (map snd ranges) (map fst ranges) ;;
   int1_ids <- Np.repeat (Np.arange (Z.of_nat (length ranges))) widths ;;
   int2_sorted_ids <-
     arange_multi (Arr (map fst ranges)) (Some (map snd ranges)) None ;;
   col1 <- Np.take ids2 int2_sorted_ids ;;
   Np.vstack_T int1_ids col1)
  = Ok (pass_rows ids2 ranges).
Proof.
  intros Hr. unfold pass_rows, Np.arange.
  set (N := Z.of_nat (length ranges)).
  remember (combine (Np.arange2 0 N) ranges) as R eqn:HR.
  assert (HlenR : length (Np.arange2 0 N) = length ranges)
    by (rewrite arange2_length; unfold N; lia).
  assert (Hf : Np.arange2 0 N = map fst R)
    by (rewrite HR; symmetry; apply map_fst_combine, HlenR).
  assert (Hs : ranges = map snd R)
    by (rewrite HR; symmetry; apply map_snd_combine, HlenR).
  assert (HrR : Forall (fun x => 0 <= fst (snd x) <= snd (snd x)
                                 /\ snd (snd x) <= Z.of_nat (length ids2)) R).
  { rewrite Hs in Hr. rewrite Forall_map in Hr. exact Hr. }
  rewrite Hf. rewrite Hs. rewrite !map_map.
  clear Hf Hs HlenR HR Hr. clearbody N.
  unfold Np.sub. rewrite broadcast2_same_length by (rewrite !length_map; reflexivity).
  rewrite (zip_with_map_same Z.sub (fun x => snd (snd x)) (fun x => fst (snd x)) R).
  cbn [bind].
  rewrite repeat_same_length.
  2:{ rewrite !length_map. reflexivity. }
  2:{ rewrite Forall_map. eapply Forall_impl; [|exact HrR]. simpl. intros; lia. }
  cbn [bind]. unfold Np.repeat_each.
  rewrite (zip_with_map_same (fun x r => List.repeat x (Z.to_nat r)) fst
             (fun x => snd (snd x) - fst (snd x)) R).
  rewrite arange_multi_stops.
  2:{ apply Forall2_map_same. eapply Forall_impl; [|exact HrR]. simpl. intros; lia. }
  cbn [bind].
  rewrite (zip_with_map_same Np.arange2 (fun x => fst (snd x)) (fun x => snd (snd x)) R).
  rewrite (take_in_range ids2 _ 0).
  2:{ apply Forall_forall. intros q Hq. apply in_concat in Hq.
      destruct Hq as [l [Hl Hq]]. apply in_map_iff in Hl. destruct Hl as [x [<- Hx]].
      apply arange2_In in Hq. rewrite Forall_forall in HrR. specialize (HrR x Hx).
      lia. }
  cbn [bind]. rewrite concat_map, map_map.
  assert (Hrow : forall x, In x R ->
            length (List.repeat (fst x) (Z.to_nat (snd (snd x) - fst (snd x))))
            = length (map (fun i => nth (Z.to_nat i) ids2 0)
                        (Np.arange2 (fst (snd x)) (snd (snd x))))).
  { intros x _. rewrite repeat_length, length_map, arange2_length. reflexivity. }
  unfold Np.vstack_T. rewrite (length_concat_map _ _ R Hrow), Nat.eqb_refl.
  f_equal. rewrite (combine_concat_map _ _ R Hrow).
  f_equal. apply map_ext_in. intros x Hx.
  pose proof (Hrow x Hx) as Hl. rewrite repeat_length in Hl.
  rewrite Hl, combine_repeat, map_map. reflexivity.
Qed.

(** [np.argsort] in the model: a stable sort of the positions by value. *)
Lemma lex_leb_single (a : list Z) (i j : nat) :
  Np.lex_leb [a] i j = (nth i a 0 <=? nth j a 0).
Proof.
  unfold Np.lex_leb.
  destruct (Z.ltb_spec (nth i a 0) (nth j a 0)).
  - symmetry. apply Z.leb_le. lia.
  - destruct (Z.ltb_spec (nth j a 0) (nth i a 0)); symmetry.
    + apply Z.leb_gt. lia.
    + apply Z.leb_le. lia.
Qed.

Lemma argsort_sorted (a : list Z) :
  exists ord,
    Np.argsort a = Ok (map Z.of_nat ord)
    /\ Permutation ord (seq 0 (length a))
    /\ StronglySorted Z.le (map (fun i => nth i a 0) ord).
Proof.
  unfold Np.argsort, Np.lexsort. cbn [forallb rev app].
  rewrite Nat.eqb_refl. cbn [andb].
  eexists. split; [reflexivity|]. split; [apply stable_sort_perm|].
  rewrite (stable_sort_ext _ (fun i j => nth i a 0 <=? nth j a 0))
    by (intros; apply lex_leb_single).
  apply (StronglySorted_map (le_of (fun i j => nth i a 0 <=? nth j a 0))).
  - intros x y H. apply Z.leb_le. exact H.
  - apply stable_sort_sorted.
    + intros x y. rewrite !Z.leb_le. lia.
    + intros x y z. rewrite !Z.leb_le. lia.
Qed.

Lemma ends2_sort_order_sorted (ends2 : list Z) (tie_arr : option (list Z)) :
  match tie_arr with Some t => length t = length ends2 | None => True end ->
  exists ord,
    ends2_sort_order ends2 tie_arr = Ok (map Z.of_nat ord)
    /\ Permutation ord (seq 0 (length ends2))
    /\ StronglySorted Z.le (map (fun i => nth i ends2 0) ord).
Proof.
  intros Ht. destruct tie_arr as [tie|]; [|apply argsort_sorted].
  destruct (ends2_sort_order_tie ends2 tie (eq_sym Ht)) as [ord [Ho [Hp Hs]]].
  exists ord. split; [exact Ho|]. split; [rewrite <- Ht; exact Hp|].
  rewrite <- (map_map (fun i => (nth i ends2 0, nth i tie 0)) fst).
  apply (StronglySorted_map asc_desc); [|exact Hs].
  intros x y H. unfold asc_desc in H. lia.
Qed.

Lemma starts2_sort_order_sorted (starts2 : list Z) (tie_arr : option (list Z)) :
  match tie_arr with Some t => length t = length starts2 | None => True end ->
  exists ord,
    starts2_sort_order starts2 tie_arr = Ok (map Z.of_nat ord)
    /\ Permutation ord (seq 0 (length starts2))
    /\ StronglySorted Z.le (map (fun i => nth i starts2 0) ord).
Proof.
  intros Ht. destruct tie_arr as [tie|]; [|apply argsort_sorted].
  destruct (starts2_sort_order_tie starts2 tie (eq_sym Ht)) as [ord [Ho [Hp Hs]]].
  exists ord. split; [exact Ho|]. split; [rewrite <- Ht; exact Hp|].
  rewrite <- (map_map (fun i => (nth i starts2 0, nth i tie 0)) fst).
  apply (StronglySorted_map asc_asc); [|exact Hs].
  intros x y H. unfold asc_asc in H. lia.
Qed.

Lemma searchsorted_right_len (a : list Z) (v : Z) :
  Np.searchsorted_right a v = Z.of_nat (prefix_len (fun x => x <=? v) a).
Proof.
  induction a as [|x a IH]; [reflexivity|].
  cbn [Np.searchsorted_right prefix_len].
  destruct (x <=? v); [rewrite IH; lia | reflexivity].
Qed.

Lemma searchsorted_left_len (a : list Z) (v : Z) :
  Np.searchsorted_left a v = Z.of_nat (prefix_len (fun x => x <? v) a).
Proof.
  induction a as [|x a IH]; [reflexivity|].
  cbn [Np.searchsorted_left prefix_len].
  destruct (x <? v); [rewrite IH; lia | reflexivity].
Qed.

Lemma upstream_range_bounds (ends2_sorted : list Z) (k start1 : Z) :
  0 < k ->
  let r := upstream_range ends2_sorted k start1 in
  0 <= fst r <= snd r /\ snd r <= Z.of_nat (length ends2_sorted)
  /\ snd r - fst r <= k.
Proof.
  intros Hk. unfold upstream_range. cbn [fst snd].
  rewrite searchsorted_right_len.
  pose proof (prefix_len_le (fun x => x <=? start1) ends2_sorted). lia.
Qed.

Lemma downstream_range_bounds (starts2_sorted : list Z) (k end1 : Z) :
  0 < k ->
  let r := downstream_range starts2_sorted k end1 in
  0 <= fst r <= snd r /\ snd r <= Z.of_nat (length starts2_sorted)
  /\ snd r - fst r <= k.
Proof.
  intros Hk. unfold downstream_range. cbn [fst snd].
  rewrite searchsorted_left_len.
  pose proof (prefix_len_le (fun x => x <? end1) starts2_sorted). lia.
Qed.

Lemma take_arange_order (n : nat) (ord : list nat) :
  Forall (fun i => (i < n)%nat) ord ->
  Np.take (Np.arange2 0 (Z.of_nat n)) (map Z.of_nat ord) = Ok (map Z.of_nat ord).
Proof.
  intros H. rewrite (take_nat _ ord 0).
  - f_equal. apply map_ext_in. intros i Hi.
    rewrite Forall_forall in H. specialize (H i Hi).
    rewrite arange2_nth by lia. lia.
  - eapply Forall_impl; [|exact H]. intros i Hi. cbv beta in *.
    rewrite arange2_length. lia.
Qed.

Lemma permutation_bound (ord : list nat) (n : nat) :
  Permutation ord (seq 0 n) -> Forall (fun i => (i < n)%nat) ord.
Proof.
  intros Hp. apply Forall_forall. intros i Hi.
  apply (Permutation_in _ Hp) in Hi. apply in_seq in Hi. lia.
Qed.

(** What [_closest_intervals_nooverlap] returns: the rows of the two passes
    over set 2 in its two sort orders. *)
Lemma nooverlap_rows (starts1 ends1 starts2 ends2 : list Z)
    (tie_arr : option (list Z)) (k_upstream k_downstream : Z) :
  length starts1 = length ends1 ->
  length starts2 = length ends2 ->
  match tie_arr with Some t => length t = length starts2 | None => True end ->
  exists ord_e ord_s,
    Permutation ord_e (seq 0 (length starts2))
    /\ StronglySorted Z.le (map (fun i => nth i ends2 0) ord_e)
    /\ Permutation ord_s (seq 0 (length starts2))
    /\ StronglySorted Z.le (map (fun i => nth i starts2 0) ord_s)
    /\ _closest_intervals_nooverlap starts1 ends1 starts2 ends2 tie_arr
         k_upstream k_downstream
       = Ok (if k_upstream >? 0
             then pass_rows (map Z.of_nat ord_e)
                    (map (upstream_range (map (fun i => nth i ends2 0) ord_e)
                            k_upstream) starts1)
             else [],
             if k_downstream >? 0
             then pass_rows (map Z.of_nat ord_s)
                    (map (downstream_range (map (fun i => nth i starts2 0) ord_s)
                            k_downstream) ends1)
             else []).
Proof.
  intros H1 H2 Ht.
  destruct (ends2_sort_order_sorted ends2 tie_arr) as [ord_e [Hoe [Hpe Hse]]].
  { destruct tie_arr; [rewrite Ht; exact H2 | exact I]. }
  destruct (starts2_sort_order_sorted starts2 tie_arr Ht) as [ord_s [Hos [Hps Hss]]].
  rewrite <- H2 in Hpe.
  exists ord_e, ord_s.
  split; [exact Hpe|]. split; [exact Hse|]. split; [exact Hps|]. split; [exact Hss|].
  pose proof (permutation_bound _ _ Hpe) as Hbe.
  pose proof (permutation_bound _ _ Hps) as Hbs.
  unfold _closest_intervals_nooverlap.
  assert (Hup :
    (if k_upstream >? 0 then
       sort_order <- ends2_sort_order ends2 tie_arr ;;
       ids2_endsorted <- Np.take (Np.arange2 0 (Z.of_nat (length starts2))) sort_order ;;
       ends2_sorted <- Np.take ends2 sort_order ;;
       let upstream_closest_endidx :=
         map (Np.searchsorted_right ends2_sorted) starts1 in
       let upstream_closest_startidx :=
         Np.maximum_scalar (Np.sub_scalar upstream_closest_endidx k_upstream) 0 in
       widths <- Np.sub upstream_closest_endidx upstream_closest_startidx ;;
       int1_ids <- Np.repeat (Np.arange (Z.of_nat (length starts1))) widths ;;
       int2_sorted_ids <-
         arange_multi (Arr upstream_closest_startidx)
           (Some upstream_closest_endidx) None ;;
       col1 <- Np.take ids2_endsorted int2_sorted_ids ;;
       Np.vstack_T int1_ids col1
     else Ok [])
    = Ok (if k_upstream >? 0
          then pass_rows (map Z.of_nat ord_e)
                 (map (upstream_range (map (fun i => nth i ends2 0) ord_e)
                         k_upstream) starts1)
          else [])).
  { destruct (Z.gtb_spec k_upstream 0) as [Hk|Hk]; [|reflexivity].
    rewrite Hoe. cbn [bind].
    rewrite (take_arange_order _ _ Hbe). cbn [bind].
    rewrite (take_nat ends2 ord_e 0) by (rewrite <- H2; exact Hbe). cbn [bind].
    cbv zeta.
    set (E := map (fun i => nth i ends2 0) ord_e).
    set (ranges := map (upstream_range E k_upstream) starts1).
    assert (Hhi : map (Np.searchsorted_right E) starts1 = map snd ranges)
      by (unfold ranges; rewrite map_map; reflexivity).
    assert (Hlo : Np.maximum_scalar
                    (Np.sub_scalar (map (Np.searchsorted_right E) starts1) k_upstream) 0
                  = map fst ranges).
    { unfold ranges, Np.maximum_scalar, Np.sub_scalar. rewrite !map_map. reflexivity. }
    assert (Hn : length starts1 = length ranges)
      by (unfold ranges; rewrite length_map; reflexivity).
    rewrite Hlo, Hhi, Hn. apply gather_rows.
    unfold ranges. rewrite Forall_map. apply Forall_forall. intros s _.
    pose proof (upstream_range_bounds E k_upstream s Hk) as Hb. cbv zeta in Hb.
    assert (HlenE : length (map Z.of_nat ord_e) = length E)
      by (unfold E; rewrite !length_map; reflexivity).
    rewrite HlenE. lia. }
  assert (Hdown :
    (if k_downstream >? 0 then
       sort_order <- starts2_sort_order starts2 tie_arr ;;
       ids2_startsorted <- Np.take (Np.arange2 0 (Z.of_nat (length starts2))) sort_order ;;
       starts2_sorted <- Np.take starts2 sort_order ;;
       let downstream_closest_startidx :=
         map (Np.searchsorted_left starts2_sorted) ends1 in
       let downstream_closest_endidx :=
         Np.minimum_scalar (Z.of_nat (length starts2))
           (Np.add_scalar downstream_closest_startidx k_downstream) in
       widths <- Np.sub downstream_closest_endidx downstream_closest_startidx ;;
       int1_ids <- Np.repeat (Np.arange (Z.of_nat (length starts1))) widths ;;
       int2_sorted_ids <-
         arange_multi (Arr downstream_closest_startidx)
           (Some downstream_closest_endidx) None ;;
       col1 <- Np.take ids2_startsorted int2_sorted_ids ;;
       Np.vstack_T int1_ids col1
     else Ok [])
    = Ok (if k_downstream >? 0
          then pass_rows (map Z.of_nat ord_s)
                 (map (downstream_range (map (fun i => nth i starts2 0) ord_s)
                         k_downstream) ends1)
          else [])).
  { destruct (Z.gtb_spec k_downstream 0) as [Hk|Hk]; [|reflexivity].
    rewrite Hos. cbn [bind].
    rewrite (take_arange_order _ _ Hbs). cbn [bind].
    rewrite (take_nat starts2 ord_s 0) by exact Hbs. cbn [bind].
    cbv zeta.
    set (S2 := map (fun i => nth i starts2 0) ord_s).
    set (ranges := map (downstream_range S2 k_downstream) ends1).
    assert (HlenS : length S2 = length starts2).
    { unfold S2. rewrite length_map.
      rewrite (Permutation_length Hps), length_seq. reflexivity. }
    assert (Hlo : map (Np.searchsorted_left S2) ends1 = map fst ranges)
      by (unfold ranges; rewrite map_map; reflexivity).
    assert (Hhi : Np.minimum_scalar (Z.of_nat (length starts2))
                    (Np.add_scalar (map (Np.searchsorted_left S2) ends1) k_downstream)
                  = map snd ranges).
    { unfold ranges, Np.minimum_scalar, Np.add_scalar. rewrite !map_map.
      apply map_ext. intros e. unfold downstream_range. cbn [snd].
      rewrite HlenS. reflexivity. }
    assert (Hn : length starts1 = length ranges)
      by (unfold ranges; rewrite length_map; exact H1).
    rewrite Hhi, Hlo, Hn. apply gather_rows.
    unfold ranges. rewrite Forall_map. apply Forall_forall. intros e _.
    pose proof (downstream_range_bounds S2 k_downstream e Hk) as Hb. cbv zeta in Hb.
    assert (HlenS2 : length (map Z.of_nat ord_s) = length S2)
      by (unfold S2; rewrite !length_map; reflexivity).
    rewrite HlenS2. lia. }
  cbv zeta in Hup, Hdown |- *. rewrite Hup. cbn [bind]. rewrite Hdown. reflexivity.
Qed.

Lemma filter_const_fst (t b : Z) (g : Z -> Z) (l : list Z) :
  filter (fun r : Z * Z => fst r =? t) (map (fun q => (b, g q)) l)
  = if b =? t then map (fun q => (b, g q)) l else [].
Proof.
  induction l as [|x l IH]; cbn [map filter fst]; [destruct (b =? t); reflexivity|].
  rewrite IH. destruct (b =? t); reflexivity.
Qed.

(** The rows a pass holds for one interval of set 1. *)
Lemma rows_from_filter (ids2 : list Z) (ranges : list (Z * Z)) (b t : Z) :
  filter (fun r : Z * Z => fst r =? t)
    (concat
       (map (fun ir : Z * (Z * Z) =>
               map (fun q => (fst ir, nth (Z.to_nat q) ids2 0))
                 (Np.arange2 (fst (snd ir)) (snd (snd ir))))
          (combine (Np.arange2 b (b + Z.of_nat (length ranges))) ranges)))
  = if (b <=? t) && (t <? b + Z.of_nat (length ranges))
    then map (fun q => (t, nth (Z.to_nat q) ids2 0))
           (Np.arange2 (fst (nth (Z.to_nat (t - b)) ranges (0, 0)))
                       (snd (nth (Z.to_nat (t - b)) ranges (0, 0))))
    else [].
Proof.
  revert b; induction ranges as [|r rs IH]; intros b.
  - cbn [length]. rewrite arange2_nil by lia. cbn [combine map concat filter].
    destruct (Z.leb_spec b t); destruct (Z.ltb_spec t (b + Z.of_nat 0));
      cbn [andb]; try reflexivity; lia.
  - rewrite arange2_cons by (simpl length; lia).
    replace (b + Z.of_nat (length (r :: rs))) with (b + 1 + Z.of_nat (length rs))
      by (simpl length; lia).
    cbn [combine map concat fst snd]. rewrite filter_app, IH.
    rewrite (filter_const_fst t b (fun q => nth (Z.to_nat q) ids2 0)).
    destruct (Z.eqb_spec b t) as [->|Hne].
    + replace ((t + 1 <=? t) && (t <? t + 1 + Z.of_nat (length rs))) with false
        by (symmetry; apply andb_false_iff; left; apply Z.leb_gt; lia).
      replace ((t <=? t) && (t <? t + 1 + Z.of_nat (length rs))) with true
        by (symmetry; apply andb_true_iff; split;
            [apply Z.leb_le | apply Z.ltb_lt]; lia).
      rewrite Z.sub_diag, app_nil_r. reflexivity.
    + cbn [app].
      destruct (Z.leb_spec (b + 1) t) as [Hle|Hgt].
      * replace (b <=? t) with true by (symmetry; apply Z.leb_le; lia).
        cbn [andb]. destruct (t <? b + 1 + Z.of_nat (length rs)); [|reflexivity].
        replace (Z.to_nat (t - b)) with (S (Z.to_nat (t - (b + 1)))) by lia.
        reflexivity.
      * replace (b <=? t) with false by (symmetry; apply Z.leb_gt; lia).
        reflexivity.
Qed.

Lemma pass_rows_for (ids2 : list Z) (ranges : list (Z * Z)) (i : Z) :
  rows_for i (pass_rows ids2 ranges)
  = if (0 <=? i) && (i <? Z.of_nat (length ranges))
    then map (fun q => (i, nth (Z.to_nat q) ids2 0))
           (Np.arange2 (fst (nth (Z.to_nat i) ranges (0, 0)))
                       (snd (nth (Z.to_nat i) ranges (0, 0))))
    else [].
Proof.
  unfold rows_for, pass_rows.
  pose proof (rows_from_filter ids2 ranges 0 i) as H.
  rewrite Z.sub_0_r in H. exact H.
Qed.

Lemma rows_for_In (i j : Z) (rows : list (Z * Z)) :
  In (i, j) rows <-> In (i, j) (rows_for i rows).
Proof.
  unfold rows_for. rewrite filter_In. cbn [fst]. rewrite Z.eqb_refl. tauto.
Qed.

Lemma pass_rows_In (ids2 : list Z) (ranges : list (Z * Z)) (i j : Z) :
  In (i, j) (pass_rows ids2 ranges)
  <-> 0 <= i < Z.of_nat (length ranges)
      /\ exists q, fst (nth (Z.to_nat i) ranges (0, 0)) <= q
                   /\ q < snd (nth (Z.to_nat i) ranges (0, 0))
                   /\ j = nth (Z.to_nat q) ids2 0.
Proof.
  rewrite rows_for_In, pass_rows_for.
  destruct (Z.leb_spec 0 i); destruct (Z.ltb_spec i (Z.of_nat (length ranges)));
    cbn [andb]; try (split; [intros []|intros [? _]; lia]).
  rewrite in_map_iff. split.
  - intros [q [Heq Hq]]. apply arange2_In in Hq. inversion Heq; subst.
    split; [lia|]. exists q. repeat split; lia.
  - intros [_ [q [Hlo [Hhi ->]]]]. exists q. split; [reflexivity|].
    apply arange2_In. lia.
Qed.

Lemma prefix_len_lt {A : Type} (f : A -> bool) (a : list A) (d : A) (q : nat) :
  (q < prefix_len f a)%nat -> f (nth q a d) = true.
Proof.
  revert q; induction a as [|x a IH]; intros q Hq; simpl in Hq; [lia|].
  destruct (f x) eqn:E; [|lia].
  destruct q as [|q]; [exact E|]. cbn [nth]. apply IH. lia.
Qed.

Lemma nth_map_order (a : list Z) (ord : list nat) (q : nat) :
  (q < length ord)%nat ->
  nth q (map (fun i => nth i a 0) ord) 0 = nth (nth q ord 0%nat) a 0.
Proof.
  intros Hq.
  rewrite (nth_indep _ 0 ((fun i => nth i a 0) 0%nat)) by (rewrite length_map; exact Hq).
  apply (map_nth (fun i => nth i a 0)).
Qed.

Lemma permutation_position (ord : list nat) (n j : nat) :
  Permutation ord (seq 0 n) -> (j < n)%nat ->
  exists q, (q < n)%nat /\ nth q ord 0%nat = j.
Proof.
  intros Hp Hj.
  assert (Hin : In j ord).
  { eapply Permutation_in; [apply Permutation_sym, Hp|]. apply in_seq. lia. }
  destruct (In_nth _ _ 0%nat Hin) as [q [Hq Hn]].
  rewrite (Permutation_length Hp), length_seq in Hq. exists q. split; assumption.
Qed.

Lemma sorted_prefix_iff (a : list Z) (f : Z -> bool) (q : nat) :
  StronglySorted Z.le a ->
  (forall x y, x <= y -> f y = true -> f x = true) ->
  (q < length a)%nat ->
  ((q < prefix_len f a)%nat <-> f (nth q a 0) = true).
Proof.
  intros Hs Hmono Hq. apply prefix_len_nth; [|exact Hq].
  intros i j Hij Hj.
  destruct (Nat.eq_dec i j) as [->|Hne]; [exact Hj|].
  apply (Hmono _ (nth j a 0)); [|exact Hj].
  apply (StronglySorted_nth Z.le a 0 Hs). lia.
Qed.

Lemma nth_map_range (f : Z -> Z * Z) (l : list Z) (a : nat) :
  (a < length l)%nat -> nth a (map f l) (0, 0) = f (nth a l 0).
Proof.
  intros Ha. rewrite (nth_indep _ (0, 0) (f 0)) by (rewrite length_map; exact Ha).
  apply map_nth.
Qed.

(** The rows of the upstream pass over set 2 sorted by end. *)
Lemma upstream_rows_spec (ends2 starts1 : list Z) (ord : list nat) (k : Z) :
  Permutation ord (seq 0 (length ends2)) ->
  StronglySorted Z.le (map (fun i => nth i ends2 0) ord) ->
  0 < k ->
  let up := pass_rows (map Z.of_nat ord)
              (map (upstream_range (map (fun i => nth i ends2 0) ord) k) starts1) in
  (forall i j, In (i, j) up ->
     0 <= i < Z.of_nat (length starts1)
     /\ 0 <= j < Z.of_nat (length ends2)
     /\ nth (Z.to_nat j) ends2 0 <= nth (Z.to_nat i) starts1 0)
  /\ (forall i, Z.of_nat (length (rows_for i up)) <= k)
  /\ (forall i j',
        0 <= i < Z.of_nat (length starts1) ->
        0 <= j' < Z.of_nat (length ends2) ->
        nth (Z.to_nat j') ends2 0 <= nth (Z.to_nat i) starts1 0 ->
        In (i, j') up
        \/ (Z.of_nat (length (rows_for i up)) = k
            /\ forall j, In (i, j) up ->
                 nth (Z.to_nat j') ends2 0 <= nth (Z.to_nat j) ends2 0)).
Proof.
  intros Hp Hs Hk up.
  set (E := map (fun i => nth i ends2 0) ord) in *.
  assert (HlenO : length ord = length ends2)
    by (rewrite (Permutation_length Hp), length_seq; reflexivity).
  assert (HlenE : length E = length ends2)
    by (unfold E; rewrite length_map; exact HlenO).
  pose proof (permutation_bound _ _ Hp) as Hbound.
  rewrite Forall_forall in Hbound.
  (* a row, read back *)
  assert (Hrow : forall i j, In (i, j) up ->
            0 <= i < Z.of_nat (length starts1)
            /\ exists q : nat,
                 Z.max (Np.searchsorted_right E (nth (Z.to_nat i) starts1 0) - k) 0
                   <= Z.of_nat q
                 /\ Z.of_nat q < Np.searchsorted_right E (nth (Z.to_nat i) starts1 0)
                 /\ j = Z.of_nat (nth q ord 0%nat)).
  { intros i j Hin. apply pass_rows_In in Hin.
    rewrite length_map in Hin. destruct Hin as [Hi [q [Hlo [Hhi Hj]]]].
    rewrite nth_map_range in Hlo, Hhi by lia.
    unfold upstream_range in Hlo, Hhi. cbn [fst snd] in Hlo, Hhi.
    split; [exact Hi|]. exists (Z.to_nat q).
    rewrite nth_map_of_nat in Hj. split; [lia|]. split; [lia|exact Hj]. }
  assert (Hin_row : forall i (q : nat),
            0 <= i < Z.of_nat (length starts1) ->
            Z.max (Np.searchsorted_right E (nth (Z.to_nat i) starts1 0) - k) 0
              <= Z.of_nat q ->
            Z.of_nat q < Np.searchsorted_right E (nth (Z.to_nat i) starts1 0) ->
            In (i, Z.of_nat (nth q ord 0%nat)) up).
  { intros i q Hi Hlo Hhi. apply pass_rows_In. rewrite length_map.
    split; [exact Hi|]. exists (Z.of_nat q).
    rewrite nth_map_range by lia. unfold upstream_range. cbn [fst snd].
    rewrite Nat2Z.id, nth_map_of_nat. repeat split; assumption. }
  assert (Hcount : forall i,
            0 <= i < Z.of_nat (length starts1) ->
            Z.of_nat (length (rows_for i up))
            = Np.searchsorted_right E (nth (Z.to_nat i) starts1 0)
              - Z.max (Np.searchsorted_right E (nth (Z.to_nat i) starts1 0) - k) 0).
  { intros i Hi. unfold up. rewrite pass_rows_for, length_map.
    replace ((0 <=? i) && (i <? Z.of_nat (length starts1))) with true
      by (symmetry; apply andb_true_iff; split;
          [apply Z.leb_le | apply Z.ltb_lt]; lia).
    rewrite length_map, arange2_length, nth_map_range by lia.
    unfold upstream_range. cbn [fst snd].
    rewrite searchsorted_right_len. lia. }
  split; [|split].
  - intros i j Hin. destruct (Hrow i j Hin) as [Hi [q [Hlo [Hhi ->]]]].
    split; [exact Hi|].
    rewrite searchsorted_right_len in Hhi.
    assert (Hq : (q < prefix_len (fun x => (x <=? nth (Z.to_nat i) starts1 0)%Z) E)%nat)
      by lia.
    pose proof (prefix_len_le (fun x => x <=? nth (Z.to_nat i) starts1 0) E) as Hle.
    assert (Hqo : (q < length ord)%nat) by lia.
    pose proof (Hbound _ (nth_In ord 0%nat Hqo)) as Hb.
    split; [lia|].
    rewrite Nat2Z.id, <- nth_map_order by exact Hqo. fold E.
    apply Z.leb_le. apply (prefix_len_lt _ E 0 q Hq).
  - intros i.
    destruct (Z_le_dec 0 i) as [H0|H0];
      [destruct (Z_lt_dec i (Z.of_nat (length starts1))) as [H1|H1]|].
    + rewrite Hcount by lia. lia.
    + unfold up. rewrite pass_rows_for, length_map.
      replace (i <? Z.of_nat (length starts1)) with false
        by (symmetry; apply Z.ltb_ge; lia).
      rewrite andb_false_r. simpl. lia.
    + unfold up. rewrite pass_rows_for.
      replace (0 <=? i) with false by (symmetry; apply Z.leb_gt; lia).
      simpl. lia.
  - intros i j' Hi Hj' Hle.
    destruct (permutation_position ord (length ends2) (Z.to_nat j') Hp ltac:(lia))
      as [q' [Hq' Hnq']].
    assert (Hq'o : (q' < length ord)%nat) by lia.
    assert (HEq' : nth q' E 0 = nth (Z.to_nat j') ends2 0)
      by (unfold E; rewrite nth_map_order by exact Hq'o; rewrite Hnq'; reflexivity).
    set (s := nth (Z.to_nat i) starts1 0) in *.
    assert (Hq'h : (q' < prefix_len (fun x => (x <=? s)%Z) E)%nat).
    { apply (sorted_prefix_iff E (fun x => x <=? s) q' Hs).
      - intros x y Hxy Hy. apply Z.leb_le in Hy. apply Z.leb_le. lia.
      - lia.
      - apply Z.leb_le. lia. }
    destruct (Z_le_dec (Z.max (Np.searchsorted_right E s - k) 0) (Z.of_nat q'))
      as [Hlo|Hlo].
    + left. replace j' with (Z.of_nat (nth q' ord 0%nat)) by lia.
      apply Hin_row; [exact Hi|exact Hlo|]. fold s.
      rewrite searchsorted_right_len. lia.
    + right. split; [rewrite Hcount by exact Hi; fold s; lia|].
      intros j Hin. destruct (Hrow i j Hin) as [_ [q [Hqlo [Hqhi ->]]]].
      fold s in Hqlo, Hqhi. rewrite searchsorted_right_len in Hqhi.
      pose proof (prefix_len_le (fun x => x <=? s) E) as Hple.
      assert (Hqo : (q < length ord)%nat) by lia.
      rewrite Nat2Z.id, <- HEq', <- (nth_map_order ends2 ord q Hqo). fold E.
      apply (StronglySorted_nth Z.le E 0 Hs). lia.
Qed.

(** The rows of the downstream pass over set 2 sorted by start. *)
Lemma downstream_rows_spec (starts2 ends1 : list Z) (ord : list nat) (k : Z) :
  Permutation ord (seq 0 (length starts2)) ->
  StronglySorted Z.le (map (fun i => nth i starts2 0) ord) ->
  0 < k ->
  let down := pass_rows (map Z.of_nat ord)
                (map (downstream_range (map (fun i => nth i starts2 0) ord) k)
                   ends1) in
  (forall i j, In (i, j) down ->
     0 <= i < Z.of_nat (length ends1)
     /\ 0 <= j < Z.of_nat (length starts2)
     /\ nth (Z.to_nat i) ends1 0 <= nth (Z.to_nat j) starts2 0)
  /\ (forall i, Z.of_nat (length (rows_for i down)) <= k)
  /\ (forall i j',
        0 <= i < Z.of_nat (length ends1) ->
        0 <= j' < Z.of_nat (length starts2) ->
        nth (Z.to_nat i) ends1 0 <= nth (Z.to_nat j') starts2 0 ->
        In (i, j') down
        \/ (Z.of_nat (length (rows_for i down)) = k
            /\ forall j, In (i, j) down ->
                 nth (Z.to_nat j) starts2 0 <= nth (Z.to_nat j') starts2 0)).
Proof.
  intros Hp Hs Hk down.
  set (S2 := map (fun i => nth i starts2 0) ord) in *.
  assert (HlenO : length ord = length starts2)
    by (rewrite (Permutation_length Hp), length_seq; reflexivity).
  assert (HlenS : length S2 = length starts2)
    by (unfold S2; rewrite length_map; exact HlenO).
  pose proof (permutation_bound _ _ Hp) as Hbound.
  rewrite Forall_forall in Hbound.
  assert (Hrow : forall i j, In (i, j) down ->
            0 <= i < Z.of_nat (length ends1)
            /\ exists q : nat,
                 Np.searchsorted_left S2 (nth (Z.to_nat i) ends1 0) <= Z.of_nat q
                 /\ Z.of_nat q
                    < Z.min (Z.of_nat (length S2))
                        (Np.searchsorted_left S2 (nth (Z.to_nat i) ends1 0) + k)
                 /\ j = Z.of_nat (nth q ord 0%nat)).
  { intros i j Hin. apply pass_rows_In in Hin.
    rewrite length_map in Hin. destruct Hin as [Hi [q [Hlo [Hhi Hj]]]].
    rewrite nth_map_range in Hlo, Hhi by lia.
    unfold downstream_range in Hlo, Hhi. cbn [fst snd] in Hlo, Hhi.
    split; [exact Hi|]. exists (Z.to_nat q).
    rewrite nth_map_of_nat in Hj.
    rewrite searchsorted_left_len in Hlo.
    split; [rewrite searchsorted_left_len; lia|]. split; [lia|exact Hj]. }
  assert (Hin_row : forall i (q : nat),
            0 <= i < Z.of_nat (length ends1) ->
            Np.searchsorted_left S2 (nth (Z.to_nat i) ends1 0) <= Z.of_nat q ->
            Z.of_nat q
              < Z.min (Z.of_nat (length S2))
                  (Np.searchsorted_left S2 (nth (Z.to_nat i) ends1 0) + k) ->
            In (i, Z.of_nat (nth q ord 0%nat)) down).
  { intros i q Hi Hlo Hhi. apply pass_rows_In. rewrite length_map.
    split; [exact Hi|]. exists (Z.of_nat q).
    rewrite nth_map_range by lia. unfold downstream_range. cbn [fst snd].
    rewrite Nat2Z.id, nth_map_of_nat. repeat split; assumption. }
  assert (Hcount : forall i,
            0 <= i < Z.of_nat (length ends1) ->
            Z.of_nat (length (rows_for i down))
            = Z.min (Z.of_nat (length S2))
                (Np.searchsorted_left S2 (nth (Z.to_nat i) ends1 0) + k)
              - Np.searchsorted_left S2 (nth (Z.to_nat i) ends1 0)).
  { intros i Hi. unfold down. rewrite pass_rows_for, length_map.
    replace ((0 <=? i) && (i <? Z.of_nat (length ends1))) with true
      by (symmetry; apply andb_true_iff; split;
          [apply Z.leb_le | apply Z.ltb_lt]; lia).
    rewrite length_map, arange2_length, nth_map_range by lia.
    unfold downstream_range. cbn [fst snd].
    rewrite searchsorted_left_len.
    pose proof (prefix_len_le (fun x => x <? nth (Z.to_nat i) ends1 0) S2). lia. }
  split; [|split].
  - intros i j Hin. destruct (Hrow i j Hin) as [Hi [q [Hlo [Hhi ->]]]].
    split; [exact Hi|].
    rewrite searchsorted_left_len in Hlo.
    assert (Hqo : (q < length ord)%nat) by lia.
    pose proof (Hbound _ (nth_In ord 0%nat Hqo)) as Hb.
    split; [lia|].
    rewrite Nat2Z.id, <- nth_map_order by exact Hqo. fold S2.
    set (e := nth (Z.to_nat i) ends1 0) in *.
    destruct (Z_le_dec e (nth q S2 0)) as [H|H]; [exact H|]. exfalso.
    assert (Hq : (q < prefix_len (fun x => (x <? e)%Z) S2)%nat).
    { apply (sorted_prefix_iff S2 (fun x => x <? e) q Hs).
      - intros x y Hxy Hy. apply Z.ltb_lt in Hy. apply Z.ltb_lt. lia.
      - lia.
      - apply Z.ltb_lt. lia. }
    lia.
  - intros i.
    destruct (Z_le_dec 0 i) as [H0|H0];
      [destruct (Z_lt_dec i (Z.of_nat (length ends1))) as [H1|H1]|].
    + rewrite Hcount by lia. lia.
    + unfold down. rewrite pass_rows_for, length_map.
      replace (i <? Z.of_nat (length ends1)) with false
        by (symmetry; apply Z.ltb_ge; lia).
      rewrite andb_false_r. simpl. lia.
    + unfold down. rewrite pass_rows_for.
      replace (0 <=? i) with false by (symmetry; apply Z.leb_gt; lia).
      simpl. lia.
  - intros i j' Hi Hj' Hle.
    destruct (permutation_position ord (length starts2) (Z.to_nat j') Hp ltac:(lia))
      as [q' [Hq' Hnq']].
    assert (Hq'o : (q' < length ord)%nat) by lia.
    assert (HSq' : nth q' S2 0 = nth (Z.to_nat j') starts2 0)
      by (unfold S2; rewrite nth_map_order by exact Hq'o; rewrite Hnq'; reflexivity).
    set (e := nth (Z.to_nat i) ends1 0) in *.
    assert (Hq'l : (prefix_len (fun x => (x <? e)%Z) S2 <= q')%nat).
    { destruct (Nat.le_gt_cases (prefix_len (fun x => x <? e) S2) q') as [H|H];
        [exact H|]. exfalso.
      pose proof (prefix_len_lt (fun x => x <? e) S2 0 q' H) as Hf.
      apply Z.ltb_lt in Hf. lia. }
    destruct (Z_lt_dec (Z.of_nat q')
                (Z.min (Z.of_nat (length S2)) (Np.searchsorted_left S2 e + k)))
      as [Hhi|Hhi].
    + left. replace j' with (Z.of_nat (nth q' ord 0%nat)) by lia.
      apply Hin_row; [exact Hi| |exact Hhi]. fold e.
      rewrite searchsorted_left_len. lia.
    + right. split; [rewrite Hcount by exact Hi; fold e; lia|].
      intros j Hin. destruct (Hrow i j Hin) as [_ [q [Hqlo [Hqhi ->]]]].
      fold e in Hqlo, Hqhi.
      assert (Hqo : (q < length ord)%nat) by lia.
      rewrite Nat2Z.id, <- HSq', <- (nth_map_order starts2 ord q Hqo). fold S2.
      apply (StronglySorted_nth Z.le S2 0 Hs). lia.
Qed.





(** ** Distances in int64 and float64, and rows without repetition *)

Lemma float64_of_int_exact (z : Z) : Z.abs z < 2 ^ 53 -> float64_of_int z = z.
Proof.
  intros H. unfold float64_of_int. cbv zeta.
  destruct (Z.ltb_spec (Z.abs z) (2 ^ 53)); [reflexivity|lia].
Qed.

(** Between coordinates below 2^52 in size the distance is computed
    exactly. *)
Lemma float_distance_exact (s e : Z) :
  Z.abs s < 2 ^ 52 -> Z.abs e < 2 ^ 52 -> float_distance s e = s - e + 1.
Proof.
  intros Hs He. unfold float_distance.
  assert (H52 : 2 ^ 53 = 2 * 2 ^ 52) by reflexivity.
  assert (H63 : 2 ^ 53 < 2 ^ 63) by reflexivity.
  rewrite (int64_op_exact Z.sub s e) by (unfold int64_min, int64_max; lia).
  rewrite (int64_op_exact Z.add (s - e) 1) by (unfold int64_min, int64_max; lia).
  apply float64_of_int_exact. lia.
Qed.

Lemma exact_coordinates_nth (coords : list Z) (i : nat) :
  exact_coordinates coords -> Z.abs (nth i coords 0) < 2 ^ 52.
Proof.
  intros H. destruct (Nat.lt_ge_cases i (length coords)) as [Hi|Hi].
  - unfold exact_coordinates in H. rewrite Forall_forall in H.
    apply H, nth_In, Hi.
  - rewrite nth_overflow by exact Hi. reflexivity.
Qed.

Lemma NoDup_concat_keyed {A : Type} (key : A -> Z) (f : A -> list (Z * Z))
    (l : list A) :
  NoDup (map key l) ->
  (forall x, In x l -> NoDup (f x)) ->
  (forall x r, In r (f x) -> fst r = key x) ->
  NoDup (concat (map f l)).
Proof.
  induction l as [|a l IH]; intros Hk Hn Hf; [constructor|].
  cbn [map concat]. cbn [map] in Hk. inversion Hk as [|? ? Hnot Hk']; subst.
  apply NoDup_app.
  - apply Hn. left. reflexivity.
  - apply IH; [exact Hk'| |exact Hf]. intros x Hx. apply Hn. right. exact Hx.
  - intros r Hr Hr'. apply in_concat in Hr'. destruct Hr' as [l' [Hl' Hr']].
    apply in_map_iff in Hl'. destruct Hl' as [y [<- Hy]].
    apply Hf in Hr, Hr'. apply Hnot. rewrite <- Hr, Hr'. apply in_map, Hy.
Qed.

(** A pass reports a pair at most once. *)
Lemma pass_rows_NoDup (ids2 : list Z) (ranges : list (Z * Z)) :
  NoDup ids2 ->
  Forall (fun r => 0 <= fst r /\ snd r <= Z.of_nat (length ids2)) ranges ->
  NoDup (pass_rows ids2 ranges).
Proof.
  intros Hids Hr. unfold pass_rows.
  assert (Hlen : length (Np.arange2 0 (Z.of_nat (length ranges))) = length ranges)
    by (rewrite arange2_length; lia).
  apply (NoDup_concat_keyed fst).
  - rewrite (map_fst_combine _ _ Hlen). apply arange2_NoDup.
  - intros x Hx. destruct x as [i [lo hi]]. cbn [fst snd].
    apply in_combine_r in Hx. rewrite Forall_forall in Hr.
    specialize (Hr _ Hx). cbn [fst snd] in Hr.
    apply NoDup_map_NoDup_ForallPairs; [|apply arange2_NoDup].
    intros q q' Hq Hq' E. apply arange2_In in Hq, Hq'.
    inversion E as [E'].
    apply (proj1 (NoDup_nth ids2 0) Hids) in E'; lia.
  - intros x r Hin. apply in_map_iff in Hin. destruct Hin as [q [<- _]].
    reflexivity.
Qed.

Lemma overlap_intervals_NoDup (starts1 ends1 starts2 ends2 : list Z)
    (out : list (Z * Z)) :
  length starts1 = length ends1 -> length starts2 = length ends2 ->
  overlap_intervals starts1 ends1 starts2 ends2 = Ok out -> NoDup out.
Proof.
  intros H1 H2. rewrite (overlap_intervals_rows _ _ _ _ H1 H2).
  intros E. inversion E; subst.
  eapply Permutation_NoDup; [apply Permutation_sym, stable_sort_perm|].
  apply overlap_rows_NoDup; assumption.
Qed.

Lemma order_NoDup (ord : list nat) (n : nat) :
  Permutation ord (seq 0 n) -> NoDup (map Z.of_nat ord).
Proof.
  intros Hp. apply NoDup_map_NoDup_ForallPairs.
  - intros x y _ _ E. lia.
  - apply (Permutation_NoDup (Permutation_sym Hp)), seq_NoDup.
Qed.

(** ** [closest_intervals] without a tie-break array *)

Lemma cand_leb_spec (x y : Z * Z * Z) :
  cand_leb x y = true
  <-> fst (fst x) < fst (fst y)
      \/ (fst (fst x) = fst (fst y)
          /\ (snd x < snd y \/ (snd x = snd y /\ snd (fst x) <= snd (fst y)))).
Proof.
  unfold cand_leb.
  destruct (Z.ltb_spec (fst (fst x)) (fst (fst y))); [split; [lia|reflexivity]|].
  destruct (Z.ltb_spec (fst (fst y)) (fst (fst x))); [split; [discriminate|lia]|].
  destruct (Z.ltb_spec (snd x) (snd y)); [split; [lia|reflexivity]|].
  destruct (Z.ltb_spec (snd y) (snd x)); [split; [discriminate|lia]|].
  rewrite Z.leb_le. lia.
Qed.

Lemma cand_leb_total (x y : Z * Z * Z) : cand_leb x y = true \/ cand_leb y x = true.
Proof. rewrite !cand_leb_spec. lia. Qed.

Lemma cand_leb_trans (x y z : Z * Z * Z) :
  cand_leb x y = true -> cand_leb y z = true -> cand_leb x z = true.
Proof. rewrite !cand_leb_spec. lia. Qed.

Lemma lex_leb_triple (k1 k2 k3 : list Z) (i j : nat) :
  Np.lex_leb [k1; k2; k3] i j
  = cand_leb (nth i k1 0, nth i k3 0, nth i k2 0) (nth j k1 0, nth j k3 0, nth j k2 0).
Proof.
  unfold Np.lex_leb, cand_leb. cbn [fst snd].
  destruct (nth i k1 0 <? nth j k1 0); [reflexivity|].
  destruct (nth j k1 0 <? nth i k1 0); [reflexivity|].
  destruct (nth i k2 0 <? nth j k2 0); [reflexivity|].
  destruct (nth j k2 0 <? nth i k2 0); [reflexivity|].
  destruct (Z.ltb_spec (nth i k3 0) (nth j k3 0)).
  - symmetry. apply Z.leb_le. lia.
  - destruct (Z.ltb_spec (nth j k3 0) (nth i k3 0)); symmetry.
    + apply Z.leb_gt. lia.
    + apply Z.leb_le. lia.
Qed.

Lemma nth_seq_all {A : Type} (l : list A) (d : A) :
  map (fun i => nth i l d) (seq 0 (length l)) = l.
Proof. rewrite firstn_nth_seq by lia. apply firstn_all. Qed.

Lemma nth_cand (ids : list (Z * Z)) (dists : list Z) (i : nat) :
  length dists = length ids ->
  nth i (combine ids dists) (0, 0, 0)
  = (nth i (map fst ids) 0, nth i (map snd ids) 0, nth i dists 0).
Proof.
  intros Hl. rewrite combine_nth by (symmetry; exact Hl).
  rewrite nth_pair. reflexivity.
Qed.

(** The final sort of the candidates and the gathering of the rows. *)
Lemma lexsort_take_candidates (ids : list (Z * Z)) (dists : list Z) :
  length dists = length ids ->
  (order <- Np.lexsort [map snd ids; dists; map fst ids] ;; Np.take ids order)
  = Ok (map fst (stable_sort cand_leb (combine ids dists))).
Proof.
  intros Hl. unfold Np.lexsort. cbn [forallb rev app].
  rewrite !length_map, Hl, !Nat.eqb_refl. cbn [andb bind].
  set (ord := stable_sort (Np.lex_leb [map fst ids; dists; map snd ids])
                (seq 0 (length ids))).
  rewrite (take_nat ids ord (0, 0)) by (apply (sorted_indices_bound (A := nat))).
  f_equal.
  set (cand := combine ids dists).
  assert (Hlc : length cand = length ids)
    by (unfold cand; rewrite length_combine; lia).
  transitivity (map fst (map (fun i => nth i cand (0, 0, 0)) ord)).
  - rewrite map_map. apply map_ext. intros i.
    unfold cand. rewrite nth_cand by exact Hl. cbn [fst].
    apply nth_pair.
  - f_equal. unfold ord.
    rewrite (stable_sort_ext _ (fun i j => cand_leb (nth i cand (0, 0, 0))
                                                    (nth j cand (0, 0, 0)))).
    + rewrite (stable_sort_map (fun i => nth i cand (0, 0, 0)) cand_leb).
      rewrite <- Hlc, nth_seq_all. reflexivity.
    + intros i j. rewrite lex_leb_triple. unfold cand.
      rewrite !nth_cand by exact Hl. reflexivity.
Qed.

Lemma rows_in_range_take (a : list Z) (rows : list (Z * Z)) (g : Z * Z -> Z) :
  Forall (fun r => 0 <= g r < Z.of_nat (length a)) rows ->
  Np.take a (map g rows) = Ok (map (fun r => nth (Z.to_nat (g r)) a 0) rows).
Proof.
  intros H. rewrite (take_in_range a _ 0) by (rewrite Forall_map; exact H).
  rewrite map_map. reflexivity.
Qed.

(** [closest_intervals] without [tie_arr], from the rows of the two passes
    and of the overlap join: the candidates are sorted and the selection is
    made. *)
Lemma closest_intervals_candidates
    (starts1 ends1 starts2 ends2 : list Z) (k : Z)
    (ignore_overlaps ignore_upstream ignore_downstream : bool)
    (up down ov : list (Z * Z)) :
  _closest_intervals_nooverlap starts1 ends1 starts2 ends2 None
    (if ignore_upstream then 0 else k) (if ignore_downstream then 0 else k)
  = Ok (up, down) ->
  (if ignore_overlaps then Ok [] else overlap_intervals starts1 ends1 starts2 ends2)
  = Ok ov ->
  Forall (fun r => 0 <= fst r < Z.of_nat (length starts1)
                   /\ 0 <= snd r < Z.of_nat (length ends2)) up ->
  Forall (fun r => 0 <= fst r < Z.of_nat (length ends1)
                   /\ 0 <= snd r < Z.of_nat (length starts2)) down ->
  closest_intervals starts1 ends1 starts2 ends2 k None
    ignore_overlaps ignore_upstream ignore_downstream
  = select_closest
      (map fst
         (stable_sort cand_leb
            (combine (up ++ down ++ ov)
               (map (fun r => float_distance (nth (Z.to_nat (fst r)) starts1 0)
                                (nth (Z.to_nat (snd r)) ends2 0)) up
                ++ map (fun r => float_distance (nth (Z.to_nat (snd r)) starts2 0)
                                   (nth (Z.to_nat (fst r)) ends1 0)) down
                ++ Np.full (length ov) 0))))
      k.
Proof.
  intros Hno Hov Hup Hdown. unfold closest_intervals.
  rewrite Hno. cbn [bind].
  rewrite (rows_in_range_take starts1 up fst) by (weaken_forall Hup). cbn [bind].
  rewrite (rows_in_range_take ends2 up snd) by (weaken_forall Hup). cbn [bind].
  unfold Np.sub_int64 at 1.
  rewrite broadcast2_same_length by (rewrite !length_map; reflexivity).
  rewrite zip_with_map_same. cbn [bind].
  rewrite (rows_in_range_take starts2 down snd) by (weaken_forall Hdown). cbn [bind].
  rewrite (rows_in_range_take ends1 down fst) by (weaken_forall Hdown). cbn [bind].
  unfold Np.sub_int64 at 1.
  rewrite broadcast2_same_length by (rewrite !length_map; reflexivity).
  rewrite zip_with_map_same. cbn [bind].
  rewrite Hov. cbn [bind].
  unfold Np.add_scalar_int64, Np.astype_float64. rewrite !map_map.
  fold (float_distance).
  set (ids := up ++ down ++ ov).
  set (dists := map _ up ++ map _ down ++ Np.full (length ov) 0).
  assert (Hl : length dists = length ids).
  { unfold dists, ids, Np.full. rewrite !length_app, !length_map, repeat_length.
    reflexivity. }
  pose proof (lexsort_take_candidates ids dists Hl) as Hsort.
  destruct (Np.lexsort [map snd ids; dists; map fst ids]) as [order|]; [|discriminate].
  cbn [bind] in *. rewrite Hsort. reflexivity.
Qed.

(** ** The selection of up to [k] rows per interval *)

Lemma rows_for_cons (i : Z) (r : Z * Z) (c : list (Z * Z)) :
  rows_for i (r :: c) = if fst r =? i then r :: rows_for i c else rows_for i c.
Proof. reflexivity. Qed.

Lemma rows_for_app (i : Z) (a b : list (Z * Z)) :
  rows_for i (a ++ b) = rows_for i a ++ rows_for i b.
Proof. apply filter_app. Qed.

Lemma rows_for_above (i : Z) (c : list (Z * Z)) :
  Forall (fun r => i < fst r) c -> rows_for i c = [].
Proof.
  induction 1 as [|r c Hr _ IH]; [reflexivity|].
  rewrite rows_for_cons, IH.
  destruct (Z.eqb_spec (fst r) i); [lia|reflexivity].
Qed.

Lemma rows_for_first (k : nat) (i : Z) (r : Z * Z) :
  rows_for i (firstn k [r]) = if fst r =? i then firstn k [r] else [].
Proof.
  destruct k as [|k]; cbn [firstn]; [destruct (fst r =? i); reflexivity|].
  rewrite firstn_nil, rows_for_cons. reflexivity.
Qed.

Lemma keep_upto_rows_for (k : nat) (c : list (Z * Z)) :
  forall (cur : Z) (seen : nat) (i : Z),
  StronglySorted (fun p q => fst p <= fst q) c ->
  Forall (fun r => cur <= fst r) c ->
  rows_for i (keep_upto k cur seen c)
  = if i =? cur then firstn (k - seen) (rows_for i c) else firstn k (rows_for i c).
Proof.
  induction c as [|r c IH]; intros cur seen i Hs Hge.
  - cbn [keep_upto]. unfold rows_for. cbn [filter]. rewrite !firstn_nil.
    destruct (i =? cur); reflexivity.
  - inversion Hs as [|? ? Hs' Hall]; subst.
    inversion Hge as [|? ? Hcur Hge']; subst. cbv beta in Hcur.
    cbn [keep_upto]. rewrite (rows_for_cons i r c).
    destruct (Z.eqb_spec (fst r) cur) as [Heq|Hne].
    + destruct (Nat.ltb_spec seen k) as [Hlt|Hnlt].
      * rewrite rows_for_cons, (IH cur (S seen) i Hs' Hge').
        destruct (Z.eqb_spec i cur) as [->|Hi].
        -- rewrite Heq, Z.eqb_refl.
           replace (k - seen)%nat with (S (k - S seen)) by lia. reflexivity.
        -- destruct (Z.eqb_spec (fst r) i); [lia|reflexivity].
      * rewrite (IH cur (S seen) i Hs' Hge').
        destruct (Z.eqb_spec i cur) as [->|Hi].
        -- rewrite Heq, Z.eqb_refl.
           replace (k - S seen)%nat with 0%nat by lia.
           replace (k - seen)%nat with 0%nat by lia. reflexivity.
        -- destruct (Z.eqb_spec (fst r) i); [lia|reflexivity].
    + rewrite rows_for_app, rows_for_first, (IH (fst r) 1%nat i Hs' Hall).
      destruct (Z.eqb_spec i cur) as [->|Hi].
      * destruct (Z.eqb_spec (fst r) cur); [lia|].
        destruct (Z.eqb_spec cur (fst r)); [lia|].
        rewrite (rows_for_above cur c), !firstn_nil; [reflexivity|].
        eapply Forall_impl; [|exact Hall]. cbv beta. intros; lia.
      * destruct (Z.eqb_spec (fst r) i) as [Hri|Hri].
        -- destruct (Z.eqb_spec i (fst r)); [|lia].
           destruct k as [|k]; [reflexivity|].
           cbn [firstn]. rewrite firstn_nil.
           replace (S k - 1)%nat with k by lia. reflexivity.
        -- destruct (Z.eqb_spec i (fst r)); [lia|]. reflexivity.
Qed.

(** On candidates in ascending order of the first column, the selection
    keeps of the rows of every interval the first [k]. *)
Lemma survivors_rows_for (k : nat) (c : list (Z * Z)) (i : Z) :
  StronglySorted (fun p q => fst p <= fst q) c ->
  rows_for i (survivors k c) = firstn k (rows_for i c).
Proof.
  intros Hs. destruct c as [|r c]; [rewrite firstn_nil; reflexivity|].
  inversion Hs as [|? ? Hs' Hall]; subst.
  unfold survivors.
  rewrite rows_for_app, rows_for_first, (keep_upto_rows_for k c (fst r) 1 i Hs' Hall).
  rewrite rows_for_cons.
  destruct (Z.eqb_spec (fst r) i) as [Hri|Hri].
  - destruct (Z.eqb_spec i (fst r)); [|lia].
    destruct k as [|k]; [reflexivity|].
    cbn [firstn]. rewrite firstn_nil.
           replace (S k - 1)%nat with k by lia. reflexivity.
  - destruct (Z.eqb_spec i (fst r)); [lia|]. reflexivity.
Qed.

Lemma keep_upto_incl (k : nat) (c : list (Z * Z)) (cur : Z) (seen : nat) (x : Z * Z) :
  In x (keep_upto k cur seen c) -> In x c.
Proof.
  revert cur seen; induction c as [|r c IH]; intros cur seen H; [exact H|].
  cbn [keep_upto] in H. destruct (fst r =? cur).
  - destruct (seen <? k)%nat.
    + destruct H as [->|H]; [left; reflexivity|right; eapply IH, H].
    + right. eapply IH, H.
  - apply in_app_or in H. destruct H as [H|H].
    + destruct k; [destruct H|]. cbn [firstn] in H. rewrite firstn_nil in H.
      destruct H as [->|[]]. left. reflexivity.
    + right. eapply IH, H.
Qed.

Lemma survivors_incl (k : nat) (c : list (Z * Z)) (x : Z * Z) :
  In x (survivors k c) -> In x c.
Proof.
  destruct c as [|r c]; [intros []|]. unfold survivors. intros H.
  apply in_app_or in H. destruct H as [H|H].
  - destruct k; [destruct H|]. cbn [firstn] in H. rewrite firstn_nil in H.
    destruct H as [->|[]]. left. reflexivity.
  - right. eapply keep_upto_incl, H.
Qed.

Lemma keep_upto_sorted (R : Z * Z -> Z * Z -> Prop) (k : nat) (c : list (Z * Z))
    (cur : Z) (seen : nat) :
  StronglySorted R c -> StronglySorted R (keep_upto k cur seen c).
Proof.
  revert cur seen; induction c as [|r c IH]; intros cur seen Hs; [constructor|].
  inversion Hs as [|? ? Hs' Hall]; subst. cbn [keep_upto].
  assert (Hcons : forall cur' seen',
            StronglySorted R (r :: keep_upto k cur' seen' c)).
  { intros cur' seen'. constructor; [apply IH, Hs'|].
    apply Forall_forall. intros x Hx. apply keep_upto_incl in Hx.
    rewrite Forall_forall in Hall. apply Hall, Hx. }
  destruct (fst r =? cur).
  - destruct (seen <? k)%nat; [apply Hcons | apply IH, Hs'].
  - destruct k as [|k]; [apply IH, Hs'|].
    cbn [firstn]. rewrite firstn_nil. apply Hcons.
Qed.

Lemma survivors_sorted (R : Z * Z -> Z * Z -> Prop) (k : nat) (c : list (Z * Z)) :
  StronglySorted R c -> StronglySorted R (survivors k c).
Proof.
  intros Hs. destruct c as [|r c]; [constructor|].
  inversion Hs as [|? ? Hs' Hall]; subst. unfold survivors.
  destruct k as [|k]; [apply keep_upto_sorted, Hs'|].
  cbn [firstn]. rewrite firstn_nil. cbn [app].
  constructor; [apply keep_upto_sorted, Hs'|].
  apply Forall_forall. intros x Hx. apply keep_upto_incl in Hx.
  rewrite Forall_forall in Hall. apply Hall, Hx.
Qed.

Lemma keep_upto_NoDup (k : nat) (c : list (Z * Z)) (cur : Z) (seen : nat) :
  NoDup c -> NoDup (keep_upto k cur seen c).
Proof.
  revert cur seen; induction c as [|r c IH]; intros cur seen H; [constructor|].
  inversion H as [|? ? Hnot Hc]; subst. cbn [keep_upto].
  assert (Hcons : forall cur' seen', NoDup (r :: keep_upto k cur' seen' c)).
  { intros cur' seen'. constructor; [|apply IH, Hc].
    intros Hin. apply Hnot. eapply keep_upto_incl, Hin. }
  destruct (fst r =? cur).
  - destruct (seen <? k)%nat; [apply Hcons|apply IH, Hc].
  - destruct k as [|k]; [apply IH, Hc|].
    cbn [firstn]. rewrite firstn_nil. cbn [app]. apply Hcons.
Qed.

Lemma survivors_NoDup (k : nat) (c : list (Z * Z)) :
  NoDup c -> NoDup (survivors k c).
Proof.
  intros H. destruct c as [|r c]; [constructor|].
  inversion H as [|? ? Hnot Hc]; subst. cbn [survivors].
  destruct k as [|k]; [apply keep_upto_NoDup, Hc|].
  cbn [firstn]. rewrite firstn_nil. cbn [app].
  constructor; [|apply keep_upto_NoDup, Hc].
  intros Hin. apply Hnot. eapply keep_upto_incl, Hin.
Qed.

Lemma combine_map_self {A B : Type} (f : A -> B) (l : list A) :
  combine l (map f l) = map (fun r => (r, f r)) l.
Proof. induction l as [|x l IH]; simpl; congruence. Qed.

Lemma combine_full_zero {A : Type} (l : list A) :
  combine l (Np.full (length l) 0) = map (fun r => (r, 0)) l.
Proof. unfold Np.full. induction l as [|x l IH]; simpl; congruence. Qed.

Lemma StronglySorted_app_inv {A : Type} (R : A -> A -> Prop) (a b : list A) :
  StronglySorted R (a ++ b) -> forall x y, In x a -> In y b -> R x y.
Proof.
  induction a as [|z a IH]; intros Hs x y Hx Hy; [destruct Hx|].
  cbn [app] in Hs. inversion Hs as [|? ? Hs' Hall]; subst.
  destruct Hx as [->|Hx].
  - rewrite Forall_forall in Hall. apply Hall, in_or_app. right. exact Hy.
  - apply IH; assumption.
Qed.

Lemma StronglySorted_filter {A : Type} (R : A -> A -> Prop) (f : A -> bool)
    (l : list A) :
  StronglySorted R l -> StronglySorted R (filter f l).
Proof.
  induction 1 as [|x l Hs IH Hall]; [constructor|].
  cbn [filter]. destruct (f x); [|exact IH].
  constructor; [exact IH|].
  apply Forall_forall. intros y Hy. apply filter_In in Hy.
  rewrite Forall_forall in Hall. apply Hall, Hy.
Qed.

Lemma Permutation_filter_length {A : Type} (f : A -> bool) (l l' : list A) :
  Permutation l l' -> length (filter f l) = length (filter f l').
Proof.
  induction 1 as [|x l l' _ IH|x y l|l l' l'' _ IH1 _ IH2]; cbn [filter].
  - reflexivity.
  - destruct (f x); simpl; congruence.
  - destruct (f x), (f y); reflexivity.
  - congruence.
Qed.

Lemma filter_rows_for (i : Z) (g : Z * Z -> bool) (l : list (Z * Z)) :
  filter (fun r => (fst r =? i) && g r) l = filter g (rows_for i l).
Proof.
  unfold rows_for. induction l as [|x l IH]; [reflexivity|].
  cbn [filter]. destruct (fst x =? i); cbn [andb filter]; rewrite IH; reflexivity.
Qed.

Lemma filter_all {A : Type} (f : A -> bool) (l : list A) :
  Forall (fun x => f x = true) l -> filter f l = l.
Proof.
  induction 1 as [|x l Hx _ IH]; [reflexivity|].
  cbn [filter]. rewrite Hx, IH. reflexivity.
Qed.

(** In a list in ascending order of a measure, the first [n] elements are
    below a bound that at least [n] elements are below. *)
Lemma sorted_filter_prefix {A : Type} (f : A -> Z) (t : Z) (l : list A) :
  forall n : nat,
  StronglySorted (fun a b => f a <= f b) l ->
  (n <= length (filter (fun r => (f r <=? t)%Z) l))%nat ->
  length (firstn n l) = n /\ Forall (fun r => f r <= t) (firstn n l).
Proof.
  induction l as [|x l IH]; intros n Hs Hn.
  - simpl in Hn. replace n with 0%nat by lia. split; [reflexivity|constructor].
  - destruct n as [|n]; [split; [reflexivity|constructor]|].
    inversion Hs as [|? ? Hs' Hall]; subst.
    cbn [filter] in Hn. destruct (Z.leb_spec (f x) t) as [Hx|Hx].
    + simpl in Hn. destruct (IH n Hs' ltac:(lia)) as [Hl Hf].
      cbn [firstn length]. split; [lia|]. constructor; assumption.
    + exfalso.
      assert (Hnone : filter (fun r => f r <=? t) l = []).
      { clear -Hall Hx. induction l as [|y l IH']; [reflexivity|].
        inversion Hall as [|? ? Hy Hall']; subst. cbn [filter].
        destruct (Z.leb_spec (f y) t); [lia|]. apply IH', Hall'. }
      rewrite Hnone in Hn. simpl in Hn. lia.
Qed.

Lemma In_firstn_skipn {A : Type} (n : nat) (l : list A) (x : A) :
  In x l -> In x (firstn n l) \/ In x (skipn n l).
Proof.
  intros H. rewrite <- (firstn_skipn n l) in H. apply in_app_or, H.
Qed.

Lemma skipn_nonempty_length {A : Type} (n : nat) (l : list A) (x : A) :
  In x (skipn n l) -> length (firstn n l) = n.
Proof.
  intros H. rewrite length_firstn.
  destruct (Nat.le_gt_cases (length l) n) as [Hle|Hgt]; [|lia].
  rewrite skipn_all2 in H by exact Hle. destruct H.
Qed.

Lemma StronglySorted_impl_in {A : Type} (R R' : A -> A -> Prop) (l : list A) :
  (forall a b, In a l -> In b l -> R a b -> R' a b) ->
  StronglySorted R l -> StronglySorted R' l.
Proof.
  intros H Hs. induction Hs as [|x l Hs IH Hall]; [constructor|].
  constructor.
  - apply IH. intros a b Ha Hb. apply H; right; assumption.
  - rewrite Forall_forall in *. intros y Hy.
    apply H; [left; reflexivity|right; exact Hy|apply Hall, Hy].
Qed.

(** The selection made on sorted candidates: what is kept of the candidates
    of an interval are its [k] first by distance. *)
Lemma select_sorted_candidates (D : Z * Z -> Z) (ids : list (Z * Z)) (k : Z) :
  1 <= k ->
  let row_leb := fun a b : Z * Z => cand_leb (a, D a) (b, D b) in
  let sorted := stable_sort row_leb ids in
  (ids = [] -> select_closest sorted k = Raise IndexError)
  /\ (ids <> [] ->
      exists out,
        select_closest sorted k = Ok out
        /\ (forall x, In x out -> In x ids)
        /\ (NoDup ids -> NoDup out)
        /\ StronglySorted (le_of row_leb) out
        /\ (forall i, Z.of_nat (length (rows_for i out)) <= k)
        /\ (forall i j',
              In (i, j') ids
              \/ (Z.to_nat k
                  <= length (filter (fun r => ((fst r =? i) && (D r <=? D (i, j')))%Z)
                               ids))%nat ->
              In (i, j') out
              \/ (Z.of_nat (length (rows_for i out)) = k
                  /\ forall j, In (i, j) out -> D (i, j) <= D (i, j')))).
Proof.
  intros Hk row_leb sorted.
  split; [intros ->; apply select_closest_empty, Hk|].
  intros Hne.
  pose proof (stable_sort_perm row_leb ids) as Hperm. fold sorted in Hperm.
  assert (Hsorted : StronglySorted (le_of row_leb) sorted).
  { apply stable_sort_sorted.
    - intros x y. apply cand_leb_total.
    - intros x y z. apply cand_leb_trans. }
  assert (Hsne : sorted <> []).
  { intros E. rewrite E in Hperm. apply Permutation_nil in Hperm. contradiction. }
  exists (survivors (Z.to_nat k) sorted).
  split; [apply select_closest_survivors; [exact Hsne|lia]|].
  assert (Hfst : StronglySorted (fun p q => fst p <= fst q) sorted).
  { eapply StronglySorted_impl_in; [|exact Hsorted].
    intros a b _ _ Hab. apply cand_leb_spec in Hab. cbn [fst snd] in Hab. lia. }
  assert (Hrows : forall i, rows_for i (survivors (Z.to_nat k) sorted)
                            = firstn (Z.to_nat k) (rows_for i sorted))
    by (intros i; apply survivors_rows_for, Hfst).
  split; [|split; [|split; [|split]]].
  - intros x Hx. apply survivors_incl in Hx.
    eapply Permutation_in; [exact Hperm|exact Hx].
  - intros Hnd. apply survivors_NoDup.
    apply (Permutation_NoDup (Permutation_sym Hperm)), Hnd.
  - apply survivors_sorted, Hsorted.
  - intros i. rewrite Hrows, length_firstn. lia.
  - intros i j' Hcase.
    set (G := rows_for i sorted) in *.
    assert (HG : StronglySorted (fun a b => D a <= D b) G).
    { apply (StronglySorted_impl_in (le_of row_leb)).
      - intros a b Ha Hb Hab. unfold G, rows_for in Ha, Hb.
        apply filter_In in Ha, Hb. destruct Ha as [_ Ha]. destruct Hb as [_ Hb].
        apply Z.eqb_eq in Ha, Hb.
        apply cand_leb_spec in Hab. cbn [fst snd] in Hab. lia.
      - apply StronglySorted_filter, Hsorted. }
    assert (Hout : forall j, In (i, j) (survivors (Z.to_nat k) sorted)
                             <-> In (i, j) (firstn (Z.to_nat k) G)).
    { intros j. rewrite rows_for_In, Hrows. reflexivity. }
    destruct Hcase as [Hin|Hcount].
    + assert (HinG : In (i, j') G).
      { unfold G. apply (proj1 (rows_for_In i j' sorted)).
        eapply Permutation_in; [apply Permutation_sym, Hperm|exact Hin]. }
      destruct (In_firstn_skipn (Z.to_nat k) G _ HinG) as [Hf|Hsk].
      * left. apply Hout, Hf.
      * right. split.
        -- rewrite Hrows. fold G. rewrite (skipn_nonempty_length _ _ _ Hsk). lia.
        -- intros j Hj. apply Hout in Hj.
           rewrite <- (firstn_skipn (Z.to_nat k) G) in HG.
           apply (StronglySorted_app_inv _ _ _ HG _ _ Hj Hsk).
    + right.
      rewrite (Permutation_filter_length _ _ _ (Permutation_sym Hperm)) in Hcount.
      rewrite filter_rows_for in Hcount. fold G in Hcount.
      destruct (sorted_filter_prefix D (D (i, j')) G (Z.to_nat k) HG Hcount)
        as [Hl Hall].
      split.
      * rewrite Hrows. fold G. rewrite Hl. lia.
      * intros j Hj. apply Hout in Hj. rewrite Forall_forall in Hall.
        apply (Hall _ Hj).
Qed.

Lemma distance_overlap (starts1 ends1 starts2 ends2 : list Z) (i j : Z) :
  overlaps starts1 ends1 starts2 ends2 i j = true ->
  distance starts1 ends1 starts2 ends2 i j = 0.
Proof. intros H. unfold distance. rewrite H. reflexivity. Qed.

Lemma distance_upstream (starts1 ends1 starts2 ends2 : list Z) (i j : Z) :
  nth (Z.to_nat j) ends2 0 <= nth (Z.to_nat i) starts1 0 ->
  overlaps starts1 ends1 starts2 ends2 i j = false
  /\ distance starts1 ends1 starts2 ends2 i j
     = nth (Z.to_nat i) starts1 0 - nth (Z.to_nat j) ends2 0 + 1.
Proof.
  intros H. unfold distance, overlaps.
  replace (nth (Z.to_nat i) starts1 0 <? nth (Z.to_nat j) ends2 0) with false
    by (symmetry; apply Z.ltb_ge; exact H).
  cbn [andb]. split; [reflexivity|].
  replace (nth (Z.to_nat j) ends2 0 <=? nth (Z.to_nat i) starts1 0) with true
    by (symmetry; apply Z.leb_le; exact H).
  reflexivity.
Qed.

Lemma distance_downstream (starts1 ends1 starts2 ends2 : list Z) (i j : Z) :
  nth (Z.to_nat i) starts1 0 <= nth (Z.to_nat i) ends1 0 ->
  nth (Z.to_nat j) starts2 0 <= nth (Z.to_nat j) ends2 0 ->
  nth (Z.to_nat i) ends1 0 <= nth (Z.to_nat j) starts2 0 ->
  overlaps starts1 ends1 starts2 ends2 i j = false
  /\ distance starts1 ends1 starts2 ends2 i j
     = nth (Z.to_nat j) starts2 0 - nth (Z.to_nat i) ends1 0 + 1.
Proof.
  intros Hw1 Hw2 H. unfold distance, overlaps.
  replace (nth (Z.to_nat j) starts2 0 <? nth (Z.to_nat i) ends1 0) with false
    by (symmetry; apply Z.ltb_ge; exact H).
  rewrite andb_false_r. split; [reflexivity|].
  destruct (Z.leb_spec (nth (Z.to_nat j) ends2 0) (nth (Z.to_nat i) starts1 0));
    [lia|reflexivity].
Qed.

(** The candidates [closest_intervals] sorts, without [tie_arr] and on
    well-formed intervals: every candidate row is a pair that may be
    reported, and a pair that may be reported is a candidate row unless the
    interval has [k] candidate rows that are at least as close. *)
Lemma closest_intervals_rows
    (starts1 ends1 starts2 ends2 : list Z) (k : Z)
    (ignore_overlaps ignore_upstream ignore_downstream : bool) :
  Forall2 Z.le starts1 ends1 ->
  Forall2 Z.le starts2 ends2 ->
  exact_coordinates (starts1 ++ ends1 ++ starts2 ++ ends2) ->
  1 <= k ->
  let D := fun r : Z * Z => distance starts1 ends1 starts2 ends2 (fst r) (snd r) in
  let row_leb := fun a b : Z * Z => cand_leb (a, D a) (b, D b) in
  exists ids,
    closest_intervals starts1 ends1 starts2 ends2 k None
      ignore_overlaps ignore_upstream ignore_downstream
    = select_closest (stable_sort row_leb ids) k
    /\ (forall i j, In (i, j) ids ->
          candidate starts1 ends1 starts2 ends2
            ignore_overlaps ignore_upstream ignore_downstream i j)
    /\ (forall i j',
          candidate starts1 ends1 starts2 ends2
            ignore_overlaps ignore_upstream ignore_downstream i j' ->
          In (i, j') ids
          \/ (Z.to_nat k
              <= length (filter (fun r => ((fst r =? i) && (D r <=? D (i, j')))%Z)
                           ids))%nat)
    /\ (Forall2 Z.lt starts1 ends1 \/ Forall2 Z.lt starts2 ends2
        \/ ignore_upstream = true \/ ignore_downstream = true ->
        NoDup ids).
Proof.
  intros Hwf1 Hwf2 Hex Hk D row_leb.
  assert (Hex' : exact_coordinates starts1 /\ exact_coordinates ends1
                 /\ exact_coordinates starts2 /\ exact_coordinates ends2).
  { unfold exact_coordinates in *. rewrite !Forall_app in Hex. tauto. }
  destruct Hex' as [Hxs1 [Hxe1 [Hxs2 Hxe2]]].
  pose proof (Forall2_same_length _ _ _ Hwf1) as H1.
  pose proof (Forall2_same_length _ _ _ Hwf2) as H2.
  set (k_up := if ignore_upstream then 0 else k).
  set (k_down := if ignore_downstream then 0 else k).
  destruct (nooverlap_rows starts1 ends1 starts2 ends2 None k_up k_down H1 H2 I)
    as [ord_e [ord_s [Hpe [Hse [Hps [Hss Hno]]]]]].
  set (up := if k_up >? 0
             then pass_rows (map Z.of_nat ord_e)
                    (map (upstream_range (map (fun i => nth i ends2 0) ord_e) k_up)
                       starts1)
             else []) in *.
  set (down := if k_down >? 0
               then pass_rows (map Z.of_nat ord_s)
                      (map (downstream_range (map (fun i => nth i starts2 0) ord_s)
                              k_down) ends1)
               else []) in *.
  (* the upstream rows *)
  assert (Hup :
    (forall i j, In (i, j) up ->
       ignore_upstream = false
       /\ 0 <= i < Z.of_nat (length starts1)
       /\ 0 <= j < Z.of_nat (length starts2)
       /\ nth (Z.to_nat j) ends2 0 <= nth (Z.to_nat i) starts1 0)
    /\ (ignore_upstream = false ->
        forall i j',
          0 <= i < Z.of_nat (length starts1) ->
          0 <= j' < Z.of_nat (length starts2) ->
          nth (Z.to_nat j') ends2 0 <= nth (Z.to_nat i) starts1 0 ->
          In (i, j') up
          \/ (Z.of_nat (length (rows_for i up)) = k
              /\ forall j, In (i, j) up ->
                   nth (Z.to_nat j') ends2 0 <= nth (Z.to_nat j) ends2 0))).
  { unfold up, k_up. destruct ignore_upstream.
    - change (0 >? 0) with false. cbv iota.
      split; [intros i j []|discriminate].
    - replace (k >? 0) with true by (symmetry; apply Z.gtb_lt; lia).
      rewrite H2 in Hpe.
      destruct (upstream_rows_spec ends2 starts1 ord_e k Hpe Hse ltac:(lia))
        as [Ha [_ Hc]].
      rewrite H2. split.
      + intros i j Hin. split; [reflexivity|]. apply Ha, Hin.
      + intros _. exact Hc. }
  (* the downstream rows *)
  assert (Hdown :
    (forall i j, In (i, j) down ->
       ignore_downstream = false
       /\ 0 <= i < Z.of_nat (length starts1)
       /\ 0 <= j < Z.of_nat (length starts2)
       /\ nth (Z.to_nat i) ends1 0 <= nth (Z.to_nat j) starts2 0)
    /\ (ignore_downstream = false ->
        forall i j',
          0 <= i < Z.of_nat (length starts1) ->
          0 <= j' < Z.of_nat (length starts2) ->
          nth (Z.to_nat i) ends1 0 <= nth (Z.to_nat j') starts2 0 ->
          In (i, j') down
          \/ (Z.of_nat (length (rows_for i down)) = k
              /\ forall j, In (i, j) down ->
                   nth (Z.to_nat j) starts2 0 <= nth (Z.to_nat j') starts2 0))).
  { unfold down, k_down. destruct ignore_downstream.
    - change (0 >? 0) with false. cbv iota.
      split; [intros i j []|discriminate].
    - replace (k >? 0) with true by (symmetry; apply Z.gtb_lt; lia).
      destruct (downstream_rows_spec starts2 ends1 ord_s k Hps Hss ltac:(lia))
        as [Ha [_ Hc]].
      rewrite H1. split.
      + intros i j Hin. split; [reflexivity|]. apply Ha, Hin.
      + intros _. exact Hc. }
  destruct Hup as [Hup_in Hup_all]. destruct Hdown as [Hdown_in Hdown_all].
  (* the overlap rows *)
  assert (Hov : exists ov,
    (if ignore_overlaps then Ok [] else overlap_intervals starts1 ends1 starts2 ends2)
    = Ok ov
    /\ forall i j,
         In (i, j) ov
         <-> ignore_overlaps = false
             /\ 0 <= i < Z.of_nat (length starts1)
             /\ 0 <= j < Z.of_nat (length starts2)
             /\ overlaps starts1 ends1 starts2 ends2 i j = true).
  { destruct ignore_overlaps.
    - exists []. split; [reflexivity|]. intros i j.
      split; [intros []|intros [H _]; discriminate].
    - destruct (overlap_intervals_pairs _ _ _ _ Hwf1 Hwf2) as [ov [Ho Hin]].
      exists ov. split; [exact Ho|]. intros i j. rewrite Hin.
      unfold overlaps. rewrite andb_true_iff, !Z.ltb_lt. tauto. }
  destruct Hov as [ov [Hov Hov_in]].
  (* wellformedness at a position *)
  assert (Hw1 : forall i, 0 <= i < Z.of_nat (length starts1) ->
                  nth (Z.to_nat i) starts1 0 <= nth (Z.to_nat i) ends1 0)
    by (intros i Hi; apply (Forall2_nth _ _ _ 0 0 _ Hwf1); lia).
  assert (Hw2 : forall j, 0 <= j < Z.of_nat (length starts2) ->
                  nth (Z.to_nat j) starts2 0 <= nth (Z.to_nat j) ends2 0)
    by (intros j Hj; apply (Forall2_nth _ _ _ 0 0 _ Hwf2); lia).
  (* the distances of the rows *)
  assert (HDup : forall r, In r up ->
            nth (Z.to_nat (fst r)) starts1 0 - nth (Z.to_nat (snd r)) ends2 0 + 1
            = D r).
  { intros [i j] Hin. destruct (Hup_in i j Hin) as [_ [_ [_ Hle]]].
    unfold D. cbn [fst snd]. symmetry. apply distance_upstream, Hle. }
  assert (HDdown : forall r, In r down ->
            nth (Z.to_nat (snd r)) starts2 0 - nth (Z.to_nat (fst r)) ends1 0 + 1
            = D r).
  { intros [i j] Hin. destruct (Hdown_in i j Hin) as [_ [Hi [Hj Hle]]].
    unfold D. cbn [fst snd]. symmetry.
    apply distance_downstream; [apply Hw1, Hi|apply Hw2, Hj|exact Hle]. }
  assert (HFup : forall r, In r up ->
            float_distance (nth (Z.to_nat (fst r)) starts1 0)
              (nth (Z.to_nat (snd r)) ends2 0) = D r).
  { intros r Hr. rewrite <- (HDup r Hr).
    apply float_distance_exact; apply exact_coordinates_nth; assumption. }
  assert (HFdown : forall r, In r down ->
            float_distance (nth (Z.to_nat (snd r)) starts2 0)
              (nth (Z.to_nat (fst r)) ends1 0) = D r).
  { intros r Hr. rewrite <- (HDdown r Hr).
    apply float_distance_exact; apply exact_coordinates_nth; assumption. }
  assert (HDov : forall r, In r ov -> 0 = D r).
  { intros [i j] Hin. apply Hov_in in Hin. destruct Hin as [_ [_ [_ Ho]]].
    unfold D. cbn [fst snd]. symmetry. apply distance_overlap, Ho. }
  exists (up ++ down ++ ov).
  split; [|split; [|split]].
  - rewrite (closest_intervals_candidates _ _ _ _ k _ _ _ up down ov Hno Hov).
    + f_equal.
      assert (Hc : combine (up ++ down ++ ov)
                     (map (fun r => float_distance (nth (Z.to_nat (fst r)) starts1 0)
                                      (nth (Z.to_nat (snd r)) ends2 0)) up
                      ++ map (fun r => float_distance
                                         (nth (Z.to_nat (snd r)) starts2 0)
                                         (nth (Z.to_nat (fst r)) ends1 0)) down
                      ++ Np.full (length ov) 0)
                   = map (fun r => (r, D r)) (up ++ down ++ ov)).
      { rewrite combine_app by (rewrite length_map; reflexivity).
        rewrite combine_app by (rewrite length_map; reflexivity).
        rewrite !combine_map_self, combine_full_zero, !map_app.
        f_equal; [|f_equal]; apply map_ext_in; intros r Hr; f_equal.
        - apply HFup, Hr.
        - apply HFdown, Hr.
        - apply HDov, Hr. }
      rewrite Hc.
      rewrite <- (stable_sort_map (fun r => (r, D r)) cand_leb).
      rewrite map_map. cbn [fst]. apply map_id.
    + apply Forall_forall. intros [i j] Hin.
      destruct (Hup_in i j Hin) as [_ [Hi [Hj _]]]. cbn [fst snd]. lia.
    + apply Forall_forall. intros [i j] Hin.
      destruct (Hdown_in i j Hin) as [_ [Hi [Hj _]]]. cbn [fst snd]. lia.
  - intros i j Hin. unfold candidate.
    apply in_app_or in Hin. destruct Hin as [Hin|Hin];
      [|apply in_app_or in Hin; destruct Hin as [Hin|Hin]].
    + destruct (Hup_in i j Hin) as [Hf [Hi [Hj Hle]]]. tauto.
    + destruct (Hdown_in i j Hin) as [Hf [Hi [Hj Hle]]]. tauto.
    + apply Hov_in in Hin. tauto.
  - intros i j' [Hi [Hj' Hkind]].
    assert (Hcount : forall part : list (Z * Z),
              Z.of_nat (length (rows_for i part)) = k ->
              (forall r, In r (rows_for i part) -> D r <= D (i, j')) ->
              (Z.to_nat k
               <= length (filter (fun r => ((fst r =? i) && (D r <=? D (i, j')))%Z)
                            part))%nat).
    { intros part Hl Hall. rewrite filter_rows_for, filter_all; [lia|].
      apply Forall_forall. intros r Hr. apply Z.leb_le, Hall, Hr. }
    destruct Hkind as [[Hf Ho]|[[Hf Hle]|[Hf Hle]]].
    + left. apply in_or_app. right. apply in_or_app. right.
      apply Hov_in. tauto.
    + destruct (Hup_all Hf i j' Hi Hj' Hle) as [Hin|[Hl Hnear]].
      * left. apply in_or_app. left. exact Hin.
      * right. rewrite filter_app, length_app.
        assert (Hc := Hcount up Hl). 
        assert (Hall : forall r, In r (rows_for i up) -> D r <= D (i, j')).
        { intros [i' j] Hr. unfold rows_for in Hr. apply filter_In in Hr.
          destruct Hr as [Hr Hf']. cbn [fst] in Hf'. apply Z.eqb_eq in Hf'. subst i'.
          rewrite <- (HDup _ Hr). unfold D. cbn [fst snd].
          rewrite (proj2 (distance_upstream starts1 ends1 starts2 ends2 i j' Hle)).
          specialize (Hnear j Hr). lia. }
        specialize (Hc Hall). lia.
    + destruct (Hdown_all Hf i j' Hi Hj' Hle) as [Hin|[Hl Hnear]].
      * left. apply in_or_app. right. apply in_or_app. left. exact Hin.
      * right. rewrite !filter_app, !length_app.
        assert (Hc := Hcount down Hl).
        assert (Hall : forall r, In r (rows_for i down) -> D r <= D (i, j')).
        { intros [i' j] Hr. unfold rows_for in Hr. apply filter_In in Hr.
          destruct Hr as [Hr Hf']. cbn [fst] in Hf'. apply Z.eqb_eq in Hf'. subst i'.
          rewrite <- (HDdown _ Hr). unfold D. cbn [fst snd].
          rewrite (proj2 (distance_downstream starts1 ends1 starts2 ends2 i j'
                            (Hw1 i Hi) (Hw2 j' Hj') Hle)).
          specialize (Hnear j Hr). lia. }
        specialize (Hc Hall). lia.
  - intros Hstrict.
    assert (Hnd_up : NoDup up).
    { unfold up. destruct (Z.gtb_spec k_up 0) as [Hk0|Hk0]; [|constructor].
      apply pass_rows_NoDup; [apply (order_NoDup _ _ Hpe)|].
      rewrite Forall_map. apply Forall_forall. intros s _.
      pose proof (upstream_range_bounds (map (fun i => nth i ends2 0) ord_e)
                    k_up s Hk0) as Hb. cbv zeta in Hb.
      rewrite !length_map in *. lia. }
    assert (Hnd_down : NoDup down).
    { unfold down. destruct (Z.gtb_spec k_down 0) as [Hk0|Hk0]; [|constructor].
      apply pass_rows_NoDup; [apply (order_NoDup _ _ Hps)|].
      rewrite Forall_map. apply Forall_forall. intros e _.
      pose proof (downstream_range_bounds (map (fun i => nth i starts2 0) ord_s)
                    k_down e Hk0) as Hb. cbv zeta in Hb.
      rewrite !length_map in *. lia. }
    assert (Hnd_ov : NoDup ov).
    { destruct ignore_overlaps.
      - inversion Hov. constructor.
      - apply (overlap_intervals_NoDup _ _ _ _ ov H1 H2 Hov). }
    apply NoDup_app; [exact Hnd_up| |].
    + apply NoDup_app; [exact Hnd_down|exact Hnd_ov|].
      intros [i j] Hd Ho. destruct (Hdown_in i j Hd) as [_ [_ [_ Hle]]].
      apply Hov_in in Ho. destruct Ho as [_ [_ [_ Ho]]].
      unfold overlaps in Ho. rewrite andb_true_iff, !Z.ltb_lt in Ho. lia.
    + intros [i j] Hu Hin. destruct (Hup_in i j Hu) as [Hiu [Hi [Hj Hle]]].
      apply in_app_or in Hin. destruct Hin as [Hd|Ho].
      * destruct (Hdown_in i j Hd) as [Hid [_ [_ Hle']]].
        pose proof (Hw1 i Hi) as Hwi. pose proof (Hw2 j Hj) as Hwj.
        destruct Hstrict as [Hlt|[Hlt|[Hig|Hig]]]; try congruence.
        -- pose proof (Forall2_nth _ _ _ 0 0 (Z.to_nat i) Hlt ltac:(lia)). lia.
        -- pose proof (Forall2_nth _ _ _ 0 0 (Z.to_nat j) Hlt ltac:(lia)). lia.
      * apply Hov_in in Ho. destruct Ho as [_ [_ [_ Ho]]].
        unfold overlaps in Ho. rewrite andb_true_iff, !Z.ltb_lt in Ho. lia.
Qed.

(** An empty interval of set 1 and an empty interval of set 2 at one point
    are an upstream and a downstream pair at once, and the pair comes back
    twice. *)
Lemma closest_intervals_point_twice :
  closest_intervals [5] [5] [5] [5] 2 None false false false
  = Ok [(0, 0); (0, 0)].
Proof. vm_compute. reflexivity. Qed.

(** Where coordinates are larger, the distances are not the exact ones.  The
    distance from the start 2^63 - 1 back to the end -2^63 + 1 wraps to -1 in
    int64, and the far pair sorts before the near one. *)
Lemma closest_intervals_distance_wraps :
  closest_intervals [int64_max] [int64_max]
    [int64_min; int64_max - 10] [int64_min + 1; int64_max - 5] 2 None
    false false false
  = Ok [(0, 0); (0, 1)]
  /\ distance [int64_max] [int64_max]
       [int64_min; int64_max - 10] [int64_min + 1; int64_max - 5] 0 1
     < distance [int64_max] [int64_max]
         [int64_min; int64_max - 10] [int64_min + 1; int64_max - 5] 0 0.
Proof. split; vm_compute; reflexivity. Qed.

(** The distances 2^53 + 1 and 2^53 are the same float64, the lower id in
    set 2 decides, and for [k = 1] the farther pair is kept. *)
Lemma closest_intervals_distance_rounds :
  closest_intervals [0] [1] [- 2 ^ 53 - 1; 2 ^ 53] [- 2 ^ 53; 2 ^ 53 + 1] 1 None
    false false false
  = Ok [(0, 0)]
  /\ distance [0] [1] [- 2 ^ 53 - 1; 2 ^ 53] [- 2 ^ 53; 2 ^ 53 + 1] 0 1
     < distance [0] [1] [- 2 ^ 53 - 1; 2 ^ 53] [- 2 ^ 53; 2 ^ 53 + 1] 0 0.
Proof. split; vm_compute; reflexivity. Qed.

(** X21.  [closest_intervals] without [tie_arr], on well-formed intervals
    with coordinates below 2^52 in size, where the distances neither wrap in
    int64 nor round in float64, and for [1 <= k] with [k + len(starts2)]
    within int64, returns the [k] nearest neighbours of every interval of
    set 1.  The pairs that may be reported are the overlapping, the upstream
    and the downstream ones, as far as not ignored; the distance of a pair is
    0 when the intervals overlap and one more than the gap between them
    otherwise.  When no pair may be reported the call raises IndexError.
    Otherwise every row returned is a pair that may be reported; the rows
    are in ascending order of id in set 1, then distance, then id in set 2;
    an interval has at most [k] rows; a pair that may be reported and is not
    returned belongs to an interval that has [k] rows, all at most as
    distant; and no pair is returned twice when one of the sets has no empty
    interval, or when the upstream or the downstream pairs are ignored. *)
Theorem closest_intervals_nearest
    (starts1 ends1 starts2 ends2 : list Z) (k : Z)
    (ignore_overlaps ignore_upstream ignore_downstream : bool) :
  Forall2 Z.le starts1 ends1 ->
  Forall2 Z.le starts2 ends2 ->
  exact_coordinates (starts1 ++ ends1 ++ starts2 ++ ends2) ->
  1 <= k <= int64_max - Z.of_nat (length starts2) ->
  let may_report := candidate starts1 ends1 starts2 ends2
                      ignore_overlaps ignore_upstream ignore_downstream in
  let dist := distance starts1 ends1 starts2 ends2 in
  let result := closest_intervals starts1 ends1 starts2 ends2 k None
                  ignore_overlaps ignore_upstream ignore_downstream in
  ((forall i j, ~ may_report i j) -> result = Raise IndexError)
  /\ ((exists i j, may_report i j) ->
      exists out,
        result = Ok out
        /\ (forall i j, In (i, j) out -> may_report i j)
        /\ StronglySorted
             (fun p q =>
                fst p < fst q
                \/ (fst p = fst q
                    /\ (dist (fst p) (snd p) < dist (fst q) (snd q)
                        \/ (dist (fst p) (snd p) = dist (fst q) (snd q)
                            /\ snd p <= snd q))))
             out
        /\ (forall i, Z.of_nat (length (rows_for i out)) <= k)
        /\ (forall i j',
              may_report i j' ->
              In (i, j') out
              \/ (Z.of_nat (length (rows_for i out)) = k
                  /\ forall j, In (i, j) out -> dist i j <= dist i j'))
        /\ (Forall2 Z.lt starts1 ends1 \/ Forall2 Z.lt starts2 ends2
            \/ ignore_upstream = true \/ ignore_downstream = true ->
            NoDup out)).
Proof.
  intros Hwf1 Hwf2 Hex [Hk _] may_report dist result.
  destruct (closest_intervals_rows starts1 ends1 starts2 ends2 k
              ignore_overlaps ignore_upstream ignore_downstream Hwf1 Hwf2 Hex Hk)
    as [ids [Hres [Hsound [Hcomplete Hnodup]]]].
  cbv zeta in Hres, Hcomplete.
  set (D := fun r : Z * Z => distance starts1 ends1 starts2 ends2 (fst r) (snd r)) in *.
  destruct (select_sorted_candidates D ids k Hk) as [Hempty Hsel].
  cbv zeta in Hempty, Hsel.
  unfold result. rewrite Hres. split.
  - intros Hnone. apply Hempty.
    destruct ids as [|[i j] ids]; [reflexivity|].
    exfalso. apply (Hnone i j), Hsound. left. reflexivity.
  - intros [i0 [j0 Hc0]].
    assert (Hne : ids <> []).
    { intros ->. destruct (Hcomplete i0 j0 Hc0) as [[]|Hc].
      simpl in Hc. lia. }
    destruct (Hsel Hne) as [out [Ho [Hin [Hnd [Hs [Hcount Hnear]]]]]].
    exists out. split; [exact Ho|].
    split; [intros i j Hij; apply Hsound, Hin, Hij|].
    split.
    { eapply StronglySorted_impl_in; [|exact Hs].
      intros a b _ _ Hab. unfold le_of in Hab. apply cand_leb_spec in Hab.
      cbn [fst snd] in Hab. exact Hab. }
    split; [exact Hcount|].
    split; [intros i j' Hc; apply (Hnear i j'), Hcomplete, Hc|].
    intros Hstrict. apply Hnd, Hnodup, Hstrict.
Qed.

Lemma closest_intervals_nearest_witness :
  Forall2 Z.le [10; 20] [12; 25]
  /\ Forall2 Z.le [0; 5; 30] [3; 9; 40]
  /\ exact_coordinates ([10; 20] ++ [12; 25] ++ [0; 5; 30] ++ [3; 9; 40])
  /\ 1 <= 1 <= int64_max - Z.of_nat (length [0; 5; 30])
  /\ candidate [10; 20] [12; 25] [0; 5; 30] [3; 9; 40] false false false 0 1
  /\ exists out,
       closest_intervals [10; 20] [12; 25] [0; 5; 30] [3; 9; 40] 1 None
         false false false = Ok out
       /\ (forall i, Z.of_nat (length (rows_for i out)) <= 1)
       /\ NoDup out.
Proof.
  assert (H1 : Forall2 Z.le [10; 20] [12; 25]) by (repeat constructor; lia).
  assert (H2 : Forall2 Z.le [0; 5; 30] [3; 9; 40]) by (repeat constructor; lia).
  assert (Hex : exact_coordinates ([10; 20] ++ [12; 25] ++ [0; 5; 30] ++ [3; 9; 40]))
    by (repeat constructor).
  assert (Hk : 1 <= 1 <= int64_max - Z.of_nat (length [0; 5; 30]))
    by (unfold int64_max; simpl length; lia).
  assert (Hlt : Forall2 Z.lt [10; 20] [12; 25]) by (repeat constructor).
  assert (Hc : candidate [10; 20] [12; 25] [0; 5; 30] [3; 9; 40]
                 false false false 0 1).
  { unfold candidate. simpl. split; [lia|]. split; [lia|].
    right. left. split; [reflexivity|lia]. }
  split; [exact H1|]. split; [exact H2|]. split; [exact Hex|].
  split; [exact Hk|]. split; [exact Hc|].
  destruct (proj2 (closest_intervals_nearest [10; 20] [12; 25] [0; 5; 30] [3; 9; 40]
                     1 false false false H1 H2 Hex Hk)
              (ex_intro _ 0 (ex_intro _ 1 Hc)))
    as [out [Ho [_ [_ [Hcount [_ Hnd]]]]]].
  exists out. split; [exact Ho|]. split; [exact Hcount|].
  apply Hnd. left. exact Hlt.
Defined.




(** ** Intervals of different clusters *)

Lemma is_border_mono (ends : list Z) (md : option Z) (s s' r r' : Z) :
  sums_in_int64 ends md -> In r ends -> In r' ends ->
  is_border md s r = true -> s <= s' -> r' <= r -> is_border md s' r' = true.
Proof.
  intros Hfit Hr Hr'. rewrite !(is_border_in_range ends) by assumption.
  destruct md; lia.
Qed.

Lemma separated_spans_far (ends : list Z) (md : option Z) (q : list (Z * Z))
    (x y : nat) :
  sums_in_int64 ends md ->
  Forall (fun p => In (snd p) ends) q ->
  separated_spans md q ->
  (x < y < length q)%nat ->
  is_border md (fst (nth y q (0, 0))) (snd (nth x q (0, 0))) = true.
Proof.
  intros Hfit Hq Hsep [Hxy Hy]. rewrite Forall_forall in Hq.
  induction Hxy as [|y Hxy IH].
  - apply (separated_spans_nth md q x Hsep Hy).
  - destruct (separated_spans_nth md q y Hsep Hy) as [Hs _].
    assert (Hx : In (snd (nth x q (0, 0))) ends) by (apply Hq, nth_In; lia).
    apply (is_border_mono ends md (fst (nth y q (0, 0))) _
             (snd (nth x q (0, 0))) _ Hfit Hx Hx);
      [apply IH; lia|exact Hs|lia].
Qed.

(** X23.  Where the ends, [min_dist] and every sum [end + min_dist] are
    int64 values, so that no sum wraps, intervals of different clusters are
    apart: when the id of the interval at sorted position [a] is below the id
    of the interval at sorted position [b], the second interval starts more
    than [min_dist] after the end of the first (at or after it, for
    [min_dist = None]). *)
Theorem merge_intervals_clusters_apart
    (starts ends : list Z) (min_dist : option Z) :
  length starts = length ends ->
  sums_in_int64 ends min_dist ->
  exists ids cstarts cends,
    merge_intervals starts ends min_dist = Ok (ids, cstarts, cends)
    /\ forall a b, (a < length starts)%nat -> (b < length starts)%nat ->
         nth a ids 0 < nth b ids 0 ->
         let first := nth a (sort_intervals starts ends) (0, 0) in
         let second := nth b (sort_intervals starts ends) (0, 0) in
         match min_dist with
         | Some d => fst second > snd first + d
         | None => fst second >= snd first
         end.
Proof.
  intros Hlen Hfit. rewrite (merge_intervals_sweep starts ends min_dist Hlen).
  pose proof (sort_intervals_sorted starts ends) as Hs.
  pose proof (sort_intervals_length starts ends Hlen) as Hn.
  pose proof (sweep_ends_in starts ends min_dist) as Hends.
  pose proof (fun x => sorted_ends_in starts ends x Hlen) as Hsorted_ends.
  set (sorted := sort_intervals starts ends) in *.
  do 3 eexists. split; [reflexivity|].
  intros a b Ha Hb Hlt. cbv zeta. rewrite <- Hn in Ha, Hb.
  pose proof (sweep_ids_member min_dist sorted a Hs Ha) as Hma.
  pose proof (sweep_ids_member min_dist sorted b Hs Hb) as Hmb.
  cbv zeta in Hma, Hmb.
  pose proof (sweep_ids_bounds min_dist sorted a Ha) as Hba.
  pose proof (sweep_ids_bounds min_dist sorted b Hb) as Hbb.
  pose proof (sweep_separated min_dist sorted Hs) as Hsep.
  pose proof (sweep_spans_length min_dist sorted) as Hl.
  set (ida := Z.to_nat (nth a (sweep_ids min_dist sorted) 0)) in *.
  set (idb := Z.to_nat (nth b (sweep_ids min_dist sorted) 0)) in *.
  assert (Hspans : Forall (fun p => In (snd p) ends)
                     (combine (sweep_starts min_dist sorted)
                        (sweep_ends min_dist sorted))).
  { apply Forall_forall. intros [cs ce] Hin. apply in_combine_r in Hin.
    apply (Hends ce Hlen Hin). }
  assert (Hfar := separated_spans_far ends min_dist _ ida idb Hfit Hspans Hsep).
  rewrite length_combine, <- Hl, Nat.min_id in Hfar.
  specialize (Hfar ltac:(lia)).
  rewrite !nth_pair, map_fst_combine, map_snd_combine in Hfar by exact Hl.
  cbn [fst snd] in Hfar.
  assert (Hce : In (nth ida (sweep_ends min_dist sorted) 0) ends)
    by (apply (Hends _ Hlen), nth_In; lia).
  assert (Hea : In (snd (nth a sorted (0, 0))) ends).
  { apply Hsorted_ends. apply in_map, nth_In, Ha. }
  apply (is_border_in_range ends min_dist _ _ Hfit Hea).
  apply (is_border_mono ends min_dist _ _ _ _ Hfit Hce Hea Hfar); lia.
Qed.

Lemma merge_intervals_clusters_apart_witness :
  length [10; 1; 3] = length [12; 5; 8]
  /\ sums_in_int64 [12; 5; 8] (Some 0)
  /\ exists ids cstarts cends,
       merge_intervals [10; 1; 3] [12; 5; 8] (Some 0) = Ok (ids, cstarts, cends)
       /\ ((1 < length [10; 1; 3])%nat -> (2 < length [10; 1; 3])%nat ->
           nth 1 ids 0 < nth 2 ids 0 ->
           fst (nth 2 (sort_intervals [10; 1; 3] [12; 5; 8]) (0, 0))
           > snd (nth 1 (sort_intervals [10; 1; 3] [12; 5; 8]) (0, 0)) + 0).
Proof.
  assert (Hfit : sums_in_int64 [12; 5; 8] (Some 0))
    by (repeat constructor; unfold int64_min, int64_max; lia).
  split; [reflexivity|]. split; [exact Hfit|].
  destruct (merge_intervals_clusters_apart [10; 1; 3] [12; 5; 8] (Some 0)
              eq_refl Hfit)
    as [ids [cs [ce [Hm H]]]].
  exists ids, cs, ce. split; [exact Hm | exact (H 1%nat 2%nat)].
Defined.

(** ** A larger [min_dist], and where the spans come from *)

Lemma sweep_coarser (md md' : option Z) (l : list (Z * Z)) :
  forall c c' r,
    (forall s r', r' = r \/ In r' (map snd l) ->
                  is_border md' s r' = true -> is_border md s r' = true) ->
    c' <= c ->
    Forall2 Z.le (ids_from md' c' r l) (ids_from md c r l)
    /\ (length (starts_from md' r l) <= length (starts_from md r l))%nat.
Proof.
  induction l as [|[s e] l IH]; intros c c' r Hb Hc.
  - split; [constructor|simpl; lia].
  - cbn [ids_from starts_from].
    assert (Hb' : forall s' r', r' = Z.max r e \/ In r' (map snd l) ->
                    is_border md' s' r' = true -> is_border md s' r' = true).
    { intros s' r' Hr'. apply Hb. cbn [map snd].
      destruct Hr' as [->|Hr']; [|right; right; exact Hr'].
      destruct (Z.max_spec r e) as [[_ ->]|[_ ->]];
        [right; left; reflexivity|left; reflexivity]. }
    destruct (is_border md' s r) eqn:E'.
    + rewrite (Hb s r (or_introl eq_refl) E').
      destruct (IH (c + 1) (c' + 1) (Z.max r e) Hb' ltac:(lia)) as [H1 H2].
      split; [constructor; [lia|exact H1]|simpl; lia].
    + destruct (is_border md s r).
      * destruct (IH (c + 1) c' (Z.max r e) Hb' ltac:(lia)) as [H1 H2].
        split; [constructor; [lia|exact H1]|simpl; lia].
      * destruct (IH c c' (Z.max r e) Hb' Hc) as [H1 H2].
        split; [constructor; [lia|exact H1]|exact H2].
Qed.

(** X24.  Where the ends, both values of [min_dist] and every sum
    [end + min_dist] are int64 values, so that no sum wraps, a larger
    [min_dist] merges at least as much: for [min_dist = d <= d'] (and for
    [None] against any [d' >= 0]) the call with [d'] returns at most as many
    spans, and gives every interval an id at most as large. *)
Theorem merge_intervals_min_dist_monotone
    (starts ends : list Z) (min_dist min_dist' : option Z) :
  length starts = length ends ->
  sums_in_int64 ends min_dist ->
  sums_in_int64 ends min_dist' ->
  match min_dist, min_dist' with
  | Some d, Some d' => d <= d'
  | None, Some d' => 0 <= d'
  | None, None => True
  | Some d, None => d < 0
  end ->
  exists ids cstarts cends ids' cstarts' cends',
    merge_intervals starts ends min_dist = Ok (ids, cstarts, cends)
    /\ merge_intervals starts ends min_dist' = Ok (ids', cstarts', cends')
    /\ (length cstarts' <= length cstarts)%nat
    /\ Forall2 Z.le ids' ids.
Proof.
  intros Hlen Hfit Hfit' Hmd. rewrite !merge_intervals_sweep by exact Hlen.
  do 6 eexists. split; [reflexivity|]. split; [reflexivity|].
  assert (Hb : forall s r, In r ends ->
                 is_border min_dist' s r = true -> is_border min_dist s r = true).
  { intros s r Hr.
    rewrite (is_border_in_range ends min_dist' s r Hfit' Hr).
    rewrite (is_border_in_range ends min_dist s r Hfit Hr).
    destruct min_dist, min_dist'; lia. }
  pose proof (fun x => sorted_ends_in starts ends x Hlen) as Hends.
  destruct (sort_intervals starts ends) as [|[s0 e0] l]; [split; [simpl; lia|constructor]|].
  cbn [sweep_ids sweep_starts]. cbn [map snd] in Hends.
  destruct (sweep_coarser min_dist min_dist' l 0 0 e0) as [H1 H2]; [|lia|].
  { intros s r Hr. apply Hb, Hends.
    destruct Hr as [->|Hr]; [left; reflexivity|right; exact Hr]. }
  split; [simpl; lia|]. constructor; [lia|exact H1].
Qed.

Lemma merge_intervals_min_dist_monotone_witness :
  length [1; 7; 20] = length [5; 9; 25]
  /\ sums_in_int64 [5; 9; 25] (Some 0)
  /\ sums_in_int64 [5; 9; 25] (Some 2)
  /\ 0 <= 2
  /\ exists ids cstarts cends ids' cstarts' cends',
       merge_intervals [1; 7; 20] [5; 9; 25] (Some 0) = Ok (ids, cstarts, cends)
       /\ merge_intervals [1; 7; 20] [5; 9; 25] (Some 2) = Ok (ids', cstarts', cends')
       /\ (length cstarts' <= length cstarts)%nat.
Proof.
  assert (Hd : 0 <= 2) by lia.
  assert (Hfit : sums_in_int64 [5; 9; 25] (Some 0))
    by (repeat constructor; unfold int64_min, int64_max; lia).
  assert (Hfit' : sums_in_int64 [5; 9; 25] (Some 2))
    by (repeat constructor; unfold int64_min, int64_max; lia).
  split; [reflexivity|]. split; [exact Hfit|]. split; [exact Hfit'|].
  split; [exact Hd|].
  destruct (merge_intervals_min_dist_monotone [1; 7; 20] [5; 9; 25]
              (Some 0) (Some 2) eq_refl Hfit Hfit' Hd)
    as [ids [cs [ce [ids' [cs' [ce' [Hm [Hm' [Hl _]]]]]]]]].
  exists ids, cs, ce, ids', cs', ce'.
  split; [exact Hm|]. split; [exact Hm' | exact Hl].
Defined.

(** X25.  [merge_intervals] takes the coordinates of its spans from the
    input: every cluster start is the start of an interval and every
    cluster end is the end of an interval. *)
Theorem merge_intervals_spans_from_input
    (starts ends : list Z) (min_dist : option Z) :
  length starts = length ends ->
  exists ids cstarts cends,
    merge_intervals starts ends min_dist = Ok (ids, cstarts, cends)
    /\ (forall x, In x cstarts -> In x starts)
    /\ (forall x, In x cends -> In x ends).
Proof.
  intros Hlen. rewrite (merge_intervals_sweep starts ends min_dist Hlen).
  pose proof (sort_intervals_perm starts ends) as Hp.
  assert (Hs : forall x, In x (map fst (sort_intervals starts ends)) -> In x starts).
  { intros x Hx. rewrite <- (map_fst_combine starts ends Hlen).
    eapply Permutation_in; [apply Permutation_map, Hp|exact Hx]. }
  assert (He : forall x, In x (map snd (sort_intervals starts ends)) -> In x ends).
  { intros x Hx. rewrite <- (map_snd_combine starts ends Hlen).
    eapply Permutation_in; [apply Permutation_map, Hp|exact Hx]. }
  do 3 eexists. split; [reflexivity|].
  destruct (sort_intervals starts ends) as [|[s0 e0] l];
    [split; intros x []|].
  cbn [sweep_starts sweep_ends]. cbn [map fst snd] in Hs, He.
  split.
  - intros x [<-|Hx]; apply Hs; [left; reflexivity|].
    right. eapply starts_from_incl, Hx.
  - intros x Hx. apply He.
    destruct (ends_from_incl _ _ _ _ Hx) as [->|H]; [left; reflexivity|right; exact H].
Qed.

Lemma merge_intervals_spans_from_input_witness :
  length [10; 1; 3] = length [12; 5; 8]
  /\ exists ids cstarts cends,
       merge_intervals [10; 1; 3] [12; 5; 8] (Some 0) = Ok (ids, cstarts, cends)
       /\ (forall x, In x cstarts -> In x [10; 1; 3]).
Proof.
  split; [reflexivity|].
  destruct (merge_intervals_spans_from_input [10; 1; 3] [12; 5; 8] (Some 0) eq_refl)
    as [ids [cs [ce [Hm [Hs _]]]]].
  exists ids, cs, ce. split; [exact Hm | exact Hs].
Defined.
